(** * algorithms-engine: graph, containers and the four searches

    A shallow embedding of [src/data_structures] (priority queue, queue,
    stack, graph) and of [src/algorithms] (BFS, DFS, Dijkstra, A-star),
    followed by the properties of the specification that are stated
    about them.

    Conventions of the embedding.
    - Numbers.  Edge weights are the exact integers the tests pass to
      [add_edge] (Python [int], arbitrary precision); [float('inf')] is
      the extra point [Inf].  A heuristic returns an [int], except
      [zero_heuristic], which returns the float [0.0]: adding it to an
      [int] score converts the score to a double, and this rounding is
      modelled ([float_of_int], [astar_number]).  No other rounding of
      binary floating point is part of the model.
    - Exceptions.  A method that can raise returns an [outcome]; [Raise
      IndexError] and [Raise KeyError] are the two exceptions the
      sources raise themselves ([list]/container underflow, [dict[key]]
      on a missing key), [Raise OverflowError] is Python's when an
      [int] beyond the doubles is converted to a float.
    - Loops.  Every [while] loop is a [Fixpoint] over a fuel counter that
      bounds the number of iterations; [OutOfFuel] is the model's answer
      when the counter is exhausted, and the termination theorems show
      that it is never the answer once the counter is large enough.
    - References.  A [GraphNode] object is owned by the table
      [Graph.nodes] and compared and hashed by its [value]; a reference to
      a node is therefore represented by the node's value and resolved
      through the table. *)

From stdpp Require Import gmap list sorting.
From Stdlib Require Import ZArith Lia ZifyNat.

Local Open Scope Z_scope.

(** [lia] is used on the index arithmetic of the heap ([//] by 2). *)
Ltac Zify.zify_post_hook ::= Z.to_euclidean_division_equations.

(** ** Numbers with [float('inf')] *)

Inductive ext : Type :=
| Fin (z : Z)
| Inf.

Definition ext_add (a b : ext) : ext :=
  match a, b with
  | Fin x, Fin y => Fin (x + y)
  | _, _ => Inf
  end.

(** [a < b] of the sources, on numbers extended by [Inf]. *)
Definition ext_ltb (a b : ext) : bool :=
  match a, b with
  | Fin x, Fin y => x <? y
  | Fin _, Inf => true
  | Inf, _ => false
  end.

Definition ext_le (a b : ext) : Prop := ext_ltb b a = false.

Global Instance ext_eq_dec : EqDecision ext.
Proof. solve_decision. Defined.

(** ** Exceptions and outcomes *)

Inductive exc : Type := IndexError | KeyError | OverflowError.

Inductive outcome (A : Type) : Type :=
| Ok (a : A)
| Raise (e : exc)
| OutOfFuel.
Global Arguments Ok {A} a.
Global Arguments Raise {A} e.
Global Arguments OutOfFuel {A}.

Global Instance outcome_ret : MRet outcome := fun _ a => Ok a.
Global Instance outcome_bind : MBind outcome := fun _ _ f m =>
  match m with
  | Ok a => f a
  | Raise e => Raise e
  | OutOfFuel => OutOfFuel
  end.

(** [for x in l: s = body(s, x)] with exceptions propagated. *)
Fixpoint for_each {S A : Type} (body : S -> A -> outcome S) (l : list A) (s : S)
  : outcome S :=
  match l with
  | [] => Ok s
  | x :: l' => s' ← body s x; for_each body l' s'
  end.

(** [d[k]]: raises [KeyError] on a missing key. *)
Definition getitem `{Countable K} {B : Type} (d : gmap K B) (k : K) : outcome B :=
  match d !! k with
  | Some b => Ok b
  | None => Raise KeyError
  end.

(** ** An [int] converted to a [float]

    Python converts an [int] to the nearest double: 53 significant bits,
    a tie goes to the even neighbour.  A double that comes from an [int]
    holds an integer, which represents it here. *)
Definition round53 (z : Z) : Z :=
  let a := Z.abs z in
  let e := Z.log2 a - 52 in
  if e <=? 0 then z
  else
    let q := a / 2 ^ e in
    let r := a mod 2 ^ e in
    let half := 2 ^ (e - 1) in
    let q' := if (half <? r) || ((r =? half) && Z.odd q) then q + 1 else q in
    Z.sgn z * (q' * 2 ^ e).

(** The conversion raises [OverflowError] when the nearest double would
    be beyond the largest one. *)
Definition float_of_int (z : Z) : outcome Z :=
  let k := round53 z in
  if 2 ^ 1024 <=? Z.abs k then Raise OverflowError else Ok k.

(** What a heuristic returns: a Python [int], or the float [0.0]. *)
Inductive number : Type :=
| Int (z : Z)
| FloatZero.

(** The number as a priority. *)
Definition number_value (x : number) : ext :=
  match x with
  | Int z => Fin z
  | FloatZero => Fin 0
  end.

(** [g + x] for a score [g], which is an [int] or [float('inf')]: exact
    between two [int]s; with the float [0.0] the score is converted to a
    float first, and adding [0.0] leaves that float as it is. *)
Definition add_number (g : ext) (x : number) : outcome ext :=
  match x, g with
  | Int z, _ => Ok (ext_add g (Fin z))
  | FloatZero, Fin c => k ← float_of_int c; Ok (Fin k)
  | FloatZero, Inf => Ok Inf
  end.

(** ** data_structures/priority_queue.py *)

Module PriorityQueue.
Section defs.
Context {A : Type}.

(** [_heap] is the Python list of [(priority, value)] tuples. *)
Record t : Type := mk { _heap : list (ext * A); _size : nat }.

Definition empty : t := {| _heap := []; _size := 0 |}.

Definition is_empty (q : t) : bool := Nat.eqb (_size q) 0.

Definition size (q : t) : nat := _size q.

(** [heap[i][0]]; the sources read it only below [_size]. *)
Definition prio (h : list (ext * A)) (i : nat) : ext :=
  match h !! i with
  | Some x => fst x
  | None => Inf
  end.

(** [heap[i], heap[j] = heap[j], heap[i]] *)
Definition swap (h : list (ext * A)) (i j : nat) : list (ext * A) :=
  match h !! i, h !! j with
  | Some x, Some y => <[i:=y]> (<[j:=x]> h)
  | _, _ => h
  end.

(** [_heapify_up].  [parent = (index - 1) // 2] is read only when
    [index > 0], where it agrees with the truncated subtraction of
    [nat].  The recursion is on a counter that starts above [index];
    the index strictly decreases at every call, so the counter never
    reaches [0] first. *)
Fixpoint heapify_up_fuel (fuel : nat) (h : list (ext * A)) (index : nat)
  : list (ext * A) :=
  match fuel with
  | O => h
  | S fuel' =>
    let parent := ((index - 1) / 2)%nat in
    if (0 <? index)%nat && ext_ltb (prio h index) (prio h parent)
    then heapify_up_fuel fuel' (swap h index parent) parent
    else h
  end.

Definition _heapify_up (h : list (ext * A)) (index : nat) : list (ext * A) :=
  heapify_up_fuel (S index) h index.

(** [_heapify_down].  The counter starts at [_size]; the index strictly
    increases and stays below [_size] at every call. *)
Fixpoint heapify_down_fuel (fuel : nat) (h : list (ext * A)) (sz index : nat)
  : list (ext * A) :=
  match fuel with
  | O => h
  | S fuel' =>
    let smallest := index in
    let left := (2 * index + 1)%nat in
    let right := (2 * index + 2)%nat in
    let smallest :=
      if (left <? sz)%nat && ext_ltb (prio h left) (prio h smallest)
      then left else smallest in
    let smallest :=
      if (right <? sz)%nat && ext_ltb (prio h right) (prio h smallest)
      then right else smallest in
    if negb (Nat.eqb smallest index)
    then heapify_down_fuel fuel' (swap h index smallest) sz smallest
    else h
  end.

Definition _heapify_down (h : list (ext * A)) (sz index : nat) : list (ext * A) :=
  heapify_down_fuel sz h sz index.

Definition insert (q : t) (value : A) (priority : ext) : t :=
  let heap := _heap q ++ [(priority, value)] in
  let sz := S (_size q) in
  {| _heap := _heapify_up heap (sz - 1); _size := sz |}.

(** [self._heap[0]] and [self._heap[self._size - 1]] raise [IndexError]
    themselves when out of range. *)
Definition extract_min (q : t) : outcome ((ext * A) * t) :=
  if is_empty q then Raise IndexError
  else
    match _heap q !! 0%nat, _heap q !! (_size q - 1)%nat with
    | Some min_item, Some last =>
      let heap := removelast (<[0%nat:=last]> (_heap q)) in
      let sz := (_size q - 1)%nat in
      let heap := if Nat.eqb sz 0 then heap else _heapify_down heap sz 0 in
      Ok (min_item, {| _heap := heap; _size := sz |})
    | _, _ => Raise IndexError
    end.

Definition peek_min (q : t) : outcome (ext * A) :=
  if is_empty q then Raise IndexError
  else
    match _heap q !! 0%nat with
    | Some x => Ok x
    | None => Raise IndexError
    end.
End defs.
Global Arguments t : clear implicits.
Global Arguments insert : simpl never.
Global Arguments extract_min : simpl never.
Global Arguments _heapify_up : simpl never.
Global Arguments _heapify_down : simpl never.
End PriorityQueue.

(** ** data_structures/queue.py

    The chain of [_Node] cells reachable from [_front] through [next] is
    a list, front first; [_rear] is its last cell. *)

Module Queue.
Section defs.
Context {A : Type}.

Record t : Type := mk { _front : list A; _size : nat }.

Definition empty : t := {| _front := []; _size := 0 |}.

(** [self._front is None] *)
Definition is_empty (q : t) : bool :=
  match _front q with
  | [] => true
  | _ :: _ => false
  end.

Definition size (q : t) : nat := _size q.

Definition enqueue (q : t) (value : A) : t :=
  {| _front := _front q ++ [value]; _size := S (_size q) |}.

Definition dequeue (q : t) : outcome (A * t) :=
  match _front q with
  | [] => Raise IndexError
  | value :: next => Ok (value, {| _front := next; _size := (_size q - 1)%nat |})
  end.

Definition peek (q : t) : outcome A :=
  match _front q with
  | [] => Raise IndexError
  | value :: _ => Ok value
  end.
End defs.
Global Arguments t : clear implicits.
End Queue.

(** ** data_structures/stack.py *)

Module Stack.
Section defs.
Context {A : Type}.

Record t : Type := mk { _top : list A; _size : nat }.

Definition empty : t := {| _top := []; _size := 0 |}.

Definition is_empty (s : t) : bool :=
  match _top s with
  | [] => true
  | _ :: _ => false
  end.

Definition size (s : t) : nat := _size s.

Definition push (s : t) (value : A) : t :=
  {| _top := value :: _top s; _size := S (_size s) |}.

Definition pop (s : t) : outcome (A * t) :=
  match _top s with
  | [] => Raise IndexError
  | value :: next => Ok (value, {| _top := next; _size := (_size s - 1)%nat |})
  end.

Definition peek (s : t) : outcome A :=
  match _top s with
  | [] => Raise IndexError
  | value :: _ => Ok value
  end.
End defs.
Global Arguments t : clear implicits.
End Stack.

(** ** data_structures/graph.py *)

Module GraphNode.
Section defs.
Context `{EqDecision V}.

(** [neighbors] is the dict [neighbor -> weight] in insertion order;
    its keys are node references, kept here as node values. *)
Record t : Type := mk { value : V; neighbors : list (V * Z) }.

(** [d[k] = w] on an insertion-ordered dict: an existing key keeps its
    place, a new key goes to the end. *)
Fixpoint setitem (d : list (V * Z)) (k : V) (w : Z) : list (V * Z) :=
  match d with
  | [] => [(k, w)]
  | (k', w') :: d' =>
    if decide (k' = k) then (k', w) :: d' else (k', w') :: setitem d' k w
  end.

Fixpoint get (d : list (V * Z)) (k : V) : option Z :=
  match d with
  | [] => None
  | (k', w') :: d' => if decide (k' = k) then Some w' else get d' k
  end.

Definition add_neighbor (n : t) (neighbor : V) (weight : Z) : t :=
  {| value := value n; neighbors := setitem (neighbors n) neighbor weight |}.

Definition get_neighbors (n : t) : list V := map fst (neighbors n).

Definition get_weight (n : t) (neighbor : V) : ext :=
  match get (neighbors n) neighbor with
  | Some w => Fin w
  | None => Inf
  end.
End defs.
Global Arguments t : clear implicits.
End GraphNode.

Module Graph.
Section defs.
Context `{EqDecision V}.

(** [nodes] is the dict [value -> GraphNode] in insertion order. *)
Record t : Type := mk { directed : bool; nodes : list (GraphNode.t V) }.

Definition empty (directed : bool) : t := {| directed := directed; nodes := [] |}.

Definition get_node (g : t) (v : V) : option (GraphNode.t V) :=
  List.find (fun n => bool_decide (GraphNode.value n = v)) (nodes g).

Definition add_node (g : t) (v : V) : t :=
  match get_node g v with
  | Some _ => g
  | None =>
    {| directed := directed g;
       nodes := nodes g ++ [ {| GraphNode.value := v; GraphNode.neighbors := [] |} ] |}
  end.

(** In-place update of the node object stored under [v]. *)
Fixpoint update_node (ns : list (GraphNode.t V)) (v : V)
    (f : GraphNode.t V -> GraphNode.t V) : list (GraphNode.t V) :=
  match ns with
  | [] => []
  | n :: ns' =>
    if decide (GraphNode.value n = v) then f n :: ns' else n :: update_node ns' v f
  end.

Definition add_edge (g : t) (from_value to_value : V) (weight : Z) : t :=
  let g := add_node g from_value in
  let g := add_node g to_value in
  let ns := update_node (nodes g) from_value
              (fun n => GraphNode.add_neighbor n to_value weight) in
  let ns := if directed g then ns
            else update_node ns to_value
                   (fun n => GraphNode.add_neighbor n from_value weight) in
  {| directed := directed g; nodes := ns |}.

Definition get_all_nodes (g : t) : list V := map GraphNode.value (nodes g).

Definition get_neighbors (g : t) (v : V) : list V :=
  match get_node g v with
  | Some n => GraphNode.get_neighbors n
  | None => []
  end.

Definition get_edge_weight (g : t) (from_value to_value : V) : ext :=
  match get_node g from_value, get_node g to_value with
  | Some from_node, Some to_node =>
    GraphNode.get_weight from_node (GraphNode.value to_node)
  | _, _ => Inf
  end.

(** The node object behind a reference.  Every reference held by a
    search comes out of the table or out of a [neighbors] dict of the
    table, hence resolves (see [wf]). *)
Definition deref (g : t) (v : V) : GraphNode.t V :=
  default {| GraphNode.value := v; GraphNode.neighbors := [] |} (get_node g v).

(** The shape every graph built through [add_node] and [add_edge] has:
    one node object per value, one weight per neighbour, and every
    neighbour is itself in the table. *)
Definition wf (g : t) : Prop :=
  NoDup (get_all_nodes g) /\
  Forall (fun n => NoDup (GraphNode.get_neighbors n) /\
                   Forall (fun v => v ∈ get_all_nodes g) (GraphNode.get_neighbors n))
         (nodes g).

Global Instance wf_dec g : Decision (wf g).
Proof. unfold wf. apply _. Defined.

(** Calls of the construction interface. *)
Inductive op : Type :=
| AddNode (v : V)
| AddEdge (u v : V) (w : Z).

Definition apply_op (g : t) (o : op) : t :=
  match o with
  | AddNode v => add_node g v
  | AddEdge u v w => add_edge g u v w
  end.

Definition build (directed : bool) (ops : list op) : t :=
  fold_left apply_op ops (empty directed).
End defs.
Global Arguments t : clear implicits.
Global Arguments op : clear implicits.
End Graph.

(** ** algorithms: the uniform result record

    The Python functions return a dict; [cost] is [None] for BFS and DFS,
    whose dict has no such key. *)

Record Result (V : Type) : Type := mkResult {
  found : bool;
  path : list V;
  cost : option ext;
  visited : list V;
  nodes_explored : nat
}.
Global Arguments mkResult {V}.
Global Arguments found {V}.
Global Arguments path {V}.
Global Arguments cost {V}.
Global Arguments visited {V}.
Global Arguments nodes_explored {V}.

Section algorithms.
Context `{Countable V}.

Local Abbreviation graph := (Graph.t V).

(** *** Path reconstruction

    [while node is not None: path.append(node.value); node = ...]
    followed by [path.reverse()].  BFS and DFS step with
    [parent[node]], Dijkstra and A-star with [parent.get(node)]. *)

Fixpoint walk_getitem (fuel : nat) (parent : gmap V (option V)) (node : option V)
    (path : list V) : outcome (list V) :=
  match node with
  | None => Ok path
  | Some n =>
    match fuel with
    | O => OutOfFuel
    | S fuel' =>
      next ← getitem parent n;
      walk_getitem fuel' parent next (path ++ [n])
    end
  end.

Fixpoint walk_get (fuel : nat) (parent : gmap V (option V)) (node : option V)
    (path : list V) : outcome (list V) :=
  match node with
  | None => Ok path
  | Some n =>
    match fuel with
    | O => OutOfFuel
    | S fuel' =>
      walk_get fuel' parent (default None (parent !! n)) (path ++ [n])
    end
  end.

(** *** algorithms/bfs.py *)

Record bfs_state : Type := mkBfs {
  b_queue : Queue.t V;
  b_visited : gset V;
  b_parent : gmap V (option V);
  b_visited_order : list V
}.

(** Body of [for neighbor in current.get_neighbors()]. *)
Definition bfs_neighbor (current : V) (st : bfs_state) (neighbor : V)
  : outcome bfs_state :=
  if decide (neighbor ∉ b_visited st) then
    Ok {| b_visited := {[neighbor]} ∪ b_visited st;
          b_parent := <[neighbor := Some current]> (b_parent st);
          b_queue := Queue.enqueue (b_queue st) neighbor;
          b_visited_order := b_visited_order st ++ [neighbor] |}
  else Ok st.

Fixpoint bfs_loop (fuel : nat) (g : graph) (goal : V) (st : bfs_state)
  : outcome (Result V) :=
  match fuel with
  | O => OutOfFuel
  | S fuel' =>
    if Queue.is_empty (b_queue st) then
      Ok {| found := false; path := []; cost := None;
            visited := b_visited_order st;
            nodes_explored := size (b_visited st) |}
    else
      '(current, queue) ← Queue.dequeue (b_queue st);
      if decide (current = goal) then
        p ← walk_getitem fuel' (b_parent st) (Some goal) [];
        Ok {| found := true; path := reverse p; cost := None;
              visited := b_visited_order st;
              nodes_explored := size (b_visited st) |}
      else
        st' ← for_each (bfs_neighbor current)
                (GraphNode.get_neighbors (Graph.deref g current))
                {| b_queue := queue; b_visited := b_visited st;
                   b_parent := b_parent st;
                   b_visited_order := b_visited_order st |};
        bfs_loop fuel' g goal st'
  end.

Definition breadth_first_search (fuel : nat) (g : graph) (start_value goal_value : V)
  : outcome (Result V) :=
  match Graph.get_node g start_value, Graph.get_node g goal_value with
  | Some start_node, Some goal_node =>
    let start := GraphNode.value start_node in
    let goal := GraphNode.value goal_node in
    bfs_loop fuel g goal
      {| b_queue := Queue.enqueue Queue.empty start;
         b_visited := {[start]};
         b_parent := {[start := None]};
         b_visited_order := [start_value] |}
  | _, _ =>
    Ok {| found := false; path := []; cost := None; visited := [];
          nodes_explored := 0 |}
  end.


(** *** algorithms/dfs.py *)

Record dfs_state : Type := mkDfs {
  d_stack : Stack.t V;
  d_visited : gset V;
  d_parent : gmap V (option V);
  d_visited_order : list V
}.

(** Body of [for neighbor in reversed(neighbors)]. *)
Definition dfs_neighbor (current : V) (st : dfs_state) (neighbor : V)
  : outcome dfs_state :=
  if decide (neighbor ∉ d_visited st) then
    Ok {| d_parent := match d_parent st !! neighbor with
                      | None => <[neighbor := Some current]> (d_parent st)
                      | Some _ => d_parent st
                      end;
          d_stack := Stack.push (d_stack st) neighbor;
          d_visited := d_visited st;
          d_visited_order := d_visited_order st |}
  else Ok st.

Fixpoint dfs_loop (fuel : nat) (g : graph) (goal : V) (st : dfs_state)
  : outcome (Result V) :=
  match fuel with
  | O => OutOfFuel
  | S fuel' =>
    if Stack.is_empty (d_stack st) then
      Ok {| found := false; path := []; cost := None;
            visited := d_visited_order st;
            nodes_explored := size (d_visited st) |}
    else
      '(current, stack) ← Stack.pop (d_stack st);
      if decide (current ∈ d_visited st) then
        dfs_loop fuel' g goal
          {| d_stack := stack; d_visited := d_visited st;
             d_parent := d_parent st; d_visited_order := d_visited_order st |}
      else
        let visited := {[current]} ∪ d_visited st in
        let visited_order := d_visited_order st ++ [current] in
        if decide (current = goal) then
          p ← walk_getitem fuel' (d_parent st) (Some goal) [];
          Ok {| found := true; path := reverse p; cost := None;
                visited := visited_order;
                nodes_explored := size visited |}
        else
          st' ← for_each (dfs_neighbor current)
                  (reverse (GraphNode.get_neighbors (Graph.deref g current)))
                  {| d_stack := stack; d_visited := visited;
                     d_parent := d_parent st;
                     d_visited_order := visited_order |};
          dfs_loop fuel' g goal st'
  end.

Definition depth_first_search (fuel : nat) (g : graph) (start_value goal_value : V)
  : outcome (Result V) :=
  match Graph.get_node g start_value, Graph.get_node g goal_value with
  | Some start_node, Some goal_node =>
    let start := GraphNode.value start_node in
    let goal := GraphNode.value goal_node in
    dfs_loop fuel g goal
      {| d_stack := Stack.push Stack.empty start;
         d_visited := ∅;
         d_parent := {[start := None]};
         d_visited_order := [] |}
  | _, _ =>
    Ok {| found := false; path := []; cost := None; visited := [];
          nodes_explored := 0 |}
  end.


(** *** algorithms/dijkstra.py *)

Record dijkstra_state : Type := mkDijkstra {
  k_pq : PriorityQueue.t V;
  k_visited : gset V;
  k_distance : gmap V ext;
  k_parent : gmap V (option V);
  k_visited_order : list V
}.

(** [{node: float('inf') for node in graph.get_all_nodes()}] *)
Definition all_inf (g : graph) : gmap V ext :=
  list_to_map (map (fun v => (v, Inf)) (Graph.get_all_nodes g)).

(** Body of [for neighbor in current.get_neighbors()]. *)
Definition dijkstra_neighbor (g : graph) (current : V) (st : dijkstra_state)
    (neighbor : V) : outcome dijkstra_state :=
  if decide (neighbor ∈ k_visited st) then Ok st
  else
    let edge_weight := GraphNode.get_weight (Graph.deref g current) neighbor in
    d_current ← getitem (k_distance st) current;
    let new_distance := ext_add d_current edge_weight in
    d_neighbor ← getitem (k_distance st) neighbor;
    if ext_ltb new_distance d_neighbor then
      Ok {| k_distance := <[neighbor := new_distance]> (k_distance st);
            k_parent := <[neighbor := Some current]> (k_parent st);
            k_pq := PriorityQueue.insert (k_pq st) neighbor new_distance;
            k_visited := k_visited st;
            k_visited_order := k_visited_order st |}
    else Ok st.

Fixpoint dijkstra_loop (fuel : nat) (g : graph) (goal : V) (st : dijkstra_state)
  : outcome (Result V) :=
  match fuel with
  | O => OutOfFuel
  | S fuel' =>
    if PriorityQueue.is_empty (k_pq st) then
      Ok {| found := false; path := []; cost := Some Inf;
            visited := k_visited_order st;
            nodes_explored := size (k_visited st) |}
    else
      '((current_dist, current), pq) ← PriorityQueue.extract_min (k_pq st);
      if decide (current ∈ k_visited st) then
        dijkstra_loop fuel' g goal
          {| k_pq := pq; k_visited := k_visited st;
             k_distance := k_distance st; k_parent := k_parent st;
             k_visited_order := k_visited_order st |}
      else
        let visited := {[current]} ∪ k_visited st in
        let visited_order := k_visited_order st ++ [current] in
        if decide (current = goal) then
          p ← walk_get fuel' (k_parent st) (Some goal) [];
          c ← getitem (k_distance st) goal;
          Ok {| found := true; path := reverse p; cost := Some c;
                visited := visited_order;
                nodes_explored := size visited |}
        else
          st' ← for_each (dijkstra_neighbor g current)
                  (GraphNode.get_neighbors (Graph.deref g current))
                  {| k_pq := pq; k_visited := visited;
                     k_distance := k_distance st; k_parent := k_parent st;
                     k_visited_order := visited_order |};
          dijkstra_loop fuel' g goal st'
  end.

Definition dijkstra (fuel : nat) (g : graph) (start_value goal_value : V)
  : outcome (Result V) :=
  match Graph.get_node g start_value, Graph.get_node g goal_value with
  | Some start_node, Some goal_node =>
    let start := GraphNode.value start_node in
    let goal := GraphNode.value goal_node in
    dijkstra_loop fuel g goal
      {| k_pq := PriorityQueue.insert PriorityQueue.empty start (Fin 0);
         k_visited := ∅;
         k_distance := <[start := Fin 0]> (all_inf g);
         k_parent := {[start := None]};
         k_visited_order := [] |}
  | _, _ =>
    Ok {| found := false; path := []; cost := Some Inf; visited := [];
          nodes_explored := 0 |}
  end.


(** *** algorithms/astar.py

    The heuristic is a total function to the integers, called as
    [heuristic(node_value, goal_value)]. *)

Record astar_state : Type := mkAstar {
  a_pq : PriorityQueue.t V;
  a_visited : gset V;
  a_g_score : gmap V ext;
  a_f_score : gmap V ext;
  a_parent : gmap V (option V);
  a_visited_order : list V
}.

Definition astar_neighbor (g : graph) (heuristic : V -> V -> Z) (goal_value : V)
    (current : V) (st : astar_state) (neighbor : V) : outcome astar_state :=
  if decide (neighbor ∈ a_visited st) then Ok st
  else
    g_current ← getitem (a_g_score st) current;
    let tentative_g_score :=
      ext_add g_current (GraphNode.get_weight (Graph.deref g current) neighbor) in
    g_neighbor ← getitem (a_g_score st) neighbor;
    if ext_ltb tentative_g_score g_neighbor then
      let g_score := <[neighbor := tentative_g_score]> (a_g_score st) in
      g_new ← getitem g_score neighbor;
      let f_score :=
        <[neighbor := ext_add g_new (Fin (heuristic neighbor goal_value))]>
          (a_f_score st) in
      f_new ← getitem f_score neighbor;
      Ok {| a_parent := <[neighbor := Some current]> (a_parent st);
            a_g_score := g_score;
            a_f_score := f_score;
            a_pq := PriorityQueue.insert (a_pq st) neighbor f_new;
            a_visited := a_visited st;
            a_visited_order := a_visited_order st |}
    else Ok st.

Fixpoint astar_loop (fuel : nat) (g : graph) (heuristic : V -> V -> Z)
    (goal goal_value : V) (st : astar_state) : outcome (Result V) :=
  match fuel with
  | O => OutOfFuel
  | S fuel' =>
    if PriorityQueue.is_empty (a_pq st) then
      Ok {| found := false; path := []; cost := Some Inf;
            visited := a_visited_order st;
            nodes_explored := size (a_visited st) |}
    else
      '((current_f, current), pq) ← PriorityQueue.extract_min (a_pq st);
      if decide (current ∈ a_visited st) then
        astar_loop fuel' g heuristic goal goal_value
          {| a_pq := pq; a_visited := a_visited st;
             a_g_score := a_g_score st; a_f_score := a_f_score st;
             a_parent := a_parent st;
             a_visited_order := a_visited_order st |}
      else
        let visited := {[current]} ∪ a_visited st in
        let visited_order := a_visited_order st ++ [current] in
        if decide (current = goal) then
          p ← walk_get fuel' (a_parent st) (Some goal) [];
          c ← getitem (a_g_score st) goal;
          Ok {| found := true; path := reverse p; cost := Some c;
                visited := visited_order;
                nodes_explored := size visited |}
        else
          st' ← for_each (astar_neighbor g heuristic goal_value current)
                  (GraphNode.get_neighbors (Graph.deref g current))
                  {| a_pq := pq; a_visited := visited;
                     a_g_score := a_g_score st; a_f_score := a_f_score st;
                     a_parent := a_parent st;
                     a_visited_order := visited_order |};
          astar_loop fuel' g heuristic goal goal_value st'
  end.

Definition astar (fuel : nat) (g : graph) (start_value goal_value : V)
    (heuristic : V -> V -> Z) : outcome (Result V) :=
  match Graph.get_node g start_value, Graph.get_node g goal_value with
  | Some start_node, Some goal_node =>
    let start := GraphNode.value start_node in
    let goal := GraphNode.value goal_node in
    let g_score := <[start := Fin 0]> (all_inf g) in
    let f_score := <[start := Fin (heuristic start_value goal_value)]> (all_inf g) in
    f_start ← getitem f_score start;
    astar_loop fuel g heuristic goal goal_value
      {| a_pq := PriorityQueue.insert PriorityQueue.empty start f_start;
         a_visited := ∅;
         a_g_score := g_score;
         a_f_score := f_score;
         a_parent := {[start := None]};
         a_visited_order := [] |}
  | _, _ =>
    Ok {| found := false; path := []; cost := Some Inf; visited := [];
          nodes_explored := 0 |}
  end.


(** The heuristic that is the [int] 0 everywhere.  It is not one of the
    sources; with it [astar] is [dijkstra] step by step, which the
    proofs use. *)
Definition zero_estimate (node1 node2 : V) : Z := 0.

(** *** [astar] with a heuristic that returns a number

    [astar] above takes a heuristic that returns [int]s.  The same
    function, line by line, for a heuristic that returns an [int] or
    the float [0.0]: only line 98, [g_score[neighbor] + heuristic(...)],
    and the key of the start node differ. *)
Definition astar_number_neighbor (g : graph) (heuristic : V -> V -> number)
    (goal_value : V) (current : V) (st : astar_state) (neighbor : V)
  : outcome astar_state :=
  if decide (neighbor ∈ a_visited st) then Ok st
  else
    g_current ← getitem (a_g_score st) current;
    let tentative_g_score :=
      ext_add g_current (GraphNode.get_weight (Graph.deref g current) neighbor) in
    g_neighbor ← getitem (a_g_score st) neighbor;
    if ext_ltb tentative_g_score g_neighbor then
      let g_score := <[neighbor := tentative_g_score]> (a_g_score st) in
      g_new ← getitem g_score neighbor;
      f ← add_number g_new (heuristic neighbor goal_value);
      let f_score := <[neighbor := f]> (a_f_score st) in
      f_new ← getitem f_score neighbor;
      Ok {| a_parent := <[neighbor := Some current]> (a_parent st);
            a_g_score := g_score;
            a_f_score := f_score;
            a_pq := PriorityQueue.insert (a_pq st) neighbor f_new;
            a_visited := a_visited st;
            a_visited_order := a_visited_order st |}
    else Ok st.

Fixpoint astar_number_loop (fuel : nat) (g : graph) (heuristic : V -> V -> number)
    (goal goal_value : V) (st : astar_state) : outcome (Result V) :=
  match fuel with
  | O => OutOfFuel
  | S fuel' =>
    if PriorityQueue.is_empty (a_pq st) then
      Ok {| found := false; path := []; cost := Some Inf;
            visited := a_visited_order st;
            nodes_explored := size (a_visited st) |}
    else
      '((current_f, current), pq) ← PriorityQueue.extract_min (a_pq st);
      if decide (current ∈ a_visited st) then
        astar_number_loop fuel' g heuristic goal goal_value
          {| a_pq := pq; a_visited := a_visited st;
             a_g_score := a_g_score st; a_f_score := a_f_score st;
             a_parent := a_parent st;
             a_visited_order := a_visited_order st |}
      else
        let visited := {[current]} ∪ a_visited st in
        let visited_order := a_visited_order st ++ [current] in
        if decide (current = goal) then
          p ← walk_get fuel' (a_parent st) (Some goal) [];
          c ← getitem (a_g_score st) goal;
          Ok {| found := true; path := reverse p; cost := Some c;
                visited := visited_order;
                nodes_explored := size visited |}
        else
          st' ← for_each (astar_number_neighbor g heuristic goal_value current)
                  (GraphNode.get_neighbors (Graph.deref g current))
                  {| a_pq := pq; a_visited := visited;
                     a_g_score := a_g_score st; a_f_score := a_f_score st;
                     a_parent := a_parent st;
                     a_visited_order := visited_order |};
          astar_number_loop fuel' g heuristic goal goal_value st'
  end.

Definition astar_number (fuel : nat) (g : graph) (start_value goal_value : V)
    (heuristic : V -> V -> number) : outcome (Result V) :=
  match Graph.get_node g start_value, Graph.get_node g goal_value with
  | Some start_node, Some goal_node =>
    let start := GraphNode.value start_node in
    let goal := GraphNode.value goal_node in
    let g_score := <[start := Fin 0]> (all_inf g) in
    let f_score :=
      <[start := number_value (heuristic start_value goal_value)]> (all_inf g) in
    f_start ← getitem f_score start;
    astar_number_loop fuel g heuristic goal goal_value
      {| a_pq := PriorityQueue.insert PriorityQueue.empty start f_start;
         a_visited := ∅;
         a_g_score := g_score;
         a_f_score := f_score;
         a_parent := {[start := None]};
         a_visited_order := [] |}
  | _, _ =>
    Ok {| found := false; path := []; cost := Some Inf; visited := [];
          nodes_explored := 0 |}
  end.

(** [zero_heuristic] returns the float [0.0]. *)
Definition zero_heuristic (node1 node2 : V) : number := FloatZero.
End algorithms.
Global Arguments bfs_state V {_ _}.
Global Arguments dfs_state V {_ _}.
Global Arguments dijkstra_state V {_ _}.
Global Arguments astar_state V {_ _}.

(** [manhattan_distance] on [(x, y)] tuples. *)
Definition manhattan_distance (pos1 pos2 : Z * Z) : Z :=
  Z.abs (fst pos1 - fst pos2) + Z.abs (snd pos1 - snd pos2).

(** * Properties *)

(** ** Outcomes *)

Lemma bind_Ok {A B : Type} (m : outcome A) (f : A -> outcome B) (b : B) :
  m ≫= f = Ok b -> exists a, m = Ok a /\ f a = Ok b.
Proof. destruct m as [a| |]; simpl; try discriminate. eauto. Qed.

Lemma for_each_app {S A : Type} (body : S -> A -> outcome S) (l1 l2 : list A) (s : S) :
  for_each body (l1 ++ l2) s = for_each body l1 s ≫= for_each body l2.
Proof.
  revert s. induction l1 as [|x l1 IH]; intros s; simpl; [done|].
  destruct (body s x); simpl; auto.
Qed.

(** An invariant of the loop body that holds before a [for] loop holds
    after it. *)
Lemma for_each_inv {S A : Type} (P : S -> Prop) (body : S -> A -> outcome S)
    (l : list A) (s s' : S) :
  (forall s x s', x ∈ l -> P s -> body s x = Ok s' -> P s') ->
  P s -> for_each body l s = Ok s' -> P s'.
Proof.
  revert s. induction l as [|x l IH]; intros s Hb Hs Hrun; simpl in Hrun.
  - by inversion Hrun; subst.
  - apply bind_Ok in Hrun as (s1 & H1 & H2).
    apply (IH s1); [|eapply Hb; [left|done|done]|done].
    intros ? ? ? Hin; apply Hb. by right.
Qed.

(** ** Graph: lookups after an update *)

Section graph_facts.
Context `{EqDecision V}.
Implicit Types (g : Graph.t V) (n : GraphNode.t V) (ns : list (GraphNode.t V)).
Implicit Types (d : list (V * Z)) (u v x y : V) (w : Z).

Lemma get_setitem_eq d k w : GraphNode.get (GraphNode.setitem d k w) k = Some w.
Proof.
  induction d as [|[k' w'] d IH]; simpl; repeat (case_decide; simpl); congruence.
Qed.

Lemma get_setitem_ne d k k' w :
  k ≠ k' -> GraphNode.get (GraphNode.setitem d k w) k' = GraphNode.get d k'.
Proof.
  intros Hne. induction d as [|[k0 w0] d IH]; simpl;
    repeat (case_decide; simpl); congruence.
Qed.

Lemma get_None d k : GraphNode.get d k = None <-> k ∉ map fst d.
Proof.
  induction d as [|[k0 w0] d IH]; simpl.
  - split; [intros _; apply not_elem_of_nil|done].
  - rewrite not_elem_of_cons. destruct (decide (k0 = k)) as [->|Hne].
    + split; [done|]. by intros [? _].
    + rewrite IH. naive_solver.
Qed.

Lemma get_Some_elem d k w : GraphNode.get d k = Some w -> (k, w) ∈ d.
Proof.
  induction d as [|[k0 w0] d IH]; simpl; [done|].
  destruct (decide (k0 = k)) as [->|Hne].
  - intros [= ->]. left.
  - intros. right. auto.
Qed.

Lemma elem_get_Some d k w :
  NoDup (map fst d) -> (k, w) ∈ d -> GraphNode.get d k = Some w.
Proof.
  induction d as [|[k0 w0] d IH]; simpl; intros Hnd Hin.
  - by apply elem_of_nil in Hin.
  - apply NoDup_cons in Hnd as [Hk0 Hnd]. apply elem_of_cons in Hin as [[= <- <-]|Hin].
    + by rewrite decide_True.
    + destruct (decide (k0 = k)) as [->|Hne]; [|auto].
      exfalso. apply Hk0. apply list_elem_of_fmap. by exists (k, w).
Qed.

Lemma keys_setitem d k w :
  map fst (GraphNode.setitem d k w) =
  if decide (k ∈ map fst d) then map fst d else map fst d ++ [k].
Proof.
  induction d as [|[k0 w0] d IH].
  - done.
  - cbn [GraphNode.setitem map fst]. destruct (decide (k0 = k)) as [->|Hne].
    + cbn [map fst]. rewrite decide_True; [done|left].
    + cbn [map fst]. rewrite IH. destruct (decide (k ∈ map fst d)) as [Hin|Hnin].
      * rewrite decide_True; [done|by right].
      * rewrite decide_False; [done|]. rewrite not_elem_of_cons. auto.
Qed.

Lemma elem_setitem d k w y w' :
  (y, w') ∈ GraphNode.setitem d k w -> (y, w') ∈ d \/ (y = k /\ w' = w).
Proof.
  induction d as [|[k0 w0] d IH]; simpl.
  - intros [= -> ->]%list_elem_of_singleton. auto.
  - destruct (decide (k0 = k)) as [->|Hne]; rewrite !elem_of_cons; naive_solver.
Qed.

(** [find] of the node stored under a value. *)
Definition lookup_node ns v : option (GraphNode.t V) :=
  List.find (fun n => bool_decide (GraphNode.value n = v)) ns.

Lemma lookup_node_value ns v n : lookup_node ns v = Some n -> GraphNode.value n = v.
Proof. intros [_ Hv%bool_decide_eq_true]%find_some. done. Qed.

Lemma lookup_node_elem ns v n : lookup_node ns v = Some n -> n ∈ ns.
Proof. intros [Hin _]%find_some. by apply list_elem_of_In. Qed.

Lemma lookup_node_None ns v : lookup_node ns v = None <-> v ∉ map GraphNode.value ns.
Proof.
  induction ns as [|n ns IH]; simpl.
  - split; [intros _; apply not_elem_of_nil|done].
  - rewrite not_elem_of_cons. case_bool_decide as Hv.
    + split; [done|]. intros [? _]. congruence.
    + rewrite IH. naive_solver.
Qed.

Lemma lookup_node_is_Some ns v : is_Some (lookup_node ns v) <-> v ∈ map GraphNode.value ns.
Proof.
  rewrite <-not_eq_None_Some, lookup_node_None.
  destruct (decide (v ∈ map GraphNode.value ns)); naive_solver.
Qed.

Lemma lookup_node_app ns ns' v :
  lookup_node (ns ++ ns') v =
  match lookup_node ns v with Some n => Some n | None => lookup_node ns' v end.
Proof.
  induction ns as [|n ns IH]; simpl; [done|]. by case_bool_decide.
Qed.

Lemma lookup_update_node ns v f x :
  (forall n, GraphNode.value (f n) = GraphNode.value n) ->
  lookup_node (Graph.update_node ns v f) x =
  if decide (x = v) then f <$> lookup_node ns v else lookup_node ns x.
Proof.
  intros Hf. induction ns as [|n ns IH]; simpl.
  - by destruct (decide (x = v)).
  - destruct (decide (GraphNode.value n = v)) as [Hv|Hv]; simpl.
    + rewrite Hf. destruct (decide (x = v)) as [->|Hx].
      * by rewrite !bool_decide_eq_true_2.
      * rewrite !bool_decide_eq_false_2; congruence.
    + rewrite IH. destruct (decide (x = v)) as [->|Hx].
      * by rewrite !bool_decide_eq_false_2.
      * done.
Qed.

Lemma values_update_node ns v f :
  (forall n, GraphNode.value (f n) = GraphNode.value n) ->
  map GraphNode.value (Graph.update_node ns v f) = map GraphNode.value ns.
Proof.
  intros Hf. induction ns as [|n ns IH]; simpl; [done|].
  destruct (decide (GraphNode.value n = v)); simpl; by rewrite ?Hf, ?IH.
Qed.

Lemma elem_update_node ns v f n :
  n ∈ Graph.update_node ns v f -> n ∈ ns \/ exists n0, n0 ∈ ns /\ GraphNode.value n0 = v /\ n = f n0.
Proof.
  induction ns as [|n0 ns IH]; simpl; [by left|].
  destruct (decide (GraphNode.value n0 = v)) as [Hv|Hv]; rewrite !elem_of_cons.
  - intros [->|?]; [right; exists n0; split; [left|done]|left; by right].
  - intros [->|Hin]; [left; by left|].
    destruct (IH Hin) as [?|(n' & ? & ? & ?)]; [left; by right|].
    right. exists n'. split; [by right|done].
Qed.

Lemma get_node_add_node g v x :
  Graph.get_node (Graph.add_node g v) x =
  match Graph.get_node g x with
  | Some n => Some n
  | None => if decide (x = v) then Some (GraphNode.mk v []) else None
  end.
Proof.
  unfold Graph.add_node.
  destruct (Graph.get_node g v) as [n|] eqn:Hv.
  - destruct (Graph.get_node g x) eqn:Hx; [done|].
    destruct (decide (x = v)) as [->|]; congruence.
  - simpl. unfold Graph.get_node in *. simpl.
    fold (lookup_node (Graph.nodes g ++ [GraphNode.mk v []]) x).
    rewrite lookup_node_app. fold (lookup_node (Graph.nodes g) x).
    destruct (lookup_node (Graph.nodes g) x); [done|].
    simpl. by case_bool_decide; [rewrite decide_True|rewrite decide_False].
Qed.

Lemma directed_add_node g v : Graph.directed (Graph.add_node g v) = Graph.directed g.
Proof. unfold Graph.add_node. by destruct (Graph.get_node g v). Qed.

Lemma values_add_node g v :
  Graph.get_all_nodes (Graph.add_node g v) =
  if decide (v ∈ Graph.get_all_nodes g) then Graph.get_all_nodes g
  else Graph.get_all_nodes g ++ [v].
Proof.
  unfold Graph.add_node, Graph.get_all_nodes.
  destruct (Graph.get_node g v) as [n|] eqn:Hv.
  - rewrite decide_True; [done|]. apply lookup_node_is_Some. by exists n.
  - rewrite decide_False; [|by apply lookup_node_None].
    simpl. by rewrite map_app.
Qed.

Lemma add_neighbor_value n v w :
  GraphNode.value (GraphNode.add_neighbor n v w) = GraphNode.value n.
Proof. done. Qed.

Lemma get_node_lookup g v : Graph.get_node g v = lookup_node (Graph.nodes g) v.
Proof. done. Qed.

Lemma get_node_value g v n : Graph.get_node g v = Some n -> GraphNode.value n = v.
Proof. apply lookup_node_value. Qed.

Lemma get_node_is_Some g v : is_Some (Graph.get_node g v) <-> v ∈ Graph.get_all_nodes g.
Proof. apply lookup_node_is_Some. Qed.

Lemma get_node_None g v : Graph.get_node g v = None <-> v ∉ Graph.get_all_nodes g.
Proof. apply lookup_node_None. Qed.

(** What [add_edge] does to the node object stored under [x]. *)
Definition edge_update (dir : bool) (u v : V) (w : Z) (x : V) (n : GraphNode.t V)
  : GraphNode.t V :=
  let n := if decide (x = u) then GraphNode.add_neighbor n v w else n in
  if dir then n
  else if decide (x = v) then GraphNode.add_neighbor n u w else n.

Lemma get_node_add_edge g u v w x :
  Graph.get_node (Graph.add_edge g u v w) x =
  edge_update (Graph.directed g) u v w x <$>
    Graph.get_node (Graph.add_node (Graph.add_node g u) v) x.
Proof.
  unfold Graph.add_edge. rewrite !get_node_lookup. cbn [Graph.nodes].
  rewrite !directed_add_node. unfold edge_update.
  destruct (Graph.directed g).
  - rewrite lookup_update_node by done.
    destruct (decide (x = u)) as [->|]; [done|]. by destruct (lookup_node _ x).
  - rewrite !lookup_update_node by done.
    destruct (decide (x = v)) as [Hv|Hv]; destruct (decide (x = u)) as [Hu|Hu];
      subst; repeat case_decide; try congruence; by destruct (lookup_node _ _).
Qed.

Lemma get_node_add_node_is_Some g u v x :
  x = u \/ x = v -> is_Some (Graph.get_node (Graph.add_node (Graph.add_node g u) v) x).
Proof.
  intros Hx. rewrite !get_node_add_node.
  destruct (Graph.get_node g x); [by eexists|].
  destruct (decide (x = u)); [by eexists|].
  destruct (decide (x = v)); [by eexists|]. naive_solver.
Qed.

(** The edge just written is read back, whatever the table held. *)
Lemma get_edge_weight_add_edge g u v w :
  Graph.get_edge_weight (Graph.add_edge g u v w) u v = Fin w.
Proof.
  unfold Graph.get_edge_weight. rewrite !get_node_add_edge.
  destruct (get_node_add_node_is_Some g u v u) as [nu Hnu]; [by left|].
  destruct (get_node_add_node_is_Some g u v v) as [nv Hnv]; [by right|].
  rewrite Hnu, Hnv. cbn [fmap option_fmap option_map].
  pose proof (get_node_value _ _ _ Hnv) as Hv.
  assert (GraphNode.value (edge_update (Graph.directed g) u v w v nv) = v) as ->.
  { unfold edge_update. by repeat (case_decide || case_match). }
  unfold edge_update, GraphNode.get_weight. rewrite decide_True by done.
  destruct (Graph.directed g); [simpl; by rewrite get_setitem_eq|].
  destruct (decide (u = v)) as [->|Hne]; simpl; by rewrite get_setitem_eq.
Qed.

(** The reverse edge written by [add_edge] on an undirected graph. *)
Lemma get_edge_weight_add_edge_rev g u v w :
  Graph.directed g = false ->
  Graph.get_edge_weight (Graph.add_edge g u v w) v u = Fin w.
Proof.
  intros Hd. unfold Graph.get_edge_weight. rewrite !get_node_add_edge, Hd.
  destruct (get_node_add_node_is_Some g u v u) as [nu Hnu]; [by left|].
  destruct (get_node_add_node_is_Some g u v v) as [nv Hnv]; [by right|].
  rewrite Hnu, Hnv. cbn [fmap option_fmap option_map].
  pose proof (get_node_value _ _ _ Hnu) as Hu.
  assert (GraphNode.value (edge_update false u v w u nu) = u) as ->.
  { unfold edge_update. by repeat (case_decide || case_match). }
  unfold edge_update, GraphNode.get_weight. rewrite (decide_True _ _ (eq_refl v)).
  simpl. by rewrite get_setitem_eq.
Qed.
(** *** Well-formedness is kept by the construction interface *)

Definition node_ok (vals : list V) (n : GraphNode.t V) : Prop :=
  NoDup (GraphNode.get_neighbors n) /\
  Forall (fun v => v ∈ vals) (GraphNode.get_neighbors n).

Lemma wf_node_ok g : Graph.wf g <->
  NoDup (Graph.get_all_nodes g) /\ Forall (node_ok (Graph.get_all_nodes g)) (Graph.nodes g).
Proof. done. Qed.

Lemma node_ok_mono vals vals' n : vals ⊆ vals' -> node_ok vals n -> node_ok vals' n.
Proof.
  intros Hsub [Hnd Hall]. split; [done|].
  eapply Forall_impl; [done|]. intros x Hx. by apply Hsub.
Qed.

Lemma node_ok_add_neighbor vals n k w :
  k ∈ vals -> node_ok vals n -> node_ok vals (GraphNode.add_neighbor n k w).
Proof.
  intros Hk [Hnd Hall]. unfold node_ok, GraphNode.get_neighbors, GraphNode.add_neighbor.
  cbn [GraphNode.neighbors]. rewrite keys_setitem.
  case_decide as Hin; [done|]. split.
  - apply NoDup_app. split_and!; [done| |apply NoDup_singleton].
    intros x Hx ->%list_elem_of_singleton. done.
  - apply Forall_app. split; [done|]. by apply Forall_singleton.
Qed.

Lemma Forall_update_node (P : GraphNode.t V -> Prop) ns v f :
  (forall n, P n -> P (f n)) -> Forall P ns -> Forall P (Graph.update_node ns v f).
Proof.
  intros Hf. induction 1 as [|n ns Hn Hns IH]; simpl; [done|].
  case_decide; constructor; auto.
Qed.

Lemma wf_empty dir : Graph.wf (@Graph.empty V dir).
Proof. split; [apply NoDup_nil_2|apply Forall_nil_2]. Qed.

Lemma wf_add_node g v : Graph.wf g -> Graph.wf (Graph.add_node g v).
Proof.
  rewrite !wf_node_ok. intros [Hnd Hall]. rewrite values_add_node.
  unfold Graph.add_node. destruct (Graph.get_node g v) as [n|] eqn:Hv.
  - rewrite decide_True; [done|]. apply get_node_is_Some. by exists n.
  - apply get_node_None in Hv. rewrite decide_False by done. split.
    + apply NoDup_app. split_and!; [done| |apply NoDup_singleton].
      intros x Hx ->%list_elem_of_singleton. done.
    + cbn [Graph.nodes]. apply Forall_app. split.
      * eapply Forall_impl; [done|]. intros n. apply node_ok_mono.
        intros x Hx. apply elem_of_app. by left.
      * apply Forall_singleton. split; [apply NoDup_nil_2|apply Forall_nil_2].
Qed.

Lemma values_add_edge g u v w :
  Graph.get_all_nodes (Graph.add_edge g u v w) =
  Graph.get_all_nodes (Graph.add_node (Graph.add_node g u) v).
Proof.
  unfold Graph.add_edge, Graph.get_all_nodes. cbn [Graph.nodes].
  destruct (Graph.directed _); by rewrite !values_update_node.
Qed.

Lemma elem_values_add_nodes g u v x :
  x ∈ Graph.get_all_nodes (Graph.add_node (Graph.add_node g u) v) <->
  x ∈ Graph.get_all_nodes g \/ x = u \/ x = v.
Proof.
  rewrite !values_add_node. repeat case_decide; rewrite ?elem_of_app,
    ?list_elem_of_singleton in *; naive_solver.
Qed.

Lemma wf_add_edge g u v w : Graph.wf g -> Graph.wf (Graph.add_edge g u v w).
Proof.
  intros Hwf. apply (wf_add_node _ u), (wf_add_node _ v) in Hwf.
  revert Hwf. rewrite !wf_node_ok, values_add_edge. intros [Hnd Hall].
  split; [done|]. unfold Graph.add_edge. cbn [Graph.nodes].
  set (vals := Graph.get_all_nodes _) in *.
  assert (u ∈ vals /\ v ∈ vals) as [Hu Hv].
  { unfold vals. rewrite !elem_values_add_nodes. naive_solver. }
  destruct (Graph.directed _); repeat apply Forall_update_node; try done;
    intros n; by apply node_ok_add_neighbor.
Qed.

Lemma build_snoc dir ops (o : Graph.op V) :
  Graph.build dir (ops ++ [o]) = Graph.apply_op (Graph.build dir ops) o.
Proof. unfold Graph.build. by rewrite fold_left_app. Qed.

Lemma directed_add_edge g u v w :
  Graph.directed (Graph.add_edge g u v w) = Graph.directed g.
Proof. unfold Graph.add_edge. cbn. by rewrite !directed_add_node. Qed.

Lemma directed_build dir (ops : list (Graph.op V)) :
  Graph.directed (Graph.build dir ops) = dir.
Proof.
  induction ops as [|o ops IH] using rev_ind; [done|].
  rewrite build_snoc. destruct o; simpl; by rewrite ?directed_add_node, ?directed_add_edge.
Qed.

Lemma wf_build dir (ops : list (Graph.op V)) : Graph.wf (Graph.build dir ops).
Proof.
  induction ops as [|o ops IH] using rev_ind; [apply wf_empty|].
  rewrite build_snoc. destruct o; simpl; auto using wf_add_node, wf_add_edge.
Qed.

(** *** Directed graphs hold only the edges that were added *)

Definition edges_added (ops : list (Graph.op V)) (g : Graph.t V) : Prop :=
  forall n y w, n ∈ Graph.nodes g -> (y, w) ∈ GraphNode.neighbors n ->
    exists w', Graph.AddEdge (GraphNode.value n) y w' ∈ ops.

Lemma elem_nodes_add_node g v n :
  n ∈ Graph.nodes (Graph.add_node g v) -> n ∈ Graph.nodes g \/ GraphNode.neighbors n = [].
Proof.
  unfold Graph.add_node. destruct (Graph.get_node g v); [by left|].
  cbn. rewrite elem_of_app, list_elem_of_singleton. intros [?| ->]; auto.
Qed.

Lemma edges_added_build (ops : list (Graph.op V)) :
  edges_added ops (Graph.build true ops).
Proof.
  induction ops as [|o ops IH] using rev_ind.
  - intros n y w Hn. by apply elem_of_nil in Hn.
  - rewrite build_snoc. intros n y w Hn Hy.
    assert (forall n, n ∈ Graph.nodes (Graph.build true ops) ->
              (y, w) ∈ GraphNode.neighbors n ->
              exists w', Graph.AddEdge (GraphNode.value n) y w' ∈ ops ++ [o]) as IH'.
    { intros n' Hn' Hy'. destruct (IH n' y w Hn' Hy') as [w' Hw'].
      exists w'. apply elem_of_app. by left. }
    destruct o as [v|u v w0]; simpl in Hn.
    + apply elem_nodes_add_node in Hn as [Hn|Hnil]; [auto|].
      rewrite Hnil in Hy. by apply elem_of_nil in Hy.
    + unfold Graph.add_edge in Hn. cbn [Graph.nodes] in Hn.
      rewrite !directed_add_node, directed_build in Hn.
      apply elem_update_node in Hn as [Hn|(n0 & Hn0 & Hv0 & ->)].
      * apply elem_nodes_add_node in Hn as [Hn|Hnil];
          [|rewrite Hnil in Hy; by apply elem_of_nil in Hy].
        apply elem_nodes_add_node in Hn as [Hn|Hnil];
          [auto|rewrite Hnil in Hy; by apply elem_of_nil in Hy].
      * cbn in Hy. apply elem_setitem in Hy as [Hy|[-> ->]].
        -- apply elem_nodes_add_node in Hn0 as [Hn0|Hnil];
             [|rewrite Hnil in Hy; by apply elem_of_nil in Hy].
           apply elem_nodes_add_node in Hn0 as [Hn0|Hnil];
             [by apply (IH' n0)|rewrite Hnil in Hy; by apply elem_of_nil in Hy].
        -- exists w0. cbn. rewrite Hv0. apply elem_of_app. right. left.
Qed.

(** No reverse edge appears in a directed graph unless it is added. *)
Lemma get_edge_weight_add_edge_directed_rev (ops : list (Graph.op V)) u v w :
  u ≠ v -> (forall w', Graph.AddEdge v u w' ∉ ops) ->
  Graph.get_edge_weight (Graph.add_edge (Graph.build true ops) u v w) v u = Inf.
Proof.
  intros Hne Hnone. unfold Graph.get_edge_weight.
  rewrite !get_node_add_edge, directed_build.
  destruct (get_node_add_node_is_Some (Graph.build true ops) u v u) as [nu Hnu]; [by left|].
  destruct (get_node_add_node_is_Some (Graph.build true ops) u v v) as [nv Hnv]; [by right|].
  rewrite Hnu, Hnv. cbn [fmap option_fmap option_map].
  unfold edge_update. rewrite decide_False by done. rewrite decide_True by done.
  cbn [GraphNode.add_neighbor GraphNode.value].
  rewrite (get_node_value _ _ _ Hnu).
  unfold GraphNode.get_weight.
  destruct (GraphNode.get (GraphNode.neighbors nv) u) as [w'|] eqn:Hget; [|done].
  exfalso. apply get_Some_elem in Hget.
  pose proof (get_node_value _ _ _ Hnv) as Hv.
  apply lookup_node_elem in Hnv.
  apply elem_nodes_add_node in Hnv as [Hnv|Hnil];
    [|rewrite Hnil in Hget; by apply elem_of_nil in Hget].
  apply elem_nodes_add_node in Hnv as [Hnv|Hnil];
    [|rewrite Hnil in Hget; by apply elem_of_nil in Hget].
  destruct (edges_added_build ops nv u w' Hnv Hget) as [w'' Hin].
  rewrite Hv in Hin. by apply (Hnone w'').
Qed.
(** On a directed graph, [add_edge u v] leaves the weight read in the
    other direction as it was. *)
Lemma get_edge_weight_add_edge_frame g u v w :
  Graph.wf g -> Graph.directed g = true -> u ≠ v ->
  Graph.get_edge_weight (Graph.add_edge g u v w) v u = Graph.get_edge_weight g v u.
Proof.
  intros [_ Hall] Hd Hne. unfold Graph.get_edge_weight.
  rewrite !get_node_add_edge, Hd.
  destruct (get_node_add_node_is_Some g u v u) as [nu Hnu]; [by left|].
  rewrite Hnu. cbn [fmap option_fmap option_map].
  assert (GraphNode.value (edge_update true u v w u nu) = u) as ->.
  { unfold edge_update. rewrite decide_True by done. by apply get_node_value in Hnu. }
  rewrite !get_node_add_node in *. rewrite (decide_True _ _ (eq_refl v)).
  rewrite (decide_False _ _ (not_eq_sym Hne)).
  destruct (Graph.get_node g v) as [nv|] eqn:Hv; cbn [fmap option_fmap option_map].
  - unfold edge_update. rewrite decide_False by done.
    destruct (Graph.get_node g u) as [nu0|] eqn:Hu.
    + by rewrite (get_node_value _ _ _ Hu).
    + unfold GraphNode.get_weight.
      destruct (GraphNode.get (GraphNode.neighbors nv) u) as [w'|] eqn:Hget; [|done].
      exfalso. apply get_node_None in Hu. apply Hu.
      apply lookup_node_elem in Hv. rewrite Forall_forall in Hall.
      destruct (Hall nv Hv) as [_ Hin]. rewrite Forall_forall in Hin. apply Hin.
      apply get_Some_elem in Hget. apply list_elem_of_fmap. by exists (u, w').
  - unfold edge_update. rewrite decide_False by done. done.
Qed.
End graph_facts.

(** C4.  Round trip of [add_edge] and [get_edge_weight] on every graph
    built through the construction interface: on an undirected graph
    both directions read the weight just written; on a directed graph
    the forward direction reads it and the reverse direction is left
    as it was, hence infinite unless the reverse edge was added by a call
    of its own; writing the same ordered pair again replaces the weight;
    and no node ever holds two entries for one neighbour. *)
Theorem add_edge_get_edge_weight `{EqDecision V} (ops : list (Graph.op V))
    (u v : V) (w : Z) :
  (Graph.get_edge_weight (Graph.add_edge (Graph.build false ops) u v w) u v = Fin w /\
   Graph.get_edge_weight (Graph.add_edge (Graph.build false ops) u v w) v u = Fin w) /\
  (Graph.get_edge_weight (Graph.add_edge (Graph.build true ops) u v w) u v = Fin w /\
   (u ≠ v ->
    Graph.get_edge_weight (Graph.add_edge (Graph.build true ops) u v w) v u =
    Graph.get_edge_weight (Graph.build true ops) v u) /\
   (u ≠ v -> (forall w', Graph.AddEdge v u w' ∉ ops) ->
    Graph.get_edge_weight (Graph.add_edge (Graph.build true ops) u v w) v u = Inf)) /\
  (forall dir w0,
     Graph.get_edge_weight
       (Graph.add_edge (Graph.add_edge (Graph.build dir ops) u v w0) u v w) u v = Fin w) /\
  (forall dir,
     Forall (fun n => NoDup (GraphNode.get_neighbors n))
            (Graph.nodes (Graph.add_edge (Graph.build dir ops) u v w))).
Proof.
  split_and!.
  - apply get_edge_weight_add_edge.
  - apply get_edge_weight_add_edge_rev, directed_build.
  - apply get_edge_weight_add_edge.
  - intros Hne. apply get_edge_weight_add_edge_frame;
      [apply wf_build|apply directed_build|done].
  - apply get_edge_weight_add_edge_directed_rev.
  - intros dir w0. apply get_edge_weight_add_edge.
  - intros dir. pose proof (wf_add_edge _ u v w (wf_build dir ops)) as [_ Hall].
    eapply Forall_impl; [done|]. by intros n [? _].
Qed.

Lemma add_edge_get_edge_weight_witness :
  Graph.get_edge_weight
    (Graph.add_edge (Graph.build true [Graph.AddEdge 1%nat 3%nat 4]) 1%nat 2%nat 7)
    2%nat 1%nat = Inf.
Proof.
  apply (add_edge_get_edge_weight [Graph.AddEdge 1%nat 3%nat 4] 1%nat 2%nat 7).
  - lia.
  - intros w' Hin. apply list_elem_of_singleton in Hin. discriminate Hin.
Defined.

(** ** Arithmetic on extended numbers *)

Lemma ext_le_refl a : ext_le a a.
Proof. destruct a; unfold ext_le; simpl; [lia|done]. Qed.

Lemma ext_le_trans a b c : ext_le a b -> ext_le b c -> ext_le a c.
Proof. destruct a, b, c; unfold ext_le; simpl; try done; lia. Qed.

Lemma ext_le_antisym a b : ext_le a b -> ext_le b a -> a = b.
Proof. destruct a, b; unfold ext_le; simpl; try done. intros. f_equal. lia. Qed.

Lemma ext_le_total a b : ext_le a b \/ ext_le b a.
Proof. destruct a, b; unfold ext_le; simpl; auto. lia. Qed.

Lemma ext_ltb_le a b : ext_ltb a b = true -> ext_le a b.
Proof. destruct a, b; unfold ext_le; simpl; try done; lia. Qed.

Lemma ext_le_Fin x y : ext_le (Fin x) (Fin y) <-> x <= y.
Proof. unfold ext_le. simpl. lia. Qed.

Lemma ext_le_Inf a : ext_le a Inf.
Proof. by destruct a. Qed.

Lemma ext_ltb_Fin x y : ext_ltb (Fin x) (Fin y) = true <-> x < y.
Proof. simpl. lia. Qed.

Global Instance ext_le_dec a b : Decision (ext_le a b).
Proof. unfold ext_le. apply _. Defined.

Global Instance ext_le_po : PartialOrder ext_le.
Proof.
  split; [split|].
  - intros a. apply ext_le_refl.
  - intros a b c. apply ext_le_trans.
  - intros a b. apply ext_le_antisym.
Qed.

Global Instance ext_le_total_inst : Total ext_le.
Proof. intros a b. apply ext_le_total. Qed.

(** ** Priority queue: the heap invariant *)

Section heap_facts.
Context {A : Type}.
Implicit Types (h : list (ext * A)) (q : PriorityQueue.t A) (i j k : nat).

Import PriorityQueue.

Lemma length_swap h i j : length (swap h i j) = length h.
Proof.
  unfold swap. destruct (h !! i), (h !! j); by rewrite ?length_insert.
Qed.

Lemma prio_swap h i j k :
  (i < length h)%nat -> (j < length h)%nat ->
  prio (swap h i j) k =
  if decide (k = i) then prio h j else if decide (k = j) then prio h i else prio h k.
Proof.
  intros Hi Hj. unfold swap, prio.
  destruct (lookup_lt_is_Some_2 h i Hi) as [x Hx].
  destruct (lookup_lt_is_Some_2 h j Hj) as [y Hy].
  rewrite Hx, Hy.
  destruct (decide (k = i)) as [->|Hki].
  - by rewrite list_lookup_insert_eq by (by rewrite length_insert).
  - rewrite list_lookup_insert_ne by done.
    destruct (decide (k = j)) as [->|Hkj].
    + by rewrite list_lookup_insert_eq.
    + by rewrite list_lookup_insert_ne.
Qed.

Lemma swap_Permutation h i j : swap h i j ≡ₚ h.
Proof.
  unfold swap. destruct (h !! i) as [x|] eqn:Hx; [|done].
  destruct (h !! j) as [y|] eqn:Hy; [|done].
  destruct (decide (i = j)) as [->|Hne].
  - rewrite list_insert_insert_eq. rewrite list_insert_id; [done|congruence].
  - apply Permutation_insert_swap; done.
Qed.
(** The heap order of the array: no element is below its parent. *)
Definition heap_ok h : Prop :=
  forall j, (0 < j < length h)%nat -> ext_le (prio h ((j - 1) / 2)) (prio h j).

(** Heap order everywhere except between [i] and its parent, with the
    children of [i] already above the parent of [i]. *)
Definition up_ok h i : Prop :=
  (forall j, (0 < j < length h)%nat -> j ≠ i ->
     ext_le (prio h ((j - 1) / 2)) (prio h j)) /\
  (forall j, (0 < j < length h)%nat -> ((j - 1) / 2)%nat = i -> (0 < i)%nat ->
     ext_le (prio h ((i - 1) / 2)) (prio h j)).

(** Heap order everywhere except between [i] and its children, with the
    children of [i] already above the parent of [i]. *)
Definition down_ok h i : Prop :=
  (forall j, (0 < j < length h)%nat -> ((j - 1) / 2)%nat ≠ i ->
     ext_le (prio h ((j - 1) / 2)) (prio h j)) /\
  (forall j, (0 < j < length h)%nat -> ((j - 1) / 2)%nat = i -> (0 < i)%nat ->
     ext_le (prio h ((i - 1) / 2)) (prio h j)).

Lemma length_heapify_up_fuel fuel h i : length (heapify_up_fuel fuel h i) = length h.
Proof.
  revert h i. induction fuel as [|fuel IH]; intros h i; simpl; [done|].
  case_match; [|done]. by rewrite IH, length_swap.
Qed.

Lemma length_heapify_down_fuel fuel h sz i :
  length (heapify_down_fuel fuel h sz i) = length h.
Proof.
  revert h i. induction fuel as [|fuel IH]; intros h i; simpl; [done|].
  case_match; [|done]. by rewrite IH, length_swap.
Qed.

Lemma heapify_up_fuel_Permutation fuel h i : heapify_up_fuel fuel h i ≡ₚ h.
Proof.
  revert h i. induction fuel as [|fuel IH]; intros h i; simpl; [done|].
  case_match; [|done]. by rewrite IH, swap_Permutation.
Qed.

Lemma heapify_down_fuel_Permutation fuel h sz i : heapify_down_fuel fuel h sz i ≡ₚ h.
Proof.
  revert h i. induction fuel as [|fuel IH]; intros h i; simpl; [done|].
  case_match; [|done]. by rewrite IH, swap_Permutation.
Qed.

Lemma heapify_up_ok fuel h i :
  (i < fuel)%nat -> (i < length h)%nat -> up_ok h i ->
  heap_ok (heapify_up_fuel fuel h i).
Proof.
  revert h i. induction fuel as [|fuel IH]; intros h i Hfuel Hi [Hup1 Hup2]; [lia|].
  cbn [heapify_up_fuel]. destruct ((0 <? i)%nat && ext_ltb (prio h i) (prio h ((i - 1) / 2))) eqn:Hc.
  - apply andb_true_iff in Hc as [Hpos%Nat.ltb_lt Hlt].
    assert ((i - 1) / 2 < i)%nat as Hp by lia.
    apply IH; [lia|rewrite length_swap; lia|].
    split.
    + intros j Hj Hne. rewrite length_swap in Hj. rewrite !prio_swap by lia.
      destruct (decide (j = i)) as [->|Hji].
      * rewrite (decide_False _ _ (Nat.lt_neq _ _ Hp)), (decide_True _ _ (eq_refl _)).
        by apply ext_ltb_le.
      * rewrite (decide_False _ _ Hne).
        destruct (decide (((j - 1) / 2)%nat = i)) as [Hpj|Hpj].
        { apply Hup2; [done|done|lia]. }
        destruct (decide (((j - 1) / 2)%nat = ((i - 1) / 2)%nat)) as [Hpp|Hpp].
        { eapply ext_le_trans; [by apply ext_ltb_le|]. rewrite <-Hpp. by apply Hup1. }
        by apply Hup1.
    + intros j Hj Hpj Hpp. rewrite length_swap in Hj. rewrite !prio_swap by lia.
      assert (((i - 1) / 2 - 1) / 2 < (i - 1) / 2)%nat as Hgp by lia.
      rewrite (decide_False (P := ((((i - 1) / 2 - 1) / 2)%nat = i))) by lia.
      rewrite (decide_False (P := ((((i - 1) / 2 - 1) / 2)%nat = ((i - 1) / 2)%nat))) by lia.
      assert (ext_le (prio h (((i - 1) / 2 - 1) / 2)) (prio h ((i - 1) / 2))) as Hgpp.
      { apply Hup1; lia. }
      destruct (decide (j = i)) as [->|Hji]; [done|].
      rewrite decide_False by lia.
      eapply ext_le_trans; [done|]. rewrite <-Hpj. by apply Hup1.
  - intros j Hj. destruct (decide (j = i)) as [->|Hji]; [|by apply Hup1].
    apply andb_false_iff in Hc as [Hc%Nat.ltb_ge|Hc]; [lia|done].
Qed.
Lemma down_ok_swap h i m :
  down_ok h i -> (0 < m < length h)%nat -> ((m - 1) / 2)%nat = i ->
  ext_le (prio h m) (prio h i) ->
  (forall j, (0 < j < length h)%nat -> ((j - 1) / 2)%nat = i ->
     ext_le (prio h m) (prio h j)) ->
  down_ok (swap h i m) m.
Proof.
  intros [Hd1 Hd2] Hm Hpm Hmi Hmin.
  assert (i < m)%nat as Him by lia.
  split.
  - intros j Hj Hne. rewrite length_swap in Hj. rewrite !prio_swap by lia.
    destruct (decide (((j - 1) / 2)%nat = i)) as [Hpj|Hpj].
    + destruct (decide (j = i)) as [->|Hji]; [lia|].
      destruct (decide (j = m)) as [->|Hjm]; [done|]. by apply Hmin.
    + rewrite (decide_False _ _ Hne).
      destruct (decide (j = i)) as [->|Hji]; [apply Hd2; lia|].
      rewrite decide_False by lia. by apply Hd1.
  - intros j Hj Hpj _. rewrite length_swap in Hj. rewrite !prio_swap by lia.
    rewrite Hpm. rewrite (decide_True _ _ (eq_refl i)).
    rewrite !decide_False by lia. rewrite <-Hpj at 1. apply Hd1; lia.
Qed.

Lemma heapify_down_ok fuel h i :
  (length h <= fuel + i)%nat -> down_ok h i ->
  heap_ok (heapify_down_fuel fuel h (length h) i).
Proof.
  revert h i. induction fuel as [|fuel IH]; intros h i Hfuel Hd.
  { destruct Hd as [Hd1 _]. cbn [heapify_down_fuel]. intros j Hj. apply Hd1; lia. }
  cbn [heapify_down_fuel].
  destruct ((2 * i + 1 <? length h)%nat && ext_ltb (prio h (2 * i + 1)) (prio h i))
    eqn:Hc1;
  [destruct ((2 * i + 2 <? length h)%nat &&
               ext_ltb (prio h (2 * i + 2)) (prio h (2 * i + 1))) eqn:Hc2
  |destruct ((2 * i + 2 <? length h)%nat &&
               ext_ltb (prio h (2 * i + 2)) (prio h i)) eqn:Hc2].
  - (* the right child is the smallest *)
    apply andb_true_iff in Hc1 as [Hl%Nat.ltb_lt Hli%ext_ltb_le].
    apply andb_true_iff in Hc2 as [Hr%Nat.ltb_lt Hrl%ext_ltb_le].
    replace (negb (2 * i + 2 =? i)%nat) with true
      by (symmetry; apply negb_true_iff, Nat.eqb_neq; lia).
    rewrite <-(length_swap h i (2 * i + 2)) at 1. apply IH.
    + rewrite length_swap. lia.
    + apply down_ok_swap; [done|lia|lia|by eapply ext_le_trans|].
      intros j Hj Hpj. assert (j = 2 * i + 1 \/ j = 2 * i + 2)%nat as [-> | ->] by lia;
        [done|apply ext_le_refl].
  - (* the left child is the smallest *)
    apply andb_true_iff in Hc1 as [Hl%Nat.ltb_lt Hli%ext_ltb_le].
    replace (negb (2 * i + 1 =? i)%nat) with true
      by (symmetry; apply negb_true_iff, Nat.eqb_neq; lia).
    rewrite <-(length_swap h i (2 * i + 1)) at 1. apply IH.
    + rewrite length_swap. lia.
    + apply down_ok_swap; [done|lia|lia|done|].
      intros j Hj Hpj. assert (j = 2 * i + 1 \/ j = 2 * i + 2)%nat as [-> | ->] by lia;
        [apply ext_le_refl|].
      apply andb_false_iff in Hc2 as [Hc2%Nat.ltb_ge|Hc2]; [lia|done].
  - (* only the right child is below the element *)
    apply andb_true_iff in Hc2 as [Hr%Nat.ltb_lt Hri%ext_ltb_le].
    replace (negb (2 * i + 2 =? i)%nat) with true
      by (symmetry; apply negb_true_iff, Nat.eqb_neq; lia).
    rewrite <-(length_swap h i (2 * i + 2)) at 1. apply IH.
    + rewrite length_swap. lia.
    + apply down_ok_swap; [done|lia|lia|done|].
      intros j Hj Hpj. assert (j = 2 * i + 1 \/ j = 2 * i + 2)%nat as [-> | ->] by lia;
        [|apply ext_le_refl].
      apply andb_false_iff in Hc1 as [Hc1%Nat.ltb_ge|Hc1]; [lia|].
      by eapply ext_le_trans.
  - (* the element is in place *)
    rewrite Nat.eqb_refl. cbn [negb].
    destruct Hd as [Hd1 _].
    intros j Hj. destruct (decide (((j - 1) / 2)%nat = i)) as [Hpj|Hpj]; [|by apply Hd1].
    rewrite Hpj. assert (j = 2 * i + 1 \/ j = 2 * i + 2)%nat as [-> | ->] by lia.
    + apply andb_false_iff in Hc1 as [Hc1%Nat.ltb_ge|Hc1]; [lia|done].
    + apply andb_false_iff in Hc2 as [Hc2%Nat.ltb_ge|Hc2]; [lia|done].
Qed.

(** The root of an ordered heap is a minimum. *)
Lemma heap_ok_root h i : heap_ok h -> (i < length h)%nat -> ext_le (prio h 0) (prio h i).
Proof.
  intros Hok. induction (lt_wf i) as [i _ IH]. intros Hi.
  destruct (decide (i = 0%nat)) as [->|Hne]; [apply ext_le_refl|].
  eapply ext_le_trans; [apply (IH ((i - 1) / 2)%nat); lia|]. apply Hok. lia.
Qed.
(** *** The class invariant of [PriorityQueue] *)

Definition pq_wf q : Prop := _size q = length (_heap q) /\ heap_ok (_heap q).

Lemma pq_wf_empty : pq_wf (@empty A).
Proof. split; [done|]. intros j Hj. simpl in Hj. lia. Qed.

Lemma prio_app_l h x j : (j < length h)%nat -> prio (h ++ [x]) j = prio h j.
Proof. intros Hj. unfold prio. by rewrite lookup_app_l. Qed.

Lemma insert_spec q v p :
  pq_wf q -> pq_wf (insert q v p) /\ _heap (insert q v p) ≡ₚ (p, v) :: _heap q.
Proof.
  intros [Hsz Hok]. unfold insert, pq_wf, _heapify_up. cbn [_heap _size].
  replace (S (_size q) - 1)%nat with (length (_heap q)) by lia.
  split_and!.
  - rewrite length_heapify_up_fuel, length_app. simpl. lia.
  - apply heapify_up_ok; [lia|rewrite length_app; simpl; lia|].
    split.
    + intros j Hj Hne. rewrite length_app in Hj. simpl in Hj.
      rewrite !prio_app_l by lia. apply Hok. lia.
    + intros j Hj Hpj. rewrite length_app in Hj. simpl in Hj. lia.
  - rewrite heapify_up_fuel_Permutation. by rewrite Permutation_app_comm.
Qed.

Lemma is_empty_heap q : pq_wf q -> is_empty q = true -> _heap q = [].
Proof.
  intros [Hsz _] He%Nat.eqb_eq. rewrite He in Hsz. by destruct (_heap q).
Qed.

Lemma extract_min_spec q :
  pq_wf q -> is_empty q = false ->
  exists x q', extract_min q = Ok (x, q') /\ pq_wf q' /\
    _heap q ≡ₚ x :: _heap q' /\
    Forall (fun y => ext_le (fst x) (fst y)) (_heap q).
Proof.
  intros [Hsz Hok] He. unfold extract_min. rewrite He.
  apply Nat.eqb_neq in He. destruct q as [h sz]. cbn [_heap _size] in *. subst sz.
  destruct h as [|x t]; [done|]. cbn [lookup list_lookup].
  assert (Forall (fun y => ext_le (fst x) (fst y)) (x :: t)) as Hmin.
  { apply Forall_lookup. intros i y Hy.
    pose proof (heap_ok_root _ i Hok (lookup_lt_Some _ _ _ Hy)) as Hle.
    unfold prio in Hle. by rewrite Hy in Hle. }
  destruct t as [|y t0] using rev_ind.
  - simpl. exists x, {| _heap := []; _size := 0 |}. split_and!; try done.
  - clear IHt0. rename t0 into t.
    replace (length (x :: t ++ [y]) - 1)%nat with (length (x :: t)) by
      (simpl; rewrite length_app; simpl; lia).
    change (x :: t ++ [y]) with ((x :: t) ++ [y]) at 1 2 3.
    rewrite (lookup_app_r (x :: t)) by done. rewrite Nat.sub_diag.
    cbn [lookup list_lookup].
    change (<[0%nat:=y]> ((x :: t) ++ [y])) with ((y :: t) ++ [y]).
    rewrite removelast_last.
    cbn [length Nat.eqb]. eexists x, _. split; [done|]. unfold pq_wf, _heapify_down.
    cbn [_heap _size]. split_and!; try done.
    + by rewrite length_heapify_down_fuel.
    + change (S (length t)) with (length (y :: t)). apply heapify_down_ok; [lia|].
      split; [|lia]. intros j Hj Hpj. simpl in Hj.
      assert (forall k, (0 < k < S (length t))%nat ->
                prio (y :: t) k = prio (x :: t ++ [y]) k) as Hk.
      { intros k Hk. destruct k as [|k]; [lia|]. unfold prio. simpl.
        rewrite lookup_app_l by lia. done. }
      rewrite !Hk by lia. apply Hok. simpl. rewrite length_app. simpl. lia.
    + rewrite heapify_down_fuel_Permutation. constructor.
      by rewrite Permutation_app_comm.
Qed.

Lemma peek_min_spec q :
  pq_wf q -> is_empty q = false -> exists x, peek_min q = Ok x.
Proof.
  intros [Hsz _] He. unfold peek_min. rewrite He. apply Nat.eqb_neq in He.
  destruct (_heap q) as [|x t]; [simpl in Hsz; lia|]. by exists x.
Qed.
(** *** Filling and draining a queue *)

(** [for value, priority in l: q.insert(value, priority)] *)
Definition insert_all (l : list (A * ext)) q : PriorityQueue.t A :=
  fold_left (fun q vp => insert q (fst vp) (snd vp)) l q.

(** [n] calls of [extract_min], the results in call order. *)
Fixpoint extract_all (n : nat) q : outcome (list (ext * A) * PriorityQueue.t A) :=
  match n with
  | O => Ok ([], q)
  | S n' =>
    '(x, q1) ← extract_min q;
    '(rest, q2) ← extract_all n' q1;
    Ok (x :: rest, q2)
  end.

Lemma insert_all_spec l q :
  pq_wf q ->
  pq_wf (insert_all l q) /\
  _heap (insert_all l q) ≡ₚ map (fun vp => (snd vp, fst vp)) l ++ _heap q.
Proof.
  revert q. induction l as [|[v p] l IH]; intros q Hq; simpl; [done|].
  destruct (insert_spec q v p Hq) as [Hq1 Hp1].
  destruct (IH _ Hq1) as [Hq2 Hp2]. split; [done|].
  rewrite Hp2, Hp1. by rewrite Permutation_middle.
Qed.

Lemma extract_all_spec n q :
  pq_wf q -> n = length (_heap q) ->
  exists out q', extract_all n q = Ok (out, q') /\ is_empty q' = true /\ pq_wf q' /\
    out ≡ₚ _heap q /\ StronglySorted ext_le (map fst out).
Proof.
  revert q. induction n as [|n IH]; intros q Hq Hn.
  - exists [], q. split_and!; try done; [|by destruct (_heap q)|constructor].
    destruct Hq as [Hsz _]. apply Nat.eqb_eq. lia.
  - assert (is_empty q = false) as He.
    { destruct Hq as [Hsz _]. apply Nat.eqb_neq. lia. }
    destruct (extract_min_spec q Hq He) as (x & q1 & Hx & Hq1 & Hp & Hmin).
    destruct (IH q1 Hq1) as (out & q2 & Hout & He2 & Hq2 & Hp2 & Hs).
    { apply Permutation_length in Hp. simpl in Hp. lia. }
    exists (x :: out), q2. cbn [extract_all]. rewrite Hx. simpl. rewrite Hout. simpl.
    split_and!; try done.
    + by rewrite Hp, Hp2.
    + constructor; [done|]. apply Forall_fmap. rewrite Hp in Hmin.
      apply Forall_cons in Hmin as [_ Hmin]. by rewrite Hp2.
Qed.
End heap_facts.

(** ** Queue and stack: the size counter *)

Definition queue_wf {A : Type} (q : Queue.t A) : Prop :=
  Queue._size q = length (Queue._front q).

Definition stack_wf {A : Type} (s : Stack.t A) : Prop :=
  Stack._size s = length (Stack._top s).

Lemma queue_wf_empty {A : Type} : queue_wf (@Queue.empty A).
Proof. done. Qed.

Lemma queue_wf_enqueue {A : Type} (q : Queue.t A) (x : A) :
  queue_wf q -> queue_wf (Queue.enqueue q x).
Proof. unfold queue_wf. simpl. rewrite length_app. simpl. lia. Qed.

Lemma queue_wf_dequeue {A : Type} (q q' : Queue.t A) (x : A) :
  queue_wf q -> Queue.dequeue q = Ok (x, q') -> queue_wf q'.
Proof.
  unfold queue_wf, Queue.dequeue. destruct (Queue._front q); [done|].
  intros Hsz [= <- <-]. simpl in *. lia.
Qed.

Lemma stack_wf_empty {A : Type} : stack_wf (@Stack.empty A).
Proof. done. Qed.

Lemma stack_wf_push {A : Type} (s : Stack.t A) (x : A) :
  stack_wf s -> stack_wf (Stack.push s x).
Proof. unfold stack_wf. simpl. lia. Qed.

Lemma stack_wf_pop {A : Type} (s s' : Stack.t A) (x : A) :
  stack_wf s -> Stack.pop s = Ok (x, s') -> stack_wf s'.
Proof.
  unfold stack_wf, Stack.pop. destruct (Stack._top s); [done|].
  intros Hsz [= <- <-]. simpl in *. lia.
Qed.

(** C3.  [N] calls of [insert] on a fresh priority queue followed by [N]
    calls of [extract_min] all succeed, empty the queue, return exactly
    the inserted [(priority, value)] pairs, and return them with the
    priorities in sorted order. *)
Theorem extract_min_sorts {A : Type} (l : list (A * ext)) :
  exists out q',
    extract_all (length l) (insert_all l PriorityQueue.empty) = Ok (out, q') /\
    PriorityQueue.is_empty q' = true /\
    out ≡ₚ map (fun vp => (snd vp, fst vp)) l /\
    StronglySorted ext_le (map fst out) /\
    map fst out = merge_sort ext_le (map snd l).
Proof.
  destruct (insert_all_spec l PriorityQueue.empty pq_wf_empty) as [Hwf Hp].
  rewrite app_nil_r in Hp.
  destruct (extract_all_spec (length l) _ Hwf) as (out & q' & Hout & He & _ & Hp2 & Hs).
  { apply Permutation_length in Hp. by rewrite Hp, length_map. }
  exists out, q'. split_and!; try done.
  - by rewrite Hp2.
  - apply (StronglySorted_unique ext_le); [done|apply StronglySorted_merge_sort; apply _|].
    rewrite merge_sort_Permutation, Hp2, Hp, <-list_fmap_compose.
    done.
Qed.

(** C9.  On a priority queue, queue or stack whose size counter is
    consistent (as it is after any sequence of calls on a fresh
    container), the removing and the peeking method raise [IndexError]
    exactly when the container holds no element, and return an element
    otherwise. *)
Theorem empty_container_raises {A : Type}
    (pq : PriorityQueue.t A) (q : Queue.t A) (s : Stack.t A) :
  pq_wf pq -> queue_wf q -> stack_wf s ->
  ((PriorityQueue.extract_min pq = Raise IndexError <-> PriorityQueue.size pq = 0%nat) /\
   (PriorityQueue.peek_min pq = Raise IndexError <-> PriorityQueue.size pq = 0%nat) /\
   (PriorityQueue.size pq ≠ 0%nat ->
    (exists x pq', PriorityQueue.extract_min pq = Ok (x, pq')) /\
    (exists x, PriorityQueue.peek_min pq = Ok x))) /\
  ((Queue.dequeue q = Raise IndexError <-> Queue.size q = 0%nat) /\
   (Queue.peek q = Raise IndexError <-> Queue.size q = 0%nat) /\
   (Queue.size q ≠ 0%nat ->
    (exists x q', Queue.dequeue q = Ok (x, q')) /\ (exists x, Queue.peek q = Ok x))) /\
  ((Stack.pop s = Raise IndexError <-> Stack.size s = 0%nat) /\
   (Stack.peek s = Raise IndexError <-> Stack.size s = 0%nat) /\
   (Stack.size s ≠ 0%nat ->
    (exists x s', Stack.pop s = Ok (x, s')) /\ (exists x, Stack.peek s = Ok x))).
Proof.
  intros Hpq Hq Hs. split_and!.
  - unfold PriorityQueue.size. split.
    + intros Hr. destruct (PriorityQueue.is_empty pq) eqn:He; [by apply Nat.eqb_eq|].
      destruct (extract_min_spec pq Hpq He) as (x & pq' & Hx & _). congruence.
    + intros Hz. unfold PriorityQueue.extract_min, PriorityQueue.is_empty. by rewrite Hz.
  - unfold PriorityQueue.size. split.
    + intros Hr. destruct (PriorityQueue.is_empty pq) eqn:He; [by apply Nat.eqb_eq|].
      destruct (peek_min_spec pq Hpq He) as (x & Hx). congruence.
    + intros Hz. unfold PriorityQueue.peek_min, PriorityQueue.is_empty. by rewrite Hz.
  - intros Hz. assert (PriorityQueue.is_empty pq = false) as He by by apply Nat.eqb_neq.
    split.
    + destruct (extract_min_spec pq Hpq He) as (x & pq' & Hx & _). eauto.
    + by apply peek_min_spec.
  - unfold queue_wf, Queue.size, Queue.dequeue in *. destruct (Queue._front q); simpl in *.
    + done.
    + split; [done|lia].
  - unfold queue_wf, Queue.size, Queue.peek in *. destruct (Queue._front q); simpl in *.
    + done.
    + split; [done|lia].
  - unfold queue_wf, Queue.size, Queue.dequeue, Queue.peek in *.
    destruct (Queue._front q); simpl in *; [lia|]. intros _. split; eauto.
  - unfold stack_wf, Stack.size, Stack.pop in *. destruct (Stack._top s); simpl in *.
    + done.
    + split; [done|lia].
  - unfold stack_wf, Stack.size, Stack.peek in *. destruct (Stack._top s); simpl in *.
    + done.
    + split; [done|lia].
  - unfold stack_wf, Stack.size, Stack.pop, Stack.peek in *.
    destruct (Stack._top s); simpl in *; [lia|]. intros _. split; eauto.
Qed.

Lemma empty_container_raises_witness :
  (PriorityQueue.extract_min (@PriorityQueue.empty nat) = Raise IndexError <->
   PriorityQueue.size (@PriorityQueue.empty nat) = 0%nat) /\
  (exists x, Queue.peek (Queue.enqueue Queue.empty 7%nat) = Ok x) /\
  (exists x, Stack.peek (Stack.push Stack.empty 7%nat) = Ok x).
Proof.
  pose proof (empty_container_raises (@PriorityQueue.empty nat)
                (Queue.enqueue Queue.empty 7%nat) (Stack.push Stack.empty 7%nat)
                pq_wf_empty (queue_wf_enqueue _ _ queue_wf_empty)
                (stack_wf_push _ _ stack_wf_empty)) as (Hpq & Hq & Hs).
  split_and!.
  - apply Hpq.
  - apply Hq. simpl. lia.
  - apply Hs. simpl. lia.
Defined.

(** ** The searches on an absent endpoint *)

(** C5.  When the start value or the goal value is not a node of the
    graph, each of the four searches returns the negative result record
    with an empty path, an empty visited list and a zero count (and the
    infinite cost for Dijkstra and A-star), without raising and without
    entering its loop: the answer is the same for every iteration bound,
    zero included. *)
Theorem search_absent_endpoint `{Countable V} (fuel : nat) (g : Graph.t V)
    (start_value goal_value : V) (heuristic : V -> V -> Z) :
  start_value ∉ Graph.get_all_nodes g \/ goal_value ∉ Graph.get_all_nodes g ->
  breadth_first_search fuel g start_value goal_value =
    Ok (mkResult false [] None [] 0%nat) /\
  depth_first_search fuel g start_value goal_value =
    Ok (mkResult false [] None [] 0%nat) /\
  dijkstra fuel g start_value goal_value =
    Ok (mkResult false [] (Some Inf) [] 0%nat) /\
  astar fuel g start_value goal_value heuristic =
    Ok (mkResult false [] (Some Inf) [] 0%nat).
Proof.
  intros Habs.
  assert (Graph.get_node g start_value = None \/ Graph.get_node g goal_value = None)
    as Hnone by (rewrite !get_node_None; done).
  unfold breadth_first_search, depth_first_search, dijkstra, astar.
  destruct Hnone as [-> | ->]; [done|].
  by destruct (Graph.get_node g start_value).
Qed.

Lemma search_absent_endpoint_witness :
  dijkstra 0 (Graph.build false [Graph.AddEdge 1%nat 2%nat 5]) 1%nat 9%nat =
    Ok (mkResult false [] (Some Inf) [] 0%nat).
Proof.
  apply (search_absent_endpoint 0 (Graph.build false [Graph.AddEdge 1%nat 2%nat 5])
           1%nat 9%nat zero_estimate).
  right. vm_compute. intros Hin. by repeat (apply elem_of_cons in Hin as [Hin|Hin]; [lia|]);
    apply elem_of_nil in Hin.
Defined.

(** ** A-star with the [int] zero estimate is Dijkstra *)

Section astar_zero.
Context `{Countable V}.

(** The part of an A-star state that Dijkstra also has. *)
Definition forget_f (a : astar_state V) : dijkstra_state V :=
  {| k_pq := a_pq a; k_visited := a_visited a; k_distance := a_g_score a;
     k_parent := a_parent a; k_visited_order := a_visited_order a |}.

Definition outcome_map {A B : Type} (f : A -> B) (m : outcome A) : outcome B :=
  match m with
  | Ok a => Ok (f a)
  | Raise e => Raise e
  | OutOfFuel => OutOfFuel
  end.

Lemma ext_add_0_r (a : ext) : ext_add a (Fin 0) = a.
Proof. destruct a; simpl; [by rewrite Z.add_0_r|done]. Qed.

Lemma astar_neighbor_zero (g : Graph.t V) (goal_value current : V)
    (a : astar_state V) (neighbor : V) :
  outcome_map forget_f (astar_neighbor g zero_estimate goal_value current a neighbor) =
  dijkstra_neighbor g current (forget_f a) neighbor.
Proof.
  unfold astar_neighbor, dijkstra_neighbor, getitem.
  cbn [forget_f k_visited k_distance k_pq k_parent k_visited_order].
  destruct (decide (neighbor ∈ a_visited a)); [done|].
  destruct (a_g_score a !! current) as [gc|]; [|done]. cbn [mbind outcome_bind].
  destruct (a_g_score a !! neighbor) as [gn|]; [|done]. cbn [mbind outcome_bind].
  destruct (ext_ltb _ gn); [|done].
  rewrite !lookup_insert_eq. cbn [mbind outcome_bind outcome_map forget_f].
  rewrite !lookup_insert_eq. cbn [mbind outcome_bind outcome_map forget_f
    a_pq a_visited a_g_score a_parent a_visited_order].
  unfold zero_estimate. by rewrite ext_add_0_r.
Qed.

Lemma for_each_astar_zero (g : Graph.t V) (goal_value current : V)
    (l : list V) (a : astar_state V) :
  outcome_map forget_f
    (for_each (astar_neighbor g zero_estimate goal_value current) l a) =
  for_each (dijkstra_neighbor g current) l (forget_f a).
Proof.
  revert a. induction l as [|x l IH]; intros a; [done|].
  cbn [for_each]. rewrite <-(astar_neighbor_zero g goal_value).
  destruct (astar_neighbor g zero_estimate goal_value current a x) as [a'| |];
    cbn [mbind outcome_bind outcome_map]; [apply IH|done|done].
Qed.

Lemma astar_loop_zero (fuel : nat) (g : Graph.t V) (goal goal_value : V)
    (a : astar_state V) :
  astar_loop fuel g zero_estimate goal goal_value a =
  dijkstra_loop fuel g goal (forget_f a).
Proof.
  revert a. induction fuel as [|fuel IH]; intros a; [done|].
  cbn [astar_loop dijkstra_loop forget_f k_pq k_visited k_distance k_parent
       k_visited_order].
  destruct (PriorityQueue.is_empty (a_pq a)); [done|].
  destruct (PriorityQueue.extract_min (a_pq a)) as [[[current_f current] pq]| |];
    cbn [mbind outcome_bind]; [|done|done].
  destruct (decide (current ∈ a_visited a)); [by rewrite IH|].
  destruct (decide (current = goal)); [done|].
  match goal with
  | |- context [for_each (astar_neighbor _ _ _ _) ?l ?a0] =>
      change (for_each (astar_neighbor g zero_estimate goal_value current) l a0
                ≫= astar_loop fuel g zero_estimate goal goal_value =
              for_each (dijkstra_neighbor g current) l (forget_f a0)
                ≫= dijkstra_loop fuel g goal);
      rewrite <-(for_each_astar_zero g goal_value);
      destruct (for_each (astar_neighbor g zero_estimate goal_value current) l a0)
        as [a'| |]
  end; cbn [outcome_map mbind outcome_bind]; [apply IH|done|done].
Qed.

Lemma astar_zero_dijkstra (fuel : nat) (g : Graph.t V) (start_value goal_value : V) :
  astar fuel g start_value goal_value zero_estimate =
  dijkstra fuel g start_value goal_value.
Proof.
  unfold astar, dijkstra.
  destruct (Graph.get_node g start_value) as [start_node|]; [|done].
  destruct (Graph.get_node g goal_value) as [goal_node|]; [|done].
  unfold getitem. rewrite lookup_insert_eq. cbn [mbind outcome_bind].
  by rewrite astar_loop_zero.
Qed.
End astar_zero.


(** ** Loops: general facts *)

(** A [for] loop whose body never raises under an invariant indexed by
    the elements already processed runs to the end and establishes the
    invariant for the whole list. *)
Lemma for_each_Ok {S A : Type} (P : list A -> S -> Prop) (body : S -> A -> outcome S)
    (l : list A) (s : S) :
  (forall l1 x l2 s, l = l1 ++ x :: l2 -> P l1 s ->
     exists s', body s x = Ok s' /\ P (l1 ++ [x]) s') ->
  P [] s -> exists s', for_each body l s = Ok s' /\ P l s'.
Proof.
  revert P s. induction l as [|x l IH]; intros P s Hbody Hs.
  - by exists s.
  - destruct (Hbody [] x l s eq_refl Hs) as (s1 & Hs1 & HP1).
    destruct (IH (fun l1 => P (x :: l1)) s1) as (s' & Hs' & HP').
    + intros l1 y l2 s0 -> HP0. apply (Hbody (x :: l1) y l2 s0); done.
    + done.
    + exists s'. split; [|done]. cbn [for_each]. rewrite Hs1. done.
Qed.

(** The same rule for a run that is known to have succeeded. *)
Lemma for_each_Hoare {S A : Type} (P : list A -> S -> Prop) (body : S -> A -> outcome S)
    (l : list A) (s s' : S) :
  (forall l1 x l2 s s', l = l1 ++ x :: l2 -> P l1 s -> body s x = Ok s' ->
     P (l1 ++ [x]) s') ->
  P [] s -> for_each body l s = Ok s' -> P l s'.
Proof.
  revert P s. induction l as [|x l IH]; intros P s Hbody Hs Hrun.
  - by inversion Hrun; subst.
  - cbn [for_each] in Hrun. apply bind_Ok in Hrun as (s1 & Hs1 & Hrun).
    apply (IH (fun l1 => P (x :: l1)) s1); [|by apply (Hbody [] x l s)|done].
    intros l1 y l2 s0 s0' -> HP0 Hy. by apply (Hbody (x :: l1) y l2 s0).
Qed.

(** *** Parent links point back in the order of discovery *)

Section parents.
Context `{Countable V}.
Implicit Types (parent : gmap V (option V)) (ord : list V).

Definition parent_ok parent ord : Prop :=
  forall n c, parent !! n = Some (Some c) ->
    exists j, ord !! j = Some c /\ forall i, ord !! i = Some n -> (j < i)%nat.

Lemma parent_ok_snoc parent ord x :
  x ∉ ord -> parent_ok parent ord -> parent_ok parent (ord ++ [x]).
Proof.
  intros Hx Hok n c Hn. destruct (Hok n c Hn) as (j & Hj & Hlt).
  exists j. split; [by apply lookup_app_l_Some|].
  intros i Hi. apply lookup_app_Some in Hi as [Hi|[Hlen Hi]]; [auto|].
  apply lookup_lt_Some in Hj. lia.
Qed.

Lemma parent_ok_insert parent ord x c :
  x ∉ ord -> c ∈ ord -> parent_ok parent ord ->
  parent_ok (<[x := Some c]> parent) ord.
Proof.
  intros Hx Hc Hok n c' Hn. destruct (decide (n = x)) as [->|Hne].
  - rewrite lookup_insert_eq in Hn. injection Hn as <-.
    apply list_elem_of_lookup in Hc as [j Hj]. exists j. split; [done|].
    intros i Hi. exfalso. apply Hx. by apply list_elem_of_lookup_2 in Hi.
  - rewrite lookup_insert_ne in Hn by done. by apply Hok.
Qed.

(** The walk along [parent.get] from a discovered node ends, and yields
    the same list for every sufficient bound. *)
Lemma walk_get_total parent ord i n :
  parent_ok parent ord -> ord !! i = Some n ->
  exists p, forall fuel acc, (i < fuel)%nat ->
    walk_get fuel parent (Some n) acc = Ok (acc ++ p).
Proof.
  intros Hok. revert n. induction (lt_wf i) as [i _ IH]. intros n Hi.
  destruct (parent !! n) as [[c|]|] eqn:Hn.
  - destruct (Hok n c Hn) as (j & Hj & Hlt).
    destruct (IH j (Hlt i Hi) c Hj) as (p & Hp).
    exists (n :: p). intros fuel acc Hfuel. destruct fuel as [|fuel]; [lia|].
    cbn [walk_get]. rewrite Hn. cbn [default]. rewrite Hp by (specialize (Hlt i Hi); lia).
    by rewrite <-app_assoc.
  - exists [n]. intros fuel acc Hfuel. destruct fuel as [|fuel]; [lia|].
    cbn [walk_get]. rewrite Hn. cbn [default]. by destruct fuel.
  - exists [n]. intros fuel acc Hfuel. destruct fuel as [|fuel]; [lia|].
    cbn [walk_get]. rewrite Hn. cbn [default]. by destruct fuel.
Qed.

(** The walk along [parent[...]] ends without [KeyError] when every
    discovered node has an entry. *)
Lemma walk_getitem_total parent ord i n :
  parent_ok parent ord -> (forall v, v ∈ ord -> is_Some (parent !! v)) ->
  ord !! i = Some n ->
  exists p, forall fuel acc, (i < fuel)%nat ->
    walk_getitem fuel parent (Some n) acc = Ok (acc ++ p).
Proof.
  intros Hok Hdom. revert n. induction (lt_wf i) as [i _ IH]. intros n Hi.
  destruct (Hdom n) as [[c|] Hn]; [by apply list_elem_of_lookup_2 in Hi|..].
  - destruct (Hok n c Hn) as (j & Hj & Hlt).
    destruct (IH j (Hlt i Hi) c Hj) as (p & Hp).
    exists (n :: p). intros fuel acc Hfuel. destruct fuel as [|fuel]; [lia|].
    cbn [walk_getitem]. unfold getitem. rewrite Hn. cbn [mbind outcome_bind].
    rewrite Hp by (specialize (Hlt i Hi); lia). by rewrite <-app_assoc.
  - exists [n]. intros fuel acc Hfuel. destruct fuel as [|fuel]; [lia|].
    cbn [walk_getitem]. unfold getitem. rewrite Hn. cbn [mbind outcome_bind].
    by destruct fuel.
Qed.
End parents.

(** *** The work left for a search *)

Section measure.
Context `{Countable V}.
Implicit Types (g : Graph.t V) (vis : gset V).

(** Out-degree of a node. *)
Definition deg g (v : V) : nat := length (GraphNode.get_neighbors (Graph.deref g v)).

Definition total_deg g : nat := sum_list (deg g <$> Graph.get_all_nodes g).

(** Out-degrees of the nodes of the table that are not settled yet. *)
Definition pending g vis : nat :=
  sum_list (deg g <$> filter (fun v => v ∉ vis) (Graph.get_all_nodes g)).

(** Nodes of the table that are not discovered yet. *)
Definition unseen g vis : nat :=
  length (filter (fun v => v ∉ vis) (Graph.get_all_nodes g)).

Lemma deg_absent g v : v ∉ Graph.get_all_nodes g -> deg g v = 0%nat.
Proof.
  intros Hv%get_node_None. unfold deg, Graph.deref. by rewrite Hv.
Qed.

Lemma pending_empty g : pending g ∅ = total_deg g.
Proof.
  unfold pending, total_deg. f_equal. f_equal.
  induction (Graph.get_all_nodes g) as [|x l IH]; [done|].
  rewrite filter_cons_True by set_solver. by rewrite IH.
Qed.

Lemma pending_visit g vis v :
  v ∉ vis -> (pending g ({[v]} ∪ vis) + deg g v <= pending g vis)%nat.
Proof.
  intros Hv. destruct (decide (v ∈ Graph.get_all_nodes g)) as [Hin|Hnin].
  - unfold pending. induction (Graph.get_all_nodes g) as [|x l IH].
    { by apply elem_of_nil in Hin. }
    assert (forall l, sum_list (deg g <$> filter (fun v0 => v0 ∉ {[v]} ∪ vis) l) <=
                      sum_list (deg g <$> filter (fun v0 => v0 ∉ vis) l))%nat as Hmono.
    { clear. intros l. induction l as [|y l IH]; [done|].
      rewrite !filter_cons. destruct (decide (y ∉ {[v]} ∪ vis)) as [Hy|Hy].
      - rewrite decide_True by set_solver. csimpl. lia.
      - destruct (decide (y ∉ vis)); csimpl; lia. }
    rewrite !filter_cons. destruct (decide (x = v)) as [->|Hne].
    + rewrite decide_False by set_solver. rewrite decide_True by done.
      csimpl. specialize (Hmono l). lia.
    + apply elem_of_cons in Hin as [->|Hin]; [done|]. specialize (IH Hin).
      destruct (decide (x ∉ vis)) as [Hx|Hx].
      * rewrite decide_True by set_solver. csimpl. lia.
      * rewrite decide_False by set_solver. done.
  - rewrite deg_absent by done. unfold pending.
    replace (filter (fun v0 => v0 ∉ {[v]} ∪ vis) (Graph.get_all_nodes g))
      with (filter (fun v0 => v0 ∉ vis) (Graph.get_all_nodes g)); [lia|].
    revert Hnin. induction (Graph.get_all_nodes g) as [|x l IH]; [done|].
    rewrite not_elem_of_cons. intros [Hxv Hl]. rewrite !filter_cons.
    destruct (decide (x ∉ vis)).
    + rewrite decide_True by set_solver. by rewrite IH.
    + rewrite decide_False by set_solver. by apply IH.
Qed.

Lemma unseen_visit g vis v :
  v ∈ Graph.get_all_nodes g -> v ∉ vis ->
  (unseen g ({[v]} ∪ vis) < unseen g vis)%nat.
Proof.
  intros Hin Hv. unfold unseen. induction (Graph.get_all_nodes g) as [|x l IH].
  { by apply elem_of_nil in Hin. }
  assert (forall l, length (filter (fun v0 => v0 ∉ {[v]} ∪ vis) l) <=
                    length (filter (fun v0 => v0 ∉ vis) l))%nat as Hmono.
  { clear. intros l. induction l as [|y l IH]; [done|].
    rewrite !filter_cons. destruct (decide (y ∉ {[v]} ∪ vis)) as [Hy|Hy].
    - rewrite decide_True by set_solver. csimpl. lia.
    - destruct (decide (y ∉ vis)); csimpl; lia. }
  rewrite !filter_cons. destruct (decide (x = v)) as [->|Hne].
  - rewrite decide_False by set_solver. rewrite decide_True by done.
    csimpl. specialize (Hmono l). lia.
  - apply elem_of_cons in Hin as [->|Hin]; [done|]. specialize (IH Hin).
    destruct (decide (x ∉ vis)) as [Hx|Hx].
    + rewrite decide_True by set_solver. csimpl. lia.
    + rewrite decide_False by set_solver. done.
Qed.

(** One iteration bound for every search on [g]. *)
Definition search_bound g : nat :=
  (2 * (1 + length (Graph.get_all_nodes g) + total_deg g) + 2)%nat.
End measure.

(** ** A-star: the loop invariant and the total-correctness rule *)

Lemma wf_neighbors_nodes `{Countable V} (g : Graph.t V) (v nb : V) :
  Graph.wf g -> nb ∈ GraphNode.get_neighbors (Graph.deref g v) ->
  nb ∈ Graph.get_all_nodes g.
Proof.
  intros [_ Hall]. unfold Graph.deref.
  destruct (Graph.get_node g v) as [n|] eqn:Hn; cbn [default].
  - apply lookup_node_elem in Hn. rewrite Forall_forall in Hall.
    destruct (Hall n Hn) as [_ Hin]. rewrite Forall_forall in Hin. apply Hin.
  - intros Hin. by apply elem_of_nil in Hin.
Qed.

Section astar_facts.
Context `{Countable V}.
Variable g : Graph.t V.
Variable heuristic : V -> V -> Z.
Variable goal goal_value : V.
Hypothesis Hwf : Graph.wf g.

Implicit Types (st : astar_state V) (pq : PriorityQueue.t V).

(** The state after a stale entry was discarded. *)
Definition astar_skip st pq : astar_state V :=
  {| a_pq := pq; a_visited := a_visited st; a_g_score := a_g_score st;
     a_f_score := a_f_score st; a_parent := a_parent st;
     a_visited_order := a_visited_order st |}.

(** The state after [current] was marked visited. *)
Definition astar_visit st pq (current : V) : astar_state V :=
  {| a_pq := pq; a_visited := {[current]} ∪ a_visited st;
     a_g_score := a_g_score st; a_f_score := a_f_score st;
     a_parent := a_parent st;
     a_visited_order := a_visited_order st ++ [current] |}.

Definition astar_fail st : Result V :=
  {| found := false; path := []; cost := Some Inf;
     visited := a_visited_order st; nodes_explored := size (a_visited st) |}.

Definition astar_success st (current : V) (p : list V) (c : ext) : Result V :=
  {| found := true; path := reverse p; cost := Some c;
     visited := a_visited_order st ++ [current];
     nodes_explored := size ({[current]} ∪ a_visited st) |}.

Lemma astar_loop_unfold fuel st :
  astar_loop (S fuel) g heuristic goal goal_value st =
  if PriorityQueue.is_empty (a_pq st) then Ok (astar_fail st)
  else
    '((current_f, current), pq) ← PriorityQueue.extract_min (a_pq st);
    if decide (current ∈ a_visited st) then
      astar_loop fuel g heuristic goal goal_value (astar_skip st pq)
    else if decide (current = goal) then
      p ← walk_get fuel (a_parent st) (Some goal) [];
      c ← getitem (a_g_score st) goal;
      Ok (astar_success st current p c)
    else
      st' ← for_each (astar_neighbor g heuristic goal_value current)
              (GraphNode.get_neighbors (Graph.deref g current))
              (astar_visit st pq current);
      astar_loop fuel g heuristic goal goal_value st'.
Proof. done. Qed.

Record astar_inv st : Prop := {
  ai_pq : pq_wf (a_pq st);
  ai_nodes : forall x, x ∈ PriorityQueue._heap (a_pq st) ->
               snd x ∈ Graph.get_all_nodes g;
  ai_dom : forall v, v ∈ Graph.get_all_nodes g -> is_Some (a_g_score st !! v);
  ai_visited : a_visited st = list_to_set (a_visited_order st);
  ai_nodup : NoDup (a_visited_order st);
  ai_parent : parent_ok (a_parent st) (a_visited_order st)
}.

Definition astar_measure st : nat :=
  (length (PriorityQueue._heap (a_pq st)) + pending g (a_visited st))%nat.

Lemma astar_inv_visited st v :
  astar_inv st -> v ∈ a_visited st <-> v ∈ a_visited_order st.
Proof. intros Hinv. rewrite (ai_visited _ Hinv). apply elem_of_list_to_set. Qed.

Lemma astar_inv_size st :
  astar_inv st -> size (a_visited st) = length (a_visited_order st).
Proof.
  intros Hinv. rewrite (ai_visited _ Hinv). apply size_list_to_set, Hinv.
Qed.

Lemma astar_inv_skip st x pq :
  astar_inv st -> PriorityQueue.extract_min (a_pq st) = Ok (x, pq) ->
  astar_inv (astar_skip st pq) /\
  PriorityQueue._heap (a_pq st) ≡ₚ x :: PriorityQueue._heap pq /\
  snd x ∈ Graph.get_all_nodes g.
Proof.
  intros Hinv Hx.
  destruct (PriorityQueue.is_empty (a_pq st)) eqn:He.
  { unfold PriorityQueue.extract_min in Hx. by rewrite He in Hx. }
  destruct (extract_min_spec _ (ai_pq _ Hinv) He) as (x' & pq' & Hx' & Hpq & Hp & _).
  rewrite Hx in Hx'. injection Hx' as <- <-.
  assert (forall y, y ∈ PriorityQueue._heap pq -> snd y ∈ Graph.get_all_nodes g) as Hn.
  { intros y Hy. apply (ai_nodes _ Hinv). rewrite Hp. by right. }
  split_and!; [|done|apply (ai_nodes _ Hinv); rewrite Hp; left].
  destruct Hinv. by constructor.
Qed.

Lemma astar_inv_visit st pq current :
  astar_inv (astar_skip st pq) -> current ∉ a_visited st ->
  astar_inv (astar_visit st pq current).
Proof.
  intros Hinv Hcur.
  assert (current ∉ a_visited_order st) as Hcur'.
  { by rewrite <-(astar_inv_visited (astar_skip st pq)). }
  destruct Hinv as [Hpq Hn Hdom Hvis Hnd Hpar]. cbn in Hpq, Hn, Hdom, Hvis, Hnd, Hpar.
  constructor; cbn; try done.
  - rewrite list_to_set_app_L, Hvis. set_solver.
  - apply NoDup_app. split_and!; [done| |apply NoDup_singleton].
    intros x Hx ->%list_elem_of_singleton. done.
  - by apply parent_ok_snoc.
Qed.

(** One iteration of the [for] loop over the neighbours. *)
Lemma astar_neighbor_Ok current st nb :
  astar_inv st -> current ∈ a_visited_order st ->
  current ∈ Graph.get_all_nodes g -> nb ∈ Graph.get_all_nodes g ->
  exists st', astar_neighbor g heuristic goal_value current st nb = Ok st' /\
    astar_inv st' /\ a_visited st' = a_visited st /\
    a_visited_order st' = a_visited_order st /\
    (length (PriorityQueue._heap (a_pq st')) <=
     S (length (PriorityQueue._heap (a_pq st))))%nat.
Proof.
  intros Hinv Hcur Hcn Hnb. unfold astar_neighbor.
  destruct (decide (nb ∈ a_visited st)) as [Hv|Hv].
  { exists st. split_and!; try done. lia. }
  destruct (ai_dom _ Hinv _ Hcn) as [gc Hgc]. destruct (ai_dom _ Hinv _ Hnb) as [gn Hgn].
  unfold getitem. rewrite Hgc, Hgn. cbn [mbind outcome_bind].
  destruct (ext_ltb _ gn).
  2:{ exists st. split_and!; try done. lia. }
  rewrite !lookup_insert_eq. cbn [mbind outcome_bind].
  rewrite !lookup_insert_eq. cbn [mbind outcome_bind].
  eexists. split; [done|]. cbn.
  match goal with |- context [PriorityQueue.insert _ nb ?f] =>
    destruct (insert_spec (a_pq st) nb f (ai_pq _ Hinv)) as [Hpq' Hperm] end.
  split_and!; try done.
  - destruct Hinv as [Hpq Hn Hdom Hvis Hnd Hpar]. constructor; cbn; try done.
    + intros x. rewrite Hperm. intros [->|Hx]%elem_of_cons; [done|]. by apply Hn.
    + intros v Hvn. destruct (decide (v = nb)) as [->|Hne].
      * rewrite lookup_insert_eq. by eexists.
      * rewrite lookup_insert_ne by done. by apply Hdom.
    + apply parent_ok_insert; [|done|done].
      rewrite Hvis in Hv. by rewrite elem_of_list_to_set in Hv.
  - apply Permutation_length in Hperm. rewrite Hperm. simpl. lia.
Qed.

Lemma astar_expand_Ok st pq current :
  astar_inv (astar_visit st pq current) -> current ∈ Graph.get_all_nodes g ->
  exists st',
    for_each (astar_neighbor g heuristic goal_value current)
      (GraphNode.get_neighbors (Graph.deref g current))
      (astar_visit st pq current) = Ok st' /\
    astar_inv st' /\ a_visited st' = {[current]} ∪ a_visited st /\
    a_visited_order st' = a_visited_order st ++ [current] /\
    (length (PriorityQueue._heap (a_pq st')) <=
     length (PriorityQueue._heap pq) + deg g current)%nat.
Proof.
  intros Hinv Hcn.
  destruct (for_each_Ok
    (fun l1 s => astar_inv s /\ a_visited s = {[current]} ∪ a_visited st /\
       a_visited_order s = a_visited_order st ++ [current] /\
       (length (PriorityQueue._heap (a_pq s)) <=
        length (PriorityQueue._heap pq) + length l1)%nat)
    (astar_neighbor g heuristic goal_value current)
    (GraphNode.get_neighbors (Graph.deref g current))
    (astar_visit st pq current)) as (st' & Hrun & HP).
  - intros l1 x l2 s Hl (Hs & Hv & Hvo & Hlen).
    destruct (astar_neighbor_Ok current s x Hs) as (s' & Hs' & Hinv' & Hv' & Hvo' & Hlen').
    + rewrite Hvo. apply elem_of_app. right. left.
    + done.
    + apply (wf_neighbors_nodes g current); [done|]. rewrite Hl.
      apply elem_of_app. right. left.
    + exists s'. split; [done|]. rewrite Hv', Hvo', length_app. cbn.
      split_and!; try done. lia.
  - cbn. split_and!; try done. lia.
  - exists st'. split; [done|]. unfold deg. tauto.
Qed.

(** The total-correctness rule of the loop: an extra invariant [J] that
    is kept by the three ways an iteration can go, and that gives [Post]
    on both exits, gives a result satisfying [Post] for every iteration
    bound above the measure of the state. *)
Lemma astar_loop_total (J : astar_state V -> Prop) (Post : Result V -> Prop) :
  (forall st, astar_inv st -> J st -> PriorityQueue.is_empty (a_pq st) = true ->
     Post (astar_fail st)) ->
  (forall st f current pq, astar_inv st -> J st ->
     PriorityQueue.extract_min (a_pq st) = Ok ((f, current), pq) ->
     current ∈ a_visited st -> J (astar_skip st pq)) ->
  (forall st f pq p c, astar_inv st -> J st ->
     PriorityQueue.extract_min (a_pq st) = Ok ((f, goal), pq) ->
     goal ∉ a_visited st ->
     walk_get (S (length (a_visited_order st))) (a_parent st) (Some goal) [] = Ok p ->
     a_g_score st !! goal = Some c ->
     Post (astar_success st goal p c)) ->
  (forall st f current pq st', astar_inv st -> J st ->
     PriorityQueue.extract_min (a_pq st) = Ok ((f, current), pq) ->
     current ∉ a_visited st -> current ≠ goal ->
     for_each (astar_neighbor g heuristic goal_value current)
       (GraphNode.get_neighbors (Graph.deref g current))
       (astar_visit st pq current) = Ok st' ->
     astar_inv st' -> J st') ->
  forall m st, astar_inv st -> J st ->
    (2 * astar_measure st + length (a_visited_order st) <= m)%nat ->
    exists r, Post r /\
      forall fuel, (m < fuel)%nat ->
        astar_loop fuel g heuristic goal goal_value st = Ok r.
Proof.
  intros Hempty Hskip Hgoal Hexpand m.
  induction m as [|m IH]; intros st Hinv HJ Hm.
  - assert (PriorityQueue._heap (a_pq st) = []) as Hnil.
    { unfold astar_measure in Hm. destruct (PriorityQueue._heap (a_pq st)); [done|].
      simpl in Hm. lia. }
    assert (PriorityQueue.is_empty (a_pq st) = true) as He.
    { destruct (ai_pq _ Hinv) as [Hsz _]. rewrite Hnil in Hsz. by apply Nat.eqb_eq. }
    exists (astar_fail st). split; [by apply Hempty|].
    intros [|fuel] Hfuel; [lia|]. by rewrite astar_loop_unfold, He.
  - destruct (PriorityQueue.is_empty (a_pq st)) eqn:He.
    { exists (astar_fail st). split; [by apply Hempty|].
      intros [|fuel] Hfuel; [lia|]. by rewrite astar_loop_unfold, He. }
    destruct (extract_min_spec _ (ai_pq _ Hinv) He)
      as ([f current] & pq & Hx & _ & _ & _).
    destruct (astar_inv_skip st _ pq Hinv Hx) as (Hinv1 & Hperm & Hcn).
    apply Permutation_length in Hperm. cbn in Hperm, Hcn.
    destruct (decide (current ∈ a_visited st)) as [Hv|Hv].
    { destruct (IH (astar_skip st pq) Hinv1) as (r & Hr & Hrun).
      - by apply (Hskip st f current pq).
      - unfold astar_measure in *. cbn. lia.
      - exists r. split; [done|]. intros [|fuel] Hfuel; [lia|].
        rewrite astar_loop_unfold, He, Hx. cbn [mbind outcome_bind].
        rewrite decide_True by done. apply Hrun. lia. }
    pose proof (astar_inv_visit st pq current Hinv1 Hv) as Hinv2.
    destruct (decide (current = goal)) as [->|Hne].
    { destruct (walk_get_total (a_parent st) (a_visited_order st ++ [goal])
                  (length (a_visited_order st)) goal) as (p & Hp).
      - apply (ai_parent _ Hinv2).
      - by rewrite lookup_app_r, Nat.sub_diag.
      - destruct (ai_dom _ Hinv goal Hcn) as [c Hc].
        exists (astar_success st goal p c). split.
        + apply (Hgoal st f pq p c); try done. apply (Hp _ []). lia.
        + intros [|fuel] Hfuel; [lia|].
          rewrite astar_loop_unfold, He, Hx. cbn [mbind outcome_bind].
          rewrite decide_False by done. rewrite decide_True by done.
          rewrite (Hp fuel []) by (unfold astar_measure in Hm; lia).
          unfold getitem. rewrite Hc. done. }
    destruct (astar_expand_Ok st pq current Hinv2 Hcn)
      as (st' & Hrun & Hinv' & Hv' & Hvo' & Hlen).
    destruct (IH st' Hinv') as (r & Hr & Hloop).
    + by apply (Hexpand st f current pq st').
    + pose proof (pending_visit g (a_visited st) current Hv) as Hpend.
      unfold astar_measure in *. rewrite Hv', Hvo', length_app. cbn. lia.
    + exists r. split; [done|]. intros [|fuel] Hfuel; [lia|].
      rewrite astar_loop_unfold, He, Hx. cbn [mbind outcome_bind].
      rewrite !decide_False by done. rewrite Hrun. cbn [mbind outcome_bind].
      apply Hloop. lia.
Qed.
End astar_facts.

Section astar_top.
Context `{Countable V}.
Variable g : Graph.t V.
Variable heuristic : V -> V -> Z.
Hypothesis Hwf : Graph.wf g.

Definition astar_init (start_value goal_value : V) : astar_state V :=
  {| a_pq := PriorityQueue.insert PriorityQueue.empty start_value
               (Fin (heuristic start_value goal_value));
     a_visited := ∅;
     a_g_score := <[start_value := Fin 0]> (all_inf g);
     a_f_score := <[start_value := Fin (heuristic start_value goal_value)]> (all_inf g);
     a_parent := {[start_value := None]};
     a_visited_order := [] |}.

Lemma all_inf_lookup (v : V) :
  all_inf g !! v = if decide (v ∈ Graph.get_all_nodes g) then Some Inf else None.
Proof.
  unfold all_inf. induction (Graph.get_all_nodes g) as [|x l IH]; [done|].
  cbn [map list_to_map foldr]. destruct (decide (v = x)) as [->|Hne].
  - rewrite lookup_insert_eq. rewrite decide_True; [done|left].
  - rewrite lookup_insert_ne by done. rewrite IH.
    destruct (decide (v ∈ l)).
    + rewrite decide_True; [done|by right].
    + rewrite decide_False; [done|]. rewrite not_elem_of_cons. done.
Qed.

Lemma astar_unfold fuel (start_value goal_value : V) :
  start_value ∈ Graph.get_all_nodes g -> goal_value ∈ Graph.get_all_nodes g ->
  astar fuel g start_value goal_value heuristic =
  astar_loop fuel g heuristic goal_value goal_value (astar_init start_value goal_value).
Proof.
  intros [ns Hs]%get_node_is_Some [nt Ht]%get_node_is_Some. unfold astar.
  rewrite Hs, Ht. rewrite (get_node_value _ _ _ Hs), (get_node_value _ _ _ Ht).
  unfold getitem. by rewrite lookup_insert_eq.
Qed.

Lemma astar_init_inv (start_value goal_value : V) :
  start_value ∈ Graph.get_all_nodes g ->
  astar_inv g (astar_init start_value goal_value).
Proof.
  intros Hs.
  destruct (insert_spec (@PriorityQueue.empty V) start_value
              (Fin (heuristic start_value goal_value)) pq_wf_empty) as [Hpq Hperm].
  constructor; cbn.
  - done.
  - intros x. rewrite Hperm. by intros ->%list_elem_of_singleton.
  - intros v Hv. destruct (decide (v = start_value)) as [->|Hne].
    + rewrite lookup_insert_eq. by eexists.
    + rewrite lookup_insert_ne by done. rewrite all_inf_lookup, decide_True by done.
      by eexists.
  - done.
  - apply NoDup_nil_2.
  - intros n c Hn. apply lookup_singleton_Some in Hn as [_ [=]].
Qed.

Lemma astar_init_measure (start_value goal_value : V) :
  (2 * astar_measure g (astar_init start_value goal_value) +
   length (a_visited_order (astar_init start_value goal_value)) < search_bound g)%nat.
Proof.
  destruct (insert_spec (@PriorityQueue.empty V) start_value
              (Fin (heuristic start_value goal_value)) pq_wf_empty) as [_ Hperm].
  apply Permutation_length in Hperm.
  unfold astar_measure, search_bound. cbn [astar_init a_pq a_visited a_visited_order].
  rewrite Hperm, pending_empty. simpl. lia.
Qed.

(** A-star on present endpoints: the rule of the loop at the initial
    state, with the iteration bound of the graph. *)
Lemma astar_total (J : astar_state V -> Prop) (Post : Result V -> Prop)
    (start_value goal_value : V) :
  start_value ∈ Graph.get_all_nodes g -> goal_value ∈ Graph.get_all_nodes g ->
  J (astar_init start_value goal_value) ->
  (forall st, astar_inv g st -> J st -> PriorityQueue.is_empty (a_pq st) = true ->
     Post (astar_fail st)) ->
  (forall st f current pq, astar_inv g st -> J st ->
     PriorityQueue.extract_min (a_pq st) = Ok ((f, current), pq) ->
     current ∈ a_visited st -> J (astar_skip st pq)) ->
  (forall st f pq p c, astar_inv g st -> J st ->
     PriorityQueue.extract_min (a_pq st) = Ok ((f, goal_value), pq) ->
     goal_value ∉ a_visited st ->
     walk_get (S (length (a_visited_order st))) (a_parent st) (Some goal_value) [] = Ok p ->
     a_g_score st !! goal_value = Some c ->
     Post (astar_success st goal_value p c)) ->
  (forall st f current pq st', astar_inv g st -> J st ->
     PriorityQueue.extract_min (a_pq st) = Ok ((f, current), pq) ->
     current ∉ a_visited st -> current ≠ goal_value ->
     for_each (astar_neighbor g heuristic goal_value current)
       (GraphNode.get_neighbors (Graph.deref g current))
       (astar_visit st pq current) = Ok st' ->
     astar_inv g st' -> J st') ->
  exists r, Post r /\
    forall fuel, (search_bound g <= fuel)%nat ->
      astar fuel g start_value goal_value heuristic = Ok r.
Proof.
  intros Hs Ht HJ Hempty Hskip Hgoal Hexpand.
  destruct (astar_loop_total g heuristic goal_value goal_value Hwf J Post
              Hempty Hskip Hgoal Hexpand (search_bound g - 1)
              (astar_init start_value goal_value)) as (r & Hr & Hrun).
  - by apply astar_init_inv.
  - done.
  - pose proof (astar_init_measure start_value goal_value). lia.
  - exists r. split; [done|]. intros fuel Hfuel. rewrite astar_unfold by done.
    apply Hrun. unfold search_bound in *. lia.
Qed.

(** Every node is settled once, and the count is the count of settled
    nodes. *)
Definition settled_once (r : Result V) : Prop :=
  NoDup (visited r) /\ nodes_explored r = length (visited r).

Lemma astar_terminates (start_value goal_value : V) :
  exists r, settled_once r /\
    forall fuel, (search_bound g <= fuel)%nat ->
      astar fuel g start_value goal_value heuristic = Ok r.
Proof.
  destruct (decide (start_value ∈ Graph.get_all_nodes g)) as [Hs|Hs];
    [destruct (decide (goal_value ∈ Graph.get_all_nodes g)) as [Ht|Ht]|].
  - apply (astar_total (fun _ => True)); try done.
    + intros st Hinv _ _. split; [apply Hinv|]. by apply (astar_inv_size g).
    + intros st f pq p c Hinv _ _ Hv _ _.
      assert (goal_value ∉ a_visited_order st) as Hv'
        by by rewrite <-(astar_inv_visited g st).
      split; cbn.
      * apply NoDup_app. split_and!; [apply Hinv| |apply NoDup_singleton].
        intros x Hx ->%list_elem_of_singleton. done.
      * rewrite size_union by set_solver. rewrite size_singleton, length_app.
        rewrite (astar_inv_size g st Hinv). simpl. lia.
  - exists (mkResult false [] (Some Inf) [] 0%nat). split.
    + split; [apply NoDup_nil_2|done].
    + intros fuel _. unfold astar. apply get_node_None in Ht. rewrite Ht.
      by destruct (Graph.get_node g start_value).
  - exists (mkResult false [] (Some Inf) [] 0%nat). split.
    + split; [apply NoDup_nil_2|done].
    + intros fuel _. unfold astar. apply get_node_None in Hs. by rewrite Hs.
Qed.

End astar_top.

(** ** Breadth-first search: the loop invariant and its rule *)

Lemma parent_ok_insert_snoc `{Countable V} (parent : gmap V (option V))
    (ord : list V) (x c : V) :
  x ∉ ord -> c ∈ ord -> parent_ok parent ord ->
  parent_ok (<[x := Some c]> parent) (ord ++ [x]).
Proof.
  intros Hx Hc Hok n c' Hn. destruct (decide (n = x)) as [->|Hne].
  - rewrite lookup_insert_eq in Hn. injection Hn as <-.
    apply list_elem_of_lookup in Hc as [j Hj]. exists j.
    split; [by apply lookup_app_l_Some|].
    intros i Hi. apply lookup_app_Some in Hi as [Hi|[Hlen Hi]].
    + exfalso. apply Hx. by apply list_elem_of_lookup_2 in Hi.
    + apply lookup_lt_Some in Hj. lia.
  - rewrite lookup_insert_ne in Hn by done. by apply (parent_ok_snoc parent ord x Hx Hok).
Qed.

Section bfs_facts.
Context `{Countable V}.
Variable g : Graph.t V.
Variable goal : V.
Hypothesis Hwf : Graph.wf g.

Implicit Types (st : bfs_state V) (q : Queue.t V).

Definition bfs_dequeued st q : bfs_state V :=
  {| b_queue := q; b_visited := b_visited st; b_parent := b_parent st;
     b_visited_order := b_visited_order st |}.

Definition bfs_fail st : Result V :=
  {| found := false; path := []; cost := None;
     visited := b_visited_order st; nodes_explored := size (b_visited st) |}.

Definition bfs_success st (p : list V) : Result V :=
  {| found := true; path := reverse p; cost := None;
     visited := b_visited_order st; nodes_explored := size (b_visited st) |}.

Lemma bfs_loop_unfold fuel st :
  bfs_loop (S fuel) g goal st =
  if Queue.is_empty (b_queue st) then Ok (bfs_fail st)
  else
    '(current, queue) ← Queue.dequeue (b_queue st);
    if decide (current = goal) then
      p ← walk_getitem fuel (b_parent st) (Some goal) [];
      Ok (bfs_success st p)
    else
      st' ← for_each (bfs_neighbor current)
              (GraphNode.get_neighbors (Graph.deref g current))
              (bfs_dequeued st queue);
      bfs_loop fuel g goal st'.
Proof. done. Qed.

Record bfs_inv st : Prop := {
  bi_visited : b_visited st = list_to_set (b_visited_order st);
  bi_nodup : NoDup (b_visited_order st);
  bi_parent : parent_ok (b_parent st) (b_visited_order st);
  bi_dom : forall v, v ∈ b_visited_order st -> is_Some (b_parent st !! v);
  bi_queue : forall v, v ∈ Queue._front (b_queue st) -> v ∈ b_visited_order st
}.

(** Work left: the queue, twice the undiscovered nodes, and the length
    of the list the path walk may have to cross. *)
Definition bfs_measure st : nat :=
  (length (Queue._front (b_queue st)) + 2 * unseen g (b_visited st) +
   length (b_visited_order st))%nat.

Lemma bfs_inv_size st : bfs_inv st -> size (b_visited st) = length (b_visited_order st).
Proof. intros Hinv. rewrite (bi_visited _ Hinv). apply size_list_to_set, Hinv. Qed.

Lemma bfs_neighbor_Ok current st nb :
  bfs_inv st -> current ∈ b_visited_order st -> nb ∈ Graph.get_all_nodes g ->
  exists st', bfs_neighbor current st nb = Ok st' /\ bfs_inv st' /\
    current ∈ b_visited_order st' /\ (bfs_measure st' <= bfs_measure st)%nat.
Proof.
  intros Hinv Hcur Hnb. unfold bfs_neighbor.
  destruct (decide (nb ∉ b_visited st)) as [Hv|Hv]; [|by exists st].
  eexists. split; [done|].
  assert (nb ∉ b_visited_order st) as Hv'.
  { rewrite (bi_visited _ Hinv) in Hv. by rewrite elem_of_list_to_set in Hv. }
  destruct Hinv as [Hvis Hnd Hpar Hdom Hq]. split_and!.
  - constructor; cbn.
    + rewrite list_to_set_app_L, Hvis. set_solver.
    + apply NoDup_app. split_and!; [done| |apply NoDup_singleton].
      intros x Hx ->%list_elem_of_singleton. done.
    + by apply parent_ok_insert_snoc.
    + intros v [Hin| ->%list_elem_of_singleton]%elem_of_app.
      * destruct (decide (v = nb)) as [->|Hne]; [done|].
        rewrite lookup_insert_ne by done. by apply Hdom.
      * rewrite lookup_insert_eq. by eexists.
    + intros v [Hin| ->%list_elem_of_singleton]%elem_of_app; apply elem_of_app;
        [left; by apply Hq|right; left].
  - cbn. apply elem_of_app. by left.
  - pose proof (unseen_visit g (b_visited st) nb Hnb Hv) as Hlt.
    unfold bfs_measure. cbn. rewrite !length_app. simpl. lia.
Qed.

Lemma bfs_expand_Ok st q current :
  bfs_inv (bfs_dequeued st q) -> current ∈ b_visited_order st ->
  exists st',
    for_each (bfs_neighbor current)
      (GraphNode.get_neighbors (Graph.deref g current)) (bfs_dequeued st q) = Ok st' /\
    bfs_inv st' /\ (bfs_measure st' <= bfs_measure (bfs_dequeued st q))%nat.
Proof.
  intros Hinv Hcur.
  destruct (for_each_Ok
    (fun (_ : list V) s => bfs_inv s /\ current ∈ b_visited_order s /\
       (bfs_measure s <= bfs_measure (bfs_dequeued st q))%nat)
    (bfs_neighbor current)
    (GraphNode.get_neighbors (Graph.deref g current))
    (bfs_dequeued st q)) as (st' & Hrun & HP).
  - intros l1 x l2 s Hl (Hs & Hc & Hm).
    destruct (bfs_neighbor_Ok current s x Hs Hc) as (s' & Hs' & Hinv' & Hc' & Hm').
    + apply (wf_neighbors_nodes g current); [done|]. rewrite Hl.
      apply elem_of_app. right. left.
    + exists s'. split_and!; try done. lia.
  - done.
  - exists st'. tauto.
Qed.

Lemma bfs_dequeue_inv st current q :
  bfs_inv st -> Queue.dequeue (b_queue st) = Ok (current, q) ->
  bfs_inv (bfs_dequeued st q) /\ current ∈ b_visited_order st /\
  Queue._front (b_queue st) = current :: Queue._front q.
Proof.
  intros [Hvis Hnd Hpar Hdom Hq]. unfold Queue.dequeue.
  destruct (Queue._front (b_queue st)) as [|x l] eqn:Hf; [done|].
  intros [= -> <-]. split_and!; [|apply Hq; left|done].
  constructor; cbn; try done. intros v Hv. apply Hq. by right.
Qed.

Lemma bfs_loop_total (J : bfs_state V -> Prop) (Post : Result V -> Prop) :
  (forall st, bfs_inv st -> J st -> Queue.is_empty (b_queue st) = true ->
     Post (bfs_fail st)) ->
  (forall st q p, bfs_inv st -> J st ->
     Queue.dequeue (b_queue st) = Ok (goal, q) ->
     walk_getitem (length (b_visited_order st)) (b_parent st) (Some goal) [] = Ok p ->
     Post (bfs_success st p)) ->
  (forall st current q st', bfs_inv st -> J st ->
     Queue.dequeue (b_queue st) = Ok (current, q) -> current ≠ goal ->
     for_each (bfs_neighbor current)
       (GraphNode.get_neighbors (Graph.deref g current)) (bfs_dequeued st q) = Ok st' ->
     bfs_inv st' -> J st') ->
  forall m st, bfs_inv st -> J st -> (bfs_measure st <= m)%nat ->
    exists r, Post r /\
      forall fuel, (m < fuel)%nat -> bfs_loop fuel g goal st = Ok r.
Proof.
  intros Hempty Hgoal Hexpand m.
  induction m as [|m IH]; intros st Hinv HJ Hm.
  - assert (Queue._front (b_queue st) = []) as Hnil.
    { unfold bfs_measure in Hm. destruct (Queue._front (b_queue st)); [done|].
      simpl in Hm. lia. }
    assert (Queue.is_empty (b_queue st) = true) as He.
    { unfold Queue.is_empty. by rewrite Hnil. }
    exists (bfs_fail st). split; [by apply Hempty|].
    intros [|fuel] Hfuel; [lia|]. by rewrite bfs_loop_unfold, He.
  - destruct (Queue.is_empty (b_queue st)) eqn:He.
    { exists (bfs_fail st). split; [by apply Hempty|].
      intros [|fuel] Hfuel; [lia|]. by rewrite bfs_loop_unfold, He. }
    assert (exists current q, Queue.dequeue (b_queue st) = Ok (current, q))
      as (current & q & Hx).
    { unfold Queue.is_empty in He. unfold Queue.dequeue.
      destruct (Queue._front (b_queue st)); [done|]. by eexists _, _. }
    destruct (bfs_dequeue_inv st current q Hinv Hx) as (Hinv1 & Hcur & Hfront).
    destruct (decide (current = goal)) as [->|Hne].
    { apply list_elem_of_lookup in Hcur as [i Hi].
      destruct (walk_getitem_total (b_parent st) (b_visited_order st) i goal)
        as (p & Hp); [apply Hinv|apply Hinv|done|].
      pose proof (lookup_lt_Some _ _ _ Hi) as Hlen.
      exists (bfs_success st p). split.
      - apply (Hgoal st q p); try done. by apply (Hp _ []).
      - intros [|fuel] Hfuel; [lia|].
        rewrite bfs_loop_unfold, He, Hx. cbn [mbind outcome_bind].
        rewrite decide_True by done.
        rewrite (Hp fuel []) by (unfold bfs_measure in Hm; lia). done. }
    destruct (bfs_expand_Ok st q current Hinv1 Hcur) as (st' & Hrun & Hinv' & Hm').
    destruct (IH st' Hinv') as (r & Hr & Hloop).
    + by apply (Hexpand st current q st').
    + unfold bfs_measure in *. cbn in Hm'. rewrite Hfront in Hm. simpl in Hm. lia.
    + exists r. split; [done|]. intros [|fuel] Hfuel; [lia|].
      rewrite bfs_loop_unfold, He, Hx. cbn [mbind outcome_bind].
      rewrite decide_False by done. rewrite Hrun. cbn [mbind outcome_bind].
      apply Hloop. lia.
Qed.
End bfs_facts.

Section bfs_top.
Context `{Countable V}.
Variable g : Graph.t V.
Hypothesis Hwf : Graph.wf g.

Definition bfs_init (start_value : V) : bfs_state V :=
  {| b_queue := Queue.enqueue Queue.empty start_value;
     b_visited := {[start_value]};
     b_parent := {[start_value := None]};
     b_visited_order := [start_value] |}.

Lemma bfs_unfold fuel (start_value goal_value : V) :
  start_value ∈ Graph.get_all_nodes g -> goal_value ∈ Graph.get_all_nodes g ->
  breadth_first_search fuel g start_value goal_value =
  bfs_loop fuel g goal_value (bfs_init start_value).
Proof.
  intros [ns Hs]%get_node_is_Some [nt Ht]%get_node_is_Some.
  unfold breadth_first_search.
  rewrite Hs, Ht. by rewrite (get_node_value _ _ _ Hs), (get_node_value _ _ _ Ht).
Qed.

Lemma bfs_init_inv (start_value : V) : bfs_inv (bfs_init start_value).
Proof.
  constructor; cbn.
  - set_solver.
  - apply NoDup_singleton.
  - intros n c Hn. apply lookup_singleton_Some in Hn as [_ [=]].
  - intros v ->%list_elem_of_singleton. rewrite lookup_singleton_eq. by eexists.
  - done.
Qed.

Lemma unseen_le (vis : gset V) : (unseen g vis <= length (Graph.get_all_nodes g))%nat.
Proof. unfold unseen. apply length_filter. Qed.

Lemma bfs_total (J : bfs_state V -> Prop) (Post : Result V -> Prop)
    (start_value goal_value : V) :
  start_value ∈ Graph.get_all_nodes g -> goal_value ∈ Graph.get_all_nodes g ->
  J (bfs_init start_value) ->
  (forall st, bfs_inv st -> J st -> Queue.is_empty (b_queue st) = true ->
     Post (bfs_fail st)) ->
  (forall st q p, bfs_inv st -> J st ->
     Queue.dequeue (b_queue st) = Ok (goal_value, q) ->
     walk_getitem (length (b_visited_order st)) (b_parent st) (Some goal_value) [] = Ok p ->
     Post (bfs_success st p)) ->
  (forall st current q st', bfs_inv st -> J st ->
     Queue.dequeue (b_queue st) = Ok (current, q) -> current ≠ goal_value ->
     for_each (bfs_neighbor current)
       (GraphNode.get_neighbors (Graph.deref g current)) (bfs_dequeued st q) = Ok st' ->
     bfs_inv st' -> J st') ->
  exists r, Post r /\
    forall fuel, (search_bound g <= fuel)%nat ->
      breadth_first_search fuel g start_value goal_value = Ok r.
Proof.
  intros Hs Ht HJ Hempty Hgoal Hexpand.
  destruct (bfs_loop_total g goal_value Hwf J Post Hempty Hgoal Hexpand
              (search_bound g - 1) (bfs_init start_value)) as (r & Hr & Hrun).
  - apply bfs_init_inv.
  - done.
  - pose proof (unseen_le {[start_value]}).
    unfold bfs_measure, search_bound. cbn. lia.
  - exists r. split; [done|]. intros fuel Hfuel. rewrite bfs_unfold by done.
    apply Hrun. unfold search_bound in *. lia.
Qed.

Lemma bfs_terminates (start_value goal_value : V) :
  exists r, settled_once r /\
    forall fuel, (search_bound g <= fuel)%nat ->
      breadth_first_search fuel g start_value goal_value = Ok r.
Proof.
  destruct (decide (start_value ∈ Graph.get_all_nodes g)) as [Hs|Hs];
    [destruct (decide (goal_value ∈ Graph.get_all_nodes g)) as [Ht|Ht]|].
  - apply (bfs_total (fun _ => True)); try done.
    + intros st Hinv _ _. split; [apply Hinv|]. by apply bfs_inv_size.
    + intros st q p Hinv _ _ _. split; [apply Hinv|]. by apply bfs_inv_size.
  - exists (mkResult false [] None [] 0%nat). split.
    + split; [apply NoDup_nil_2|done].
    + intros fuel _. unfold breadth_first_search. apply get_node_None in Ht. rewrite Ht.
      by destruct (Graph.get_node g start_value).
  - exists (mkResult false [] None [] 0%nat). split.
    + split; [apply NoDup_nil_2|done].
    + intros fuel _. unfold breadth_first_search. apply get_node_None in Hs.
      by rewrite Hs.
Qed.
End bfs_top.

(** ** Depth-first search: the loop invariant and termination *)

Section dfs_facts.
Context `{Countable V}.
Variable g : Graph.t V.
Variable goal : V.

Implicit Types (st : dfs_state V) (s : Stack.t V).

Definition dfs_skip st s : dfs_state V :=
  {| d_stack := s; d_visited := d_visited st; d_parent := d_parent st;
     d_visited_order := d_visited_order st |}.

Definition dfs_visit st s (current : V) : dfs_state V :=
  {| d_stack := s; d_visited := {[current]} ∪ d_visited st;
     d_parent := d_parent st;
     d_visited_order := d_visited_order st ++ [current] |}.

Definition dfs_fail st : Result V :=
  {| found := false; path := []; cost := None;
     visited := d_visited_order st; nodes_explored := size (d_visited st) |}.

Definition dfs_success st (current : V) (p : list V) : Result V :=
  {| found := true; path := reverse p; cost := None;
     visited := d_visited_order st ++ [current];
     nodes_explored := size ({[current]} ∪ d_visited st) |}.

Lemma dfs_loop_unfold fuel st :
  dfs_loop (S fuel) g goal st =
  if Stack.is_empty (d_stack st) then Ok (dfs_fail st)
  else
    '(current, stack) ← Stack.pop (d_stack st);
    if decide (current ∈ d_visited st) then dfs_loop fuel g goal (dfs_skip st stack)
    else if decide (current = goal) then
      p ← walk_getitem fuel (d_parent st) (Some goal) [];
      Ok (dfs_success st current p)
    else
      st' ← for_each (dfs_neighbor current)
              (reverse (GraphNode.get_neighbors (Graph.deref g current)))
              (dfs_visit st stack current);
      dfs_loop fuel g goal st'.
Proof. done. Qed.

Record dfs_inv st : Prop := {
  di_visited : d_visited st = list_to_set (d_visited_order st);
  di_nodup : NoDup (d_visited_order st);
  di_parent : parent_ok (d_parent st) (d_visited_order st);
  di_dom : forall v, v ∈ d_visited_order st \/ v ∈ Stack._top (d_stack st) ->
             is_Some (d_parent st !! v)
}.

Definition dfs_measure st : nat :=
  (length (Stack._top (d_stack st)) + pending g (d_visited st))%nat.

Lemma dfs_inv_size st : dfs_inv st -> size (d_visited st) = length (d_visited_order st).
Proof. intros Hinv. rewrite (di_visited _ Hinv). apply size_list_to_set, Hinv. Qed.

Lemma dfs_neighbor_Ok current st nb :
  dfs_inv st -> current ∈ d_visited_order st ->
  exists st', dfs_neighbor current st nb = Ok st' /\ dfs_inv st' /\
    d_visited st' = d_visited st /\ d_visited_order st' = d_visited_order st /\
    (length (Stack._top (d_stack st')) <= S (length (Stack._top (d_stack st))))%nat.
Proof.
  intros Hinv Hcur. unfold dfs_neighbor.
  destruct (decide (nb ∉ d_visited st)) as [Hv|Hv].
  2:{ exists st. split_and!; try done. lia. }
  eexists. split; [done|]. cbn. split_and!; try done.
  destruct Hinv as [Hvis Hnd Hpar Hdom]. constructor; cbn; try done.
  - destruct (d_parent st !! nb) as [o|] eqn:Hnb; [done|].
    apply parent_ok_insert; [|done|done].
    intros Hin. destruct (Hdom nb (or_introl Hin)) as [? ?]. congruence.
  - intros v Hv0. destruct (d_parent st !! nb) as [o|] eqn:Hnb.
    + destruct Hv0 as [Hv0|[->|Hv0]%elem_of_cons]; [by apply Hdom; left|by eexists|
        by apply Hdom; right].
    + destruct (decide (v = nb)) as [->|Hne]; [rewrite lookup_insert_eq; by eexists|].
      rewrite lookup_insert_ne by done.
      destruct Hv0 as [Hv0|[->|Hv0]%elem_of_cons]; [by apply Hdom; left|done|
        by apply Hdom; right].
Qed.

Lemma dfs_expand_Ok st s current :
  dfs_inv (dfs_visit st s current) ->
  exists st',
    for_each (dfs_neighbor current)
      (reverse (GraphNode.get_neighbors (Graph.deref g current)))
      (dfs_visit st s current) = Ok st' /\
    dfs_inv st' /\ d_visited st' = {[current]} ∪ d_visited st /\
    d_visited_order st' = d_visited_order st ++ [current] /\
    (length (Stack._top (d_stack st')) <= length (Stack._top s) + deg g current)%nat.
Proof.
  intros Hinv.
  destruct (for_each_Ok
    (fun (l1 : list V) (s0 : dfs_state V) => dfs_inv s0 /\ d_visited s0 = {[current]} ∪ d_visited st /\
       d_visited_order s0 = d_visited_order st ++ [current] /\
       (length (Stack._top (d_stack s0)) <= length (Stack._top s) + length l1)%nat)
    (dfs_neighbor current)
    (reverse (GraphNode.get_neighbors (Graph.deref g current)))
    (dfs_visit st s current)) as (st' & Hrun & HP).
  - intros l1 x l2 s0 Hl (Hs & Hv & Hvo & Hlen).
    destruct (dfs_neighbor_Ok current s0 x Hs) as (s' & Hs' & Hinv' & Hv' & Hvo' & Hlen').
    + rewrite Hvo. apply elem_of_app. right. left.
    + exists s'. split; [done|]. rewrite Hv', Hvo', length_app. cbn.
      split_and!; try done. lia.
  - cbn. split_and!; try done. lia.
  - exists st'. split; [done|]. unfold deg. rewrite length_reverse in HP. tauto.
Qed.

Lemma dfs_loop_total (Post : Result V -> Prop) :
  (forall st, dfs_inv st -> Post (dfs_fail st)) ->
  (forall st p, dfs_inv st -> goal ∉ d_visited st -> Post (dfs_success st goal p)) ->
  forall m st, dfs_inv st ->
    (2 * dfs_measure st + length (d_visited_order st) <= m)%nat ->
    exists r, Post r /\
      forall fuel, (m < fuel)%nat -> dfs_loop fuel g goal st = Ok r.
Proof.
  intros Hempty Hgoal m.
  induction m as [|m IH]; intros st Hinv Hm.
  - assert (Stack._top (d_stack st) = []) as Hnil.
    { unfold dfs_measure in Hm. destruct (Stack._top (d_stack st)); [done|].
      simpl in Hm. lia. }
    assert (Stack.is_empty (d_stack st) = true) as He.
    { unfold Stack.is_empty. by rewrite Hnil. }
    exists (dfs_fail st). split; [by apply Hempty|].
    intros [|fuel] Hfuel; [lia|]. by rewrite dfs_loop_unfold, He.
  - destruct (Stack.is_empty (d_stack st)) eqn:He.
    { exists (dfs_fail st). split; [by apply Hempty|].
      intros [|fuel] Hfuel; [lia|]. by rewrite dfs_loop_unfold, He. }
    destruct (Stack._top (d_stack st)) as [|current l] eqn:Htop.
    { unfold Stack.is_empty in He. by rewrite Htop in He. }
    set (s := {| Stack._top := l; Stack._size := (Stack._size (d_stack st) - 1)%nat |}).
    assert (Stack.pop (d_stack st) = Ok (current, s)) as Hx.
    { unfold Stack.pop. by rewrite Htop. }
    assert (dfs_inv (dfs_skip st s)) as Hinv1.
    { destruct Hinv as [Hvis Hnd Hpar Hdom]. constructor; cbn; try done.
      intros v [Hv|Hv]; apply Hdom; [by left|]. right. rewrite Htop. by right. }
    destruct (decide (current ∈ d_visited st)) as [Hv|Hv].
    { destruct (IH (dfs_skip st s) Hinv1) as (r & Hr & Hrun).
      - unfold dfs_measure in *. rewrite Htop in Hm. cbn in *. lia.
      - exists r. split; [done|]. intros [|fuel] Hfuel; [lia|].
        rewrite dfs_loop_unfold, He, Hx. cbn [mbind outcome_bind].
        rewrite decide_True by done. apply Hrun. lia. }
    assert (current ∉ d_visited_order st) as Hv'.
    { rewrite (di_visited _ Hinv) in Hv. by rewrite elem_of_list_to_set in Hv. }
    assert (dfs_inv (dfs_visit st s current)) as Hinv2.
    { destruct Hinv as [Hvis Hnd Hpar Hdom]. constructor; cbn.
      - rewrite list_to_set_app_L, Hvis. set_solver.
      - apply NoDup_app. split_and!; [done| |apply NoDup_singleton].
        intros x Hx0 ->%list_elem_of_singleton. done.
      - by apply parent_ok_snoc.
      - intros v [[Hin| ->%list_elem_of_singleton]%elem_of_app|Hin]; apply Hdom.
        + by left.
        + right. rewrite Htop. left.
        + right. rewrite Htop. by right. }
    destruct (decide (current = goal)) as [->|Hne].
    { destruct (walk_getitem_total (d_parent st) (d_visited_order st ++ [goal])
                  (length (d_visited_order st)) goal) as (p & Hp).
      - apply (di_parent _ Hinv2).
      - intros v Hin. apply (di_dom _ Hinv2). by left.
      - by rewrite lookup_app_r, Nat.sub_diag.
      - exists (dfs_success st goal p). split; [by apply Hgoal|].
        intros [|fuel] Hfuel; [lia|].
        rewrite dfs_loop_unfold, He, Hx. cbn [mbind outcome_bind].
        rewrite decide_False by done. rewrite decide_True by done.
        rewrite (Hp fuel []) by (unfold dfs_measure in Hm; rewrite Htop in Hm;
                                 simpl in Hm; lia). done. }
    destruct (dfs_expand_Ok st s current Hinv2)
      as (st' & Hrun & Hinv' & Hvi' & Hvo' & Hlen).
    destruct (IH st' Hinv') as (r & Hr & Hloop).
    + pose proof (pending_visit g (d_visited st) current Hv) as Hpend.
      unfold dfs_measure in *. rewrite Htop in Hm.
      rewrite Hvi', Hvo', length_app. cbn in *. lia.
    + exists r. split; [done|]. intros [|fuel] Hfuel; [lia|].
      rewrite dfs_loop_unfold, He, Hx. cbn [mbind outcome_bind].
      rewrite !decide_False by done. rewrite Hrun. cbn [mbind outcome_bind].
      apply Hloop. lia.
Qed.
End dfs_facts.

Section dfs_top.
Context `{Countable V}.
Variable g : Graph.t V.

Definition dfs_init (start_value : V) : dfs_state V :=
  {| d_stack := Stack.push Stack.empty start_value;
     d_visited := ∅;
     d_parent := {[start_value := None]};
     d_visited_order := [] |}.

Lemma dfs_unfold fuel (start_value goal_value : V) :
  start_value ∈ Graph.get_all_nodes g -> goal_value ∈ Graph.get_all_nodes g ->
  depth_first_search fuel g start_value goal_value =
  dfs_loop fuel g goal_value (dfs_init start_value).
Proof.
  intros [ns Hs]%get_node_is_Some [nt Ht]%get_node_is_Some.
  unfold depth_first_search.
  rewrite Hs, Ht. by rewrite (get_node_value _ _ _ Hs), (get_node_value _ _ _ Ht).
Qed.

Lemma dfs_init_inv (start_value : V) : dfs_inv (dfs_init start_value).
Proof.
  constructor; cbn.
  - done.
  - apply NoDup_nil_2.
  - intros n c Hn. apply lookup_singleton_Some in Hn as [_ [=]].
  - intros v [Hv|Hv]; [by apply elem_of_nil in Hv|].
    apply list_elem_of_singleton in Hv as ->. rewrite lookup_singleton_eq. by eexists.
Qed.

Lemma dfs_terminates (start_value goal_value : V) :
  exists r, settled_once r /\
    forall fuel, (search_bound g <= fuel)%nat ->
      depth_first_search fuel g start_value goal_value = Ok r.
Proof.
  destruct (decide (start_value ∈ Graph.get_all_nodes g)) as [Hs|Hs];
    [destruct (decide (goal_value ∈ Graph.get_all_nodes g)) as [Ht|Ht]|].
  - destruct (dfs_loop_total g goal_value settled_once) with
      (m := (search_bound g - 1)%nat) (st := dfs_init start_value)
      as (r & Hr & Hrun).
    + intros st Hinv. split; [apply Hinv|]. by apply dfs_inv_size.
    + intros st p Hinv Hv.
      assert (goal_value ∉ d_visited_order st) as Hv'.
      { rewrite (di_visited _ Hinv) in Hv. by rewrite elem_of_list_to_set in Hv. }
      split; cbn.
      * apply NoDup_app. split_and!; [apply Hinv| |apply NoDup_singleton].
        intros x Hx ->%list_elem_of_singleton. done.
      * rewrite size_union by set_solver. rewrite size_singleton, length_app.
        rewrite (dfs_inv_size st Hinv). simpl. lia.
    + apply dfs_init_inv.
    + unfold dfs_measure, search_bound. cbn. rewrite pending_empty. lia.
    + exists r. split; [done|]. intros fuel Hfuel. rewrite dfs_unfold by done.
      apply Hrun. unfold search_bound in *. lia.
  - exists (mkResult false [] None [] 0%nat). split.
    + split; [apply NoDup_nil_2|done].
    + intros fuel _. unfold depth_first_search. apply get_node_None in Ht. rewrite Ht.
      by destruct (Graph.get_node g start_value).
  - exists (mkResult false [] None [] 0%nat). split.
    + split; [apply NoDup_nil_2|done].
    + intros fuel _. unfold depth_first_search. apply get_node_None in Hs.
      by rewrite Hs.
Qed.
End dfs_top.

(** Dijkstra inherits termination from A-star with the zero estimate. *)
Lemma dijkstra_terminates `{Countable V} (g : Graph.t V) (start_value goal_value : V) :
  Graph.wf g ->
  exists r, settled_once r /\
    forall fuel, (search_bound g <= fuel)%nat ->
      dijkstra fuel g start_value goal_value = Ok r.
Proof.
  intros Hwf.
  destruct (astar_terminates g zero_estimate Hwf start_value goal_value)
    as (r & Hr & Hrun).
  exists r. split; [done|]. intros fuel Hfuel. rewrite <-astar_zero_dijkstra. auto.
Qed.

(** C10.  On every well-formed graph (cycles and self-loops included),
    for every pair of endpoints and every heuristic, each of the four
    searches returns a result record for every iteration bound from
    [search_bound g] on (the record does not depend on the bound), no
    exception is raised, and its visited list has no repetition: a node
    is settled at most once. *)
Theorem search_terminates `{Countable V} (g : Graph.t V) (start_value goal_value : V)
    (heuristic : V -> V -> Z) :
  Graph.wf g ->
  (exists r, NoDup (visited r) /\ forall fuel, (search_bound g <= fuel)%nat ->
     breadth_first_search fuel g start_value goal_value = Ok r) /\
  (exists r, NoDup (visited r) /\ forall fuel, (search_bound g <= fuel)%nat ->
     depth_first_search fuel g start_value goal_value = Ok r) /\
  (exists r, NoDup (visited r) /\ forall fuel, (search_bound g <= fuel)%nat ->
     dijkstra fuel g start_value goal_value = Ok r) /\
  (exists r, NoDup (visited r) /\ forall fuel, (search_bound g <= fuel)%nat ->
     astar fuel g start_value goal_value heuristic = Ok r).
Proof.
  intros Hwf. split_and!.
  - destruct (bfs_terminates g Hwf start_value goal_value) as (r & [Hr _] & Hrun); eauto.
  - destruct (dfs_terminates g start_value goal_value) as (r & [Hr _] & Hrun); eauto.
  - destruct (dijkstra_terminates g start_value goal_value Hwf) as (r & [Hr _] & Hrun);
      eauto.
  - destruct (astar_terminates g heuristic Hwf start_value goal_value)
      as (r & [Hr _] & Hrun); eauto.
Qed.

(** A triangle with a self-loop. *)
Definition triangle_graph : Graph.t nat :=
  Graph.build false
    [Graph.AddEdge 1%nat 2%nat 3; Graph.AddEdge 2%nat 3%nat 1;
     Graph.AddEdge 3%nat 1%nat 2; Graph.AddEdge 2%nat 2%nat 5].

Lemma search_terminates_witness :
  exists r, NoDup (visited r) /\
    forall fuel, (search_bound triangle_graph <= fuel)%nat ->
      depth_first_search fuel triangle_graph 1%nat 3%nat = Ok r.
Proof.
  apply (search_terminates triangle_graph 1%nat 3%nat zero_estimate).
  apply (bool_decide_unpack _). vm_compute. exact I.
Defined.

(** ** The order in which nodes leave the frontier

    The searches do not record which node each iteration removes from
    the frontier (dequeue, pop, extract_min).  The functions below replay
    a loop and collect exactly these nodes, in order; they are the
    reference against which the [visited] list is compared. *)

Section removals.
Context `{Countable V}.

Fixpoint bfs_removed (fuel : nat) (g : Graph.t V) (goal : V) (st : bfs_state V)
  : list V :=
  match fuel with
  | O => []
  | S fuel' =>
    if Queue.is_empty (b_queue st) then []
    else
      match Queue.dequeue (b_queue st) with
      | Ok (current, queue) =>
        current ::
        (if decide (current = goal) then []
         else
           match for_each (bfs_neighbor current)
                   (GraphNode.get_neighbors (Graph.deref g current))
                   (bfs_dequeued st queue) with
           | Ok st' => bfs_removed fuel' g goal st'
           | _ => []
           end)
      | _ => []
      end
  end.

Fixpoint dfs_removed (fuel : nat) (g : Graph.t V) (goal : V) (st : dfs_state V)
  : list V :=
  match fuel with
  | O => []
  | S fuel' =>
    if Stack.is_empty (d_stack st) then []
    else
      match Stack.pop (d_stack st) with
      | Ok (current, stack) =>
        current ::
        (if decide (current ∈ d_visited st) then
           dfs_removed fuel' g goal (dfs_skip st stack)
         else if decide (current = goal) then []
         else
           match for_each (dfs_neighbor current)
                   (reverse (GraphNode.get_neighbors (Graph.deref g current)))
                   (dfs_visit st stack current) with
           | Ok st' => dfs_removed fuel' g goal st'
           | _ => []
           end)
      | _ => []
      end
  end.

Definition dijkstra_skip (st : dijkstra_state V) (pq : PriorityQueue.t V)
  : dijkstra_state V :=
  {| k_pq := pq; k_visited := k_visited st; k_distance := k_distance st;
     k_parent := k_parent st; k_visited_order := k_visited_order st |}.

Definition dijkstra_visit (st : dijkstra_state V) (pq : PriorityQueue.t V)
    (current : V) : dijkstra_state V :=
  {| k_pq := pq; k_visited := {[current]} ∪ k_visited st;
     k_distance := k_distance st; k_parent := k_parent st;
     k_visited_order := k_visited_order st ++ [current] |}.

Fixpoint dijkstra_removed (fuel : nat) (g : Graph.t V) (goal : V)
    (st : dijkstra_state V) : list V :=
  match fuel with
  | O => []
  | S fuel' =>
    if PriorityQueue.is_empty (k_pq st) then []
    else
      match PriorityQueue.extract_min (k_pq st) with
      | Ok ((_, current), pq) =>
        current ::
        (if decide (current ∈ k_visited st) then
           dijkstra_removed fuel' g goal (dijkstra_skip st pq)
         else if decide (current = goal) then []
         else
           match for_each (dijkstra_neighbor g current)
                   (GraphNode.get_neighbors (Graph.deref g current))
                   (dijkstra_visit st pq current) with
           | Ok st' => dijkstra_removed fuel' g goal st'
           | _ => []
           end)
      | _ => []
      end
  end.

Fixpoint astar_removed (fuel : nat) (g : Graph.t V) (heuristic : V -> V -> Z)
    (goal goal_value : V) (st : astar_state V) : list V :=
  match fuel with
  | O => []
  | S fuel' =>
    if PriorityQueue.is_empty (a_pq st) then []
    else
      match PriorityQueue.extract_min (a_pq st) with
      | Ok ((_, current), pq) =>
        current ::
        (if decide (current ∈ a_visited st) then
           astar_removed fuel' g heuristic goal goal_value (astar_skip st pq)
         else if decide (current = goal) then []
         else
           match for_each (astar_neighbor g heuristic goal_value current)
                   (GraphNode.get_neighbors (Graph.deref g current))
                   (astar_visit st pq current) with
           | Ok st' => astar_removed fuel' g heuristic goal goal_value st'
           | _ => []
           end)
      | _ => []
      end
  end.

Definition dijkstra_init (g : Graph.t V) (start_value : V) : dijkstra_state V :=
  {| k_pq := PriorityQueue.insert PriorityQueue.empty start_value (Fin 0);
     k_visited := ∅;
     k_distance := <[start_value := Fin 0]> (all_inf g);
     k_parent := {[start_value := None]};
     k_visited_order := [] |}.

(** The removals of a whole search; none on an absent endpoint. *)
Definition present (g : Graph.t V) (start_value goal_value : V) : bool :=
  bool_decide (start_value ∈ Graph.get_all_nodes g) &&
  bool_decide (goal_value ∈ Graph.get_all_nodes g).

Definition bfs_removals (fuel : nat) (g : Graph.t V) (start_value goal_value : V)
  : list V :=
  if present g start_value goal_value
  then bfs_removed fuel g goal_value (bfs_init start_value) else [].

Definition dfs_removals (fuel : nat) (g : Graph.t V) (start_value goal_value : V)
  : list V :=
  if present g start_value goal_value
  then dfs_removed fuel g goal_value (dfs_init start_value) else [].

Definition dijkstra_removals (fuel : nat) (g : Graph.t V) (start_value goal_value : V)
  : list V :=
  if present g start_value goal_value
  then dijkstra_removed fuel g goal_value (dijkstra_init g start_value) else [].

Definition astar_removals (fuel : nat) (g : Graph.t V) (start_value goal_value : V)
    (heuristic : V -> V -> Z) : list V :=
  if present g start_value goal_value
  then astar_removed fuel g heuristic goal_value goal_value
         (astar_init g heuristic start_value goal_value)
  else [].

(** The order in which BFS discovers nodes: the values it passes to
    [queue.enqueue], in order.  Between two removals the queue only
    grows at its rear, so what a [for] loop has enqueued is what the
    queue holds beyond its content before the loop. *)
Definition enqueued_since (before after : Queue.t V) : list V :=
  drop (length (Queue._front before)) (Queue._front after).

Fixpoint bfs_enqueued (fuel : nat) (g : Graph.t V) (goal : V) (st : bfs_state V)
  : list V :=
  match fuel with
  | O => []
  | S fuel' =>
    if Queue.is_empty (b_queue st) then []
    else
      match Queue.dequeue (b_queue st) with
      | Ok (current, queue) =>
        if decide (current = goal) then []
        else
          match for_each (bfs_neighbor current)
                  (GraphNode.get_neighbors (Graph.deref g current))
                  (bfs_dequeued st queue) with
          | Ok st' =>
            enqueued_since queue (b_queue st') ++ bfs_enqueued fuel' g goal st'
          | _ => []
          end
      | _ => []
      end
  end.

(** The enqueues of a whole search, the one of the start node first;
    none on an absent endpoint. *)
Definition bfs_enqueues (fuel : nat) (g : Graph.t V) (start_value goal_value : V)
  : list V :=
  if present g start_value goal_value
  then enqueued_since Queue.empty (b_queue (bfs_init start_value)) ++
       bfs_enqueued fuel g goal_value (bfs_init start_value)
  else [].

(** The nodes in the order of their first removal: a node is settled
    when it leaves the frontier for the first time. *)
Fixpoint settle (seen removed : list V) : list V :=
  match removed with
  | [] => seen
  | x :: removed' =>
    if decide (x ∈ seen) then settle seen removed'
    else settle (seen ++ [x]) removed'
  end.

Definition settled_order (removed : list V) : list V := settle [] removed.

Lemma present_true (g : Graph.t V) (s t : V) :
  s ∈ Graph.get_all_nodes g -> t ∈ Graph.get_all_nodes g -> present g s t = true.
Proof. intros. unfold present. by rewrite !bool_decide_eq_true_2. Qed.

Lemma present_false (g : Graph.t V) (s t : V) :
  s ∉ Graph.get_all_nodes g \/ t ∉ Graph.get_all_nodes g -> present g s t = false.
Proof.
  intros [Hs|Ht]; unfold present.
  - by rewrite (bool_decide_eq_false_2 _ Hs).
  - rewrite (bool_decide_eq_false_2 _ Ht). apply andb_false_r.
Qed.

(** *** DFS, Dijkstra, A-star settle a node at its first removal *)

Lemma dfs_for_each_visited (current : V) (l : list V) (st st' : dfs_state V) :
  for_each (dfs_neighbor current) l st = Ok st' ->
  d_visited st' = d_visited st /\ d_visited_order st' = d_visited_order st.
Proof.
  apply (for_each_inv (fun s => d_visited s = d_visited st /\
                                d_visited_order s = d_visited_order st)); [|done].
  intros s x s' _ [Hv Hvo]. unfold dfs_neighbor.
  destruct (decide (x ∉ d_visited s)); intros [= <-]; done.
Qed.

Lemma dfs_loop_settle (g : Graph.t V) (goal : V) (fuel : nat) (st : dfs_state V)
    (r : Result V) :
  d_visited st = list_to_set (d_visited_order st) -> NoDup (d_visited_order st) ->
  dfs_loop fuel g goal st = Ok r ->
  visited r = settle (d_visited_order st) (dfs_removed fuel g goal st) /\
  nodes_explored r = length (visited r).
Proof.
  revert st. induction fuel as [|fuel IH]; intros st Hvis Hnd Hrun; [done|].
  rewrite dfs_loop_unfold in Hrun. cbn [dfs_removed].
  destruct (Stack.is_empty (d_stack st)).
  { injection Hrun as <-. cbn. split; [done|]. rewrite Hvis.
    by apply size_list_to_set. }
  destruct (Stack.pop (d_stack st)) as [[current stack]| |]; [|done|done].
  cbn [mbind outcome_bind] in Hrun. cbn [settle].
  assert (current ∈ d_visited st <-> current ∈ d_visited_order st) as Hiff.
  { rewrite Hvis. apply elem_of_list_to_set. }
  destruct (decide (current ∈ d_visited st)) as [Hv|Hv].
  { rewrite decide_True by by apply Hiff. by apply (IH (dfs_skip st stack)). }
  rewrite decide_False by by rewrite <-Hiff.
  assert (NoDup (d_visited_order st ++ [current])) as Hnd'.
  { apply NoDup_app. split_and!; [done| |apply NoDup_singleton].
    intros x Hx ->%list_elem_of_singleton. by apply Hv, Hiff. }
  assert ({[current]} ∪ d_visited st =
          list_to_set (C := gset V) (d_visited_order st ++ [current])) as Hvis'.
  { rewrite list_to_set_app_L, Hvis. set_solver. }
  destruct (decide (current = goal)) as [->|Hne].
  { apply bind_Ok in Hrun as (p & _ & [= <-]). cbn. split; [done|].
    rewrite Hvis'. by apply size_list_to_set. }
  apply bind_Ok in Hrun as (st' & Hst' & Hrun). rewrite Hst'.
  destruct (dfs_for_each_visited _ _ _ _ Hst') as [Hv' Hvo']. cbn in Hv', Hvo'.
  rewrite <-Hvo'. apply IH; [by rewrite Hv', Hvo'|by rewrite Hvo'|done].
Qed.

Lemma dijkstra_for_each_visited (g : Graph.t V) (current : V) (l : list V)
    (st st' : dijkstra_state V) :
  for_each (dijkstra_neighbor g current) l st = Ok st' ->
  k_visited st' = k_visited st /\ k_visited_order st' = k_visited_order st.
Proof.
  apply (for_each_inv (fun s => k_visited s = k_visited st /\
                                k_visited_order s = k_visited_order st)); [|done].
  intros s x s' _ [Hv Hvo]. unfold dijkstra_neighbor.
  destruct (decide (x ∈ k_visited s)); [by intros [= <-]|].
  intros (dc & _ & Hrun)%bind_Ok. apply bind_Ok in Hrun as (dn & _ & Hrun).
  destruct (ext_ltb _ dn); injection Hrun as <-; done.
Qed.

Lemma dijkstra_loop_settle (g : Graph.t V) (goal : V) (fuel : nat)
    (st : dijkstra_state V) (r : Result V) :
  k_visited st = list_to_set (k_visited_order st) -> NoDup (k_visited_order st) ->
  dijkstra_loop fuel g goal st = Ok r ->
  visited r = settle (k_visited_order st) (dijkstra_removed fuel g goal st) /\
  nodes_explored r = length (visited r).
Proof.
  revert st. induction fuel as [|fuel IH]; intros st Hvis Hnd Hrun; [done|].
  cbn [dijkstra_loop] in Hrun. cbn [dijkstra_removed].
  destruct (PriorityQueue.is_empty (k_pq st)).
  { injection Hrun as <-. cbn. split; [done|]. rewrite Hvis.
    by apply size_list_to_set. }
  destruct (PriorityQueue.extract_min (k_pq st)) as [[[f current] pq]| |]; [|done|done].
  cbn [mbind outcome_bind] in Hrun. cbn [settle].
  assert (current ∈ k_visited st <-> current ∈ k_visited_order st) as Hiff.
  { rewrite Hvis. apply elem_of_list_to_set. }
  destruct (decide (current ∈ k_visited st)) as [Hv|Hv].
  { rewrite decide_True by by apply Hiff. by apply (IH (dijkstra_skip st pq)). }
  rewrite decide_False by by rewrite <-Hiff.
  assert (NoDup (k_visited_order st ++ [current])) as Hnd'.
  { apply NoDup_app. split_and!; [done| |apply NoDup_singleton].
    intros x Hx ->%list_elem_of_singleton. by apply Hv, Hiff. }
  assert ({[current]} ∪ k_visited st =
          list_to_set (C := gset V) (k_visited_order st ++ [current])) as Hvis'.
  { rewrite list_to_set_app_L, Hvis. set_solver. }
  destruct (decide (current = goal)) as [->|Hne].
  { apply bind_Ok in Hrun as (p & _ & Hrun). apply bind_Ok in Hrun as (c & _ & [= <-]).
    cbn. split; [done|]. rewrite Hvis'. by apply size_list_to_set. }
  apply bind_Ok in Hrun as (st' & Hst' & Hrun).
  change (for_each (dijkstra_neighbor g current)
            (GraphNode.get_neighbors (Graph.deref g current))
            (dijkstra_visit st pq current) = Ok st') in Hst'.
  rewrite Hst'.
  destruct (dijkstra_for_each_visited _ _ _ _ _ Hst') as [Hv' Hvo']. cbn in Hv', Hvo'.
  rewrite <-Hvo'. apply IH; [by rewrite Hv', Hvo'|by rewrite Hvo'|done].
Qed.

Lemma astar_for_each_visited (g : Graph.t V) (heuristic : V -> V -> Z)
    (goal_value current : V) (l : list V) (st st' : astar_state V) :
  for_each (astar_neighbor g heuristic goal_value current) l st = Ok st' ->
  a_visited st' = a_visited st /\ a_visited_order st' = a_visited_order st.
Proof.
  apply (for_each_inv (fun s => a_visited s = a_visited st /\
                                a_visited_order s = a_visited_order st)); [|done].
  intros s x s' _ [Hv Hvo]. unfold astar_neighbor.
  destruct (decide (x ∈ a_visited s)); [by intros [= <-]|].
  intros (gc & _ & Hrun)%bind_Ok. apply bind_Ok in Hrun as (gn & _ & Hrun).
  destruct (ext_ltb _ gn); [|by injection Hrun as <-].
  apply bind_Ok in Hrun as (g1 & _ & Hrun). apply bind_Ok in Hrun as (f1 & _ & Hrun).
  by injection Hrun as <-.
Qed.

Lemma astar_loop_settle (g : Graph.t V) (heuristic : V -> V -> Z) (goal goal_value : V)
    (fuel : nat) (st : astar_state V) (r : Result V) :
  a_visited st = list_to_set (a_visited_order st) -> NoDup (a_visited_order st) ->
  astar_loop fuel g heuristic goal goal_value st = Ok r ->
  visited r =
    settle (a_visited_order st) (astar_removed fuel g heuristic goal goal_value st) /\
  nodes_explored r = length (visited r).
Proof.
  revert st. induction fuel as [|fuel IH]; intros st Hvis Hnd Hrun; [done|].
  rewrite astar_loop_unfold in Hrun. cbn [astar_removed].
  destruct (PriorityQueue.is_empty (a_pq st)).
  { injection Hrun as <-. cbn. split; [done|]. rewrite Hvis.
    by apply size_list_to_set. }
  destruct (PriorityQueue.extract_min (a_pq st)) as [[[f current] pq]| |]; [|done|done].
  cbn [mbind outcome_bind] in Hrun. cbn [settle].
  assert (current ∈ a_visited st <-> current ∈ a_visited_order st) as Hiff.
  { rewrite Hvis. apply elem_of_list_to_set. }
  destruct (decide (current ∈ a_visited st)) as [Hv|Hv].
  { rewrite decide_True by by apply Hiff. by apply (IH (astar_skip st pq)). }
  rewrite decide_False by by rewrite <-Hiff.
  assert (NoDup (a_visited_order st ++ [current])) as Hnd'.
  { apply NoDup_app. split_and!; [done| |apply NoDup_singleton].
    intros x Hx ->%list_elem_of_singleton. by apply Hv, Hiff. }
  assert ({[current]} ∪ a_visited st =
          list_to_set (C := gset V) (a_visited_order st ++ [current])) as Hvis'.
  { rewrite list_to_set_app_L, Hvis. set_solver. }
  destruct (decide (current = goal)) as [->|Hne].
  { apply bind_Ok in Hrun as (p & _ & Hrun). apply bind_Ok in Hrun as (c & _ & [= <-]).
    cbn. split; [done|]. rewrite Hvis'. by apply size_list_to_set. }
  apply bind_Ok in Hrun as (st' & Hst' & Hrun). rewrite Hst'.
  destruct (astar_for_each_visited _ _ _ _ _ _ _ Hst') as [Hv' Hvo']. cbn in Hv', Hvo'.
  rewrite <-Hvo'. apply IH; [by rewrite Hv', Hvo'|by rewrite Hvo'|done].
Qed.

(** *** BFS lists a node when it is discovered *)

Lemma bfs_for_each_queue (current : V) (l : list V) (st st' : bfs_state V) :
  for_each (bfs_neighbor current) l st = Ok st' ->
  exists new, Queue._front (b_queue st') = Queue._front (b_queue st) ++ new /\
              b_visited_order st' = b_visited_order st ++ new.
Proof.
  apply (for_each_inv (fun s => exists new,
           Queue._front (b_queue s) = Queue._front (b_queue st) ++ new /\
           b_visited_order s = b_visited_order st ++ new)).
  - intros s x s' _ (new & Hq & Hvo). unfold bfs_neighbor.
    destruct (decide (x ∉ b_visited s)); intros [= <-]; [|by exists new].
    exists (new ++ [x]). cbn. by rewrite Hq, Hvo, !app_assoc.
  - exists []. by rewrite !app_nil_r.
Qed.

Lemma bfs_loop_prefix (g : Graph.t V) (goal : V) (fuel : nat) (st : bfs_state V)
    (r : Result V) (done : list V) :
  b_visited_order st = done ++ Queue._front (b_queue st) ->
  b_visited st = list_to_set (b_visited_order st) -> NoDup (b_visited_order st) ->
  bfs_loop fuel g goal st = Ok r ->
  (done ++ bfs_removed fuel g goal st) `prefix_of` visited r /\
  (found r = false -> visited r = done ++ bfs_removed fuel g goal st) /\
  nodes_explored r = length (visited r).
Proof.
  revert st done. induction fuel as [|fuel IH]; intros st done0 Hvo Hvis Hnd Hrun;
    [done|].
  rewrite bfs_loop_unfold in Hrun. cbn [bfs_removed].
  unfold Queue.is_empty, Queue.dequeue in *.
  destruct (Queue._front (b_queue st)) as [|current l] eqn:Hfront.
  { injection Hrun as <-. cbn. rewrite Hvo, app_nil_r. split_and!; [done|done|].
    rewrite Hvis, Hvo, app_nil_r. apply size_list_to_set. by rewrite Hvo, app_nil_r in Hnd. }
  cbn [mbind outcome_bind] in Hrun.
  destruct (decide (current = goal)) as [->|Hne].
  { apply bind_Ok in Hrun as (p & _ & [= <-]). cbn. split_and!; [|done|].
    - rewrite Hvo. exists l. by rewrite <-app_assoc.
    - rewrite Hvis. by apply size_list_to_set. }
  apply bind_Ok in Hrun as (st' & Hst' & Hrun).
  match type of Hst' with for_each _ _ ?s0 = _ =>
    change s0 with (bfs_dequeued st (Queue.mk l (Queue._size (b_queue st) - 1))) in Hst' end.
  rewrite Hst'.
  destruct (bfs_for_each_queue _ _ _ _ Hst') as (new & Hq' & Hvo'). cbn in Hq', Hvo'.
  assert (b_visited st' = list_to_set (b_visited_order st') /\
          NoDup (b_visited_order st')) as [Hvis' Hnd'].
  { revert Hst'. apply (for_each_inv (fun s =>
      b_visited s = list_to_set (b_visited_order s) /\ NoDup (b_visited_order s)));
      [|done].
    intros s x s' _ [Hv1 Hn1]. unfold bfs_neighbor.
    destruct (decide (x ∉ b_visited s)) as [Hx|Hx]; intros [= <-]; [|done]. cbn. split.
    - rewrite list_to_set_app_L, Hv1. set_solver.
    - apply NoDup_app. split_and!; [done| |apply NoDup_singleton].
      intros y Hy ->%list_elem_of_singleton. apply Hx. rewrite Hv1.
      by apply elem_of_list_to_set. }
  destruct (IH st' (done0 ++ [current])) as (Hpre & Hfail & Hcount); try done.
  { rewrite Hvo', Hq', Hvo. by rewrite <-!app_assoc. }
  rewrite <-app_assoc in Hpre, Hfail. done.
Qed.

(** The visited list of BFS is what it had when the loop was entered,
    followed by the nodes enqueued since. *)
Lemma bfs_loop_enqueued (g : Graph.t V) (goal : V) (fuel : nat) (st : bfs_state V)
    (r : Result V) :
  bfs_loop fuel g goal st = Ok r ->
  visited r = b_visited_order st ++ bfs_enqueued fuel g goal st.
Proof.
  revert st. induction fuel as [|fuel IH]; intros st Hrun; [done|].
  rewrite bfs_loop_unfold in Hrun. cbn [bfs_enqueued].
  destruct (Queue.is_empty (b_queue st)).
  { injection Hrun as <-. cbn. by rewrite app_nil_r. }
  destruct (Queue.dequeue (b_queue st)) as [[current queue]| |]; [|done|done].
  cbn [mbind outcome_bind] in Hrun.
  destruct (decide (current = goal)) as [->|Hne].
  { apply bind_Ok in Hrun as (p & _ & [= <-]). cbn. by rewrite app_nil_r. }
  apply bind_Ok in Hrun as (st' & Hst' & Hrun). rewrite Hst'.
  destruct (bfs_for_each_queue _ _ _ _ Hst') as (new & Hq' & Hvo'). cbn in Hq', Hvo'.
  rewrite (IH st' Hrun), Hvo', <-app_assoc. do 2 f_equal.
  unfold enqueued_since. by rewrite Hq', drop_app_length.
Qed.
End removals.

(** On an absent endpoint every search answers at once. *)
Lemma absent_endpoint_records `{Countable V} (fuel : nat) (g : Graph.t V)
    (start_value goal_value : V) (heuristic : V -> V -> Z) :
  start_value ∉ Graph.get_all_nodes g \/ goal_value ∉ Graph.get_all_nodes g ->
  breadth_first_search fuel g start_value goal_value =
    Ok (mkResult false [] None [] 0%nat) /\
  depth_first_search fuel g start_value goal_value =
    Ok (mkResult false [] None [] 0%nat) /\
  dijkstra fuel g start_value goal_value =
    Ok (mkResult false [] (Some Inf) [] 0%nat) /\
  astar fuel g start_value goal_value heuristic =
    Ok (mkResult false [] (Some Inf) [] 0%nat).
Proof.
  intros Habs.
  assert (Graph.get_node g start_value = None \/ Graph.get_node g goal_value = None)
    as Hnone by (rewrite !get_node_None; done).
  unfold breadth_first_search, depth_first_search, dijkstra, astar.
  destruct Hnone as [-> | ->]; [done|].
  by destruct (Graph.get_node g start_value).
Qed.

Lemma dijkstra_unfold `{Countable V} (g : Graph.t V) fuel (start_value goal_value : V) :
  start_value ∈ Graph.get_all_nodes g -> goal_value ∈ Graph.get_all_nodes g ->
  dijkstra fuel g start_value goal_value =
  dijkstra_loop fuel g goal_value (dijkstra_init g start_value).
Proof.
  intros [ns Hs]%get_node_is_Some [nt Ht]%get_node_is_Some. unfold dijkstra.
  rewrite Hs, Ht. by rewrite (get_node_value _ _ _ Hs), (get_node_value _ _ _ Ht).
Qed.

(** A star: the centre [1] with the two leaves [2] and [3]. *)
Definition star_graph : Graph.t nat :=
  Graph.build false [Graph.AddEdge 1%nat 2%nat 1; Graph.AddEdge 1%nat 3%nat 1].

(** C8, as stated, fails for BFS: searching the star from [1] for [2]
    removes [1] and [2] from the queue, yet the visited list also holds
    [3], which was discovered and never removed, and the count is 3. *)
Lemma bfs_visited_counterexample :
  exists r,
    breadth_first_search (search_bound star_graph) star_graph 1%nat 2%nat = Ok r /\
    bfs_removals (search_bound star_graph) star_graph 1%nat 2%nat = [1%nat; 2%nat] /\
    visited r = [1%nat; 2%nat; 3%nat] /\
    visited r ≠ settled_order
                  (bfs_removals (search_bound star_graph) star_graph 1%nat 2%nat) /\
    nodes_explored r ≠
      length (settled_order
                (bfs_removals (search_bound star_graph) star_graph 1%nat 2%nat)).
Proof.
  eexists. split; [vm_compute; reflexivity|].
  split_and!; [by vm_compute|by vm_compute|by vm_compute|by vm_compute].
Qed.

(** C8, amended.  On every well-formed graph and for every iteration
    bound from [search_bound g] on, DFS, Dijkstra and A-star return a
    visited list that is the sequence of nodes in the order of their
    first removal from the frontier (later removals of the same node are
    stale and skipped), and [nodes_explored] is its length.  BFS returns
    the nodes in the order of their discovery: its visited list is the
    sequence of the values it enqueued, the start first, and
    [nodes_explored] is the number of these discovered nodes; the nodes
    removed from the queue are a prefix of the visited list, and the two
    coincide when the search fails. *)
Theorem visited_order_settled `{Countable V} (g : Graph.t V)
    (start_value goal_value : V) (heuristic : V -> V -> Z) (fuel : nat) :
  Graph.wf g -> (search_bound g <= fuel)%nat ->
  (exists r, depth_first_search fuel g start_value goal_value = Ok r /\
     visited r = settled_order (dfs_removals fuel g start_value goal_value) /\
     nodes_explored r =
       length (settled_order (dfs_removals fuel g start_value goal_value))) /\
  (exists r, dijkstra fuel g start_value goal_value = Ok r /\
     visited r = settled_order (dijkstra_removals fuel g start_value goal_value) /\
     nodes_explored r =
       length (settled_order (dijkstra_removals fuel g start_value goal_value))) /\
  (exists r, astar fuel g start_value goal_value heuristic = Ok r /\
     visited r =
       settled_order (astar_removals fuel g start_value goal_value heuristic) /\
     nodes_explored r =
       length (settled_order (astar_removals fuel g start_value goal_value heuristic))) /\
  (exists r, breadth_first_search fuel g start_value goal_value = Ok r /\
     visited r = bfs_enqueues fuel g start_value goal_value /\
     nodes_explored r = length (bfs_enqueues fuel g start_value goal_value) /\
     bfs_removals fuel g start_value goal_value `prefix_of` visited r /\
     (found r = false -> visited r = bfs_removals fuel g start_value goal_value) /\
     nodes_explored r = length (visited r)).
Proof.
  intros Hwf Hfuel.
  destruct (dfs_terminates g start_value goal_value) as (rd & _ & Hd).
  destruct (dijkstra_terminates g start_value goal_value Hwf) as (rk & _ & Hk).
  destruct (astar_terminates g heuristic Hwf start_value goal_value) as (ra & _ & Ha).
  destruct (bfs_terminates g Hwf start_value goal_value) as (rb & _ & Hb).
  specialize (Hd fuel Hfuel). specialize (Hk fuel Hfuel).
  specialize (Ha fuel Hfuel). specialize (Hb fuel Hfuel).
  unfold dfs_removals, dijkstra_removals, astar_removals, bfs_removals, bfs_enqueues,
    settled_order.
  destruct (decide (start_value ∈ Graph.get_all_nodes g /\
                    goal_value ∈ Graph.get_all_nodes g)) as [[Hs Ht]|Habs].
  - rewrite present_true by done. split_and!.
    + exists rd. split; [done|]. rewrite dfs_unfold in Hd by done.
      destruct (dfs_loop_settle g goal_value fuel (dfs_init start_value) rd)
        as [Hv Hn]; [done|apply NoDup_nil_2|done|]. cbn in Hv. split; [done|]. by rewrite <-Hv.
    + exists rk. split; [done|]. rewrite dijkstra_unfold in Hk by done.
      destruct (dijkstra_loop_settle g goal_value fuel (dijkstra_init g start_value) rk)
        as [Hv Hn]; [done|apply NoDup_nil_2|done|]. cbn in Hv. split; [done|]. by rewrite <-Hv.
    + exists ra. split; [done|]. rewrite astar_unfold in Ha by done.
      destruct (astar_loop_settle g heuristic goal_value goal_value fuel
                  (astar_init g heuristic start_value goal_value) ra)
        as [Hv Hn]; [done|apply NoDup_nil_2|done|].
      cbn in Hv. split; [done|]. by rewrite <-Hv.
    + exists rb. split; [done|]. rewrite bfs_unfold in Hb by done.
      pose proof (bfs_loop_enqueued g goal_value fuel _ rb Hb) as Henq.
      destruct (bfs_loop_prefix g goal_value fuel (bfs_init start_value) rb [])
        as (Hpre & Hfail & Hn); [done|cbn; set_solver|apply NoDup_singleton|done|].
      cbn [app] in Hpre, Hfail.
      change (enqueued_since Queue.empty (b_queue (bfs_init start_value)))
        with (b_visited_order (bfs_init start_value)).
      split_and!; [done| |done|done|done]. by rewrite <-Henq.
  - assert (start_value ∉ Graph.get_all_nodes g \/ goal_value ∉ Graph.get_all_nodes g)
      as Habs'.
    { destruct (decide (start_value ∈ Graph.get_all_nodes g)); [|by left].
      right. intros Ht. by apply Habs. }
    rewrite present_false by done.
    destruct (absent_endpoint_records fuel g start_value goal_value heuristic Habs')
      as (Eb & Ed & Ek & Ea).
    split_and!; eexists; (split; [done|]); cbn; try done.
Qed.

Lemma visited_order_settled_witness :
  exists r,
    breadth_first_search (search_bound star_graph) star_graph 1%nat 2%nat = Ok r /\
    visited r = bfs_enqueues (search_bound star_graph) star_graph 1%nat 2%nat /\
    nodes_explored r =
      length (bfs_enqueues (search_bound star_graph) star_graph 1%nat 2%nat).
Proof.
  destruct (visited_order_settled star_graph 1%nat 2%nat (fun _ _ => 0)
              (search_bound star_graph)) as (_ & _ & _ & r & Hr & Hv & Hn & _).
  - apply (bool_decide_unpack _). vm_compute. exact I.
  - lia.
  - by exists r.
Defined.

(** ** Paths *)

Section paths.
Context `{Countable V}.
Implicit Types (g : Graph.t V) (p q : list V) (u v s t : V).

(** [v] is a neighbour of [u]: the query [get_neighbors] lists it. *)
Definition adjacent g u v : Prop := v ∈ Graph.get_neighbors g u.

(** A path is a non-empty list of nodes of the graph, each adjacent to
    the next. *)
Fixpoint is_path g p : Prop :=
  match p with
  | [] => False
  | u :: p' =>
    match p' with
    | [] => u ∈ Graph.get_all_nodes g
    | v :: _ => adjacent g u v /\ is_path g p'
    end
  end.

Definition path_between g s t p : Prop :=
  is_path g p /\ head p = Some s /\ last p = Some t.

(** [v] is reached from [s] in [n] steps. *)
Inductive hops g s : V -> nat -> Prop :=
| hops_here : s ∈ Graph.get_all_nodes g -> hops g s s 0
| hops_step u v n : hops g s u n -> adjacent g u v -> hops g s v (S n).

Lemma get_neighbors_deref g u :
  Graph.get_neighbors g u = GraphNode.get_neighbors (Graph.deref g u).
Proof. unfold Graph.get_neighbors, Graph.deref. by destruct (Graph.get_node g u). Qed.

Lemma adjacent_node_l g u v : adjacent g u v -> u ∈ Graph.get_all_nodes g.
Proof.
  unfold adjacent, Graph.get_neighbors. intros Hv.
  destruct (Graph.get_node g u) as [n|] eqn:Hn; [|by apply elem_of_nil in Hv].
  apply get_node_is_Some. by exists n.
Qed.

Lemma adjacent_node_r g u v : Graph.wf g -> adjacent g u v -> v ∈ Graph.get_all_nodes g.
Proof.
  intros Hwf Hv. apply (wf_neighbors_nodes g u); [done|]. by rewrite <-get_neighbors_deref.
Qed.

Lemma hops_cons g s u v n : adjacent g s u -> hops g u v n -> hops g s v (S n).
Proof.
  intros Hsu. induction 1 as [Hu|x y n Hx IH Hxy].
  - apply (hops_step g s s u 0); [|done]. constructor. by eapply adjacent_node_l.
  - by apply (hops_step g s x y (S n)).
Qed.

Lemma path_hops g p s t :
  path_between g s t p -> hops g s t (length p - 1).
Proof.
  revert s. induction p as [|u p IH]; intros s (Hp & Hh & Hl); [done|].
  injection Hh as ->. destruct p as [|v p].
  - injection Hl as ->. by constructor.
  - destruct Hp as [Hadj Hp]. cbn [length]. rewrite Nat.sub_succ, Nat.sub_0_r.
    apply (hops_cons g s v t); [done|].
    replace (length p) with (length (v :: p) - 1)%nat by (cbn; lia).
    apply IH. split_and!; [done|done|]. by rewrite last_cons_cons in Hl.
Qed.

Lemma is_path_snoc g p u v :
  Graph.wf g -> is_path g p -> last p = Some u -> adjacent g u v -> is_path g (p ++ [v]).
Proof.
  intros Hwf. induction p as [|x p IH]; [done|]. intros Hp Hl Hadj.
  destruct p as [|y p].
  - injection Hl as ->. cbn. split; [done|]. by eapply adjacent_node_r.
  - destruct Hp as [Hxy Hp]. cbn [app is_path]. split; [done|].
    apply IH; [done| |done]. by rewrite last_cons_cons in Hl.
Qed.
End paths.

(** ** Breadth-first search finds a path with the fewest edges *)

Section bfs_shortest.
Context `{Countable V}.
Variable g : Graph.t V.
Variable start goal : V.
Hypothesis Hwf : Graph.wf g.
Hypothesis Hstart : start ∈ Graph.get_all_nodes g.

Implicit Types (st : bfs_state V) (lvl : V -> nat).

(** The breadth-first tree: [lvl] is the depth of each discovered node,
    [done] are the nodes already removed from the queue. *)
Record bfs_tree lvl st (done : list V) : Prop := {
  bt_split : b_visited_order st = done ++ Queue._front (b_queue st);
  bt_sorted : forall i j u v, (i <= j)%nat -> b_visited_order st !! i = Some u ->
                b_visited_order st !! j = Some v -> (lvl u <= lvl v)%nat;
  bt_front : forall q0 v, head (Queue._front (b_queue st)) = Some q0 ->
               v ∈ b_visited_order st -> (lvl v <= S (lvl q0))%nat;
  bt_done : forall u v, u ∈ done -> adjacent g u v ->
              v ∈ b_visited_order st /\ (lvl v <= S (lvl u))%nat;
  bt_parent : forall v, v ∈ b_visited_order st ->
                (v = start /\ b_parent st !! v = Some None) \/
                (exists u, b_parent st !! v = Some (Some u) /\ u ∈ b_visited_order st /\
                           adjacent g u v /\ lvl v = S (lvl u));
  bt_goal : goal ∉ done;
  bt_start : start ∈ b_visited_order st /\ lvl start = 0%nat
}.

Definition bfs_J st : Prop := exists lvl done, bfs_tree lvl st done.

Lemma bfs_J_init : bfs_J (bfs_init start).
Proof.
  exists (fun _ => 0%nat), []. constructor; cbn; try done.
  - intros q0 v _ _. lia.
  - intros u v Hu. by apply elem_of_nil in Hu.
  - intros v ->%list_elem_of_singleton. left. by rewrite lookup_singleton_eq.
  - apply not_elem_of_nil.
  - split; [left|done].
Qed.

(** The walk along the parents of a discovered node is the reverse of a
    path from the start, with as many edges as the depth of the node. *)
Lemma bfs_tree_walk lvl st done fuel v acc q :
  bfs_tree lvl st done -> v ∈ b_visited_order st ->
  walk_getitem fuel (b_parent st) (Some v) acc = Ok q ->
  exists p, q = acc ++ p /\ length p = S (lvl v) /\
    path_between g start v (reverse p).
Proof.
  intros Ht. revert v acc q. induction fuel as [|fuel IH]; intros v acc q Hv Hrun;
    [done|].
  cbn [walk_getitem] in Hrun. apply bind_Ok in Hrun as (next & Hnext & Hrun).
  unfold getitem in Hnext.
  destruct (bt_parent _ _ _ Ht v Hv) as [(-> & Hp)|(u & Hp & Hu & Hadj & Hl)];
    rewrite Hp in Hnext; injection Hnext as <-.
  - destruct (bt_start _ _ _ Ht) as [_ Hl].
    destruct fuel; injection Hrun as <-; exists [start]; rewrite Hl; by split_and!.
  - destruct (IH u (acc ++ [v]) q Hu Hrun) as (p & -> & Hlen & Hpath & Hhd & Hlast).
    exists (v :: p). rewrite <-app_assoc. split; [done|]. split; [cbn; lia|].
    rewrite reverse_cons. split_and!.
    + by apply (is_path_snoc g _ u).
    + by destruct (reverse p).
    + apply last_snoc.
Qed.

(** Every node reached in [n] steps is discovered at depth at most [n],
    unless the head of the queue is already at depth at most [n]. *)
Lemma bfs_tree_hops lvl st done q0 v n :
  bfs_tree lvl st done -> head (Queue._front (b_queue st)) = Some q0 ->
  hops g start v n ->
  (v ∈ b_visited_order st /\ (lvl v <= n)%nat) \/ (lvl q0 <= n)%nat.
Proof.
  intros Ht Hq0. induction 1 as [_|u v n Hu IH Hadj].
  - left. destruct (bt_start _ _ _ Ht) as [Hs Hl]. split; [done|lia].
  - destruct IH as [[Hin Hl]|Hl]; [|right; lia].
    rewrite (bt_split _ _ _ Ht) in Hin. apply elem_of_app in Hin as [Hd|Hq].
    + left. destruct (bt_done _ _ _ Ht u v Hd Hadj) as [Hv Hlv]. split; [done|lia].
    + right. apply list_elem_of_lookup in Hq as [k Hk].
      assert (lvl q0 <= lvl u)%nat; [|lia].
      apply (bt_sorted _ _ _ Ht (length done + 0) (length done + k)); [lia|..];
        rewrite (bt_split _ _ _ Ht), lookup_app_r by lia.
      * replace (length done + 0 - length done)%nat with 0%nat by lia.
        by destruct (Queue._front (b_queue st)).
      * by replace (length done + k - length done)%nat with k by lia.
Qed.

(** When the queue is empty every reachable node has been removed. *)
Lemma bfs_tree_closed lvl st done v n :
  bfs_tree lvl st done -> Queue._front (b_queue st) = [] ->
  hops g start v n -> v ∈ done.
Proof.
  intros Ht Hq. pose proof (bt_split _ _ _ Ht) as Hsplit.
  rewrite Hq, app_nil_r in Hsplit.
  induction 1 as [_|u v n Hu IH Hadj].
  - rewrite <-Hsplit. apply Ht.
  - rewrite <-Hsplit. by apply (bt_done _ _ _ Ht u v).
Qed.

Definition bfs_post (r : Result V) : Prop :=
  found r = true /\ path_between g start goal (path r) /\
  forall q, path_between g start goal q -> (length (path r) <= length q)%nat.

Lemma bfs_J_empty st :
  (exists q, path_between g start goal q) ->
  bfs_J st -> Queue.is_empty (b_queue st) = true -> bfs_post (bfs_fail st).
Proof.
  intros [q Hq] (lvl & done & Ht) He. exfalso.
  apply (bt_goal _ _ _ Ht). apply (bfs_tree_closed lvl st done goal (length q - 1)); [done| |].
  - unfold Queue.is_empty in He. by destruct (Queue._front (b_queue st)).
  - by apply path_hops.
Qed.

Lemma bfs_J_goal st q p :
  bfs_J st -> Queue.dequeue (b_queue st) = Ok (goal, q) ->
  walk_getitem (length (b_visited_order st)) (b_parent st) (Some goal) [] = Ok p ->
  bfs_post (bfs_success st p).
Proof.
  intros (lvl & done & Ht) Hdq Hwalk.
  assert (head (Queue._front (b_queue st)) = Some goal) as Hhd.
  { unfold Queue.dequeue in Hdq. destruct (Queue._front (b_queue st)); [done|].
    by injection Hdq as -> _. }
  assert (goal ∈ b_visited_order st) as Hin.
  { rewrite (bt_split _ _ _ Ht). apply elem_of_app. right.
    destruct (Queue._front (b_queue st)); [done|]. injection Hhd as ->. left. }
  destruct (bfs_tree_walk lvl st done _ goal [] p Ht Hin Hwalk) as (p' & -> & Hlen & Hpath).
  cbn [app] in *. split_and!; [done|done|].
  intros q' Hq'. cbn. rewrite length_reverse, Hlen.
  pose proof (path_hops g q' start goal Hq') as Hh.
  assert (q' ≠ []) as Hne by (destruct Hq' as [Hp _]; by destruct q').
  assert (0 < length q')%nat by (destruct q'; [done|cbn; lia]).
  destruct (bfs_tree_hops lvl st done goal goal _ Ht Hhd Hh) as [[_ Hl]|Hl]; lia.
Qed.

Lemma bfs_J_expand st current q st' :
  bfs_inv st -> bfs_J st ->
  Queue.dequeue (b_queue st) = Ok (current, q) -> current ≠ goal ->
  for_each (bfs_neighbor current)
    (GraphNode.get_neighbors (Graph.deref g current)) (bfs_dequeued st q) = Ok st' ->
  bfs_J st'.
Proof.
  intros Hinv (lvl & done & Ht) Hdq Hne Hrun.
  assert (Queue._front (b_queue st) = current :: Queue._front q) as Hfront.
  { unfold Queue.dequeue in Hdq. destruct (Queue._front (b_queue st)); [done|].
    by injection Hdq as -> <-. }
  pose proof (bt_split _ _ _ Ht) as Hsplit. rewrite Hfront in Hsplit.
  assert (current ∈ b_visited_order st) as Hcur.
  { rewrite Hsplit. apply elem_of_app. right. left. }
  pose (P := fun (l1 : list V) (s : bfs_state V) => exists lvl' new,
    Queue._front (b_queue s) = Queue._front q ++ new /\
    b_visited_order s = b_visited_order st ++ new /\
    b_visited s = list_to_set (b_visited_order s) /\
    (forall i j u v, (i <= j)%nat -> b_visited_order s !! i = Some u ->
       b_visited_order s !! j = Some v -> (lvl' u <= lvl' v)%nat) /\
    (forall v, v ∈ b_visited_order s -> (lvl' v <= S (lvl' current))%nat) /\
    (forall u v, u ∈ done -> adjacent g u v ->
       v ∈ b_visited_order s /\ (lvl' v <= S (lvl' u))%nat) /\
    (forall v, v ∈ b_visited_order s ->
       (v = start /\ b_parent s !! v = Some None) \/
       (exists u, b_parent s !! v = Some (Some u) /\ u ∈ b_visited_order s /\
                  adjacent g u v /\ lvl' v = S (lvl' u))) /\
    (forall v, v ∈ l1 -> v ∈ b_visited_order s) /\
    lvl' start = 0%nat).
  assert (P (GraphNode.get_neighbors (Graph.deref g current)) st') as HP.
  { revert Hrun. apply for_each_Hoare.
    - intros l1 x l2 s s' Hl (lvl' & new & Hq & Hvo & Hvis & Hsort & Hcurb & Hdone &
                              Hpar & Hl1 & Hl0) Hbody.
      unfold bfs_neighbor in Hbody.
      destruct (decide (x ∉ b_visited s)) as [Hx|Hx]; injection Hbody as <-.
      + assert (x ∉ b_visited_order s) as Hx'.
        { rewrite Hvis in Hx. by rewrite elem_of_list_to_set in Hx. }
        assert (current ∈ b_visited_order s) as Hcs.
        { rewrite Hvo. apply elem_of_app. by left. }
        assert (forall v, v ∈ b_visited_order s -> v ≠ x) as Hnx by (intros v Hv ->; done).
        exists (fun v => if decide (v = x) then S (lvl' current) else lvl' v), (new ++ [x]).
        cbn. rewrite (decide_False (P := current = x)) by (by apply Hnx).
        split_and!.
        * by rewrite Hq, app_assoc.
        * by rewrite Hvo, app_assoc.
        * rewrite list_to_set_app_L, Hvis. set_solver.
        * intros i j u v Hij Hi Hj.
          apply lookup_app_Some in Hj as [Hj|[Hlen Hj]].
          -- assert (b_visited_order s !! i = Some u) as Hi'.
             { apply lookup_lt_Some in Hj. rewrite lookup_app_l in Hi by lia. done. }
             rewrite !decide_False by (apply Hnx; by eapply list_elem_of_lookup_2).
             by apply (Hsort i j).
          -- apply list_lookup_singleton_Some in Hj as [_ <-].
             rewrite (decide_True (P := x = x)) by done.
             apply lookup_app_Some in Hi as [Hi|[_ Hi]].
             ++ rewrite decide_False by (apply Hnx; by eapply list_elem_of_lookup_2).
                apply Hcurb. by eapply list_elem_of_lookup_2.
             ++ apply list_lookup_singleton_Some in Hi as [_ <-].
                by rewrite decide_True.
        * intros v [Hv| ->%list_elem_of_singleton]%elem_of_app.
          -- rewrite decide_False by by apply Hnx. by apply Hcurb.
          -- by rewrite decide_True.
        * intros u v Hu Hadj. destruct (Hdone u v Hu Hadj) as [Hv Hlv].
          assert (u ∈ b_visited_order s) as Hus.
          { rewrite Hvo, Hsplit. apply elem_of_app. left. apply elem_of_app. by left. }
          rewrite !decide_False by by apply Hnx. split; [|done].
          apply elem_of_app. by left.
        * intros v [Hv| ->%list_elem_of_singleton]%elem_of_app.
          -- rewrite lookup_insert_ne by (apply not_eq_sym; by apply Hnx).
             destruct (Hpar v Hv) as [?|(u & Hp & Hu & Hadj & Hlv)]; [by left|].
             right. exists u. rewrite !decide_False by by apply Hnx.
             split_and!; try done. apply elem_of_app. by left.
          -- right. exists current. rewrite lookup_insert_eq.
             rewrite decide_True by done.
             rewrite (decide_False (P := current = x)) by (by apply Hnx).
             split_and!; try done.
             ++ apply elem_of_app. by left.
             ++ unfold adjacent. rewrite get_neighbors_deref, Hl.
                apply elem_of_app. right. left.
        * intros v [Hv| ->%list_elem_of_singleton]%elem_of_app; apply elem_of_app;
            [left; by apply Hl1|right; left].
        * rewrite decide_False; [done|]. apply Hnx. rewrite Hvo. apply elem_of_app.
          left. apply Ht.
      + exists lvl', new. split_and!; try done.
        intros v [Hv| ->%list_elem_of_singleton]%elem_of_app; [by apply Hl1|].
        apply dec_stable in Hx. rewrite Hvis in Hx. by rewrite elem_of_list_to_set in Hx.
    - exists lvl, []. cbn. rewrite !app_nil_r. split_and!; try done.
      + apply Hinv.
      + apply Ht.
      + intros v Hv. apply (bt_front _ _ _ Ht); [by rewrite Hfront|done].
      + apply Ht.
      + apply Ht.
      + intros v Hv. by apply elem_of_nil in Hv.
      + apply Ht. }
  destruct HP as (lvl' & new & Hq & Hvo & Hvis & Hsort & Hcurb & Hdone & Hpar & Hl1 & Hl0).
  exists lvl', (done ++ [current]). constructor.
  - rewrite Hvo, Hq, Hsplit. by rewrite <-!app_assoc.
  - done.
  - intros q0 v Hq0 Hv. specialize (Hcurb v Hv).
    assert (lvl' current <= lvl' q0)%nat; [|lia].
    apply (Hsort (length done) (S (length done))); [lia|..]; rewrite Hvo, Hsplit.
    + rewrite <-app_assoc. rewrite lookup_app_r by lia. by rewrite Nat.sub_diag.
    + rewrite <-app_assoc. rewrite lookup_app_r by lia.
      replace (S (length done) - length done)%nat with 1%nat by lia. cbn.
      rewrite Hq in Hq0. by destruct (Queue._front q ++ new).
  - intros u v [Hu| ->%list_elem_of_singleton]%elem_of_app Hadj; [by apply Hdone|].
    assert (v ∈ b_visited_order st') as Hv.
    { apply Hl1. unfold adjacent in Hadj. by rewrite get_neighbors_deref in Hadj. }
    split; [done|]. by apply Hcurb.
  - done.
  - intros [Hg| ->%list_elem_of_singleton]%elem_of_app; [by apply (bt_goal _ _ _ Ht)|done].
  - split; [|done]. rewrite Hvo. apply elem_of_app. left. apply Ht.
Qed.
End bfs_shortest.

(** C2.  On every well-formed graph on which the goal can be reached from
    the start, BFS returns (for every iteration bound from
    [search_bound g] on) a record with [found] set whose path is a path
    of the graph from the start to the goal and has no more nodes, hence
    no more edges, than any other such path; edge weights play no part. *)
Theorem bfs_shortest_path `{Countable V} (g : Graph.t V) (start_value goal_value : V) :
  Graph.wf g ->
  (exists p, path_between g start_value goal_value p) ->
  exists r,
    (forall fuel, (search_bound g <= fuel)%nat ->
       breadth_first_search fuel g start_value goal_value = Ok r) /\
    found r = true /\
    path_between g start_value goal_value (path r) /\
    (forall p, path_between g start_value goal_value p ->
       (length (path r) - 1 <= length p - 1)%nat).
Proof.
  intros Hwf Hreach.
  assert (start_value ∈ Graph.get_all_nodes g /\ goal_value ∈ Graph.get_all_nodes g)
    as [Hs Ht].
  { destruct Hreach as [p Hp]. pose proof (path_hops g p _ _ Hp) as Hh.
    clear Hp. induction Hh as [Hs|u v n Hu IH Hadj]; [done|].
    split; [apply IH|]. by apply (adjacent_node_r g u). }
  destruct (bfs_total g Hwf (bfs_J g start_value goal_value)
              (bfs_post g start_value goal_value) start_value goal_value)
    as (r & (Hf & Hp & Hmin) & Hrun); try done.
  - apply bfs_J_init.
  - intros st _ HJ He. eapply bfs_J_empty; eauto.
  - intros st q p _ HJ Hdq Hwalk. eapply bfs_J_goal; eauto.
  - intros st current q st' Hinv HJ Hdq Hne Hfor _. eapply bfs_J_expand; eauto.
  - exists r. split_and!; try done. intros p Hp'. specialize (Hmin p Hp'). lia.
Qed.

Global Instance adjacent_dec `{Countable V} (g : Graph.t V) (u v : V) :
  Decision (adjacent g u v).
Proof. unfold adjacent. apply _. Defined.

Global Instance is_path_dec `{Countable V} (g : Graph.t V) (p : list V) :
  Decision (is_path g p).
Proof.
  induction p as [|u p IH]; [right; by intros []|].
  destruct p as [|v p]; cbn [is_path]; apply _.
Defined.

Global Instance path_between_dec `{Countable V} (g : Graph.t V) (s t : V) (p : list V) :
  Decision (path_between g s t p).
Proof. unfold path_between. apply _. Defined.

Lemma bfs_shortest_path_witness :
  exists r,
    (forall fuel, (search_bound triangle_graph <= fuel)%nat ->
       breadth_first_search fuel triangle_graph 1%nat 3%nat = Ok r) /\
    found r = true /\
    path_between triangle_graph 1%nat 3%nat (path r) /\
    (forall p, path_between triangle_graph 1%nat 3%nat p ->
       (length (path r) - 1 <= length p - 1)%nat).
Proof.
  apply (bfs_shortest_path triangle_graph 1%nat 3%nat).
  - apply (bool_decide_unpack _). vm_compute. exact I.
  - exists [1%nat; 3%nat]. apply (bool_decide_unpack _). vm_compute. exact I.
Defined.

(** ** Weighted walks *)

Section walks.
Context `{Countable V}.
Implicit Types (g : Graph.t V) (p : list V) (u v s t : V) (w c : Z).

(** The graph holds the edge [u -> v] with weight [w]. *)
Definition edge g u v w : Prop := Graph.get_edge_weight g u v = Fin w.

(** Total weight of a list of nodes read as a path; [Inf] when two
    consecutive nodes are not joined by an edge. *)
Fixpoint path_weight g p : ext :=
  match p with
  | [] => Fin 0
  | u :: p' =>
    match p' with
    | [] => Fin 0
    | v :: _ => ext_add (Graph.get_edge_weight g u v) (path_weight g p')
    end
  end.

(** There is a walk from [s] to [v] of total weight [c]. *)
Inductive walk g s : V -> Z -> Prop :=
| walk_here : s ∈ Graph.get_all_nodes g -> walk g s s 0
| walk_step u v c w : walk g s u c -> edge g u v w -> walk g s v (c + w).

Definition nonneg g : Prop :=
  Forall (fun n => Forall (fun vw => 0 <= snd vw) (GraphNode.neighbors n)) (Graph.nodes g).

(** [c] is the least total weight of a path from [s] to [t]. *)
Definition min_cost g s t c : Prop :=
  (exists p, path_between g s t p /\ path_weight g p = Fin c) /\
  (forall p, path_between g s t p -> ext_le (Fin c) (path_weight g p)).


(** The heuristic drops by at most the weight along every edge. *)
Definition consistent g (heuristic : V -> V -> Z) t : Prop :=
  forall u v w, edge g u v w -> heuristic u t <= w + heuristic v t.

Lemma edge_get_weight g u v w :
  edge g u v w ->
  GraphNode.get_weight (Graph.deref g u) v = Fin w /\
  v ∈ GraphNode.get_neighbors (Graph.deref g u) /\
  u ∈ Graph.get_all_nodes g /\ v ∈ Graph.get_all_nodes g.
Proof.
  unfold edge, Graph.get_edge_weight, Graph.deref.
  destruct (Graph.get_node g u) as [nu|] eqn:Hu; [|done].
  destruct (Graph.get_node g v) as [nv|] eqn:Hv; [|done].
  rewrite (get_node_value _ _ _ Hv). cbn [default id]. intros Hw.
  split_and!; [done| |apply get_node_is_Some; by eexists..].
  unfold GraphNode.get_weight in Hw.
  destruct (GraphNode.get (GraphNode.neighbors nu) v) as [w'|] eqn:Hget; [|done].
  apply get_Some_elem in Hget. apply list_elem_of_fmap. by exists (v, w').
Qed.

Lemma get_weight_edge g u v :
  Graph.wf g -> v ∈ GraphNode.get_neighbors (Graph.deref g u) ->
  exists w, GraphNode.get_weight (Graph.deref g u) v = Fin w /\ edge g u v w.
Proof.
  intros Hwf Hv. pose proof (wf_neighbors_nodes g u v Hwf Hv) as Hvn.
  apply get_node_is_Some in Hvn as [nv Hnv].
  unfold edge, Graph.get_edge_weight. revert Hv. unfold Graph.deref.
  destruct (Graph.get_node g u) as [nu|] eqn:Hu; cbn [default id];
    [|intros Hv; by apply elem_of_nil in Hv].
  intros Hv. rewrite Hnv, (get_node_value _ _ _ Hnv). unfold GraphNode.get_weight.
  destruct (GraphNode.get (GraphNode.neighbors nu) v) as [w|] eqn:Hget; [by exists w|].
  by apply get_None in Hget.
Qed.

Lemma edge_adjacent g u v w : edge g u v w -> adjacent g u v.
Proof.
  intros (_ & Hv & _)%edge_get_weight. unfold adjacent. by rewrite get_neighbors_deref.
Qed.

Lemma adjacent_edge g u v : Graph.wf g -> adjacent g u v -> exists w, edge g u v w.
Proof.
  intros Hwf Hadj. unfold adjacent in Hadj. rewrite get_neighbors_deref in Hadj.
  destruct (get_weight_edge g u v Hwf Hadj) as (w & _ & Hw). by exists w.
Qed.

Lemma nonneg_edge g u v w : nonneg g -> edge g u v w -> 0 <= w.
Proof.
  intros Hnn. unfold edge, Graph.get_edge_weight.
  destruct (Graph.get_node g u) as [nu|] eqn:Hu; [|done].
  destruct (Graph.get_node g v) as [nv|] eqn:Hv; [|done].
  unfold GraphNode.get_weight.
  destruct (GraphNode.get _ _) as [w'|] eqn:Hget; [|done]. intros [= ->].
  apply get_Some_elem in Hget. apply lookup_node_elem in Hu.
  unfold nonneg in Hnn. rewrite Forall_forall in Hnn. specialize (Hnn nu Hu).
  rewrite Forall_forall in Hnn. by apply (Hnn _ Hget).
Qed.

Lemma walk_cons g s u v c w : edge g s u w -> walk g u v c -> walk g s v (w + c).
Proof.
  intros Hsu. induction 1 as [Hu|x y c w' Hx IH Hxy].
  - replace (w + 0) with (0 + w) by lia. apply (walk_step g s s u); [|done].
    constructor. by apply edge_get_weight in Hsu as (_ & _ & ? & _).
  - replace (w + (c + w')) with (w + c + w') by lia. by apply (walk_step g s x y).
Qed.

Lemma path_weight_cons g x y p :
  path_weight g (x :: y :: p) =
  ext_add (Graph.get_edge_weight g x y) (path_weight g (y :: p)).
Proof. done. Qed.

(** Paths and walks are the same thing. *)
Lemma path_walk g p s t :
  Graph.wf g -> path_between g s t p ->
  exists c, path_weight g p = Fin c /\ walk g s t c.
Proof.
  intros Hwf. revert s. induction p as [|u p IH]; intros s (Hp & Hh & Hl); [done|].
  injection Hh as ->. destruct p as [|v p].
  - injection Hl as ->. exists 0. split; [done|]. by constructor.
  - destruct Hp as [Hadj Hp]. rewrite last_cons_cons in Hl.
    destruct (IH v) as (c & Hc & Hw); [by split_and!|].
    destruct (adjacent_edge g s v Hwf Hadj) as (w & Hedge).
    exists (w + c). split; [|by apply (walk_cons g s v)].
    rewrite path_weight_cons, Hc. unfold edge in Hedge. by rewrite Hedge.
Qed.

Lemma path_weight_snoc g p u v w c :
  last p = Some u -> path_weight g p = Fin c -> edge g u v w ->
  path_weight g (p ++ [v]) = Fin (c + w).
Proof.
  revert c. induction p as [|x p IH]; intros c Hl Hc Hedge; [done|].
  destruct p as [|y p].
  - injection Hl as ->. injection Hc as <-. cbn. unfold edge in Hedge. rewrite Hedge.
    cbn. f_equal. lia.
  - rewrite last_cons_cons in Hl. rewrite path_weight_cons in Hc.
    change ((x :: y :: p) ++ [v]) with (x :: y :: (p ++ [v])).
    rewrite path_weight_cons. change (y :: (p ++ [v])) with ((y :: p) ++ [v]).
    destruct (Graph.get_edge_weight g x y) as [w0|]; [|done].
    destruct (path_weight g (y :: p)) as [c0|] eqn:Hc0; [|done].
    injection Hc as <-. rewrite (IH c0 Hl eq_refl Hedge). cbn. f_equal. lia.
Qed.

Lemma walk_path g s t c :
  Graph.wf g -> walk g s t c ->
  exists p, path_between g s t p /\ path_weight g p = Fin c.
Proof.
  intros Hwf. induction 1 as [Hs|u v c w Hu IH Hedge].
  - exists [s]. by split_and!.
  - destruct IH as (p & (Hp & Hh & Hl) & Hc). exists (p ++ [v]).
    split; [|by apply (path_weight_snoc g p u)]. split_and!.
    + apply (is_path_snoc g p u v); [done..|]. by eapply edge_adjacent.
    + by destruct p.
    + apply last_snoc.
Qed.

(** The least weight of a walk is the least weight of a path. *)
Lemma walk_min_cost g s t c :
  Graph.wf g -> walk g s t c -> (forall c', walk g s t c' -> c <= c') ->
  min_cost g s t c.
Proof.
  intros Hwf Hw Hmin. split; [by apply walk_path|].
  intros p Hp. destruct (path_walk g p s t Hwf Hp) as (c' & -> & Hw').
  apply ext_le_Fin. by apply Hmin.
Qed.
End walks.

Lemma path_endpoints `{Countable V} (g : Graph.t V) (s t : V) (p : list V) :
  Graph.wf g -> path_between g s t p ->
  s ∈ Graph.get_all_nodes g /\ t ∈ Graph.get_all_nodes g.
Proof.
  intros Hwf Hp. pose proof (path_hops g p _ _ Hp) as Hh. clear Hp.
  induction Hh as [Hs|u v n Hu IH Hadj]; [done|].
  split; [apply IH|]. by apply (adjacent_node_r g u).
Qed.

(** ** A-star with a consistent heuristic returns the least cost *)

Section astar_optimal.
Context `{Countable V}.
Variable g : Graph.t V.
Variable heuristic : V -> V -> Z.
Variable start goal : V.
Hypothesis Hwf : Graph.wf g.
Hypothesis Hcons : consistent g heuristic goal.

Implicit Types (st : astar_state V).

(** What the loop knows about the scores. *)
Record astar_J st : Prop := {
  aj_start : a_g_score st !! start = Some (Fin 0);
  aj_sound : forall v c, a_g_score st !! v = Some (Fin c) -> walk g start v c;
  aj_final : forall v, v ∈ a_visited st ->
               exists c, a_g_score st !! v = Some (Fin c) /\
                         forall c', walk g start v c' -> c <= c';
  aj_entry : forall f v, (f, v) ∈ PriorityQueue._heap (a_pq st) ->
               exists c, a_g_score st !! v = Some (Fin c) /\ ext_le (Fin (c + heuristic v goal)) f;
  aj_open : forall v c, v ∉ a_visited st -> a_g_score st !! v = Some (Fin c) ->
              (Fin (c + heuristic v goal), v) ∈ PriorityQueue._heap (a_pq st);
  aj_relaxed : forall u v w cu, u ∈ a_visited st -> v ∉ a_visited st ->
                 edge g u v w -> a_g_score st !! u = Some (Fin cu) ->
                 exists cv, a_g_score st !! v = Some (Fin cv) /\ cv <= cu + w;
  aj_goal : goal ∉ a_visited st
}.

(** Every walk from the start either ends in a settled node or crosses
    an open node whose key is no larger than the key of its end. *)
Lemma astar_frontier st v c :
  astar_J st -> walk g start v c ->
  v ∈ a_visited st \/
  exists x cx, (x ∉ a_visited st) /\ a_g_score st !! x = Some (Fin cx) /\
               cx + heuristic x goal <= c + heuristic v goal.
Proof.
  intros HJ. induction 1 as [_|u v c w Hu IH Hedge].
  - destruct (decide (start ∈ a_visited st)) as [?|Hs]; [by left|].
    right. exists start, 0. split_and!; [done|apply HJ|lia].
  - destruct (decide (v ∈ a_visited st)) as [?|Hv]; [by left|]. right.
    destruct IH as [Huv|(x & cx & Hx & Hgx & Hle)].
    + destruct (aj_final _ HJ u Huv) as (cu & Hgu & Hmin).
      destruct (aj_relaxed _ HJ u v w cu Huv Hv Hedge Hgu) as (cv & Hgv & Hcv).
      exists v, cv. split_and!; [done|done|]. specialize (Hmin c Hu). lia.
    + exists x, cx. split_and!; [done|done|]. specialize (Hcons u v w Hedge). lia.
Qed.

(** The node extracted with the least key has its final score. *)
Lemma astar_extract_final st f current pq c' :
  astar_inv g st -> astar_J st ->
  PriorityQueue.extract_min (a_pq st) = Ok ((f, current), pq) ->
  current ∉ a_visited st ->
  exists c, a_g_score st !! current = Some (Fin c) /\
    (walk g start current c' -> c <= c').
Proof.
  intros Hinv HJ Hx Hv.
  destruct (PriorityQueue.is_empty (a_pq st)) eqn:He.
  { unfold PriorityQueue.extract_min in Hx. by rewrite He in Hx. }
  destruct (extract_min_spec _ (ai_pq _ _ Hinv) He) as (x' & pq' & Hx' & _ & Hp & Hmin).
  rewrite Hx in Hx'. injection Hx' as <- <-.
  destruct (aj_entry _ HJ f current) as (c & Hc & Hcf).
  { rewrite Hp. left. }
  exists c. split; [done|]. intros Hw.
  destruct (astar_frontier st current c' HJ Hw) as [?|(x & cx & Hxv & Hgx & Hle)]; [done|].
  pose proof (aj_open _ HJ x cx Hxv Hgx) as Hin.
  rewrite Forall_forall in Hmin. specialize (Hmin _ Hin). cbn in Hmin.
  pose proof (ext_le_trans _ _ _ Hcf Hmin) as Hle'. apply ext_le_Fin in Hle'. lia.
Qed.

Definition astar_post (r : Result V) : Prop :=
  found r = true /\ exists c, cost r = Some (Fin c) /\ min_cost g start goal c.

Lemma astar_J_empty st :
  (exists p, path_between g start goal p) ->
  astar_inv g st -> astar_J st -> PriorityQueue.is_empty (a_pq st) = true ->
  astar_post (astar_fail st).
Proof.
  intros [p Hp] Hinv HJ He. exfalso.
  destruct (path_walk g p start goal Hwf Hp) as (c & _ & Hw).
  destruct (astar_frontier st goal c HJ Hw) as [Hg|(x & cx & Hx & Hgx & _)].
  - by apply (aj_goal _ HJ).
  - pose proof (aj_open _ HJ x cx Hx Hgx) as Hin.
    rewrite (is_empty_heap _ (ai_pq _ _ Hinv) He) in Hin. by apply elem_of_nil in Hin.
Qed.

Lemma astar_J_goal st f pq p c :
  astar_inv g st -> astar_J st ->
  PriorityQueue.extract_min (a_pq st) = Ok ((f, goal), pq) ->
  goal ∉ a_visited st -> a_g_score st !! goal = Some c ->
  astar_post (astar_success st goal p c).
Proof.
  intros Hinv HJ Hx Hv Hc. split; [done|].
  destruct (astar_extract_final st f goal pq 0 Hinv HJ Hx Hv) as (c0 & Hc0 & _).
  rewrite Hc in Hc0. injection Hc0 as ->. exists c0. split; [done|].
  apply walk_min_cost; [done|by apply (aj_sound _ HJ)|].
  intros c' Hw. destruct (astar_extract_final st f goal pq c' Hinv HJ Hx Hv)
    as (c1 & Hc1 & Hle). rewrite Hc in Hc1. injection Hc1 as <-. auto.
Qed.

Lemma astar_J_skip st f current pq :
  astar_inv g st -> astar_J st ->
  PriorityQueue.extract_min (a_pq st) = Ok ((f, current), pq) ->
  current ∈ a_visited st -> astar_J (astar_skip st pq).
Proof.
  intros Hinv HJ Hx Hv.
  destruct (astar_inv_skip g st _ pq Hinv Hx) as (_ & Hp & _).
  destruct HJ as [Hs Hsound Hfin Hent Hopen Hrel Hg]. constructor; cbn; try done.
  - intros f' v Hin. apply Hent. rewrite Hp. by right.
  - intros v c Hvv Hgv. specialize (Hopen v c Hvv Hgv). rewrite Hp in Hopen.
    apply elem_of_cons in Hopen as [[= _ ->]|?]; done.
Qed.

Lemma astar_J_expand st f current pq st' :
  astar_inv g st -> astar_J st ->
  PriorityQueue.extract_min (a_pq st) = Ok ((f, current), pq) ->
  current ∉ a_visited st -> current ≠ goal ->
  for_each (astar_neighbor g heuristic goal current)
    (GraphNode.get_neighbors (Graph.deref g current))
    (astar_visit st pq current) = Ok st' ->
  astar_J st'.
Proof.
  intros Hinv HJ Hx Hv Hne Hrun.
  destruct (astar_inv_skip g st _ pq Hinv Hx) as (Hinv1 & Hp & _).
  destruct (astar_extract_final st f current pq 0 Hinv HJ Hx Hv) as (gc & Hgc & _).
  assert (forall c', walk g start current c' -> gc <= c') as Hgcmin.
  { intros c' Hw. destruct (astar_extract_final st f current pq c' Hinv HJ Hx Hv)
      as (c1 & Hc1 & Hle). rewrite Hgc in Hc1. injection Hc1 as <-. auto. }
  set (vis := {[current]} ∪ a_visited st).
  pose (P := fun (l1 : list V) (s : astar_state V) =>
    a_visited s = vis /\ pq_wf (a_pq s) /\
    a_g_score s !! start = Some (Fin 0) /\
    (forall v c, a_g_score s !! v = Some (Fin c) -> walk g start v c) /\
    (forall v, v ∈ vis -> a_g_score s !! v = a_g_score st !! v) /\
    (forall f v, (f, v) ∈ PriorityQueue._heap (a_pq s) ->
       exists c, a_g_score s !! v = Some (Fin c) /\ ext_le (Fin (c + heuristic v goal)) f) /\
    (forall v c, v ∉ vis -> a_g_score s !! v = Some (Fin c) ->
       (Fin (c + heuristic v goal), v) ∈ PriorityQueue._heap (a_pq s)) /\
    (forall u v w cu, u ∈ a_visited st -> v ∉ vis -> edge g u v w ->
       a_g_score s !! u = Some (Fin cu) ->
       exists cv, a_g_score s !! v = Some (Fin cv) /\ cv <= cu + w) /\
    (forall v w, v ∈ l1 -> v ∉ vis -> edge g current v w ->
       exists cv, a_g_score s !! v = Some (Fin cv) /\ cv <= gc + w)).
  assert (P (GraphNode.get_neighbors (Graph.deref g current)) st') as HP.
  { revert Hrun. apply for_each_Hoare.
    - intros l1 x l2 s s' Hl (Hvis & Hpq & Hs0 & Hsound & Hkeep & Hent & Hopen & Hrel & Hcur)
        Hbody.
      unfold astar_neighbor in Hbody. rewrite Hvis in Hbody.
      destruct (decide (x ∈ vis)) as [Hxv|Hxv].
      { injection Hbody as <-. split_and!; try done.
        intros v w [Hin| ->%list_elem_of_singleton]%elem_of_app Hnv; [by apply Hcur|done]. }
      assert (x ∈ GraphNode.get_neighbors (Graph.deref g current)) as Hxn.
      { rewrite Hl. apply elem_of_app. right. left. }
      destruct (get_weight_edge g current x Hwf Hxn) as (wx & Hwx & Hedge).
      assert (a_g_score s !! current = Some (Fin gc)) as Hgcs.
      { rewrite Hkeep; [done|]. unfold vis. set_solver. }
      unfold getitem in Hbody. rewrite Hgcs, Hwx in Hbody. cbn [mbind outcome_bind] in Hbody.
      destruct (a_g_score s !! x) as [gx|] eqn:Hgx; [|done].
      cbn [mbind outcome_bind ext_add] in Hbody.
      destruct (ext_ltb (Fin (gc + wx)) gx) eqn:Hlt.
      2:{ injection Hbody as <-. split_and!; try done.
          intros v w [Hin| ->%list_elem_of_singleton]%elem_of_app Hnv Hev;
            [by apply Hcur|].
          unfold edge in Hedge, Hev. rewrite Hedge in Hev. injection Hev as <-.
          destruct gx as [cx|]; [|done]. exists cx. split; [done|].
          cbn in Hlt. lia. }
      rewrite !lookup_insert_eq in Hbody. cbn [mbind outcome_bind ext_add] in Hbody.
      rewrite !lookup_insert_eq in Hbody. cbn [mbind outcome_bind] in Hbody.
      injection Hbody as <-. cbn.
      destruct (insert_spec (a_pq s) x (Fin (gc + wx + heuristic x goal)) Hpq) as [Hpq' Hperm].
      assert (x ≠ start) as Hxs.
      { intros ->. rewrite Hs0 in Hgx. injection Hgx as <-. cbn in Hlt.
        (* a consistent heuristic admits no negative cycle through the start *)
        pose proof (aj_sound _ HJ current gc Hgc) as Hwc.
        assert (forall v c, walk g start v c -> heuristic start goal <= c + heuristic v goal) as Hpot.
        { intros v c Hw. induction Hw as [_|u v c w Hu IH He]; [lia|].
          specialize (Hcons u v w He). lia. }
        specialize (Hpot start (gc + wx)
          (walk_step g start current start gc wx Hwc Hedge)). lia. }
      split_and!;
        cbn [a_pq a_visited a_g_score a_f_score a_parent a_visited_order]; try done.
      + by rewrite lookup_insert_ne.
      + intros v c. destruct (decide (v = x)) as [->|Hvx].
        * rewrite lookup_insert_eq. intros [= <-].
          apply (walk_step g start current x); [by apply Hsound|done].
        * rewrite lookup_insert_ne by done. apply Hsound.
      + intros v Hvv. rewrite lookup_insert_ne by (intros ->; done). by apply Hkeep.
      + intros f' v. rewrite Hperm. intros [[= -> ->]|Hin]%elem_of_cons.
        * rewrite lookup_insert_eq. eexists. split; [done|]. apply ext_le_refl.
        * destruct (Hent f' v Hin) as (c & Hc & Hcf).
          destruct (decide (v = x)) as [->|Hvx].
          -- rewrite lookup_insert_eq. eexists. split; [done|].
             rewrite Hgx in Hc. injection Hc as ->. cbn in Hlt.
             eapply ext_le_trans; [|done]. apply ext_le_Fin. lia.
          -- rewrite lookup_insert_ne by done. eauto.
      + intros v c Hvv. rewrite Hperm. destruct (decide (v = x)) as [->|Hvx].
        * rewrite lookup_insert_eq. intros [= <-]. left.
        * rewrite lookup_insert_ne by done. intros Hc. right. by apply Hopen.
      + intros u v w cu Hu Hvv Hev.
        assert (u ≠ x) as Hux by (intros ->; apply Hxv; unfold vis; set_solver).
        rewrite lookup_insert_ne by done. intros Hcu.
        destruct (Hrel u v w cu Hu Hvv Hev Hcu) as (cv & Hcv & Hle).
        destruct (decide (v = x)) as [->|Hvx].
        * rewrite lookup_insert_eq. eexists. split; [done|].
          rewrite Hgx in Hcv. injection Hcv as ->. cbn in Hlt. lia.
        * rewrite lookup_insert_ne by done. eauto.
      + intros v w [Hin| ->%list_elem_of_singleton]%elem_of_app Hnv Hev.
        * destruct (Hcur v w Hin Hnv Hev) as (cv & Hcv & Hle).
          destruct (decide (v = x)) as [->|Hvx].
          -- rewrite lookup_insert_eq. eexists. split; [done|].
             rewrite Hgx in Hcv. injection Hcv as ->. cbn in Hlt. lia.
          -- rewrite lookup_insert_ne by done. eauto.
        * rewrite lookup_insert_eq. eexists. split; [done|].
          unfold edge in Hedge, Hev. rewrite Hedge in Hev. injection Hev as <-. lia.
    - destruct HJ as [Hs Hsound Hfin Hent Hopen Hrel Hg]. cbn. split_and!; try done.
      + apply Hinv1.
      + intros f' v Hin. apply Hent. rewrite Hp. by right.
      + intros v c Hvv Hgv. assert (v ∉ a_visited st) as Hvo by (unfold vis in Hvv; set_solver).
        specialize (Hopen v c Hvo Hgv). rewrite Hp in Hopen.
        apply elem_of_cons in Hopen as [[= _ ->]|?]; [|done].
        exfalso. apply Hvv. unfold vis. set_solver.
      + intros u v w cu Hu Hvv. apply Hrel; [done|]. unfold vis in Hvv. set_solver.
      + intros v w Hin. by apply elem_of_nil in Hin. }
  destruct HP as (Hvis & Hpq & Hs0 & Hsound & Hkeep & Hent & Hopen & Hrel & Hcur).
  constructor; try done.
  - intros v Hvv. rewrite Hvis in Hvv. rewrite Hkeep by done.
    unfold vis in Hvv. apply elem_of_union in Hvv as [->%elem_of_singleton|Hvv].
    + exists gc. by split.
    + by apply (aj_final _ HJ).
  - intros v c. rewrite Hvis. apply Hopen.
  - intros u v w cu. rewrite Hvis. intros Hu Hvv Hev Hcu.
    unfold vis in Hu. apply elem_of_union in Hu as [->%elem_of_singleton|Hu].
    + rewrite Hkeep in Hcu by (unfold vis; set_solver). rewrite Hgc in Hcu.
      injection Hcu as <-. apply Hcur; [|done|done].
      by apply edge_get_weight in Hev as (_ & ? & _).
    + by apply (Hrel u v w cu).
  - rewrite Hvis. unfold vis. pose proof (aj_goal _ HJ). set_solver.
Qed.

Lemma astar_J_init :
  start ∈ Graph.get_all_nodes g -> astar_J (astar_init g heuristic start goal).
Proof.
  intros Hs.
  destruct (insert_spec (@PriorityQueue.empty V) start (Fin (heuristic start goal)) pq_wf_empty)
    as [_ Hperm].
  assert (forall v c, <[start := Fin 0]> (all_inf g) !! v = Some (Fin c) ->
            v = start /\ c = 0) as Hfin.
  { intros v c. destruct (decide (v = start)) as [->|Hne].
    - rewrite lookup_insert_eq. by intros [= <-].
    - rewrite lookup_insert_ne by done. rewrite all_inf_lookup. by case_decide. }
  constructor; cbn.
  - by rewrite lookup_insert_eq.
  - intros v c [-> ->]%Hfin. by constructor.
  - intros v Hv. by apply elem_of_empty in Hv.
  - intros f v. rewrite Hperm. intros [= -> ->]%list_elem_of_singleton.
    exists 0. rewrite lookup_insert_eq. split; [done|]. apply ext_le_Fin. lia.
  - intros v c _ [-> ->]%Hfin. rewrite Hperm. rewrite Z.add_0_l. left.
  - intros u v w cu Hu. by apply elem_of_empty in Hu.
  - apply not_elem_of_empty.
Qed.

(** A-star on a reachable goal, with a consistent heuristic. *)
Lemma astar_optimal :
  (exists p, path_between g start goal p) ->
  exists r, astar_post r /\
    forall fuel, (search_bound g <= fuel)%nat ->
      astar fuel g start goal heuristic = Ok r.
Proof.
  intros Hreach.
  assert (start ∈ Graph.get_all_nodes g /\ goal ∈ Graph.get_all_nodes g) as [Hs Ht].
  { destruct Hreach as [p Hp]. by apply (path_endpoints g start goal p). }
  apply (astar_total g heuristic Hwf astar_J astar_post start goal); try done.
  - by apply astar_J_init.
  - intros st Hinv HJ He. by apply astar_J_empty.
  - intros st f current pq. apply astar_J_skip.
  - intros st f pq p c Hinv HJ Hx Hv _ Hc. by apply (astar_J_goal st f pq).
  - intros st f current pq st' Hinv HJ Hx Hv Hne Hrun _.
    by apply (astar_J_expand st f current pq).
Qed.
End astar_optimal.

(** ** Dijkstra and A-star return the least cost *)

Section cost_facts.
Context `{Countable V}.
Implicit Types (g : Graph.t V) (u v s t : V).

Lemma min_cost_unique g s t c1 c2 : min_cost g s t c1 -> min_cost g s t c2 -> c1 = c2.
Proof.
  intros [(p1 & Hp1 & Hw1) Hmin1] [(p2 & Hp2 & Hw2) Hmin2].
  pose proof (Hmin1 p2 Hp2) as H12. pose proof (Hmin2 p1 Hp1) as H21.
  rewrite Hw2 in H12. rewrite Hw1 in H21. apply ext_le_Fin in H12, H21. lia.
Qed.

(** The edges of a graph are the entries of the neighbour dicts of its
    table, so a property of all edges can be checked on the table. *)
Definition on_edges g (P : V -> V -> Z -> Prop) : Prop :=
  Forall (fun n => Forall (fun vw => P (GraphNode.value n) (fst vw) (snd vw))
                     (GraphNode.neighbors n)) (Graph.nodes g).


Lemma nonneg_consistent_zero g t : nonneg g -> consistent g zero_estimate t.
Proof.
  intros Hnn u v w Hedge. unfold zero_estimate.
  pose proof (nonneg_edge g u v w Hnn Hedge). lia.
Qed.




End cost_facts.

Global Instance on_edges_dec `{Countable V} (g : Graph.t V) (P : V -> V -> Z -> Prop)
  `{forall u v w, Decision (P u v w)} : Decision (on_edges g P).
Proof. unfold on_edges. apply _. Defined.

Global Instance nonneg_dec `{Countable V} (g : Graph.t V) : Decision (nonneg g).
Proof. unfold nonneg. apply _. Defined.

(** The square with a diagonal on which an admissible heuristic misleads
    A-star: 0 -1- 1 -1- 2 -10- 3 and the direct edge 0 -4- 2. *)
Definition detour_graph : Graph.t nat :=
  Graph.build false
    [Graph.AddEdge 0%nat 1%nat 1; Graph.AddEdge 0%nat 2%nat 4;
     Graph.AddEdge 1%nat 2%nat 1; Graph.AddEdge 2%nat 3%nat 10].








(** ** How many nodes A-star and Dijkstra settle *)

Lemma min_cost_walk `{Countable V} (g : Graph.t V) (s t : V) (c : Z) :
  Graph.wf g -> min_cost g s t c ->
  walk g s t c /\ forall c', walk g s t c' -> c <= c'.
Proof.
  intros Hwf [(p & Hp & Hc) Hmin]. split.
  - destruct (path_walk g p s t Hwf Hp) as (c0 & Hc0 & Hw).
    rewrite Hc in Hc0. by injection Hc0 as <-.
  - intros c' Hw. destruct (walk_path g s t c' Hwf Hw) as (p' & Hp' & Hc').
    specialize (Hmin p' Hp'). rewrite Hc' in Hmin. by apply ext_le_Fin in Hmin.
Qed.


Section astar_explored.
Context `{Countable V}.
Variable g : Graph.t V.
Variable heuristic : V -> V -> Z.
Variable start goal : V.
Hypothesis Hwf : Graph.wf g.
Hypothesis Hcons : consistent g heuristic goal.

Implicit Types (st : astar_state V).

(** The least key of the heap is at most the weight of any walk to a node
    that is not settled yet, plus the estimate there. *)
Lemma astar_key_bound st f current pq v c :
  astar_inv g st -> astar_J g heuristic start goal st ->
  PriorityQueue.extract_min (a_pq st) = Ok ((f, current), pq) ->
  walk g start v c -> v ∉ a_visited st ->
  exists gc, a_g_score st !! current = Some (Fin gc) /\
    gc + heuristic current goal <= c + heuristic v goal.
Proof.
  intros Hinv HJ Hx Hw Hv.
  destruct (PriorityQueue.is_empty (a_pq st)) eqn:He.
  { unfold PriorityQueue.extract_min in Hx. by rewrite He in Hx. }
  destruct (extract_min_spec _ (ai_pq _ _ Hinv) He) as (x' & pq' & Hx' & _ & Hp & Hmin).
  rewrite Hx in Hx'. injection Hx' as <- <-.
  destruct (aj_entry _ _ _ _ _ HJ f current) as (gc & Hgc & Hcf).
  { rewrite Hp. left. }
  exists gc. split; [done|].
  destruct (astar_frontier g heuristic start goal Hcons st v c HJ Hw)
    as [?|(x & cx & Hxv & Hgx & Hle)]; [done|].
  pose proof (aj_open _ _ _ _ _ HJ x cx Hxv Hgx) as Hin.
  rewrite Forall_forall in Hmin. specialize (Hmin _ Hin). cbn in Hmin.
  pose proof (ext_le_trans _ _ _ Hcf Hmin) as Hle'. apply ext_le_Fin in Hle'. lia.
Qed.


(** A settled node carries its least cost. *)
Lemma astar_settled_least st v :
  astar_J g heuristic start goal st -> v ∈ a_visited st ->
  exists c, a_g_score st !! v = Some (Fin c) /\ walk g start v c /\
            forall c', walk g start v c' -> c <= c'.
Proof.
  intros HJ Hv. destruct (aj_final _ _ _ _ _ HJ v Hv) as (c & Hc & Hmin).
  exists c. split_and!; [done| |done]. by apply (aj_sound _ _ _ _ _ HJ).
Qed.

Lemma astar_extract_least st f current pq :
  astar_inv g st -> astar_J g heuristic start goal st ->
  PriorityQueue.extract_min (a_pq st) = Ok ((f, current), pq) ->
  current ∉ a_visited st ->
  exists c, a_g_score st !! current = Some (Fin c) /\ walk g start current c /\
            forall c', walk g start current c' -> c <= c'.
Proof.
  intros Hinv HJ Hx Hv.
  destruct (astar_extract_final g heuristic start goal Hcons st f current pq 0
              Hinv HJ Hx Hv) as (c & Hc & _).
  exists c. split_and!; [done|by apply (aj_sound _ _ _ _ _ HJ)|].
  intros c' Hw.
  destruct (astar_extract_final g heuristic start goal Hcons st f current pq c'
              Hinv HJ Hx Hv) as (c1 & Hc1 & Hle).
  rewrite Hc in Hc1. injection Hc1 as <-. auto.
Qed.

(** *** What A-star settles *)




Hypothesis Hgoal : heuristic goal goal <= 0.



(** *** What A-star cannot leave out *)


End astar_explored.

Section explored_compare.
Context `{Countable V}.
Implicit Types (g : Graph.t V) (r : Result V).

Lemma absent_endpoint_astar g (heuristic : V -> V -> Z) (s t : V) (fuel : nat) :
  ¬ (s ∈ Graph.get_all_nodes g /\ t ∈ Graph.get_all_nodes g) ->
  astar fuel g s t heuristic = Ok (mkResult false [] (Some Inf) [] 0%nat).
Proof.
  intros Hno. unfold astar.
  destruct (decide (s ∈ Graph.get_all_nodes g)) as [Hs|Hs].
  - destruct (decide (t ∈ Graph.get_all_nodes g)) as [Ht|Ht]; [by destruct Hno|].
    apply get_node_None in Ht. rewrite Ht. by destruct (Graph.get_node g s).
  - apply get_node_None in Hs. by rewrite Hs.
Qed.


End explored_compare.























(** ** A-star with [zero_heuristic]

    With [zero_heuristic] the keys of the heap are the scores converted
    to floats.  The heap only compares its keys; as long as the
    conversion keeps the order of the scores it meets, the search goes
    as with the scores themselves. *)

(** *** A heap whose keys are renamed in an order-preserving way *)

Section rekey.
Context {A : Type}.
Variable phi : ext -> ext.
Variable P : ext -> Prop.
Hypothesis phi_Inf : phi Inf = Inf.
Hypothesis P_Inf : P Inf.
Hypothesis phi_ltb : forall a b, P a -> P b -> ext_ltb (phi a) (phi b) = ext_ltb a b.

Definition rekey (h : list (ext * A)) : list (ext * A) :=
  (fun px => (phi (fst px), snd px)) <$> h.

Definition rekey_queue (q : PriorityQueue.t A) : PriorityQueue.t A :=
  {| PriorityQueue._heap := rekey (PriorityQueue._heap q);
     PriorityQueue._size := PriorityQueue._size q |}.

Definition keys_in (h : list (ext * A)) : Prop := Forall (fun px => P (fst px)) h.

Lemma prio_rekey h i : PriorityQueue.prio (rekey h) i = phi (PriorityQueue.prio h i).
Proof.
  unfold PriorityQueue.prio, rekey. rewrite list_lookup_fmap.
  by destruct (h !! i).
Qed.

Lemma keys_in_prio h i : keys_in h -> P (PriorityQueue.prio h i).
Proof.
  intros Hh. unfold PriorityQueue.prio. destruct (h !! i) as [px|] eqn:Hi; [|done].
  unfold keys_in in Hh. rewrite Forall_forall in Hh. apply Hh.
  by eapply list_elem_of_lookup_2.
Qed.

Lemma swap_rekey h i j :
  PriorityQueue.swap (rekey h) i j = rekey (PriorityQueue.swap h i j).
Proof.
  unfold PriorityQueue.swap, rekey. rewrite !list_lookup_fmap.
  destruct (h !! i), (h !! j); cbn [fmap option_fmap option_map]; try done.
  by rewrite !list_fmap_insert.
Qed.

Lemma keys_in_swap h i j : keys_in h -> keys_in (PriorityQueue.swap h i j).
Proof. unfold keys_in. by rewrite swap_Permutation. Qed.

Lemma heapify_up_rekey fuel h i :
  keys_in h ->
  PriorityQueue.heapify_up_fuel fuel (rekey h) i =
  rekey (PriorityQueue.heapify_up_fuel fuel h i).
Proof.
  revert h i. induction fuel as [|fuel IH]; intros h i Hh; [done|].
  cbn [PriorityQueue.heapify_up_fuel]. rewrite !prio_rekey.
  rewrite phi_ltb by by apply keys_in_prio.
  destruct ((0 <? i)%nat && _); [|done].
  rewrite swap_rekey. apply IH. by apply keys_in_swap.
Qed.

Lemma heapify_down_rekey fuel h sz i :
  keys_in h ->
  PriorityQueue.heapify_down_fuel fuel (rekey h) sz i =
  rekey (PriorityQueue.heapify_down_fuel fuel h sz i).
Proof.
  revert h i. induction fuel as [|fuel IH]; intros h i Hh; [done|].
  cbn [PriorityQueue.heapify_down_fuel]. rewrite !prio_rekey.
  rewrite !phi_ltb by by apply keys_in_prio.
  destruct (negb _); [|done]. rewrite swap_rekey. apply IH. by apply keys_in_swap.
Qed.

Lemma insert_rekey q x p :
  keys_in (PriorityQueue._heap q) -> P p ->
  PriorityQueue.insert (rekey_queue q) x (phi p) =
  rekey_queue (PriorityQueue.insert q x p).
Proof.
  intros Hq Hp. unfold PriorityQueue.insert, rekey_queue, PriorityQueue._heapify_up.
  cbn [PriorityQueue._heap PriorityQueue._size]. f_equal.
  rewrite <-heapify_up_rekey.
  - f_equal. unfold rekey. by rewrite fmap_app.
  - apply Forall_app. split; [done|]. by apply Forall_singleton.
Qed.

Lemma rekey_removelast h : removelast (rekey h) = rekey (removelast h).
Proof.
  induction h as [|px h IH]; [done|]. destruct h as [|py h]; [done|].
  change (removelast (rekey (px :: py :: h)))
    with ((phi (fst px), snd px) :: removelast (rekey (py :: h))).
  by rewrite IH.
Qed.

Lemma keys_in_removelast h : keys_in h -> keys_in (removelast h).
Proof.
  unfold keys_in. induction h as [|px h IH]; [done|]. destruct h as [|py h].
  - intros _. apply Forall_nil_2.
  - intros [Hpx Hh]%Forall_cons. apply Forall_cons. split; [done|]. by apply IH.
Qed.

Lemma extract_min_rekey q :
  keys_in (PriorityQueue._heap q) ->
  PriorityQueue.extract_min (rekey_queue q) =
  outcome_map (fun r => ((phi (fst (fst r)), snd (fst r)), rekey_queue (snd r)))
    (PriorityQueue.extract_min q).
Proof.
  intros Hq. unfold PriorityQueue.extract_min, PriorityQueue.is_empty, rekey_queue.
  cbn [PriorityQueue._heap PriorityQueue._size].
  destruct (Nat.eqb (PriorityQueue._size q) 0); [done|].
  unfold rekey at 1 2. rewrite !list_lookup_fmap.
  destruct (PriorityQueue._heap q !! 0%nat) as [m|] eqn:Hm; [|done].
  destruct (PriorityQueue._heap q !! (PriorityQueue._size q - 1)%nat) as [l|] eqn:Hl;
    [|done].
  cbn [fmap option_fmap option_map outcome_map fst snd]. do 3 f_equal.
  assert (keys_in (removelast (<[0%nat:=l]> (PriorityQueue._heap q)))) as Hk.
  { apply keys_in_removelast. apply Forall_insert; [done|].
    unfold keys_in in Hq. rewrite Forall_forall in Hq. apply Hq.
    by eapply list_elem_of_lookup_2. }
  assert (removelast (<[0%nat:=(phi (fst l), snd l)]> (rekey (PriorityQueue._heap q))) =
          rekey (removelast (<[0%nat:=l]> (PriorityQueue._heap q)))) as ->.
  { rewrite <-rekey_removelast. f_equal. unfold rekey. by rewrite list_fmap_insert. }
  destruct (Nat.eqb (PriorityQueue._size q - 1) 0); [done|].
  unfold PriorityQueue._heapify_down. by apply heapify_down_rekey.
Qed.
End rekey.

(** *** The scores whose conversion matters *)

(** [c] is the weight of a path from [s] that passes no node twice. *)
Definition simple_cost `{Countable V} (g : Graph.t V) (s : V) (c : Z) : Prop :=
  exists v p, path_between g s v p /\ NoDup p /\ path_weight g p = Fin c.

(** The conversion to floats is defined on the weights of these paths
    and keeps them apart: of two of them, the smaller becomes the
    smaller float. *)
Definition float_keeps_order `{Countable V} (g : Graph.t V) (s : V) : Prop :=
  forall c1 c2, simple_cost g s c1 -> simple_cost g s c2 ->
    exists k1 k2, float_of_int c1 = Ok k1 /\ float_of_int c2 = Ok k2 /\
                  (c1 < c2 -> k1 < k2).

(** The key that [zero_heuristic] gives to a score. *)
Definition float_key (a : ext) : ext :=
  match a with
  | Fin c => Fin (round53 c)
  | Inf => Inf
  end.

Definition simple_key `{Countable V} (g : Graph.t V) (s : V) (a : ext) : Prop :=
  match a with
  | Fin c => simple_cost g s c
  | Inf => True
  end.

Lemma float_of_int_Ok (c k : Z) : float_of_int c = Ok k -> k = round53 c.
Proof. unfold float_of_int. destruct (_ <=? _); congruence. Qed.

Lemma float_key_ltb `{Countable V} (g : Graph.t V) (s : V) (a b : ext) :
  float_keeps_order g s -> simple_key g s a -> simple_key g s b ->
  ext_ltb (float_key a) (float_key b) = ext_ltb a b.
Proof.
  intros Hk Ha Hb. destruct a as [c1|], b as [c2|]; try done. cbn in *.
  destruct (Hk c1 c2 Ha Hb) as (k1 & k2 & ->%float_of_int_Ok & ->%float_of_int_Ok & H12).
  destruct (Hk c2 c1 Hb Ha) as (k2' & k1' & ->%float_of_int_Ok & ->%float_of_int_Ok & H21).
  destruct (Z.ltb_spec c1 c2), (Z.ltb_spec (round53 c1) (round53 c2)); try done; try lia.
  destruct (decide (c1 = c2)) as [->|]; lia.
Qed.

Lemma add_zero_float `{Countable V} (g : Graph.t V) (s : V) (c : Z) :
  float_keeps_order g s -> simple_cost g s c ->
  add_number (Fin c) FloatZero = Ok (float_key (Fin c)).
Proof.
  intros Hk Hc. destruct (Hk c c Hc Hc) as (k & _ & Hk1 & _ & _).
  cbn [add_number float_key]. rewrite Hk1. cbn [mbind outcome_bind].
  by rewrite (float_of_int_Ok _ _ Hk1).
Qed.

(** *** Step by step with the [int] zero estimate *)

Section float_zero.
Context `{Countable V}.
Variable g : Graph.t V.
Variable start goal goal_value : V.
Hypothesis Hwf : Graph.wf g.
Hypothesis Hkeep : float_keeps_order g start.

Implicit Types (a b : astar_state V).

(** What the loop keeps: every finite score is the weight of a path
    from the start that passes no node twice and, before its end, only
    settled nodes; every key in the heap is such a weight. *)
Record zero_inv a : Prop := {
  zi_pq : pq_wf (a_pq a);
  zi_score : forall v c, a_g_score a !! v = Some (Fin c) ->
    exists p, path_between g start v p /\ NoDup p /\ path_weight g p = Fin c /\
              forall x, x ∈ p -> x = v \/ x ∈ a_visited a;
  zi_heap : keys_in (simple_key g start) (PriorityQueue._heap (a_pq a))
}.

(** The state of the search with [zero_heuristic] against the state of
    the search with the [int] zero: the same but for the keys. *)
Definition zero_rel a b : Prop :=
  a_pq b = rekey_queue float_key (a_pq a) /\
  a_visited b = a_visited a /\
  a_g_score b = a_g_score a /\
  a_parent b = a_parent a /\
  a_visited_order b = a_visited_order a.

Definition same_outcome (Q : astar_state V -> astar_state V -> Prop)
    (oa ob : outcome (astar_state V)) : Prop :=
  match oa, ob with
  | Ok a, Ok b => Q a b
  | Raise e, Raise e' => e = e'
  | OutOfFuel, OutOfFuel => True
  | _, _ => False
  end.

Lemma zero_neighbor current a b x :
  zero_inv a -> current ∈ a_visited a -> zero_rel a b ->
  x ∈ GraphNode.get_neighbors (Graph.deref g current) ->
  same_outcome
    (fun a' b' => zero_inv a' /\ a_visited a' = a_visited a /\ zero_rel a' b')
    (astar_neighbor g zero_estimate goal_value current a x)
    (astar_number_neighbor g zero_heuristic goal_value current b x).
Proof.
  intros Hinv Hcur (Hpq & Hvis & Hgs & Hpar & Hvo) Hx.
  unfold astar_neighbor, astar_number_neighbor. rewrite Hvis, Hgs.
  destruct (decide (x ∈ a_visited a)) as [Hxv|Hxv]; [done|].
  unfold getitem.
  destruct (a_g_score a !! current) as [gc|] eqn:Hgc; [|done]. cbn [mbind outcome_bind].
  destruct (a_g_score a !! x) as [gx|] eqn:Hgx; [|done]. cbn [mbind outcome_bind].
  destruct (ext_ltb _ gx) eqn:Hlt; [|done].
  rewrite !lookup_insert_eq. cbn [mbind outcome_bind].
  destruct (get_weight_edge g current x Hwf Hx) as (w & Hw & Hedge).
  rewrite Hw in *. destruct gc as [cc|]; [|done]. cbn [ext_add] in *.
  destruct (zi_score a Hinv current cc Hgc) as (pc & Hpc & Hnd & Hwc & Hin).
  assert (exists p, path_between g start x p /\ NoDup p /\
            path_weight g p = Fin (cc + w) /\
            forall y, y ∈ p -> y = x \/ y ∈ a_visited a) as Hpath.
  { exists (pc ++ [x]). destruct Hpc as (Hp & Hhead & Hlast). split_and!.
    - split_and!.
      + apply (is_path_snoc g pc current x Hwf Hp Hlast). by eapply edge_adjacent.
      + by destruct pc.
      + apply last_snoc.
    - apply NoDup_app. split_and!; [done| |apply NoDup_singleton].
      intros y Hy ->%list_elem_of_singleton. destruct (Hin _ Hy) as [->|Hv]; done.
    - by apply (path_weight_snoc g pc current x w cc).
    - intros y [Hy| ->%list_elem_of_singleton]%elem_of_app; [|by left].
      right. destruct (Hin _ Hy) as [->|Hv]; done. }
  assert (simple_cost g start (cc + w)) as Hcost.
  { destruct Hpath as (p & Hp & Hnp & Hwp & _). by exists x, p. }
  change (zero_heuristic x goal_value) with FloatZero.
  rewrite (add_zero_float g start (cc + w) Hkeep Hcost). cbn [mbind outcome_bind].
  rewrite !lookup_insert_eq. cbn [mbind outcome_bind same_outcome].
  unfold zero_estimate. rewrite Z.add_0_r.
  destruct (insert_spec (a_pq a) x (Fin (cc + w)) (zi_pq a Hinv)) as [Hwf' Hperm].
  split_and!.
  - split; cbn [a_pq a_g_score a_visited].
    + done.
    + intros v c. destruct (decide (v = x)) as [->|Hne].
      * rewrite lookup_insert_eq. by intros [= <-].
      * rewrite lookup_insert_ne by done. apply (zi_score a Hinv).
    + unfold keys_in. rewrite Hperm. apply Forall_cons. split; [done|].
      apply (zi_heap a Hinv).
  - done.
  - split_and!; cbn [a_pq a_visited a_g_score a_parent a_visited_order]; try done.
    + rewrite Hpq. apply (insert_rekey float_key (simple_key g start)).
      * done.
      * done.
      * intros ? ?. by apply (float_key_ltb g start).
      * apply (zi_heap a Hinv).
      * done.
    + by rewrite Hpar.
Qed.

Lemma zero_neighbors current (l : list V) a b :
  zero_inv a -> current ∈ a_visited a -> zero_rel a b ->
  (forall x, x ∈ l -> x ∈ GraphNode.get_neighbors (Graph.deref g current)) ->
  same_outcome (fun a' b' => zero_inv a' /\ zero_rel a' b')
    (for_each (astar_neighbor g zero_estimate goal_value current) l a)
    (for_each (astar_number_neighbor g zero_heuristic goal_value current) l b).
Proof.
  revert a b. induction l as [|x l IH]; intros a b Hinv Hcur Hrel Hl; [done|].
  cbn [for_each].
  pose proof (zero_neighbor current a b x Hinv Hcur Hrel (Hl x (list_elem_of_here _ _)))
    as Hstep.
  destruct (astar_neighbor g zero_estimate goal_value current a x) as [a'|e|],
    (astar_number_neighbor g zero_heuristic goal_value current b x) as [b'|e'|];
    cbn [same_outcome mbind outcome_bind] in *; try done.
  destruct Hstep as (Hinv' & Hvis' & Hrel').
  apply IH; [done|by rewrite Hvis'|done|].
  intros y Hy. apply Hl. by right.
Qed.

Lemma zero_loop fuel a b :
  zero_inv a -> zero_rel a b ->
  astar_number_loop fuel g zero_heuristic goal goal_value b =
  astar_loop fuel g zero_estimate goal goal_value a.
Proof.
  revert a b. induction fuel as [|fuel IH]; intros a b Hinv Hrel; [done|].
  destruct Hrel as (Hpq & Hvis & Hgs & Hpar & Hvo).
  cbn [astar_number_loop astar_loop]. rewrite Hpq, Hvis, Hgs, Hpar, Hvo.
  change (PriorityQueue.is_empty (rekey_queue float_key (a_pq a)))
    with (PriorityQueue.is_empty (a_pq a)).
  destruct (PriorityQueue.is_empty (a_pq a)) eqn:Hempty; [done|].
  rewrite (extract_min_rekey float_key (simple_key g start));
    [|done|done|intros ? ?; by apply (float_key_ltb g start)|apply (zi_heap a Hinv)].
  destruct (extract_min_spec (a_pq a) (zi_pq a Hinv) Hempty)
    as ([f current] & pq & Hx & Hwf' & Hperm & _).
  rewrite Hx. cbn [outcome_map mbind outcome_bind fst snd].
  assert (keys_in (simple_key g start) (PriorityQueue._heap pq)) as Hkeys.
  { pose proof (zi_heap a Hinv) as Hk. unfold keys_in in *. rewrite Hperm in Hk.
    by apply Forall_cons in Hk as [_ Hk]. }
  destruct (decide (current ∈ a_visited a)) as [Hcv|Hcv].
  { apply IH.
    - split; cbn [a_pq a_g_score a_visited]; [done|apply (zi_score a Hinv)|done].
    - by split_and!. }
  destruct (decide (current = goal)) as [->|Hne]; [done|].
  match goal with
  | |- for_each _ ?l ?b0 ≫= _ = for_each _ _ ?a0 ≫= _ =>
      pose proof (zero_neighbors current l a0 b0) as Hsim
  end.
  lapply Hsim; [clear Hsim; intros Hsim|].
  2:{ split; cbn [a_pq a_g_score a_visited]; [done| |done].
      intros v c Hv. destruct (zi_score a Hinv v c Hv) as (p & Hp & Hnd & Hw & Hin).
      exists p. split_and!; [done|done|done|]. intros x Hxp.
      destruct (Hin x Hxp); [by left|right; set_solver]. }
  lapply Hsim; [clear Hsim; intros Hsim|cbn [a_visited]; set_solver].
  lapply Hsim; [clear Hsim; intros Hsim|by split_and!].
  specialize (Hsim (fun x Hx => Hx)).
  match type of Hsim with
  | same_outcome _ ?oa ?ob => destruct oa as [a'|e|], ob as [b'|e'|]
  end; cbn [same_outcome mbind outcome_bind] in *; try done.
  - destruct Hsim as [Hinv' Hrel']. by apply IH.
  - by subst.
Qed.
End float_zero.

(** *** [astar_number] on [int] estimates is [astar] *)

Section astar_number_int.
Context `{Countable V}.
Variable g : Graph.t V.
Variable heuristic : V -> V -> Z.

Lemma astar_number_neighbor_int goal_value current (st : astar_state V) neighbor :
  astar_number_neighbor g (fun v t => Int (heuristic v t)) goal_value current st neighbor =
  astar_neighbor g heuristic goal_value current st neighbor.
Proof.
  unfold astar_number_neighbor, astar_neighbor. case_decide; [done|].
  destruct (getitem (a_g_score st) current) as [gc| |]; [|done..].
  cbn [mbind outcome_bind].
  destruct (getitem (a_g_score st) neighbor) as [gn| |]; [|done..].
  cbn [mbind outcome_bind]. destruct (ext_ltb _ gn); [|done].
  by destruct (getitem _ neighbor).
Qed.

Lemma astar_number_neighbors_int goal_value current (l : list V) (st : astar_state V) :
  for_each (astar_number_neighbor g (fun v t => Int (heuristic v t)) goal_value current)
    l st =
  for_each (astar_neighbor g heuristic goal_value current) l st.
Proof.
  revert st. induction l as [|x l IH]; intros st; [done|].
  cbn [for_each]. rewrite astar_number_neighbor_int.
  destruct (astar_neighbor g heuristic goal_value current st x); [apply IH|done..].
Qed.

Lemma astar_number_loop_int fuel goal goal_value (st : astar_state V) :
  astar_number_loop fuel g (fun v t => Int (heuristic v t)) goal goal_value st =
  astar_loop fuel g heuristic goal goal_value st.
Proof.
  revert st. induction fuel as [|fuel IH]; intros st; [done|].
  cbn [astar_number_loop astar_loop].
  destruct (PriorityQueue.is_empty (a_pq st)); [done|].
  destruct (PriorityQueue.extract_min (a_pq st)) as [[[f current] pq]| |]; [|done..].
  cbn [mbind outcome_bind]. case_decide; [apply IH|]. case_decide; [done|].
  rewrite astar_number_neighbors_int.
  destruct (for_each _ _ _); [apply IH|done..].
Qed.

(** [astar_number] on a heuristic that only returns [int]s is [astar]. *)
Lemma astar_number_int fuel (start_value goal_value : V) :
  astar_number fuel g start_value goal_value (fun v t => Int (heuristic v t)) =
  astar fuel g start_value goal_value heuristic.
Proof.
  unfold astar_number, astar.
  destruct (Graph.get_node g start_value); [|done].
  destruct (Graph.get_node g goal_value); [|done].
  cbn [number_value]. destruct (getitem _ _); [|done..]. apply astar_number_loop_int.
Qed.
End astar_number_int.

(** *** Weights that are small enough *)

(** Every weight of the graph is between [-W] and [W]. *)
Definition weights_within `{Countable V} (g : Graph.t V) (W : Z) : Prop :=
  Forall (fun n => Forall (fun vw => - W <= snd vw <= W) (GraphNode.neighbors n))
         (Graph.nodes g).

Lemma float_of_int_small (c : Z) : Z.abs c < 2 ^ 53 -> float_of_int c = Ok c.
Proof.
  intros Hc. unfold float_of_int.
  assert (round53 c = c) as ->.
  { unfold round53. cbn zeta.
    destruct (Z.leb_spec (Z.log2 (Z.abs c) - 52) 0) as [|Hlog]; [done|]. exfalso.
    destruct (decide (Z.abs c = 0)) as [H0|H0]; [rewrite H0 in Hlog; cbn in Hlog; lia|].
    assert (Z.log2 (Z.abs c) < 53); [|lia]. apply Z.log2_lt_pow2; lia. }
  assert (2 ^ 53 < 2 ^ 1024) by (apply Z.pow_lt_mono_r; lia).
  destruct (Z.leb_spec (2 ^ 1024) (Z.abs c)); [lia|done].
Qed.

Section small_weights.
Context `{Countable V}.
Variable g : Graph.t V.
Variable W : Z.
Hypothesis HW : 0 <= W.
Hypothesis Hwithin : weights_within g W.

Lemma weights_within_edge u v w : edge g u v w -> - W <= w <= W.
Proof.
  unfold edge, Graph.get_edge_weight.
  destruct (Graph.get_node g u) as [nu|] eqn:Hu; [|done].
  destruct (Graph.get_node g v) as [nv|] eqn:Hv; [|done].
  unfold GraphNode.get_weight.
  destruct (GraphNode.get _ _) as [w'|] eqn:Hget; [|done]. intros [= ->].
  apply get_Some_elem in Hget. apply lookup_node_elem in Hu.
  unfold weights_within in Hwithin. rewrite Forall_forall in Hwithin.
  specialize (Hwithin nu Hu). rewrite Forall_forall in Hwithin.
  by apply (Hwithin _ Hget).
Qed.

Lemma path_weight_within (p : list V) (c : Z) :
  path_weight g p = Fin c -> Z.abs c <= Z.of_nat (length p - 1) * W.
Proof.
  revert c. induction p as [|u p IH]; intros c; cbn [path_weight].
  - intros [= <-]. cbn. lia.
  - destruct p as [|v p]; [intros [= <-]; cbn; lia|].
    destruct (Graph.get_edge_weight g u v) as [w|] eqn:Hw; [|done].
    destruct (path_weight g (v :: p)) as [c'|] eqn:Hc'; [|done].
    intros [= <-]. specialize (IH c' eq_refl).
    pose proof (weights_within_edge u v w Hw) as Hb.
    cbn [length] in *. replace (S (S (length p)) - 1)%nat with (S (length p)) by lia.
    replace (S (length p) - 1)%nat with (length p) in IH by lia.
    rewrite Nat2Z.inj_succ. lia.
Qed.

Lemma is_path_nodes (p : list V) : is_path g p -> forall x, x ∈ p -> x ∈ Graph.get_all_nodes g.
Proof.
  induction p as [|u p IH]; [done|]. cbn [is_path]. destruct p as [|v p].
  - by intros Hu x ->%list_elem_of_singleton.
  - intros [Huv Hp] x [->|Hx]%elem_of_cons; [by eapply adjacent_node_l|by apply IH].
Qed.

(** Where the weights are small against the number of nodes, no weight
    of a path is rounded. *)
Lemma small_weights_keep_order (s : V) :
  Z.of_nat (length (Graph.get_all_nodes g)) * W < 2 ^ 53 ->
  float_keeps_order g s.
Proof.
  intros Hsmall.
  assert (forall c, simple_cost g s c -> float_of_int c = Ok c) as Hexact.
  { intros c (v & p & (Hp & _ & _) & Hnd & Hc). apply float_of_int_small.
    pose proof (path_weight_within p c Hc) as Hb.
    assert (length p <= length (Graph.get_all_nodes g))%nat as Hlen.
    { apply submseteq_length, NoDup_submseteq; [done|]. by apply is_path_nodes. }
    nia. }
  intros c1 c2 H1 H2. exists c1, c2. split_and!; [by apply Hexact|by apply Hexact|done].
Qed.
End small_weights.

(** *** The claim *)

(** Two leaves whose distances from node 0, [2^53 + 1] and [2^53],
    become the same float. *)
Definition rounding_graph : Graph.t nat :=
  Graph.build false
    [Graph.AddEdge 0%nat 1%nat (2 ^ 53 + 1); Graph.AddEdge 0%nat 2%nat (2 ^ 53)].

(** A weight beyond the floats. *)
Definition overflow_graph : Graph.t nat :=
  Graph.build false [Graph.AddEdge 0%nat 1%nat (2 ^ 1024)].

(** C6, as stated, fails.  [zero_heuristic] returns the float [0.0], so
    the keys of A-star are the scores converted to floats.  On
    [rounding_graph] the scores [2^53 + 1] of leaf 1 and [2^53] of the
    goal 2 become the same float: the heap of A-star keeps leaf 1, which
    was inserted first, in front, and A-star settles 0, 1, 2; Dijkstra
    compares the [int]s and settles 0 and 2.  On [overflow_graph] the
    score of the goal has no float: A-star raises [OverflowError],
    Dijkstra returns the path. *)
Lemma astar_zero_heuristic_counterexample :
  (float_of_int (2 ^ 53 + 1) = float_of_int (2 ^ 53) /\
   exists ra rd,
     astar_number (search_bound rounding_graph) rounding_graph 0%nat 2%nat
       zero_heuristic = Ok ra /\
     dijkstra (search_bound rounding_graph) rounding_graph 0%nat 2%nat = Ok rd /\
     visited ra = [0%nat; 1%nat; 2%nat] /\ nodes_explored ra = 3%nat /\
     visited rd = [0%nat; 2%nat] /\ nodes_explored rd = 2%nat /\
     ra ≠ rd) /\
  (astar_number (search_bound overflow_graph) overflow_graph 0%nat 1%nat
     zero_heuristic = Raise OverflowError /\
   exists rd,
     dijkstra (search_bound overflow_graph) overflow_graph 0%nat 1%nat = Ok rd /\
     found rd = true /\ path rd = [0%nat; 1%nat]).
Proof.
  split_and!.
  - by vm_compute.
  - do 2 eexists.
    split_and!; [vm_compute; reflexivity|vm_compute; reflexivity|done..].
  - by vm_compute.
  - eexists. split_and!; [vm_compute; reflexivity|done|done].
Qed.

(** C6, amended.  On every well-formed graph on which the conversion to
    floats is defined on the weights of the paths from the start that
    pass no node twice and keeps different ones in their order, A-star
    with [zero_heuristic] returns the very result record of Dijkstra
    (found, path, cost, visited, nodes_explored), raises when Dijkstra
    raises and needs as many loop iterations: the two agree for every
    goal and every iteration bound. *)
Theorem astar_zero_heuristic_is_dijkstra `{Countable V} (fuel : nat) (g : Graph.t V)
    (start_value goal_value : V) :
  Graph.wf g -> float_keeps_order g start_value ->
  astar_number fuel g start_value goal_value zero_heuristic =
  dijkstra fuel g start_value goal_value.
Proof.
  intros Hwf Hkeep. rewrite <-astar_zero_dijkstra. unfold astar_number, astar.
  destruct (Graph.get_node g start_value) as [sn|] eqn:Hs; [|done].
  destruct (Graph.get_node g goal_value) as [gn|] eqn:Ht; [|done].
  rewrite (get_node_value _ _ _ Hs), (get_node_value _ _ _ Ht).
  unfold getitem. rewrite !lookup_insert_eq. cbn [mbind outcome_bind].
  assert (start_value ∈ Graph.get_all_nodes g) as Hin
    by (apply get_node_is_Some; eauto).
  destruct (insert_spec (@PriorityQueue.empty V) start_value (Fin 0) pq_wf_empty)
    as [Hpq Hperm].
  apply (zero_loop g start_value goal_value goal_value Hwf Hkeep).
  - split; cbn [a_pq a_g_score a_visited].
    + done.
    + intros v c. destruct (decide (v = start_value)) as [->|Hne].
      * rewrite lookup_insert_eq. intros [= <-]. exists [start_value].
        split_and!; [done|apply NoDup_singleton|done|].
        intros x ->%list_elem_of_singleton. by left.
      * rewrite lookup_insert_ne by done. rewrite all_inf_lookup. by case_decide.
    + unfold keys_in. unfold zero_estimate. rewrite Hperm.
      apply Forall_singleton. exists start_value, [start_value].
      split_and!; [done|apply NoDup_singleton|done].
  - by split_and!.
Qed.

Lemma astar_zero_heuristic_is_dijkstra_witness :
  astar_number (search_bound triangle_graph) triangle_graph 1%nat 3%nat zero_heuristic =
  dijkstra (search_bound triangle_graph) triangle_graph 1%nat 3%nat.
Proof.
  apply astar_zero_heuristic_is_dijkstra.
  - apply (bool_decide_unpack _). vm_compute. exact I.
  - apply (small_weights_keep_order triangle_graph 5).
    + lia.
    + apply (bool_decide_unpack _). vm_compute. exact I.
    + vm_compute. reflexivity.
Defined.

(** * Further properties of the containers *)

(** ** priority_queue.py: one insertion, one extraction *)

(** X1.  [insert] on a queue whose list is heap ordered and whose [_size]
    is the length of the list leaves the list heap ordered and [_size]
    equal to its length, adds exactly the pair [(priority, value)] to the
    stored pairs, and raises [size] by one; the queue is not empty
    afterwards. *)
Theorem insert_keeps_heap {A : Type} (q : PriorityQueue.t A) (value : A) (priority : ext) :
  pq_wf q ->
  pq_wf (PriorityQueue.insert q value priority) /\
  PriorityQueue._heap (PriorityQueue.insert q value priority) ≡ₚ
    (priority, value) :: PriorityQueue._heap q /\
  PriorityQueue.size (PriorityQueue.insert q value priority) = S (PriorityQueue.size q) /\
  PriorityQueue.is_empty (PriorityQueue.insert q value priority) = false.
Proof.
  intros Hq. destruct (insert_spec q value priority Hq) as [Hwf Hperm].
  split_and!; [done|done|done|done].
Qed.

Lemma insert_keeps_heap_witness :
  pq_wf (PriorityQueue.insert (PriorityQueue.insert PriorityQueue.empty 7%nat (Fin 3))
           8%nat (Fin 1)).
Proof.
  apply (insert_keeps_heap (PriorityQueue.insert PriorityQueue.empty 7%nat (Fin 3))
           8%nat (Fin 1)).
  apply (insert_keeps_heap PriorityQueue.empty 7%nat (Fin 3)).
  apply pq_wf_empty.
Defined.

(** X2.  On a non-empty queue in that shape, [peek_min] and [extract_min]
    return the same pair, its priority is at most every stored priority,
    and [extract_min] removes exactly that pair, lowers [size] by one and
    leaves the queue in the same shape. *)
Theorem extract_min_least {A : Type} (q : PriorityQueue.t A) :
  pq_wf q -> PriorityQueue.is_empty q = false ->
  exists x q',
    PriorityQueue.peek_min q = Ok x /\
    PriorityQueue.extract_min q = Ok (x, q') /\
    Forall (fun y => ext_le (fst x) (fst y)) (PriorityQueue._heap q) /\
    PriorityQueue._heap q ≡ₚ x :: PriorityQueue._heap q' /\
    S (PriorityQueue.size q') = PriorityQueue.size q /\
    pq_wf q'.
Proof.
  intros Hq He.
  destruct (extract_min_spec q Hq He) as (x & q' & Hx & Hq' & Hperm & Hmin).
  exists x, q'. split_and!; try done.
  - unfold PriorityQueue.peek_min. rewrite He.
    unfold PriorityQueue.extract_min in Hx. rewrite He in Hx.
    destruct (PriorityQueue._heap q !! 0%nat) as [m|]; [|done].
    destruct (PriorityQueue._heap q !! _) as [l|]; [|done]. by injection Hx as <- _.
  - unfold PriorityQueue.size. destruct Hq as [-> _], Hq' as [-> _].
    by rewrite Hperm.
Qed.

Lemma extract_min_least_witness :
  exists x q',
    PriorityQueue.peek_min
      (PriorityQueue.insert (PriorityQueue.insert PriorityQueue.empty 7%nat (Fin 3))
         8%nat (Fin 1)) = Ok x /\
    PriorityQueue.extract_min
      (PriorityQueue.insert (PriorityQueue.insert PriorityQueue.empty 7%nat (Fin 3))
         8%nat (Fin 1)) = Ok (x, q') /\
    Forall (fun y => ext_le (fst x) (fst y))
      (PriorityQueue._heap
         (PriorityQueue.insert (PriorityQueue.insert PriorityQueue.empty 7%nat (Fin 3))
            8%nat (Fin 1))) /\
    PriorityQueue._heap
      (PriorityQueue.insert (PriorityQueue.insert PriorityQueue.empty 7%nat (Fin 3))
         8%nat (Fin 1)) ≡ₚ x :: PriorityQueue._heap q' /\
    S (PriorityQueue.size q') =
      PriorityQueue.size
        (PriorityQueue.insert (PriorityQueue.insert PriorityQueue.empty 7%nat (Fin 3))
           8%nat (Fin 1)) /\
    pq_wf q'.
Proof.
  apply (extract_min_least
           (PriorityQueue.insert (PriorityQueue.insert PriorityQueue.empty 7%nat (Fin 3))
              8%nat (Fin 1))).
  - apply insert_spec, insert_spec, pq_wf_empty.
  - reflexivity.
Defined.

(** ** queue.py and stack.py: order of service *)

(** [for x in xs: q.enqueue(x)] *)
Definition enqueue_all {A : Type} (xs : list A) (q : Queue.t A) : Queue.t A :=
  fold_left Queue.enqueue xs q.

(** [n] calls of [dequeue], the values collected in the order returned. *)
Fixpoint dequeue_n {A : Type} (n : nat) (q : Queue.t A) : outcome (list A * Queue.t A) :=
  match n with
  | O => Ok ([], q)
  | S n' =>
    '(x, q1) ← Queue.dequeue q;
    '(rest, q2) ← dequeue_n n' q1;
    Ok (x :: rest, q2)
  end.

(** [for x in xs: s.push(x)] *)
Definition push_all {A : Type} (xs : list A) (s : Stack.t A) : Stack.t A :=
  fold_left Stack.push xs s.

Fixpoint pop_n {A : Type} (n : nat) (s : Stack.t A) : outcome (list A * Stack.t A) :=
  match n with
  | O => Ok ([], s)
  | S n' =>
    '(x, s1) ← Stack.pop s;
    '(rest, s2) ← pop_n n' s1;
    Ok (x :: rest, s2)
  end.

Lemma enqueue_all_front {A : Type} (xs : list A) (q : Queue.t A) :
  Queue._front (enqueue_all xs q) = Queue._front q ++ xs /\
  Queue._size (enqueue_all xs q) = (Queue._size q + length xs)%nat.
Proof.
  revert q. induction xs as [|x xs IH]; intros q; simpl.
  - by rewrite app_nil_r, Nat.add_0_r.
  - destruct (IH (Queue.enqueue q x)) as [-> ->]. simpl.
    rewrite <-app_assoc. split; [done|lia].
Qed.

Lemma dequeue_n_front {A : Type} (q : Queue.t A) :
  dequeue_n (length (Queue._front q)) q =
  Ok (Queue._front q,
      {| Queue._front := []; Queue._size := Queue._size q - length (Queue._front q) |}).
Proof.
  destruct q as [l sz]. revert sz. induction l as [|x l IH]; intros sz; simpl.
  - by rewrite Nat.sub_0_r.
  - unfold Queue.dequeue. cbn [Queue._front Queue._size mbind outcome_bind].
    specialize (IH (sz - 1)%nat). cbn [Queue._front Queue._size] in IH. rewrite IH.
    cbn [mbind outcome_bind]. do 3 f_equal. lia.
Qed.

(** X3.  First in, first out: on a queue whose [_size] counts its cells,
    after enqueueing [xs], [size] has grown by [len(xs)], and [size] calls
    of [dequeue] return the old content followed by [xs], in that order,
    and leave the empty queue, on which the next [dequeue] raises
    [IndexError]. *)
Theorem queue_first_in_first_out {A : Type} (q : Queue.t A) (xs : list A) :
  queue_wf q ->
  Queue.size (enqueue_all xs q) = (Queue.size q + length xs)%nat /\
  exists q',
    dequeue_n (Queue.size (enqueue_all xs q)) (enqueue_all xs q) =
      Ok (Queue._front q ++ xs, q') /\
    Queue.is_empty q' = true /\ Queue.size q' = 0%nat /\
    Queue.dequeue q' = Raise IndexError.
Proof.
  intros Hq. destruct (enqueue_all_front xs q) as [Hf Hs]. split; [done|].
  eexists. split_and!.
  - pose proof (dequeue_n_front (enqueue_all xs q)) as Hd.
    unfold Queue.size. rewrite Hs. rewrite Hf in Hd at 1 2.
    rewrite length_app in Hd. unfold queue_wf in Hq. rewrite Hq. exact Hd.
  - done.
  - cbn. rewrite Hs, Hf, length_app. unfold queue_wf in Hq. lia.
  - done.
Qed.

Lemma queue_first_in_first_out_witness :
  exists q',
    dequeue_n 3 (enqueue_all [2%nat; 3%nat] (Queue.enqueue Queue.empty 1%nat)) =
      Ok ([1%nat; 2%nat; 3%nat], q') /\
    Queue.is_empty q' = true /\ Queue.size q' = 0%nat /\
    Queue.dequeue q' = Raise IndexError.
Proof.
  apply (queue_first_in_first_out (Queue.enqueue Queue.empty 1%nat) [2%nat; 3%nat]).
  reflexivity.
Defined.

Lemma push_all_top {A : Type} (xs : list A) (s : Stack.t A) :
  Stack._top (push_all xs s) = reverse xs ++ Stack._top s /\
  Stack._size (push_all xs s) = (length xs + Stack._size s)%nat.
Proof.
  revert s. induction xs as [|x xs IH]; intros s; simpl; [done|].
  destruct (IH (Stack.push s x)) as [-> ->]. simpl.
  rewrite reverse_cons, <-app_assoc. split; [done|lia].
Qed.

Lemma pop_n_top {A : Type} (l : list A) (s : Stack.t A) :
  pop_n (length l)
    {| Stack._top := l ++ Stack._top s; Stack._size := length l + Stack._size s |} =
  Ok (l, s).
Proof.
  induction l as [|x l IH]; simpl; [by destruct s|].
  unfold Stack.pop. cbn [Stack._top Stack._size mbind outcome_bind].
  rewrite Nat.sub_0_r, IH. done.
Qed.

(** X4.  Last in, first out: after pushing [xs] on any stack, [size] has
    grown by [len(xs)], [len(xs)] calls of [pop] return [xs] in reverse
    order and give the stack back as it was, with its [_size]. *)
Theorem stack_last_in_first_out {A : Type} (s : Stack.t A) (xs : list A) :
  Stack.size (push_all xs s) = (length xs + Stack.size s)%nat /\
  pop_n (length xs) (push_all xs s) = Ok (reverse xs, s).
Proof.
  destruct (push_all_top xs s) as [Ht Hs]. split; [done|].
  pose proof (pop_n_top (reverse xs) s) as Hp. rewrite length_reverse in Hp.
  rewrite <-Hp. f_equal. destruct (push_all xs s) as [t sz]. simpl in *. by subst.
Qed.

(** * Further properties of the graph *)

Section graph_store.
Context `{EqDecision V}.
Implicit Types (g : Graph.t V) (u v x y : V) (w : Z).

(** No neighbour dict of a well-formed graph mentions a value that is not
    a node. *)
Lemma get_weight_absent g n y :
  Graph.wf g -> n ∈ Graph.nodes g -> y ∉ Graph.get_all_nodes g ->
  GraphNode.get_weight n y = Inf.
Proof.
  intros [_ Hall] Hn Hy. unfold GraphNode.get_weight.
  destruct (GraphNode.get (GraphNode.neighbors n) y) as [w'|] eqn:Hget; [|done].
  exfalso. apply Hy. rewrite Forall_forall in Hall.
  destruct (Hall n Hn) as [_ Hin]. rewrite Forall_forall in Hin. apply Hin.
  apply get_Some_elem in Hget. apply list_elem_of_fmap. by exists (y, w').
Qed.

Lemma get_edge_weight_add_node g a x y :
  Graph.wf g ->
  Graph.get_edge_weight (Graph.add_node g a) x y = Graph.get_edge_weight g x y.
Proof.
  intros Hwf. unfold Graph.get_edge_weight. rewrite !get_node_add_node.
  destruct (Graph.get_node g x) as [nx|] eqn:Hx.
  - destruct (Graph.get_node g y) as [ny|] eqn:Hy; [done|].
    case_decide as Hya; [|done]. subst y. cbn [GraphNode.value].
    apply get_weight_absent with g; [done|by eapply lookup_node_elem|].
    by apply get_node_None.
  - case_decide; [|done]. by destruct (Graph.get_node g y); [|case_decide].
Qed.

Lemma get_neighbors_add_node g a x :
  Graph.get_neighbors (Graph.add_node g a) x = Graph.get_neighbors g x.
Proof.
  unfold Graph.get_neighbors. rewrite get_node_add_node.
  destruct (Graph.get_node g x); [done|]. by case_decide.
Qed.

Lemma get_weight_add_neighbor n k w y :
  GraphNode.get_weight (GraphNode.add_neighbor n k w) y =
  if decide (y = k) then Fin w else GraphNode.get_weight n y.
Proof.
  unfold GraphNode.get_weight, GraphNode.add_neighbor. cbn [GraphNode.neighbors].
  case_decide as Hy.
  - subst. by rewrite get_setitem_eq.
  - rewrite get_setitem_ne by done. done.
Qed.

(** The weight of every ordered pair after [add_edge]. *)
Lemma get_edge_weight_add_edge_any g u v w x y :
  Graph.wf g ->
  Graph.get_edge_weight (Graph.add_edge g u v w) x y =
  if decide (x = u /\ y = v) then Fin w
  else if decide (Graph.directed g = false /\ x = v /\ y = u) then Fin w
  else Graph.get_edge_weight g x y.
Proof.
  intros Hwf.
  assert (Graph.wf (Graph.add_node (Graph.add_node g u) v)) as Hwf2
    by by do 2 apply wf_add_node.
  rewrite <-(get_edge_weight_add_node g u x y Hwf).
  rewrite <-(get_edge_weight_add_node (Graph.add_node g u) v x y) by by apply wf_add_node.
  unfold Graph.get_edge_weight. rewrite !get_node_add_edge.
  destruct (Graph.get_node (Graph.add_node (Graph.add_node g u) v) x) as [nx|] eqn:Hx;
    cbn [fmap option_fmap option_map].
  2:{ repeat case_decide; try done.
      - destruct (get_node_add_node_is_Some g u v x) as [? Hs]; [left; tauto|]. congruence.
      - destruct (get_node_add_node_is_Some g u v x) as [? Hs]; [right; tauto|].
        congruence. }
  destruct (Graph.get_node (Graph.add_node (Graph.add_node g u) v) y) as [ny|] eqn:Hy;
    cbn [fmap option_fmap option_map].
  2:{ repeat case_decide; try done.
      - destruct (get_node_add_node_is_Some g u v y) as [? Hs]; [right; tauto|].
        congruence.
      - destruct (get_node_add_node_is_Some g u v y) as [? Hs]; [left; tauto|].
        congruence. }
  assert (GraphNode.value (edge_update (Graph.directed g) u v w y ny) = GraphNode.value ny)
    as ->.
  { unfold edge_update. destruct (Graph.directed g); repeat case_decide;
      by rewrite ?add_neighbor_value. }
  rewrite (get_node_value _ _ _ Hy).
  unfold edge_update. destruct (Graph.directed g);
    repeat case_decide; rewrite ?get_weight_add_neighbor; repeat case_decide;
    try done; try tauto; try (exfalso; naive_solver).
Qed.

(** A finite weight is reported exactly for the neighbours. *)
Lemma get_neighbors_weight g u v :
  Graph.wf g ->
  v ∈ Graph.get_neighbors g u <-> exists w, Graph.get_edge_weight g u v = Fin w.
Proof.
  intros Hwf. unfold Graph.get_neighbors, Graph.get_edge_weight.
  destruct (Graph.get_node g u) as [n|] eqn:Hn.
  2:{ split; [by intros ?%elem_of_nil|]. by intros [w Hw]. }
  unfold GraphNode.get_weight, GraphNode.get_neighbors.
  destruct (Graph.get_node g v) as [nv|] eqn:Hv.
  - rewrite (get_node_value _ _ _ Hv).
    destruct (GraphNode.get (GraphNode.neighbors n) v) as [w|] eqn:Hget.
    + split; [by exists w|]. intros _. apply get_Some_elem in Hget.
      apply list_elem_of_fmap. by exists (v, w).
    + split; [|by intros [w Hw]]. by intros ?%get_None.
  - split; [|by intros [w Hw]]. intros Hin. exfalso.
    apply get_node_None in Hv. apply Hv.
    destruct Hwf as [_ Hall]. rewrite Forall_forall in Hall.
    destruct (Hall n (lookup_node_elem _ _ _ Hn)) as [_ Hin'].
    rewrite Forall_forall in Hin'. by apply Hin'.
Qed.
End graph_store.

(** X5.  [add_node] on a well-formed graph changes the weight of no pair
    and the neighbours of no value; the value is a node afterwards (with
    no neighbours if it is new), the nodes already there keep their place,
    and adding a value that is already a node gives the graph back. *)
Theorem add_node_keeps_edges `{EqDecision V} (g : Graph.t V) (a : V) :
  Graph.wf g ->
  (forall x y, Graph.get_edge_weight (Graph.add_node g a) x y = Graph.get_edge_weight g x y) /\
  (forall x, Graph.get_neighbors (Graph.add_node g a) x = Graph.get_neighbors g x) /\
  Graph.get_all_nodes (Graph.add_node g a) =
    (if decide (a ∈ Graph.get_all_nodes g) then Graph.get_all_nodes g
     else Graph.get_all_nodes g ++ [a]) /\
  (a ∈ Graph.get_all_nodes g -> Graph.add_node g a = g) /\
  Graph.add_node (Graph.add_node g a) a = Graph.add_node g a /\
  Graph.wf (Graph.add_node g a).
Proof.
  intros Hwf. split_and!.
  - intros x y. by apply get_edge_weight_add_node.
  - intros x. apply get_neighbors_add_node.
  - apply values_add_node.
  - intros [n Hn]%get_node_is_Some. unfold Graph.add_node. by rewrite Hn.
  - unfold Graph.add_node at 1. rewrite get_node_add_node.
    destruct (Graph.get_node g a); [done|]. by rewrite decide_True.
  - by apply wf_add_node.
Qed.

Lemma add_node_keeps_edges_witness :
  Graph.get_edge_weight
    (Graph.add_node (Graph.build true [Graph.AddEdge 1%nat 2%nat 5]) 3%nat) 1%nat 2%nat =
  Graph.get_edge_weight (Graph.build true [Graph.AddEdge 1%nat 2%nat 5]) 1%nat 2%nat.
Proof.
  apply (add_node_keeps_edges (Graph.build true [Graph.AddEdge 1%nat 2%nat 5]) 3%nat).
  apply (bool_decide_unpack _). vm_compute. exact I.
Defined.

(** X6.  [add_edge(u, v, w)] on a well-formed graph sets the weight of
    the pair [(u, v)], and on an undirected graph of [(v, u)], to [w] and
    leaves the weight of every other ordered pair as it was; the nodes
    already there keep their place, and the nodes afterwards are those
    and the two endpoints. *)
Theorem add_edge_changes_one_pair `{EqDecision V} (g : Graph.t V) (u v : V) (w : Z) :
  Graph.wf g ->
  (forall x y,
     Graph.get_edge_weight (Graph.add_edge g u v w) x y =
     if decide (x = u /\ y = v) then Fin w
     else if decide (Graph.directed g = false /\ x = v /\ y = u) then Fin w
     else Graph.get_edge_weight g x y) /\
  Graph.get_all_nodes g `prefix_of` Graph.get_all_nodes (Graph.add_edge g u v w) /\
  (forall x, x ∈ Graph.get_all_nodes (Graph.add_edge g u v w) <->
             x ∈ Graph.get_all_nodes g \/ x = u \/ x = v) /\
  Graph.wf (Graph.add_edge g u v w).
Proof.
  intros Hwf. split_and!.
  - intros x y. by apply get_edge_weight_add_edge_any.
  - rewrite values_add_edge, !values_add_node.
    repeat case_decide; try done; try (by eexists); rewrite <-?app_assoc; by eexists.
  - intros x. rewrite values_add_edge. apply elem_values_add_nodes.
  - by apply wf_add_edge.
Qed.

Lemma add_edge_changes_one_pair_witness :
  Graph.get_edge_weight
    (Graph.add_edge (Graph.build false [Graph.AddEdge 1%nat 2%nat 5]) 2%nat 3%nat 7)
    2%nat 1%nat = Fin 5.
Proof.
  pose proof (add_edge_changes_one_pair
                (Graph.build false [Graph.AddEdge 1%nat 2%nat 5]) 2%nat 3%nat 7) as Hx.
  destruct Hx as [Hx _]; [apply (bool_decide_unpack _); vm_compute; exact I|].
  rewrite Hx. reflexivity.
Defined.

(** The values a sequence of calls mentions. *)
Definition op_values {V : Type} (o : Graph.op V) : list V :=
  match o with
  | Graph.AddNode v => [v]
  | Graph.AddEdge u v _ => [u; v]
  end.

(** [Graph.__len__] *)
Definition graph_len {V : Type} (g : Graph.t V) : nat := length (Graph.nodes g).

(** X7.  A graph built from [Graph(directed)] by calls of [add_node] and
    [add_edge] has one node per value the calls mention and no others
    ([len] counts them), every neighbour of a node is a node, and a
    finite weight is reported exactly for the pairs [(u, v)] with [v]
    among [get_neighbors(u)]; a value that is not a node has no
    neighbours. *)
Theorem build_nodes_edges `{EqDecision V} (dir : bool) (ops : list (Graph.op V)) :
  let g := Graph.build dir ops in
  NoDup (Graph.get_all_nodes g) /\
  (forall x, x ∈ Graph.get_all_nodes g <-> exists o, o ∈ ops /\ x ∈ op_values o) /\
  graph_len g = length (Graph.get_all_nodes g) /\
  (forall u v, v ∈ Graph.get_neighbors g u ->
     u ∈ Graph.get_all_nodes g /\ v ∈ Graph.get_all_nodes g) /\
  (forall u v, v ∈ Graph.get_neighbors g u <->
     exists w, Graph.get_edge_weight g u v = Fin w) /\
  (forall u, u ∉ Graph.get_all_nodes g -> Graph.get_neighbors g u = []).
Proof.
  intros g. assert (Graph.wf g) as Hwf by apply wf_build. split_and!.
  - apply Hwf.
  - subst g. clear Hwf. induction ops as [|o ops IH] using rev_ind.
    + intros x. split; [by intros ?%elem_of_nil|]. by intros (o & ?%elem_of_nil & _).
    + intros x. rewrite build_snoc.
      assert (x ∈ Graph.get_all_nodes (Graph.apply_op (Graph.build dir ops) o) <->
              x ∈ Graph.get_all_nodes (Graph.build dir ops) \/ x ∈ op_values o) as ->.
      { destruct o as [a|a b w]; cbn [Graph.apply_op op_values].
        - rewrite values_add_node. case_decide; set_solver.
        - rewrite values_add_edge, elem_values_add_nodes. set_solver. }
      rewrite IH. split.
      * intros [(o' & Ho' & Hx)|Hx]; [exists o'|exists o]; set_solver.
      * intros (o' & [Ho'| ->%list_elem_of_singleton]%elem_of_app & Hx); [left|right];
          eauto.
  - unfold graph_len, Graph.get_all_nodes. by rewrite length_map.
  - intros u v Hv. split.
    + destruct (Graph.get_node g u) as [n|] eqn:Hn.
      * apply get_node_is_Some. by exists n.
      * unfold Graph.get_neighbors in Hv. rewrite Hn in Hv. by apply elem_of_nil in Hv.
    + destruct Hwf as [_ Hall]. unfold Graph.get_neighbors in Hv.
      destruct (Graph.get_node g u) as [n|] eqn:Hn; [|by apply elem_of_nil in Hv].
      rewrite Forall_forall in Hall. destruct (Hall n (lookup_node_elem _ _ _ Hn)) as [_ Hin].
      rewrite Forall_forall in Hin. by apply Hin.
  - intros u v. by apply get_neighbors_weight.
  - intros u Hu%get_node_None. unfold Graph.get_neighbors. by rewrite Hu.
Qed.

(** X8.  In an undirected graph built through the interface the weight
    of [(u, v)] is the weight of [(v, u)], and [v] is a neighbour of [u]
    exactly if [u] is one of [v]. *)
Theorem undirected_symmetric `{EqDecision V} (ops : list (Graph.op V)) (u v : V) :
  Graph.get_edge_weight (Graph.build false ops) u v =
  Graph.get_edge_weight (Graph.build false ops) v u /\
  (v ∈ Graph.get_neighbors (Graph.build false ops) u <->
   u ∈ Graph.get_neighbors (Graph.build false ops) v).
Proof.
  assert (forall x y, Graph.get_edge_weight (Graph.build false ops) x y =
                      Graph.get_edge_weight (Graph.build false ops) y x) as Hsym.
  { induction ops as [|o ops IH] using rev_ind; [done|].
    intros x y. rewrite build_snoc. destruct o as [a|a b w]; cbn [Graph.apply_op].
    - rewrite !get_edge_weight_add_node by apply wf_build. apply IH.
    - rewrite !get_edge_weight_add_edge_any by apply wf_build.
      rewrite directed_build, IH. repeat case_decide; try done; exfalso; naive_solver. }
  split; [apply Hsym|].
  rewrite !get_neighbors_weight by apply wf_build. by rewrite Hsym.
Qed.

(** * Further properties of the searches *)

(** ** The path rebuilt from the parent links *)

(** [v] can be reached from [s]. *)
Definition reachable `{Countable V} (g : Graph.t V) (s v : V) : Prop :=
  exists p, path_between g s v p.

Lemma walk_getitem_get `{Countable V} (fuel : nat) (parent : gmap V (option V))
    (node : option V) (acc p : list V) :
  walk_getitem fuel parent node acc = Ok p -> walk_get fuel parent node acc = Ok p.
Proof.
  revert node acc. induction fuel as [|fuel IH]; intros [n|] acc Hrun; try done.
  cbn [walk_getitem walk_get] in *. apply bind_Ok in Hrun as (next & Hnext & Hrun).
  unfold getitem in Hnext. destruct (parent !! n) as [o|]; [|done].
  injection Hnext as <-. by apply IH.
Qed.

Lemma walk_get_None `{Countable V} (fuel : nat) (parent : gmap V (option V))
    (acc : list V) : walk_get fuel parent None acc = Ok acc.
Proof. by destruct fuel. Qed.

Section parent_paths.
Context `{Countable V}.
Variable g : Graph.t V.
Variable start : V.
Variable parent : gmap V (option V).
Variable ord : list V.
Hypothesis Hwf : Graph.wf g.
Hypothesis Hstart : start ∈ Graph.get_all_nodes g.
Hypothesis Hpo : parent_ok parent ord.
Hypothesis Hnd : NoDup ord.
Hypothesis Hlink : forall v u, parent !! v = Some (Some u) -> u ∈ ord /\ adjacent g u v.
Hypothesis Hps : parent !! start = Some None.

(** A node whose walk along the parents cannot stop short of the
    start. *)
Definition rooted (v : V) : Prop := v = start \/ exists u, parent !! v = Some (Some u).

Hypothesis Hroot : forall v, v ∈ ord -> rooted v.

(** Every node of [p] but the first is preceded by its parent. *)
Definition chain (p : list V) : Prop :=
  forall i u v, p !! i = Some u -> p !! S i = Some v -> parent !! v = Some (Some u).

Lemma chain_snoc (p : list V) (u n : V) :
  chain p -> last p = Some u -> parent !! n = Some (Some u) -> chain (p ++ [n]).
Proof.
  intros Hc Hl Hp i a b Ha Hb.
  destruct (decide (S i < length p)%nat) as [Hlt|Hge].
  - rewrite lookup_app_l in Ha by lia. rewrite lookup_app_l in Hb by lia. by apply (Hc i).
  - assert (S i = length p) as Hi.
    { apply lookup_lt_Some in Hb. rewrite length_app in Hb. simpl in Hb. lia. }
    rewrite lookup_app_r in Hb by lia. rewrite Hi, Nat.sub_diag in Hb.
    injection Hb as <-. rewrite lookup_app_l in Ha by lia.
    rewrite last_lookup in Hl. replace (pred (length p)) with i in Hl by lia.
    rewrite Ha in Hl. by injection Hl as ->.
Qed.

Lemma walk_get_path (m : nat) :
  forall (n : V) (fuel : nat) (acc p : list V),
    rooted n ->
    (forall u j, parent !! n = Some (Some u) -> ord !! j = Some u -> (j < m)%nat) ->
    walk_get fuel parent (Some n) acc = Ok p ->
    exists q, p = acc ++ q /\ path_between g start n (reverse q) /\ NoDup q /\
      chain (reverse q) /\
      forall x, x ∈ q -> x = n \/ exists k, (k < m)%nat /\ ord !! k = Some x.
Proof.
  induction m as [m IH] using lt_wf_ind. intros n fuel acc p Hr Hb Hrun.
  destruct fuel as [|fuel]; [done|]. cbn [walk_get] in Hrun.
  destruct (decide (n = start)) as [->|Hne].
  { rewrite Hps in Hrun. cbn [default from_option id] in Hrun. rewrite walk_get_None in Hrun.
    injection Hrun as <-. exists [start]. split_and!.
    - done.
    - done.
    - apply NoDup_singleton.
    - intros i u v _ Hv. by destruct i.
    - intros x ->%list_elem_of_singleton. by left. }
  destruct Hr as [?|[u Hu]]; [done|]. rewrite Hu in Hrun. cbn [default from_option id] in Hrun.
  destruct (Hlink n u Hu) as [Hin Hadj].
  apply list_elem_of_lookup in Hin as [j Hj].
  pose proof (Hb u j Hu Hj) as Hjm.
  destruct (Hpo n u Hu) as (j0 & Hj0 & Hbefore).
  assert (j0 = j) as -> by by eapply NoDup_lookup.
  destruct (IH j Hjm u fuel (acc ++ [n]) p) as (q & -> & Hpath & Hq & Hchain & Hel).
  - apply Hroot. by eapply list_elem_of_lookup_2.
  - intros u' j' Hu' Hj'. destruct (Hpo u u' Hu') as (j1 & Hj1 & Hb1).
    assert (j1 = j') as -> by by eapply NoDup_lookup. by apply Hb1.
  - done.
  - destruct Hpath as (Hp & Hh & Hl). exists (n :: q). rewrite <-app_assoc.
    split; [done|]. rewrite reverse_cons. split_and!.
    + split_and!.
      * by apply (is_path_snoc g _ u).
      * by destruct (reverse q).
      * apply last_snoc.
    + apply NoDup_cons. split; [|done]. intros Hnq.
      destruct (Hel n Hnq) as [->|(k & Hk & Hkn)].
      * specialize (Hbefore j Hj). lia.
      * specialize (Hbefore k Hkn). lia.
    + by apply (chain_snoc _ u).
    + intros x [->|Hx]%elem_of_cons; [by left|]. right.
      destruct (Hel x Hx) as [->|(k & Hk & Hkx)]; [by exists j|].
      exists k. split; [lia|done].
Qed.

(** The same for a node with any place in the order, or none. *)
Lemma walk_get_path_any (n : V) (fuel : nat) (p : list V) :
  rooted n -> walk_get fuel parent (Some n) [] = Ok p ->
  path_between g start n (reverse p) /\ NoDup p /\ chain (reverse p) /\
  forall x, x ∈ p -> x = n \/ x ∈ ord.
Proof.
  intros Hr Hrun.
  destruct (walk_get_path (length ord) n fuel [] p Hr) as (q & -> & Hp & Hq & Hc & Hel).
  - intros u j _ Hj. by eapply lookup_lt_Some.
  - done.
  - split_and!; try done. intros x Hx. destruct (Hel x Hx) as [->|(k & _ & Hk)];
      [by left|right]. by eapply list_elem_of_lookup_2.
Qed.

(** Scores that grow by the weight of the edge along every parent link
    add up to the weight of the path. *)
Lemma chain_weight (score : gmap V ext) (p : list V) (n : V) :
  score !! start = Some (Fin 0) ->
  (forall v u, parent !! v = Some (Some u) ->
     exists cu w, score !! u = Some (Fin cu) /\ edge g u v w /\
                  score !! v = Some (Fin (cu + w))) ->
  chain p -> head p = Some start -> last p = Some n ->
  exists c, path_weight g p = Fin c /\ score !! n = Some (Fin c).
Proof.
  intros Hs Hw. revert n. induction p as [|x p IH] using rev_ind; intros n Hc Hh Hl;
    [done|].
  rewrite last_snoc in Hl. injection Hl as ->.
  destruct p as [|y p] using rev_ind.
  { injection Hh as ->. by exists 0. }
  clear IHp. destruct (IH y) as (c & Hpw & Hsc).
  - intros i a b Ha Hb. apply (Hc i).
    + rewrite lookup_app_l; [done|]. by eapply lookup_lt_Some.
    + rewrite lookup_app_l; [done|]. by eapply lookup_lt_Some.
  - rewrite <-Hh. by destruct p.
  - apply last_snoc.
  - assert (parent !! n = Some (Some y)) as Hp.
    { apply (Hc (length p)).
      + rewrite lookup_app_l by (rewrite length_app; simpl; lia).
        by rewrite lookup_app_r, Nat.sub_diag.
      + rewrite lookup_app_r by (rewrite length_app; simpl; lia).
        rewrite length_app. simpl. by replace (S (length p) - (length p + 1))%nat with 0%nat by lia. }
    destruct (Hw n y Hp) as (cu & w & Hcu & Hedge & Hn).
    rewrite Hsc in Hcu. injection Hcu as <-.
    exists (c + w). split; [|done].
    apply (path_weight_snoc g _ y); [apply last_snoc|done|done].
Qed.
End parent_paths.

(** ** A-star and Dijkstra with any heuristic and any weights *)

Section astar_reach.
Context `{Countable V}.
Variable g : Graph.t V.
Variable heuristic : V -> V -> Z.
Variable start goal : V.
Hypothesis Hwf : Graph.wf g.
Hypothesis Hstart : start ∈ Graph.get_all_nodes g.

Implicit Types (st : astar_state V).

(** What the loop keeps whatever the heuristic says: scores are weights
    of real walks, every parent link is an edge out of a settled node
    that accounts for the score, and the settled nodes are closed under
    edges up to nodes that wait in the heap. *)
Record astar_R st : Prop := {
  ar_start : a_g_score st !! start = Some (Fin 0) /\ a_parent st !! start = Some None;
  ar_first : start ∈ a_visited st \/
             forall v c, a_g_score st !! v = Some (Fin c) -> v = start;
  ar_link : forall v u, a_parent st !! v = Some (Some u) ->
              u ∈ a_visited st /\
              exists cu w, a_g_score st !! u = Some (Fin cu) /\ edge g u v w /\
                           a_g_score st !! v = Some (Fin (cu + w));
  ar_fin : forall v c, a_g_score st !! v = Some (Fin c) ->
             v = start \/ exists u, a_parent st !! v = Some (Some u);
  ar_entry : forall f v, (f, v) ∈ PriorityQueue._heap (a_pq st) ->
               exists c, a_g_score st !! v = Some (Fin c);
  ar_open : forall v c, v ∉ a_visited st -> a_g_score st !! v = Some (Fin c) ->
              exists f, (f, v) ∈ PriorityQueue._heap (a_pq st);
  ar_closed : forall u v, u ∈ a_visited st -> adjacent g u v ->
                v ∈ a_visited st \/ exists c, a_g_score st !! v = Some (Fin c);
  ar_sound : forall v c, a_g_score st !! v = Some (Fin c) -> walk g start v c;
  ar_settled : forall v, v ∈ a_visited st -> exists c, a_g_score st !! v = Some (Fin c);
  ar_goal : goal ∉ a_visited st
}.

Lemma astar_R_init : astar_R (astar_init g heuristic start goal).
Proof.
  destruct (insert_spec (@PriorityQueue.empty V) start (Fin (heuristic start goal)) pq_wf_empty)
    as [_ Hperm].
  assert (forall v c, <[start := Fin 0]> (all_inf g) !! v = Some (Fin c) ->
            v = start /\ c = 0) as Hfin.
  { intros v c. destruct (decide (v = start)) as [->|Hne].
    - rewrite lookup_insert_eq. by intros [= <-].
    - rewrite lookup_insert_ne by done. rewrite all_inf_lookup. by case_decide. }
  constructor; cbn.
  - split; [by rewrite lookup_insert_eq|by rewrite lookup_singleton_eq].
  - right. intros v c Hv. by apply Hfin in Hv as [-> _].
  - intros v u Hv. apply lookup_singleton_Some in Hv as [_ [=]].
  - intros v c [-> _]%Hfin. by left.
  - intros f v. rewrite Hperm. intros [= -> ->]%list_elem_of_singleton.
    exists 0. by rewrite lookup_insert_eq.
  - intros v c _ [-> _]%Hfin. eexists. rewrite Hperm. left.
  - intros u v Hu. by apply elem_of_empty in Hu.
  - intros v c [-> ->]%Hfin. by constructor.
  - intros v Hv. by apply elem_of_empty in Hv.
  - apply not_elem_of_empty.
Qed.

Lemma astar_R_skip st f current pq :
  astar_inv g st -> astar_R st ->
  PriorityQueue.extract_min (a_pq st) = Ok ((f, current), pq) ->
  current ∈ a_visited st -> astar_R (astar_skip st pq).
Proof.
  intros Hinv HR Hx Hv.
  destruct (astar_inv_skip g st _ pq Hinv Hx) as (_ & Hp & _).
  destruct HR as [Hs Hfirst Hlink Hfin Hent Hopen Hcl Hsound Hset Hg].
  constructor; cbn; try done.
  - intros f' v Hin. apply (Hent f'). rewrite Hp. by right.
  - intros v c Hvv Hgv. destruct (Hopen v c Hvv Hgv) as [f' Hin]. rewrite Hp in Hin.
    apply elem_of_cons in Hin as [[= _ ->]|?]; [done|by exists f'].
Qed.

Lemma astar_R_expand st f current pq st' :
  astar_inv g st -> astar_R st ->
  PriorityQueue.extract_min (a_pq st) = Ok ((f, current), pq) ->
  current ∉ a_visited st -> current ≠ goal ->
  for_each (astar_neighbor g heuristic goal current)
    (GraphNode.get_neighbors (Graph.deref g current))
    (astar_visit st pq current) = Ok st' ->
  astar_R st'.
Proof.
  intros Hinv HR Hx Hv Hne Hrun.
  destruct (astar_inv_skip g st _ pq Hinv Hx) as (Hinv1 & Hp & _).
  destruct HR as [[Hs0 Hp0] Hfirst Hlink Hfin Hent Hopen Hcl Hsound Hset Hg].
  destruct (Hent f current) as [gc Hgc]; [rewrite Hp; left|].
  set (vis := {[current]} ∪ a_visited st).
  assert (start ∈ vis) as Hsv.
  { destruct Hfirst as [?|Hall]; [unfold vis; set_solver|].
    rewrite <-(Hall current gc Hgc). unfold vis. set_solver. }
  pose (P := fun (l1 : list V) (s : astar_state V) =>
    a_visited s = vis /\ pq_wf (a_pq s) /\
    (a_g_score s !! start = Some (Fin 0) /\ a_parent s !! start = Some None) /\
    (forall v u, a_parent s !! v = Some (Some u) ->
       u ∈ vis /\ exists cu w, a_g_score s !! u = Some (Fin cu) /\ edge g u v w /\
                               a_g_score s !! v = Some (Fin (cu + w))) /\
    (forall v c, a_g_score s !! v = Some (Fin c) ->
       v = start \/ exists u, a_parent s !! v = Some (Some u)) /\
    (forall f v, (f, v) ∈ PriorityQueue._heap (a_pq s) ->
       exists c, a_g_score s !! v = Some (Fin c)) /\
    (forall v c, v ∉ vis -> a_g_score s !! v = Some (Fin c) ->
       exists f, (f, v) ∈ PriorityQueue._heap (a_pq s)) /\
    (forall u v, u ∈ a_visited st -> adjacent g u v ->
       v ∈ vis \/ exists c, a_g_score s !! v = Some (Fin c)) /\
    (forall v c, a_g_score s !! v = Some (Fin c) -> walk g start v c) /\
    (forall v, v ∈ vis -> exists c, a_g_score s !! v = Some (Fin c)) /\
    (forall v, v ∈ l1 -> v ∈ vis \/ exists c, a_g_score s !! v = Some (Fin c))).
  assert (P (GraphNode.get_neighbors (Graph.deref g current)) st') as HP.
  { revert Hrun. apply for_each_Hoare.
    - intros l1 x l2 s s' Hl
        (Hvis & Hpq & [Hs1 Hp1] & Hlk & Hfn & Hen & Hop & Hclo & Hsd & Hst & Hcur) Hbody.
      unfold astar_neighbor in Hbody. rewrite Hvis in Hbody.
      destruct (decide (x ∈ vis)) as [Hxv|Hxv].
      { injection Hbody as <-. split_and!; try done.
        intros v [Hin| ->%list_elem_of_singleton]%elem_of_app; [by apply Hcur|by left]. }
      assert (x ∈ GraphNode.get_neighbors (Graph.deref g current)) as Hxn.
      { rewrite Hl. apply elem_of_app. right. left. }
      destruct (get_weight_edge g current x Hwf Hxn) as (wx & Hwx & Hedge).
      assert (current ∈ vis) as Hcv by (unfold vis; set_solver).
      destruct (Hst current Hcv) as [gc' Hgcs].
      unfold getitem in Hbody. rewrite Hgcs, Hwx in Hbody. cbn [mbind outcome_bind] in Hbody.
      destruct (a_g_score s !! x) as [gx|] eqn:Hgx; [|done].
      cbn [mbind outcome_bind ext_add] in Hbody.
      destruct (ext_ltb (Fin (gc' + wx)) gx) eqn:Hlt.
      2:{ injection Hbody as <-. split_and!; try done.
          intros v [Hin| ->%list_elem_of_singleton]%elem_of_app; [by apply Hcur|].
          right. destruct gx as [cx|]; [by exists cx|done]. }
      rewrite !lookup_insert_eq in Hbody. cbn [mbind outcome_bind ext_add] in Hbody.
      rewrite !lookup_insert_eq in Hbody. cbn [mbind outcome_bind] in Hbody.
      injection Hbody as <-.
      destruct (insert_spec (a_pq s) x (Fin (gc' + wx + heuristic x goal)) Hpq)
        as [Hpq' Hperm].
      assert (x ≠ start) as Hxs by (intros ->; done).
      assert (x ≠ current) as Hxc by (intros ->; done).
      split_and!;
        cbn [a_pq a_visited a_g_score a_f_score a_parent a_visited_order]; try done.
      + by rewrite lookup_insert_ne.
      + by rewrite lookup_insert_ne.
      + intros v u. destruct (decide (v = x)) as [->|Hvx].
        * rewrite lookup_insert_eq. intros [= <-]. split; [done|].
          exists gc', wx. rewrite lookup_insert_ne by done. rewrite lookup_insert_eq.
          done.
        * rewrite lookup_insert_ne by done. intros Hvu.
          destruct (Hlk v u Hvu) as (Hu & cu & w & Hcu & He & Hcv'). split; [done|].
          exists cu, w. rewrite !lookup_insert_ne by (try done; intros ->; done). done.
      + intros v c. destruct (decide (v = x)) as [->|Hvx].
        * intros _. right. exists current. by rewrite lookup_insert_eq.
        * rewrite !lookup_insert_ne by done. apply Hfn.
      + intros f' v. rewrite Hperm. intros [[= -> ->]|Hin]%elem_of_cons.
        * rewrite lookup_insert_eq. by eexists.
        * destruct (decide (v = x)) as [->|Hvx]; [rewrite lookup_insert_eq; by eexists|].
          rewrite lookup_insert_ne by done. by apply (Hen f').
      + intros v c Hvv. destruct (decide (v = x)) as [->|Hvx].
        * intros _. eexists. rewrite Hperm. left.
        * rewrite lookup_insert_ne by done. intros Hc.
          destruct (Hop v c Hvv Hc) as [f' Hin]. exists f'. rewrite Hperm. by right.
      + intros u v Hu Hadj. destruct (Hclo u v Hu Hadj) as [?|[c Hc]]; [by left|right].
        destruct (decide (v = x)) as [->|Hvx]; [rewrite lookup_insert_eq; by eexists|].
        rewrite lookup_insert_ne by done. by exists c.
      + intros v c. destruct (decide (v = x)) as [->|Hvx].
        * rewrite lookup_insert_eq. intros [= <-].
          apply (walk_step g start current x); [by apply Hsd|done].
        * rewrite lookup_insert_ne by done. apply Hsd.
      + intros v Hvv. rewrite lookup_insert_ne by (intros ->; done). by apply Hst.
      + intros v [Hin| ->%list_elem_of_singleton]%elem_of_app.
        * destruct (Hcur v Hin) as [?|[c Hc]]; [by left|right].
          destruct (decide (v = x)) as [->|Hvx]; [rewrite lookup_insert_eq; by eexists|].
          rewrite lookup_insert_ne by done. by exists c.
        * right. rewrite lookup_insert_eq. by eexists.
    - cbn. split_and!; try done.
      + apply Hinv1.
      + intros v u Hvu. destruct (Hlink v u Hvu) as [Hu Hrest]. split; [|done].
        unfold vis. set_solver.
      + intros f' v Hin. apply (Hent f'). rewrite Hp. by right.
      + intros v c Hvv Hgv.
        assert (v ∉ a_visited st) as Hvo by (unfold vis in Hvv; set_solver).
        destruct (Hopen v c Hvo Hgv) as [f' Hin]. rewrite Hp in Hin.
        apply elem_of_cons in Hin as [[= _ ->]|?]; [|by exists f'].
        exfalso. apply Hvv. unfold vis. set_solver.
      + intros u v Hu Hadj. destruct (Hcl u v Hu Hadj) as [?|?]; [left|by right].
        unfold vis. set_solver.
      + intros v [->%elem_of_singleton|Hvv]%elem_of_union; [by exists gc|by apply Hset].
      + intros v Hin. by apply elem_of_nil in Hin. }
  destruct HP as (Hvis & Hpq & Hs1 & Hlk & Hfn & Hen & Hop & Hclo & Hsd & Hst & Hcur).
  constructor; try done.
  - left. by rewrite Hvis.
  - intros v u. rewrite Hvis. apply Hlk.
  - intros v c. rewrite Hvis. apply Hop.
  - intros u v. rewrite Hvis. intros [->%elem_of_singleton|Hu]%elem_of_union Hadj.
    + apply Hcur. unfold adjacent in Hadj. by rewrite get_neighbors_deref in Hadj.
    + by apply (Hclo u).
  - intros v. rewrite Hvis. apply Hst.
  - rewrite Hvis. unfold vis. set_solver.
Qed.

(** When the heap is empty the settled nodes are all that can be
    reached. *)
Lemma astar_R_closed st v n :
  astar_inv g st -> astar_R st -> PriorityQueue.is_empty (a_pq st) = true ->
  hops g start v n -> v ∈ a_visited st.
Proof.
  intros Hinv HR He.
  pose proof (is_empty_heap _ (ai_pq _ _ Hinv) He) as Hnil.
  assert (forall x c, a_g_score st !! x = Some (Fin c) -> x ∈ a_visited st) as Hall.
  { intros x c Hc. destruct (decide (x ∈ a_visited st)) as [|Hx]; [done|].
    destruct (ar_open _ HR x c Hx Hc) as [f Hin]. rewrite Hnil in Hin.
    by apply elem_of_nil in Hin. }
  induction 1 as [_|u v n Hu IH Hadj].
  - apply (Hall start 0), HR.
  - destruct (ar_closed _ HR u v IH Hadj) as [?|[c Hc]]; [done|]. by apply (Hall v c).
Qed.

Lemma astar_R_reachable st v :
  astar_R st -> v ∈ a_visited st -> reachable g start v.
Proof.
  intros HR Hv. destruct (ar_settled _ HR v Hv) as [c Hc].
  destruct (walk_path g start v c Hwf (ar_sound _ HR v c Hc)) as (p & Hp & _).
  by exists p.
Qed.

(** What a record returned by A-star or Dijkstra says. *)
Definition weighted_result (r : Result V) : Prop :=
  (forall v, v ∈ visited r -> reachable g start v) /\
  (found r = true ->
     path_between g start goal (path r) /\ NoDup (path r) /\
     exists c, cost r = Some (Fin c) /\ path_weight g (path r) = Fin c) /\
  (found r = false ->
     path r = [] /\ cost r = Some Inf /\ ¬ reachable g start goal /\
     forall v, reachable g start v -> v ∈ visited r).

Lemma astar_R_goal st f pq p c :
  astar_inv g st -> astar_R st ->
  PriorityQueue.extract_min (a_pq st) = Ok ((f, goal), pq) ->
  goal ∉ a_visited st ->
  walk_get (S (length (a_visited_order st))) (a_parent st) (Some goal) [] = Ok p ->
  a_g_score st !! goal = Some c ->
  weighted_result (astar_success st goal p c).
Proof.
  intros Hinv HR Hx Hv Hrun Hc.
  destruct (astar_inv_skip g st _ pq Hinv Hx) as (_ & Hp & _).
  destruct (ar_entry _ HR f goal) as [gc Hgc]; [rewrite Hp; left|].
  rewrite Hc in Hgc. injection Hgc as ->.
  assert (forall v u, a_parent st !! v = Some (Some u) ->
            u ∈ a_visited_order st /\ adjacent g u v) as Hlink.
  { intros v u Hvu. destruct (ar_link _ HR v u Hvu) as (Hu & cu & w & _ & He & _).
    split; [by apply (astar_inv_visited g st)|by eapply edge_adjacent]. }
  destruct (walk_get_path_any g start (a_parent st) (a_visited_order st) Hwf Hstart
              (ai_parent _ _ Hinv) (ai_nodup _ _ Hinv) Hlink (proj2 (ar_start _ HR)))
    with (n := goal) (fuel := S (length (a_visited_order st))) (p := p)
    as (Hpath & Hnd & Hchain & _).
  - intros v Hin. apply (astar_inv_visited g st v Hinv) in Hin.
    destruct (ar_settled _ HR v Hin) as [cv Hcv]. by apply (ar_fin _ HR v cv).
  - by apply (ar_fin _ HR goal gc).
  - done.
  - destruct (chain_weight g start (a_parent st) (a_g_score st) (reverse p) goal)
      as (c' & Hw & Hc').
    + apply HR.
    + intros v u Hvu. by destruct (ar_link _ HR v u Hvu) as (_ & Hrest).
    + done.
    + apply Hpath.
    + apply Hpath.
    + rewrite Hc in Hc'. injection Hc' as <-. split_and!.
      * intros v [Hin| ->%list_elem_of_singleton]%elem_of_app.
        -- apply (astar_R_reachable st); [done|]. by apply (astar_inv_visited g st).
        -- by exists (reverse p).
      * intros _. cbn. split_and!; [done|by rewrite reverse_Permutation|]. by exists gc.
      * done.
Qed.

Lemma astar_R_empty st :
  astar_inv g st -> astar_R st -> PriorityQueue.is_empty (a_pq st) = true ->
  weighted_result (astar_fail st).
Proof.
  intros Hinv HR He. split_and!.
  - intros v Hin. apply (astar_R_reachable st); [done|]. by apply (astar_inv_visited g st).
  - done.
  - intros _. cbn. split_and!; [done|done| |].
    + intros [p Hp]. apply (ar_goal _ HR).
      by apply (astar_R_closed st goal (length p - 1) Hinv HR He), path_hops.
    + intros v [p Hp]. apply (astar_inv_visited g st v Hinv).
      by apply (astar_R_closed st v (length p - 1) Hinv HR He), path_hops.
Qed.

Lemma astar_weighted_result :
  goal ∈ Graph.get_all_nodes g ->
  exists r, weighted_result r /\
    forall fuel, (search_bound g <= fuel)%nat ->
      astar fuel g start goal heuristic = Ok r.
Proof.
  intros Ht.
  apply (astar_total g heuristic Hwf astar_R weighted_result start goal); try done.
  - apply astar_R_init.
  - intros st Hinv HR He. by apply astar_R_empty.
  - intros st f current pq. apply astar_R_skip.
  - intros st f pq p c Hinv HR Hx Hv Hrun Hc. by apply (astar_R_goal st f pq).
  - intros st f current pq st' Hinv HR Hx Hv Hne Hrun _.
    by apply (astar_R_expand st f current pq).
Qed.
End astar_reach.

(** What every search says about reachability: it finds the goal exactly
    if the goal can be reached, the path it returns is a path of the
    graph without repetition, it visits only nodes that can be reached,
    and all of them when it fails. *)
Definition search_result `{Countable V} (g : Graph.t V) (s t : V) (r : Result V) : Prop :=
  (found r = true <-> reachable g s t) /\
  (found r = true -> path_between g s t (path r) /\ NoDup (path r)) /\
  (found r = false -> path r = []) /\
  (forall v, v ∈ visited r -> reachable g s v) /\
  (found r = false -> t ∈ Graph.get_all_nodes g ->
   forall v, reachable g s v -> v ∈ visited r).

(** The cost is the weight of the returned path, or infinite. *)
Definition weighted_cost `{Countable V} (g : Graph.t V) (r : Result V) : Prop :=
  (found r = true -> exists c, cost r = Some (Fin c) /\ path_weight g (path r) = Fin c) /\
  (found r = false -> cost r = Some Inf).

Lemma reachable_endpoints `{Countable V} (g : Graph.t V) (s v : V) :
  Graph.wf g -> reachable g s v ->
  s ∈ Graph.get_all_nodes g /\ v ∈ Graph.get_all_nodes g.
Proof. intros Hwf [p Hp]. by apply (path_endpoints g s v p). Qed.

Lemma search_result_absent `{Countable V} (g : Graph.t V) (s t : V) (c : option ext) :
  Graph.wf g -> ¬ (s ∈ Graph.get_all_nodes g /\ t ∈ Graph.get_all_nodes g) ->
  search_result g s t (mkResult false [] c [] 0%nat).
Proof.
  intros Hwf Hno. split_and!; cbn; try done.
  - split; [done|]. intros Hr. destruct Hno. by apply reachable_endpoints.
  - intros v Hv. by apply elem_of_nil in Hv.
  - intros _ Ht v Hr. destruct Hno. split; [|done].
    by apply (reachable_endpoints g s v).
Qed.

Lemma astar_search_result `{Countable V} (g : Graph.t V) (s t : V)
    (heuristic : V -> V -> Z) :
  Graph.wf g ->
  exists r, (forall fuel, (search_bound g <= fuel)%nat ->
               astar fuel g s t heuristic = Ok r) /\
            search_result g s t r /\ weighted_cost g r.
Proof.
  intros Hwf.
  destruct (decide (s ∈ Graph.get_all_nodes g /\ t ∈ Graph.get_all_nodes g))
    as [[Hs Ht]|Hno].
  2:{ exists (mkResult false [] (Some Inf) [] 0%nat). split_and!.
      - intros fuel _. by apply absent_endpoint_astar.
      - by apply search_result_absent.
      - by split. }
  destruct (astar_weighted_result g heuristic s t Hwf Hs Ht)
    as (r & (Hvis & Hfound & Hfail) & Hrun).
  exists r. split; [done|]. split; [split_and!|split].
  - split; [intros Hf; exists (path r); by apply Hfound|].
    intros Hr. destruct (found r) eqn:Hf; [done|]. by destruct (Hfail eq_refl) as (_ & _ & ? & _).
  - intros Hf. destruct (Hfound Hf) as (? & ? & _). done.
  - intros Hf. by destruct (Hfail Hf).
  - done.
  - intros Hf _. by destruct (Hfail Hf) as (_ & _ & _ & ?).
  - intros Hf. by destruct (Hfound Hf) as (_ & _ & ?).
  - intros Hf. by destruct (Hfail Hf) as (_ & ? & _).
Qed.

Lemma dijkstra_search_result `{Countable V} (g : Graph.t V) (s t : V) :
  Graph.wf g ->
  exists r, (forall fuel, (search_bound g <= fuel)%nat -> dijkstra fuel g s t = Ok r) /\
            search_result g s t r /\ weighted_cost g r.
Proof.
  intros Hwf. destruct (astar_search_result g s t zero_estimate Hwf) as (r & Hrun & Hr).
  exists r. split; [|done]. intros fuel Hfuel. rewrite <-astar_zero_dijkstra. auto.
Qed.

(** ** Depth-first search *)

Section dfs_rule.
Context `{Countable V}.
Variable g : Graph.t V.
Variable goal : V.

Implicit Types (st : dfs_state V).

Lemma dfs_inv_pop st current s :
  dfs_inv st -> Stack.pop (d_stack st) = Ok (current, s) ->
  Stack._top (d_stack st) = current :: Stack._top s /\ dfs_inv (dfs_skip st s).
Proof.
  intros Hinv Hpop. unfold Stack.pop in Hpop.
  destruct (Stack._top (d_stack st)) as [|x l] eqn:Htop; [done|].
  injection Hpop as -> <-. split; [done|].
  destruct Hinv as [Hvis Hnd Hpar Hdom]. constructor; cbn; try done.
  intros v [Hv|Hv]; apply Hdom; [by left|]. right. rewrite Htop. by right.
Qed.

Lemma dfs_inv_visit st current s :
  dfs_inv st -> Stack.pop (d_stack st) = Ok (current, s) -> current ∉ d_visited st ->
  dfs_inv (dfs_visit st s current).
Proof.
  intros Hinv Hpop Hv. destruct (dfs_inv_pop st current s Hinv Hpop) as [Htop _].
  assert (current ∉ d_visited_order st) as Hv'.
  { rewrite (di_visited _ Hinv) in Hv. by rewrite elem_of_list_to_set in Hv. }
  destruct Hinv as [Hvis Hnd Hpar Hdom]. constructor; cbn.
  - rewrite list_to_set_app_L, Hvis. set_solver.
  - apply NoDup_app. split_and!; [done| |apply NoDup_singleton].
    intros x Hx0 ->%list_elem_of_singleton. done.
  - by apply parent_ok_snoc.
  - intros v [[Hin| ->%list_elem_of_singleton]%elem_of_app|Hin]; apply Hdom.
    + by left.
    + right. rewrite Htop. left.
    + right. rewrite Htop. by right.
Qed.

(** The rule of the loop for what it returns, if it returns. *)
Lemma dfs_loop_partial (J : dfs_state V -> Prop) (Post : Result V -> Prop) :
  (forall st, dfs_inv st -> J st -> Stack.is_empty (d_stack st) = true ->
     Post (dfs_fail st)) ->
  (forall st current s, dfs_inv st -> J st ->
     Stack.pop (d_stack st) = Ok (current, s) -> current ∈ d_visited st ->
     J (dfs_skip st s)) ->
  (forall st s p fuel, dfs_inv st -> J st ->
     Stack.pop (d_stack st) = Ok (goal, s) -> goal ∉ d_visited st ->
     walk_getitem fuel (d_parent st) (Some goal) [] = Ok p ->
     Post (dfs_success st goal p)) ->
  (forall st current s st', dfs_inv st -> J st ->
     Stack.pop (d_stack st) = Ok (current, s) -> current ∉ d_visited st ->
     current ≠ goal ->
     for_each (dfs_neighbor current)
       (reverse (GraphNode.get_neighbors (Graph.deref g current)))
       (dfs_visit st s current) = Ok st' ->
     J st') ->
  forall fuel st r, dfs_inv st -> J st -> dfs_loop fuel g goal st = Ok r -> Post r.
Proof.
  intros Hempty Hskip Hgoal Hexpand fuel.
  induction fuel as [|fuel IH]; intros st r Hinv HJ Hrun; [done|].
  rewrite dfs_loop_unfold in Hrun.
  destruct (Stack.is_empty (d_stack st)) eqn:He.
  { injection Hrun as <-. by apply Hempty. }
  apply bind_Ok in Hrun as ([current s] & Hpop & Hrun).
  destruct (dfs_inv_pop st current s Hinv Hpop) as [_ Hinv1].
  destruct (decide (current ∈ d_visited st)) as [Hv|Hv].
  { apply (IH (dfs_skip st s)); [done| |done]. by apply (Hskip st current). }
  destruct (decide (current = goal)) as [->|Hne].
  { apply bind_Ok in Hrun as (p & Hp & Hrun). injection Hrun as <-.
    by apply (Hgoal st s p fuel). }
  apply bind_Ok in Hrun as (st' & Hst' & Hrun).
  pose proof (dfs_inv_visit st current s Hinv Hpop Hv) as Hinv2.
  destruct (dfs_expand_Ok g st s current Hinv2) as (st0 & Hst0 & Hinv' & _).
  rewrite Hst' in Hst0. injection Hst0 as <-.
  apply (IH st'); [done| |done]. by apply (Hexpand st current s).
Qed.

End dfs_rule.

Section dfs_reach.
Context `{Countable V}.
Variable g : Graph.t V.
Variable start goal : V.
Hypothesis Hwf : Graph.wf g.
Hypothesis Hstart : start ∈ Graph.get_all_nodes g.

Implicit Types (st : dfs_state V).

(** What the loop keeps: every parent link is an edge out of a visited
    node, every node on the stack or visited leads back to the start,
    and the visited nodes are closed under edges up to the stack. *)
Record dfs_R st : Prop := {
  dr_start : d_parent st !! start = Some None;
  dr_none : forall v, d_parent st !! v = Some None -> v = start;
  dr_first : start ∈ d_visited st \/ start ∈ Stack._top (d_stack st);
  dr_link : forall v u, d_parent st !! v = Some (Some u) ->
              u ∈ d_visited st /\ adjacent g u v;
  dr_rooted : forall v, v ∈ d_visited st \/ v ∈ Stack._top (d_stack st) ->
                v = start \/ exists u, d_parent st !! v = Some (Some u);
  dr_closed : forall u v, u ∈ d_visited st -> adjacent g u v ->
                v ∈ d_visited st \/ v ∈ Stack._top (d_stack st);
  dr_reach : forall v, v ∈ d_visited st \/ v ∈ Stack._top (d_stack st) ->
               reachable g start v;
  dr_goal : goal ∉ d_visited st
}.

Lemma reachable_refl (v : V) : v ∈ Graph.get_all_nodes g -> reachable g v v.
Proof. intros Hv. exists [v]. by split_and!. Qed.

Lemma reachable_step (s u v : V) :
  reachable g s u -> adjacent g u v -> reachable g s v.
Proof.
  intros (p & Hp & Hh & Hl) Hadj. exists (p ++ [v]). split_and!.
  - by apply (is_path_snoc g p u).
  - by destruct p.
  - apply last_snoc.
Qed.

Lemma reachable_hops (s v : V) : reachable g s v <-> exists n, hops g s v n.
Proof.
  split.
  - intros [p Hp]. exists (length p - 1)%nat. by apply path_hops.
  - intros [n Hn]. induction Hn as [Hs|u v n Hu IH Hadj].
    + by apply reachable_refl.
    + by apply (reachable_step s u v).
Qed.

Lemma dfs_R_init : dfs_R (dfs_init start).
Proof.
  constructor; cbn.
  - by rewrite lookup_singleton_eq.
  - intros v Hv. by apply lookup_singleton_Some in Hv as [-> _].
  - right. left.
  - intros v u Hv. apply lookup_singleton_Some in Hv as [_ [=]].
  - intros v [Hv|Hv]; [by apply elem_of_empty in Hv|].
    apply list_elem_of_singleton in Hv. by left.
  - intros u v Hu. by apply elem_of_empty in Hu.
  - intros v [Hv|Hv]; [by apply elem_of_empty in Hv|].
    apply list_elem_of_singleton in Hv as ->. by apply reachable_refl.
  - apply not_elem_of_empty.
Qed.

Lemma dfs_R_skip st current s :
  dfs_inv st -> dfs_R st -> Stack.pop (d_stack st) = Ok (current, s) ->
  current ∈ d_visited st -> dfs_R (dfs_skip st s).
Proof.
  intros Hinv HR Hpop Hv. destruct (dfs_inv_pop st current s Hinv Hpop) as [Htop _].
  destruct HR as [Hs Hnone Hfirst Hlink Hroot Hcl Hreach Hg].
  rewrite Htop in Hfirst, Hroot, Hcl, Hreach.
  constructor; cbn; try done.
  - destruct Hfirst as [?|[->|?]%elem_of_cons]; [by left|by left|by right].
  - intros v [?|?]; apply Hroot; [by left|right; by right].
  - intros u v Hu Hadj. destruct (Hcl u v Hu Hadj) as [?|[->|?]%elem_of_cons];
      [by left|by left|by right].
  - intros v [?|?]; apply Hreach; [by left|right; by right].
Qed.

Lemma dfs_R_expand st current s st' :
  dfs_inv st -> dfs_R st -> Stack.pop (d_stack st) = Ok (current, s) ->
  current ∉ d_visited st -> current ≠ goal ->
  for_each (dfs_neighbor current)
    (reverse (GraphNode.get_neighbors (Graph.deref g current)))
    (dfs_visit st s current) = Ok st' ->
  dfs_R st'.
Proof.
  intros Hinv HR Hpop Hv Hne Hrun.
  destruct (dfs_inv_pop st current s Hinv Hpop) as [Htop _].
  destruct HR as [Hs Hnone Hfirst Hlink Hroot Hcl Hreach Hg].
  rewrite Htop in Hfirst, Hroot, Hcl, Hreach.
  set (vis := {[current]} ∪ d_visited st).
  assert (reachable g start current) as Hrc by (apply Hreach; right; left).
  pose (P := fun (l1 : list V) (s0 : dfs_state V) =>
    d_visited s0 = vis /\
    d_parent s0 !! start = Some None /\
    (forall v, d_parent s0 !! v = Some None -> v = start) /\
    (start ∈ vis \/ start ∈ Stack._top (d_stack s0)) /\
    (forall v u, d_parent s0 !! v = Some (Some u) -> u ∈ vis /\ adjacent g u v) /\
    (forall v, v ∈ vis \/ v ∈ Stack._top (d_stack s0) ->
       v = start \/ exists u, d_parent s0 !! v = Some (Some u)) /\
    (forall u v, u ∈ d_visited st -> adjacent g u v ->
       v ∈ vis \/ v ∈ Stack._top (d_stack s0)) /\
    (forall v, v ∈ vis \/ v ∈ Stack._top (d_stack s0) -> reachable g start v) /\
    (forall v, v ∈ l1 -> v ∈ vis \/ v ∈ Stack._top (d_stack s0))).
  assert (P (reverse (GraphNode.get_neighbors (Graph.deref g current))) st') as HP.
  { revert Hrun. apply for_each_Hoare.
    - intros l1 x l2 s0 s' Hl (Hvis & Hs1 & Hn1 & Hf1 & Hlk & Hrt & Hclo & Hrch & Hcur) Hbody.
      unfold dfs_neighbor in Hbody. rewrite Hvis in Hbody.
      destruct (decide (x ∉ vis)) as [Hxv|Hxv].
      2:{ injection Hbody as <-. split_and!; try done.
          intros v [Hin| ->%list_elem_of_singleton]%elem_of_app; [by apply Hcur|].
          left. by apply dec_stable. }
      assert (adjacent g current x) as Hadj.
      { unfold adjacent. rewrite get_neighbors_deref. apply elem_of_reverse.
        rewrite Hl. apply elem_of_app. right. left. }
      destruct (d_parent s0 !! x) as [o|] eqn:Hx; injection Hbody as <-;
        split_and!; cbn [d_visited d_parent d_stack Stack.push Stack._top]; try done.
      + destruct Hf1 as [?|?]; [by left|right; by right].
      + intros v [Hv0|[->|Hv0]%elem_of_cons];
          [apply Hrt; by left| |apply Hrt; by right].
        destruct o as [u|]; [right; by exists u|left; by apply Hn1].
      + intros u v Hu Hadj'. destruct (Hclo u v Hu Hadj') as [?|?]; [by left|right; by right].
      + intros v [Hv0|[->|Hv0]%elem_of_cons];
          [apply Hrch; by left|by apply (reachable_step start current)|apply Hrch; by right].
      + intros v [Hin| ->%list_elem_of_singleton]%elem_of_app.
        * destruct (Hcur v Hin) as [?|?]; [by left|right; by right].
        * right. left.
      + rewrite lookup_insert_ne; [done|]. intros ->. congruence.
      + intros v. destruct (decide (v = x)) as [->|Hvx]; [by rewrite lookup_insert_eq|].
        rewrite lookup_insert_ne by done. apply Hn1.
      + destruct Hf1 as [?|?]; [by left|right; by right].
      + intros v u. destruct (decide (v = x)) as [->|Hvx].
        * rewrite lookup_insert_eq. intros [= <-]. split; [|done]. unfold vis. set_solver.
        * rewrite lookup_insert_ne by done. apply Hlk.
      + intros v Hv0.
        destruct (decide (v = x)) as [->|Hvx];
          [right; exists current; by rewrite lookup_insert_eq|].
        rewrite lookup_insert_ne by done.
        destruct Hv0 as [Hv0|[->|Hv0]%elem_of_cons];
          [apply Hrt; by left|done|apply Hrt; by right].
      + intros u v Hu Hadj'. destruct (Hclo u v Hu Hadj') as [?|?]; [by left|right; by right].
      + intros v [Hv0|[->|Hv0]%elem_of_cons];
          [apply Hrch; by left|by apply (reachable_step start current)|apply Hrch; by right].
      + intros v [Hin| ->%list_elem_of_singleton]%elem_of_app.
        * destruct (Hcur v Hin) as [?|?]; [by left|right; by right].
        * right. left.
    - cbn. split_and!; try done.
      + destruct Hfirst as [?|[->|?]%elem_of_cons];
          [left; unfold vis; set_solver|left; unfold vis; set_solver|by right].
      + intros v u Hvu. destruct (Hlink v u Hvu) as [Hu ?]. split; [|done].
        unfold vis. set_solver.
      + intros v [[->%elem_of_singleton|Hv0]%elem_of_union|Hv0]; apply Hroot;
          [right; left|by left|right; by right].
      + intros u v Hu Hadj. destruct (Hcl u v Hu Hadj) as [?|[->|?]%elem_of_cons];
          [left; unfold vis; set_solver|left; unfold vis; set_solver|by right].
      + intros v [[->%elem_of_singleton|Hv0]%elem_of_union|Hv0]; apply Hreach;
          [right; left|by left|right; by right].
      + intros v Hin. by apply elem_of_nil in Hin. }
  destruct HP as (Hvis & Hs1 & Hn1 & Hf1 & Hlk & Hrt & Hclo & Hrch & Hcur).
  constructor; try done.
  - by rewrite Hvis.
  - intros v u. rewrite Hvis. apply Hlk.
  - intros v. rewrite Hvis. apply Hrt.
  - intros u v. rewrite Hvis. intros [->%elem_of_singleton|Hu]%elem_of_union Hadj.
    + apply Hcur. apply elem_of_reverse. unfold adjacent in Hadj.
      by rewrite get_neighbors_deref in Hadj.
    + by apply (Hclo u).
  - intros v. rewrite Hvis. apply Hrch.
  - rewrite Hvis. unfold vis. set_solver.
Qed.

Definition dfs_post (r : Result V) : Prop :=
  cost r = None /\
  (forall v, v ∈ visited r -> reachable g start v) /\
  (found r = true -> path_between g start goal (path r) /\ NoDup (path r)) /\
  (found r = false ->
     path r = [] /\ ¬ reachable g start goal /\
     forall v, reachable g start v -> v ∈ visited r).

Lemma dfs_R_empty st :
  dfs_inv st -> dfs_R st -> Stack.is_empty (d_stack st) = true -> dfs_post (dfs_fail st).
Proof.
  intros Hinv HR He.
  assert (Stack._top (d_stack st) = []) as Hnil.
  { unfold Stack.is_empty in He. by destruct (Stack._top (d_stack st)). }
  assert (forall v n, hops g start v n -> v ∈ d_visited st) as Hall.
  { intros v n. induction 1 as [_|u v n Hu IH Hadj].
    - destruct (dr_first _ HR) as [?|Hin]; [done|]. rewrite Hnil in Hin.
      by apply elem_of_nil in Hin.
    - destruct (dr_closed _ HR u v IH Hadj) as [?|Hin]; [done|]. rewrite Hnil in Hin.
      by apply elem_of_nil in Hin. }
  assert (forall v, v ∈ d_visited st <-> v ∈ d_visited_order st) as Hvo.
  { intros v. rewrite (di_visited _ Hinv). apply elem_of_list_to_set. }
  split_and!; cbn; try done.
  - intros v Hin. apply (dr_reach _ HR). left. by apply Hvo.
  - intros _. split_and!; [done| |].
    + intros [n Hn]%reachable_hops. apply (dr_goal _ HR). by apply (Hall goal n).
    + intros v [n Hn]%reachable_hops. apply Hvo. by apply (Hall v n).
Qed.

Lemma dfs_R_goal st s p fuel :
  dfs_inv st -> dfs_R st -> Stack.pop (d_stack st) = Ok (goal, s) ->
  goal ∉ d_visited st ->
  walk_getitem fuel (d_parent st) (Some goal) [] = Ok p ->
  dfs_post (dfs_success st goal p).
Proof.
  intros Hinv HR Hpop Hv Hrun.
  destruct (dfs_inv_pop st goal s Hinv Hpop) as [Htop _].
  assert (forall v, v ∈ d_visited st <-> v ∈ d_visited_order st) as Hvo.
  { intros v. rewrite (di_visited _ Hinv). apply elem_of_list_to_set. }
  assert (forall v u, d_parent st !! v = Some (Some u) ->
            u ∈ d_visited_order st /\ adjacent g u v) as Hlink.
  { intros v u Hvu. destruct (dr_link _ HR v u Hvu) as [Hu Hadj].
    split; [by apply Hvo|done]. }
  destruct (walk_get_path_any g start (d_parent st) (d_visited_order st) Hwf Hstart
              (di_parent _ Hinv) (di_nodup _ Hinv) Hlink (dr_start _ HR))
    with (n := goal) (fuel := fuel) (p := p) as (Hpath & Hnd & _).
  - intros v Hin. apply (dr_rooted _ HR). left. by apply Hvo.
  - apply (dr_rooted _ HR). right. rewrite Htop. left.
  - by apply walk_getitem_get.
  - split_and!; cbn; try done.
    + intros v [Hin| ->%list_elem_of_singleton]%elem_of_app.
      * apply (dr_reach _ HR). left. by apply Hvo.
      * by exists (reverse p).
    + intros _. split; [done|]. by rewrite reverse_Permutation.
Qed.
End dfs_reach.

Lemma dfs_search_result `{Countable V} (g : Graph.t V) (s t : V) :
  Graph.wf g ->
  exists r, (forall fuel, (search_bound g <= fuel)%nat ->
               depth_first_search fuel g s t = Ok r) /\
            search_result g s t r /\ cost r = None.
Proof.
  intros Hwf. destruct (dfs_terminates g s t) as (r & _ & Hrun).
  exists r. split; [done|].
  destruct (decide (s ∈ Graph.get_all_nodes g /\ t ∈ Graph.get_all_nodes g))
    as [[Hs Ht]|Hno].
  2:{ specialize (Hrun _ (le_n _)).
      assert (depth_first_search (search_bound g) g s t =
              Ok (mkResult false [] None [] 0%nat)) as Hr.
      { unfold depth_first_search.
        destruct (decide (s ∈ Graph.get_all_nodes g)) as [Hs|Hs].
        - destruct (decide (t ∈ Graph.get_all_nodes g)) as [Ht|Ht]; [by destruct Hno|].
          apply get_node_None in Ht. rewrite Ht. by destruct (Graph.get_node g s).
        - apply get_node_None in Hs. by rewrite Hs. }
      rewrite Hr in Hrun. injection Hrun as <-. split; [|done].
      by apply search_result_absent. }
  specialize (Hrun _ (le_n _)). rewrite (dfs_unfold g) in Hrun by done.
  assert (dfs_post g s t r) as (Hc & Hvis & Hfound & Hfail).
  { apply (dfs_loop_partial g t (dfs_R g s t) (dfs_post g s t)) with
      (fuel := search_bound g) (st := dfs_init s); try done.
    - intros st. by apply dfs_R_empty.
    - intros st current s0. by apply dfs_R_skip.
    - intros st s0 p fuel. by apply dfs_R_goal.
    - intros st current s0 st'. by apply dfs_R_expand.
    - apply dfs_init_inv.
    - by apply dfs_R_init. }
  split; [|done]. split_and!.
  - split; [intros Hf; exists (path r); by apply Hfound|].
    intros Hr. destruct (found r) eqn:Hf; [done|]. by destruct (Hfail eq_refl) as (_ & ? & _).
  - done.
  - intros Hf. by destruct (Hfail Hf).
  - done.
  - intros Hf _. by destruct (Hfail Hf) as (_ & _ & ?).
Qed.

(** ** Breadth-first search *)

Section bfs_reach.
Context `{Countable V}.
Variable g : Graph.t V.
Variable start goal : V.
Hypothesis Hwf : Graph.wf g.
Hypothesis Hstart : start ∈ Graph.get_all_nodes g.

Implicit Types (st : bfs_state V).

(** Only discovered nodes have a parent entry. *)
Definition bfs_keys st : Prop :=
  forall v o, b_parent st !! v = Some o -> v ∈ b_visited_order st.

Definition bfs_K st : Prop := bfs_J g start goal st /\ bfs_keys st.

Lemma bfs_keys_expand current st st' (l : list V) :
  bfs_keys st -> for_each (bfs_neighbor current) l st = Ok st' -> bfs_keys st'.
Proof.
  apply for_each_inv. intros s x s' _ Hk Hbody. unfold bfs_neighbor in Hbody.
  case_decide; injection Hbody as <-; [|done].
  intros v o. cbn. destruct (decide (v = x)) as [->|Hvx].
  - intros _. apply elem_of_app. right. left.
  - rewrite lookup_insert_ne by done. intros Hv. apply elem_of_app. left. by apply (Hk v o).
Qed.

Lemma bfs_K_links st :
  bfs_K st ->
  b_parent st !! start = Some None /\
  (forall v u, b_parent st !! v = Some (Some u) ->
     u ∈ b_visited_order st /\ adjacent g u v) /\
  (forall v, v ∈ b_visited_order st ->
     rooted start (b_parent st) v).
Proof.
  intros [(lvl & done & Ht) Hk]. split_and!.
  - destruct (bt_start _ _ _ _ _ _ Ht) as [Hs Hl].
    destruct (bt_parent _ _ _ _ _ _ Ht start Hs) as [[_ ?]|(u & _ & _ & _ & Hlu)]; [done|].
    lia.
  - intros v u Hvu. pose proof (Hk v _ Hvu) as Hv.
    destruct (bt_parent _ _ _ _ _ _ Ht v Hv) as [[_ Hp]|(u' & Hp & Hu & Hadj & _)];
      [congruence|].
    rewrite Hvu in Hp. injection Hp as <-. done.
  - intros v Hv.
    destruct (bt_parent _ _ _ _ _ _ Ht v Hv) as [[-> _]|(u & Hp & _)];
      [by left|right; by exists u].
Qed.

Lemma bfs_K_reachable st v :
  bfs_inv st -> bfs_K st -> v ∈ b_visited_order st -> reachable g start v.
Proof.
  intros Hinv HK Hv. pose proof HK as [(lvl & done & Ht) _].
  apply list_elem_of_lookup in Hv as [i Hi].
  destruct (walk_getitem_total (b_parent st) (b_visited_order st) i v
              (bi_parent _ Hinv) (bi_dom _ Hinv) Hi) as (p & Hp).
  specialize (Hp (S i) [] (Nat.lt_succ_diag_r i)).
  assert (exists p', p = [] ++ p' /\ length p' = S (lvl v) /\
            path_between g start v (reverse p')) as (p' & _ & _ & Hpath).
  { eapply bfs_tree_walk; [done|done|exact Ht|by eapply list_elem_of_lookup_2|exact Hp]. }
  by exists (reverse p').
Qed.

Definition bfs_reach_post (r : Result V) : Prop :=
  cost r = None /\
  (forall v, v ∈ visited r -> reachable g start v) /\
  (found r = true -> path_between g start goal (path r) /\ NoDup (path r)) /\
  (found r = false ->
     path r = [] /\ ¬ reachable g start goal /\
     forall v, reachable g start v -> v ∈ visited r).

Lemma bfs_reach_result :
  goal ∈ Graph.get_all_nodes g ->
  exists r, bfs_reach_post r /\
    forall fuel, (search_bound g <= fuel)%nat ->
      breadth_first_search fuel g start goal = Ok r.
Proof.
  intros Ht.
  apply (bfs_total g Hwf bfs_K bfs_reach_post start goal); try done.
  - split; [by apply bfs_J_init|].
    intros v o Hv. cbn in Hv. apply lookup_singleton_Some in Hv as [<- _]. cbn. left.
  - intros st Hinv HK He. pose proof HK as [(lvl & done & Htree) _].
    assert (Queue._front (b_queue st) = []) as Hnil.
    { unfold Queue.is_empty in He. by destruct (Queue._front (b_queue st)). }
    pose proof (bt_split _ _ _ _ _ _ Htree) as Hsplit. rewrite Hnil, app_nil_r in Hsplit.
    split_and!; cbn; try done.
    + intros v Hv. by apply (bfs_K_reachable st).
    + intros _. split_and!; [done| |].
      * intros [p Hp]. apply (bt_goal _ _ _ _ _ _ Htree).
        eapply bfs_tree_closed; [exact Htree|done|by apply path_hops].
      * intros v [p Hp]. rewrite Hsplit.
        eapply bfs_tree_closed; [exact Htree|done|by apply path_hops].
  - intros st q p Hinv HK Hdq Hrun.
    destruct (bfs_dequeue_inv st goal q Hinv Hdq) as (_ & Hgo & _).
    destruct (bfs_K_links st HK) as (Hps & Hlink & Hroot).
    destruct (walk_get_path_any g start (b_parent st) (b_visited_order st) Hwf Hstart
                (bi_parent _ Hinv) (bi_nodup _ Hinv) Hlink Hps Hroot goal
                (length (b_visited_order st)) p) as (Hpath & Hnd & _).
    + by apply Hroot.
    + by apply walk_getitem_get.
    + split_and!; cbn; try done.
      * intros v Hv. by apply (bfs_K_reachable st).
      * intros _. split; [done|]. by rewrite reverse_Permutation.
  - intros st current q st' Hinv [HJ Hk] Hdq Hne Hrun _. split.
    + eapply bfs_J_expand; eauto.
    + by apply (bfs_keys_expand current (bfs_dequeued st q) st' _ Hk Hrun).
Qed.
End bfs_reach.

Lemma bfs_search_result `{Countable V} (g : Graph.t V) (s t : V) :
  Graph.wf g ->
  exists r, (forall fuel, (search_bound g <= fuel)%nat ->
               breadth_first_search fuel g s t = Ok r) /\
            search_result g s t r /\ cost r = None.
Proof.
  intros Hwf.
  destruct (decide (s ∈ Graph.get_all_nodes g /\ t ∈ Graph.get_all_nodes g))
    as [[Hs Ht]|Hno].
  2:{ exists (mkResult false [] None [] 0%nat). split_and!.
      - intros fuel _. unfold breadth_first_search.
        destruct (decide (s ∈ Graph.get_all_nodes g)) as [Hs|Hs].
        + destruct (decide (t ∈ Graph.get_all_nodes g)) as [Ht|Ht]; [by destruct Hno|].
          apply get_node_None in Ht. rewrite Ht. by destruct (Graph.get_node g s).
        + apply get_node_None in Hs. by rewrite Hs.
      - by apply search_result_absent.
      - done. }
  destruct (bfs_reach_result g s t Hwf Hs Ht) as (r & (Hc & Hvis & Hfound & Hfail) & Hrun).
  exists r. split; [done|]. split; [|done]. split_and!.
  - split; [intros Hf; exists (path r); by apply Hfound|].
    intros Hr. destruct (found r) eqn:Hf; [done|]. by destruct (Hfail eq_refl) as (_ & ? & _).
  - done.
  - intros Hf. by destruct (Hfail Hf).
  - done.
  - intros Hf _. by destruct (Hfail Hf) as (_ & _ & ?).
Qed.

(** ** The four searches and reachability *)



(** X10.  [dijkstra] on any well-formed graph returns for every iteration
    bound from [search_bound g] on; [found] is set exactly if the goal can
    be reached; the returned path is then a path of the graph from start
    to goal without repeated nodes and [cost] is its total weight;
    otherwise the path is empty and the cost infinite.  Every visited
    node can be reached, and a failed search with the goal in the graph
    has visited every node that can. *)
Theorem dijkstra_path_is_real `{Countable V} (g : Graph.t V) (start_value goal_value : V) :
  Graph.wf g ->
  exists r,
    (forall fuel, (search_bound g <= fuel)%nat ->
       dijkstra fuel g start_value goal_value = Ok r) /\
    (found r = true <-> reachable g start_value goal_value) /\
    (found r = true ->
       path_between g start_value goal_value (path r) /\ NoDup (path r) /\
       exists c, cost r = Some (Fin c) /\ path_weight g (path r) = Fin c) /\
    (found r = false -> path r = [] /\ cost r = Some Inf) /\
    (forall v, v ∈ visited r -> reachable g start_value v) /\
    (found r = false -> goal_value ∈ Graph.get_all_nodes g ->
     forall v, reachable g start_value v -> v ∈ visited r).
Proof.
  intros Hwf.
  destruct (dijkstra_search_result g start_value goal_value Hwf)
    as (r & Hrun & (Hiff & Hpath & Hnil & Hvis & Hall) & Hcost & Hinf).
  exists r. split_and!; try done.
  - intros Hf. destruct (Hpath Hf). split_and!; [done|done|by apply Hcost].
  - intros Hf. split; [by apply Hnil|by apply Hinf].
Qed.

Lemma dijkstra_path_is_real_witness :
  exists r,
    (forall fuel, (search_bound triangle_graph <= fuel)%nat ->
       dijkstra fuel triangle_graph 1%nat 3%nat = Ok r) /\
    (found r = true <-> reachable triangle_graph 1%nat 3%nat).
Proof.
  destruct (dijkstra_path_is_real triangle_graph 1%nat 3%nat) as (r & Hrun & Hiff & _).
  - apply (bool_decide_unpack _). vm_compute. exact I.
  - exists r. split; [exact Hrun|exact Hiff].
Defined.

(** X11.  [depth_first_search] on any well-formed graph returns for every
    iteration bound from [search_bound g] on; [found] is set exactly if
    the goal can be reached; the returned path is then a path of the
    graph from start to goal without repeated nodes, otherwise it is
    empty.  Every visited node can be reached, and a failed search with
    the goal in the graph has visited every node that can. *)
Theorem dfs_path_is_real `{Countable V} (g : Graph.t V) (start_value goal_value : V) :
  Graph.wf g ->
  exists r,
    (forall fuel, (search_bound g <= fuel)%nat ->
       depth_first_search fuel g start_value goal_value = Ok r) /\
    (found r = true <-> reachable g start_value goal_value) /\
    (found r = true -> path_between g start_value goal_value (path r) /\ NoDup (path r)) /\
    (found r = false -> path r = []) /\
    (forall v, v ∈ visited r -> reachable g start_value v) /\
    (found r = false -> goal_value ∈ Graph.get_all_nodes g ->
     forall v, reachable g start_value v -> v ∈ visited r).
Proof.
  intros Hwf.
  destruct (dfs_search_result g start_value goal_value Hwf)
    as (r & Hrun & (Hiff & Hpath & Hnil & Hvis & Hall) & _).
  exists r. by split_and!.
Qed.

Lemma dfs_path_is_real_witness :
  exists r,
    (forall fuel, (search_bound triangle_graph <= fuel)%nat ->
       depth_first_search fuel triangle_graph 1%nat 3%nat = Ok r) /\
    (found r = true <-> reachable triangle_graph 1%nat 3%nat).
Proof.
  destruct (dfs_path_is_real triangle_graph 1%nat 3%nat) as (r & Hrun & Hiff & _).
  - apply (bool_decide_unpack _). vm_compute. exact I.
  - exists r. split; [exact Hrun|exact Hiff].
Defined.

(** X12.  [breadth_first_search] on any well-formed graph returns for
    every iteration bound from [search_bound g] on; [found] is set exactly
    if the goal can be reached; the returned path is then a path of the
    graph from start to goal without repeated nodes, otherwise it is
    empty.  Every node in [visited] can be reached, and a failed search
    with the goal in the graph has visited every node that can. *)
Theorem bfs_path_is_real `{Countable V} (g : Graph.t V) (start_value goal_value : V) :
  Graph.wf g ->
  exists r,
    (forall fuel, (search_bound g <= fuel)%nat ->
       breadth_first_search fuel g start_value goal_value = Ok r) /\
    (found r = true <-> reachable g start_value goal_value) /\
    (found r = true -> path_between g start_value goal_value (path r) /\ NoDup (path r)) /\
    (found r = false -> path r = []) /\
    (forall v, v ∈ visited r -> reachable g start_value v) /\
    (found r = false -> goal_value ∈ Graph.get_all_nodes g ->
     forall v, reachable g start_value v -> v ∈ visited r).
Proof.
  intros Hwf.
  destruct (bfs_search_result g start_value goal_value Hwf)
    as (r & Hrun & (Hiff & Hpath & Hnil & Hvis & Hall) & _).
  exists r. by split_and!.
Qed.

Lemma bfs_path_is_real_witness :
  exists r,
    (forall fuel, (search_bound triangle_graph <= fuel)%nat ->
       breadth_first_search fuel triangle_graph 1%nat 3%nat = Ok r) /\
    (found r = true <-> reachable triangle_graph 1%nat 3%nat).
Proof.
  destruct (bfs_path_is_real triangle_graph 1%nat 3%nat) as (r & Hrun & Hiff & _).
  - apply (bool_decide_unpack _). vm_compute. exact I.
  - exists r. split; [exact Hrun|exact Hiff].
Defined.





(** ** The start is the goal *)

Lemma extract_min_single {A : Type} (x : A) (p : ext) :
  PriorityQueue.extract_min (PriorityQueue.insert PriorityQueue.empty x p) =
  Ok ((p, x), PriorityQueue.empty).
Proof. reflexivity. Qed.

Lemma walk_getitem_root `{Countable V} (parent : gmap V (option V)) (n : V) (fuel : nat) :
  parent !! n = Some None -> walk_getitem (S fuel) parent (Some n) [] = Ok [n].
Proof.
  intros Hn. cbn [walk_getitem]. unfold getitem. rewrite Hn. cbn [mbind outcome_bind].
  by destruct fuel.
Qed.

Lemma walk_get_root `{Countable V} (parent : gmap V (option V)) (n : V) (fuel : nat) :
  parent !! n = Some None -> walk_get (S fuel) parent (Some n) [] = Ok [n].
Proof.
  intros Hn. cbn [walk_get]. rewrite Hn. cbn [default from_option id].
  by rewrite walk_get_None.
Qed.

(** X14.  When the start is the goal and is a node of the graph, every
    search returns at its first iteration: [found] is set, the path and
    the visited list are [[start]], [nodes_explored] is 1, and the cost
    of Dijkstra and A-star is 0, whatever the edges and the heuristic. *)
Theorem search_start_is_goal `{Countable V} (g : Graph.t V) (start_value : V)
    (heuristic : V -> V -> Z) (fuel : nat) :
  start_value ∈ Graph.get_all_nodes g -> (2 <= fuel)%nat ->
  breadth_first_search fuel g start_value start_value =
    Ok (mkResult true [start_value] None [start_value] 1%nat) /\
  depth_first_search fuel g start_value start_value =
    Ok (mkResult true [start_value] None [start_value] 1%nat) /\
  dijkstra fuel g start_value start_value =
    Ok (mkResult true [start_value] (Some (Fin 0)) [start_value] 1%nat) /\
  astar fuel g start_value start_value heuristic =
    Ok (mkResult true [start_value] (Some (Fin 0)) [start_value] 1%nat).
Proof.
  intros Hs Hfuel. destruct fuel as [|[|fuel]]; [lia|lia|]. split_and!.
  - rewrite bfs_unfold by done. rewrite bfs_loop_unfold.
    cbn [bfs_init b_queue b_parent Queue.is_empty Queue.enqueue Queue.empty Queue._front
         Queue._size Queue.dequeue app mbind outcome_bind].
    rewrite decide_True by done.
    rewrite walk_getitem_root by apply lookup_singleton_eq.
    cbn [mbind outcome_bind]. unfold bfs_success. cbn. by rewrite size_singleton.
  - rewrite dfs_unfold by done. rewrite dfs_loop_unfold.
    cbn [dfs_init d_stack d_parent d_visited Stack.is_empty Stack.push Stack.empty
         Stack._top Stack._size Stack.pop mbind outcome_bind].
    rewrite decide_False by apply not_elem_of_empty. rewrite decide_True by done.
    rewrite walk_getitem_root by apply lookup_singleton_eq.
    cbn [mbind outcome_bind]. unfold dfs_success. cbn.
    by rewrite union_empty_r_L, size_singleton.
  - rewrite <-astar_zero_dijkstra.
    rewrite astar_unfold by done. rewrite astar_loop_unfold.
    cbn [astar_init a_pq a_visited a_parent a_g_score]. rewrite extract_min_single.
    change (PriorityQueue.is_empty (PriorityQueue.insert PriorityQueue.empty start_value
              (Fin (zero_estimate start_value start_value)))) with false.
    cbn [mbind outcome_bind].
    rewrite decide_False by apply not_elem_of_empty. rewrite decide_True by done.
    rewrite walk_get_root by apply lookup_singleton_eq.
    cbn [mbind outcome_bind]. unfold getitem. rewrite lookup_insert_eq.
    cbn [mbind outcome_bind]. unfold astar_success. cbn.
    by rewrite union_empty_r_L, size_singleton.
  - rewrite astar_unfold by done. rewrite astar_loop_unfold.
    cbn [astar_init a_pq a_visited a_parent a_g_score]. rewrite extract_min_single.
    change (PriorityQueue.is_empty (PriorityQueue.insert PriorityQueue.empty start_value
              (Fin (heuristic start_value start_value)))) with false.
    cbn [mbind outcome_bind].
    rewrite decide_False by apply not_elem_of_empty. rewrite decide_True by done.
    rewrite walk_get_root by apply lookup_singleton_eq.
    cbn [mbind outcome_bind]. unfold getitem. rewrite lookup_insert_eq.
    cbn [mbind outcome_bind]. unfold astar_success. cbn.
    by rewrite union_empty_r_L, size_singleton.
Qed.

Lemma search_start_is_goal_witness :
  dijkstra 2 triangle_graph 2%nat 2%nat =
    Ok (mkResult true [2%nat] (Some (Fin 0)) [2%nat] 1%nat).
Proof.
  apply (search_start_is_goal triangle_graph 2%nat zero_estimate 2).
  - apply (bool_decide_unpack _). vm_compute. exact I.
  - lia.
Defined.

(** ** Dijkstra settles the nodes in the order of their distance *)

Section dijkstra_order.
Context `{Countable V}.
Variable g : Graph.t V.
Variable start goal : V.
Hypothesis Hwf : Graph.wf g.
Hypothesis Hnn : nonneg g.

Implicit Types (st : astar_state V).

(** [c] is the least weight of a walk from the start to [v]. *)
Definition least (v : V) (c : Z) : Prop :=
  walk g start v c /\ forall c', walk g start v c' -> c <= c'.

Lemma least_unique v c1 c2 : least v c1 -> least v c2 -> c1 = c2.
Proof. intros [Hw1 Hm1] [Hw2 Hm2]. specialize (Hm1 c2 Hw2). specialize (Hm2 c1 Hw1). lia. Qed.

Definition by_distance (l : list V) : Prop :=
  forall i j u v cu cv, (i <= j)%nat -> l !! i = Some u -> l !! j = Some v ->
    least u cu -> least v cv -> cu <= cv.

Lemma by_distance_snoc (l : list V) (x : V) :
  by_distance l ->
  (forall u cu cx, u ∈ l -> least u cu -> least x cx -> cu <= cx) ->
  by_distance (l ++ [x]).
Proof.
  intros Hl Hx i j u v cu cv Hij Hi Hj Hu Hv.
  destruct (decide (j < length l)%nat) as [Hlt|Hge].
  - rewrite lookup_app_l in Hi by lia. rewrite lookup_app_l in Hj by lia.
    by apply (Hl i j u v).
  - assert (j = length l) as ->.
    { apply lookup_lt_Some in Hj. rewrite length_app in Hj. simpl in Hj. lia. }
    rewrite lookup_app_r, Nat.sub_diag in Hj by lia. injection Hj as <-.
    destruct (decide (i < length l)%nat) as [Hlt|Hge'].
    + rewrite lookup_app_l in Hi by lia. apply (Hx u cu cv); [|done|done].
      by eapply list_elem_of_lookup_2.
    + assert (i = length l) as -> by lia.
      rewrite lookup_app_r, Nat.sub_diag in Hi by lia. injection Hi as <-.
      rewrite (least_unique _ _ _ Hu Hv). lia.
Qed.

Definition dijkstra_K st : Prop :=
  astar_J g zero_estimate start goal st /\
  (forall u cu v c, u ∈ a_visited st -> least u cu -> v ∉ a_visited st ->
     walk g start v c -> cu <= c) /\
  by_distance (a_visited_order st).

Definition settled_by_distance (r : Result V) : Prop :=
  (forall v, v ∈ visited r -> exists c, least v c) /\ by_distance (visited r).

Lemma dijkstra_K_least st v :
  astar_inv g st -> dijkstra_K st -> v ∈ a_visited_order st -> exists c, least v c.
Proof.
  intros Hinv (HJ & _) Hv. apply (astar_inv_visited g st v Hinv) in Hv.
  destruct (astar_settled_least g zero_estimate start goal st v HJ Hv) as (c & _ & Hl).
  by exists c.
Qed.

Lemma dijkstra_K_extract st f current pq :
  astar_inv g st -> dijkstra_K st ->
  PriorityQueue.extract_min (a_pq st) = Ok ((f, current), pq) ->
  current ∉ a_visited st ->
  (exists c, least current c) /\
  (forall cx v c, least current cx -> v ∉ a_visited st -> walk g start v c -> cx <= c) /\
  by_distance (a_visited_order st ++ [current]).
Proof.
  intros Hinv (HJ & Hfar & Hord) Hx Hv.
  pose proof (nonneg_consistent_zero g goal Hnn) as Hcons.
  destruct (astar_extract_least g zero_estimate start goal Hcons st f current pq
              Hinv HJ Hx Hv) as (gc & Hgc & Hw & Hmin).
  split_and!.
  - by exists gc.
  - intros cx v c Hcx Hnv Hwv.
    rewrite (least_unique current cx gc Hcx (conj Hw Hmin)).
    destruct (astar_key_bound g zero_estimate start goal Hcons st f current pq v c
                Hinv HJ Hx Hwv Hnv) as (gc' & Hgc' & Hle).
    rewrite Hgc in Hgc'. injection Hgc' as <-. unfold zero_estimate in Hle. lia.
  - apply by_distance_snoc; [done|]. intros u cu cx Hu Hlu [Hwx _].
    apply (Hfar u cu current cx); [|done|done|done].
    by apply (astar_inv_visited g st).
Qed.

Lemma dijkstra_settled_by_distance :
  start ∈ Graph.get_all_nodes g -> goal ∈ Graph.get_all_nodes g ->
  exists r, settled_by_distance r /\
    forall fuel, (search_bound g <= fuel)%nat -> dijkstra fuel g start goal = Ok r.
Proof.
  intros Hs Ht.
  pose proof (nonneg_consistent_zero g goal Hnn) as Hcons.
  destruct (astar_total g zero_estimate Hwf dijkstra_K settled_by_distance start goal)
    as (r & Hr & Hrun); try done.
  - split_and!.
    + by apply astar_J_init.
    + intros u cu v c Hu. by apply elem_of_empty in Hu.
    + intros i j u v cu cv _ Hi. cbn in Hi. by rewrite lookup_nil in Hi.
  - intros st Hinv HK He. split; [|apply HK].
    intros v Hv. by apply (dijkstra_K_least st).
  - intros st f current pq Hinv (HJ & Hfar & Hord) Hx Hv. split_and!; [|done|done].
    by apply (astar_J_skip g zero_estimate start goal st f current pq).
  - intros st f pq p c Hinv HK Hx Hv _ _.
    destruct (dijkstra_K_extract st f goal pq Hinv HK Hx Hv) as (Hl & _ & Hord).
    split; [|done]. intros v [Hin| ->%list_elem_of_singleton]%elem_of_app; [|done].
    by apply (dijkstra_K_least st).
  - intros st f current pq st' Hinv HK Hx Hv Hne Hrun Hinv'.
    destruct (dijkstra_K_extract st f current pq Hinv HK Hx Hv) as (_ & Hfar' & Hord).
    destruct (astar_inv_skip g st _ pq Hinv Hx) as (Hinv1 & _ & Hcn).
    destruct (astar_expand_Ok g zero_estimate goal Hwf st pq current)
      as (st0 & Hst0 & _ & Hvis & Hvo & _); [by apply (astar_inv_visit g zero_estimate Hwf)|exact Hcn|].
    rewrite Hrun in Hst0. injection Hst0 as <-.
    destruct HK as (HJ & Hfar & _). split_and!.
    + by apply (astar_J_expand g zero_estimate start goal Hwf Hcons st f current pq).
    + intros u cu v c. rewrite Hvis.
      intros [->%elem_of_singleton|Hu]%elem_of_union Hlu Hnv Hwv.
      * apply (Hfar' cu v c); [done| |done]. set_solver.
      * apply (Hfar u cu v c); [done|done| |done]. set_solver.
    + by rewrite Hvo.
  - exists r. split; [done|]. intros fuel Hfuel. rewrite <-astar_zero_dijkstra. auto.
Qed.
End dijkstra_order.

(** X15.  On a well-formed graph with non-negative weights [dijkstra]
    settles the nodes in the order of their distance from the start:
    every node in [visited] has a least path cost from the start, and a
    node that comes earlier in [visited] has a least cost that is at most
    that of a node that comes later. *)
Theorem dijkstra_visits_by_distance `{Countable V} (g : Graph.t V)
    (start_value goal_value : V) :
  Graph.wf g -> nonneg g ->
  exists r,
    (forall fuel, (search_bound g <= fuel)%nat ->
       dijkstra fuel g start_value goal_value = Ok r) /\
    (forall v, v ∈ visited r -> exists c, min_cost g start_value v c) /\
    (forall i j u v cu cv, (i <= j)%nat ->
       visited r !! i = Some u -> visited r !! j = Some v ->
       min_cost g start_value u cu -> min_cost g start_value v cv -> cu <= cv).
Proof.
  intros Hwf Hnn.
  destruct (decide (start_value ∈ Graph.get_all_nodes g /\
                    goal_value ∈ Graph.get_all_nodes g)) as [[Hs Ht]|Hno].
  2:{ exists (mkResult false [] (Some Inf) [] 0%nat). split_and!.
      - intros fuel _. rewrite <-astar_zero_dijkstra. by apply absent_endpoint_astar.
      - intros v Hv. by apply elem_of_nil in Hv.
      - intros i j u v cu cv _ Hi. cbn in Hi. by rewrite lookup_nil in Hi. }
  destruct (dijkstra_settled_by_distance g start_value goal_value Hwf Hnn Hs Ht)
    as (r & [Hleast Hord] & Hrun).
  exists r. split_and!; [done| |].
  - intros v Hv. destruct (Hleast v Hv) as (c & Hw & Hmin). exists c.
    by apply walk_min_cost.
  - intros i j u v cu cv Hij Hi Hj Hu Hv.
    apply (Hord i j u v cu cv Hij Hi Hj); by apply min_cost_walk.
Qed.

Lemma dijkstra_visits_by_distance_witness :
  exists r,
    (forall fuel, (search_bound detour_graph <= fuel)%nat ->
       dijkstra fuel detour_graph 0%nat 3%nat = Ok r) /\
    (forall v, v ∈ visited r -> exists c, min_cost detour_graph 0%nat v c) /\
    (forall i j u v cu cv, (i <= j)%nat ->
       visited r !! i = Some u -> visited r !! j = Some v ->
       min_cost detour_graph 0%nat u cu -> min_cost detour_graph 0%nat v cv -> cu <= cv).
Proof.
  apply (dijkstra_visits_by_distance detour_graph 0%nat 3%nat).
  - apply (bool_decide_unpack _). vm_compute. exact I.
  - apply (bool_decide_unpack _). vm_compute. exact I.
Defined.

(** ** The Manhattan heuristic *)

(** X16.  [manhattan_distance] is a metric on integer positions: it is
    never negative, zero exactly between equal positions, symmetric, and
    satisfies the triangle inequality; one step along an axis changes
    the distance to any target by exactly one. *)
Theorem manhattan_distance_metric (p q t : Z * Z) :
  0 <= manhattan_distance p q /\
  (manhattan_distance p q = 0 <-> p = q) /\
  manhattan_distance p q = manhattan_distance q p /\
  manhattan_distance p t <= manhattan_distance p q + manhattan_distance q t /\
  (manhattan_distance p q = 1 ->
   manhattan_distance p t = manhattan_distance q t + 1 \/
   manhattan_distance p t = manhattan_distance q t - 1).
Proof.
  destruct p as [px py], q as [qx qy], t as [tx ty]. unfold manhattan_distance.
  cbn [fst snd]. split_and!; try lia.
  split; [intros Hz; f_equal; lia|intros [= -> ->]; lia].
Qed.

(** * problems/maze.py *)

From stdpp Require Import strings.

Local Open Scope Z_scope.

(** Loops that may raise: totality, the first failing item, and a
    relation that only grows. *)
Lemma for_each_total {S A : Type} (body : S -> A -> outcome S) (l : list A) (s : S) :
  (forall s x, x ∈ l -> exists s', body s x = Ok s') ->
  exists s', for_each body l s = Ok s'.
Proof.
  revert s. induction l as [|x l IH]; intros s Hb; [by exists s|].
  destruct (Hb s x) as [s1 H1]; [left|]. cbn [for_each]. rewrite H1.
  cbn [mbind outcome_bind]. apply IH. intros s0 y Hy. apply Hb. by right.
Qed.

Lemma for_each_raises {S A : Type} (e : exc) (body : S -> A -> outcome S)
    (l : list A) (s : S) (x : A) :
  (forall s y, y ∈ l -> (exists s', body s y = Ok s') \/ body s y = Raise e) ->
  x ∈ l -> (forall s, body s x = Raise e) ->
  for_each body l s = Raise e.
Proof.
  revert s. induction l as [|y l IH]; intros s Hb Hx Hr; [by apply elem_of_nil in Hx|].
  cbn [for_each]. destruct (Hb s y) as [[s1 H1]|H1]; [left| |by rewrite H1].
  rewrite H1. cbn [mbind outcome_bind].
  apply elem_of_cons in Hx as [->|Hx]; [by rewrite Hr in H1|].
  apply IH; [|done|done]. intros s0 z Hz. apply Hb. by right.
Qed.

Lemma for_each_grow {S A : Type} (R : S -> S -> Prop) (Pre : S -> Prop)
    (Done : A -> S -> Prop) (body : S -> A -> outcome S) (l : list A) (s s' : S) :
  (forall s, R s s) -> (forall s1 s2 s3, R s1 s2 -> R s2 s3 -> R s1 s3) ->
  (forall x s1 s2, R s1 s2 -> Done x s1 -> Done x s2) ->
  (forall s1 x s2, x ∈ l -> Pre s1 -> body s1 x = Ok s2 ->
     Pre s2 /\ R s1 s2 /\ Done x s2) ->
  Pre s -> for_each body l s = Ok s' ->
  Pre s' /\ R s s' /\ forall x, x ∈ l -> Done x s'.
Proof.
  intros Hrefl Htrans Hkeep. revert s.
  induction l as [|y l IH]; intros s Hb Hs Hrun.
  - injection Hrun as <-. split_and!; [done|done|]. intros x Hx. by apply elem_of_nil in Hx.
  - cbn [for_each] in Hrun. apply bind_Ok in Hrun as (s1 & H1 & Hrun).
    destruct (Hb s y s1) as (Hp1 & Hr1 & Hd1); [left|done|done|].
    destruct (IH s1) as (Hp' & Hr' & Hd'); [|done|done|].
    { intros s2 x s3 Hx. apply Hb. by right. }
    split_and!; [done|by apply (Htrans s s1 s')|].
    intros x [->|Hx]%elem_of_cons; [by apply (Hkeep _ s1)|by apply Hd'].
Qed.

Module MazeProblem.

(** A cell position [(row, col)]. *)
Definition pos : Type := (Z * Z)%type.

(** [maze[r][c]] for indices that are not negative; a row or a cell that
    is not there raises [IndexError]. *)
Definition cell (maze : list (list string)) (r c : Z) : outcome string :=
  match maze !! Z.to_nat r with
  | Some row =>
    match row !! Z.to_nat c with
    | Some x => Ok x
    | None => Raise IndexError
    end
  | None => Raise IndexError
  end.

(** [range(n)] *)
Definition range (n : nat) : list Z := Z.of_nat <$> seq 0 n.

Definition directions : list (Z * Z) := [(-1, 0); (1, 0); (0, -1); (0, 1)].

(** Body of [for dr, dc in directions]. *)
Definition build_direction (maze : list (list string)) (rows cols : nat) (r c : Z)
    (graph : Graph.t pos) (d : Z * Z) : outcome (Graph.t pos) :=
  let nr := r + fst d in
  let nc := c + snd d in
  if bool_decide (0 <= nr < Z.of_nat rows /\ 0 <= nc < Z.of_nat cols) then
    x ← cell maze nr nc;
    if decide (x ≠ "#"%string) then Ok (Graph.add_edge graph (r, c) (nr, nc) 1)
    else Ok graph
  else Ok graph.

(** Body of [for c in range(self.cols)]. *)
Definition build_cell (maze : list (list string)) (rows cols : nat) (r : Z)
    (graph : Graph.t pos) (c : Z) : outcome (Graph.t pos) :=
  x ← cell maze r c;
  if decide (x = "#"%string) then Ok graph
  else for_each (build_direction maze rows cols r c) directions graph.

(** Body of [for r in range(self.rows)]. *)
Definition build_row (maze : list (list string)) (rows cols : nat)
    (graph : Graph.t pos) (r : Z) : outcome (Graph.t pos) :=
  for_each (build_cell maze rows cols r) (range cols) graph.

Definition _build_graph (maze : list (list string)) (rows cols : nat)
  : outcome (Graph.t pos) :=
  for_each (build_row maze rows cols) (range rows) (Graph.empty false).

Record t : Type := mk {
  maze : list (list string);
  rows : nat;
  cols : nat;
  start : pos;
  goal : pos;
  graph : Graph.t pos
}.

(** [__init__] *)
Definition init (maze : list (list string)) (start goal : pos) : outcome t :=
  let rows := length maze in
  let cols := match maze with [] => 0%nat | row :: _ => length row end in
  graph ← _build_graph maze rows cols;
  Ok {| maze := maze; rows := rows; cols := cols; start := start; goal := goal;
        graph := graph |}.

Definition solve_bfs (fuel : nat) (m : t) : outcome (Result pos) :=
  breadth_first_search fuel (graph m) (start m) (goal m).

Definition solve_dfs (fuel : nat) (m : t) : outcome (Result pos) :=
  depth_first_search fuel (graph m) (start m) (goal m).

Definition solve_dijkstra (fuel : nat) (m : t) : outcome (Result pos) :=
  dijkstra fuel (graph m) (start m) (goal m).

Definition solve_astar (fuel : nat) (m : t) : outcome (Result pos) :=
  astar fuel (graph m) (start m) (goal m) manhattan_distance.

End MazeProblem.

Section maze_facts.
Import MazeProblem.
Variable maze : list (list string).
Variable rows cols : nat.
Hypothesis Hrows : rows = length maze.

Implicit Types (p q : pos) (g : Graph.t pos) (r c : Z) (d : Z * Z).

Lemma elem_of_range (n : nat) (x : Z) : x ∈ range n <-> 0 <= x < Z.of_nat n.
Proof.
  unfold range. rewrite list_elem_of_fmap. split.
  - intros (k & -> & Hk). apply elem_of_seq in Hk. lia.
  - intros Hx. exists (Z.to_nat x). split; [lia|]. apply elem_of_seq. lia.
Qed.

(** An open cell: inside the grid and not a wall. *)
Definition open_cell p : Prop :=
  0 <= fst p < Z.of_nat rows /\ 0 <= snd p < Z.of_nat cols /\
  exists x, cell maze (fst p) (snd p) = Ok x /\ x ≠ "#"%string.

(** Two open cells next to each other. *)
Definition linked p q : Prop :=
  open_cell p /\ open_cell q /\ manhattan_distance p q = 1.

Lemma step_directions p q :
  manhattan_distance p q = 1 <->
  exists d, d ∈ directions /\ q = (fst p + fst d, snd p + snd d).
Proof.
  destruct p as [pr pc], q as [qr qc]. unfold manhattan_distance, directions.
  cbn [fst snd]. split.
  - intros Hd.
    assert ((qr = pr - 1 /\ qc = pc) \/ (qr = pr + 1 /\ qc = pc) \/
            (qr = pr /\ qc = pc - 1) \/ (qr = pr /\ qc = pc + 1)) as Hc by lia.
    destruct Hc as [[-> ->]|[[-> ->]|[[-> ->]|[-> ->]]]].
    + exists (-1, 0). split; [set_solver|]. cbn. f_equal; lia.
    + exists (1, 0). split; [set_solver|]. cbn. f_equal; lia.
    + exists (0, -1). split; [set_solver|]. cbn. f_equal; lia.
    + exists (0, 1). split; [set_solver|]. cbn. f_equal; lia.
  - intros (d & Hd & Hq). injection Hq as -> ->.
    repeat (apply elem_of_cons in Hd as [->|Hd]); [..|by apply elem_of_nil in Hd];
      cbn [fst snd]; lia.
Qed.

Lemma linked_sym p q : linked p q -> linked q p.
Proof.
  intros (Hp & Hq & Hd). split_and!; [done|done|].
  destruct p, q. unfold manhattan_distance in *. cbn [fst snd] in *. lia.
Qed.

(** What the loops keep: an undirected well-formed graph whose edges
    all have weight 1 and join open cells next to each other, and whose
    nodes all have an edge. *)
Definition grid_ok g : Prop :=
  Graph.wf g /\ Graph.directed g = false /\
  (forall p q w, Graph.get_edge_weight g p q = Fin w -> w = 1 /\ linked p q) /\
  (forall p, p ∈ Graph.get_all_nodes g -> exists q, Graph.get_edge_weight g p q = Fin 1).

(** Edges are only added. *)
Definition grows g g' : Prop :=
  forall p q, Graph.get_edge_weight g p q = Fin 1 -> Graph.get_edge_weight g' p q = Fin 1.

Lemma grows_refl g : grows g g.
Proof. by intros p q. Qed.

Lemma grows_trans g1 g2 g3 : grows g1 g2 -> grows g2 g3 -> grows g1 g3.
Proof. intros H12 H23 p q Hpq. by apply H23, H12. Qed.

Definition cell_done p g : Prop :=
  forall q, linked p q -> Graph.get_edge_weight g p q = Fin 1.

Lemma grid_ok_empty : grid_ok (Graph.empty false).
Proof.
  split_and!; [apply wf_empty|done| |].
  - intros p q w Hw. done.
  - intros p Hp. by apply elem_of_nil in Hp.
Qed.

Lemma grid_ok_add_edge g p q :
  grid_ok g -> linked p q ->
  grid_ok (Graph.add_edge g p q 1) /\ grows g (Graph.add_edge g p q 1) /\
  Graph.get_edge_weight (Graph.add_edge g p q 1) p q = Fin 1.
Proof.
  intros (Hwf & Hdir & Hw & Hn) Hl.
  assert (forall x y, Graph.get_edge_weight (Graph.add_edge g p q 1) x y =
            if decide (x = p /\ y = q) then Fin 1
            else if decide (x = q /\ y = p) then Fin 1
            else Graph.get_edge_weight g x y) as Hany.
  { intros x y. rewrite get_edge_weight_add_edge_any by done. rewrite Hdir.
    repeat case_decide; try done; exfalso; naive_solver. }
  assert (grows g (Graph.add_edge g p q 1)) as Hgrow.
  { intros x y Hxy. rewrite Hany. by repeat case_decide. }
  split_and!; [|done|].
  - unfold grid_ok. split_and!.
    + by apply wf_add_edge.
    + by rewrite directed_add_edge.
    + intros x y w. rewrite Hany. case_decide as H1; [|case_decide as H2].
      * intros [= <-]. destruct H1 as [-> ->]. done.
      * intros [= <-]. destruct H2 as [-> ->]. split; [done|]. by apply linked_sym.
      * apply Hw.
    + intros x. rewrite values_add_edge, elem_values_add_nodes.
      intros [Hx|[->| ->]].
      * destruct (Hn x Hx) as [y Hy]. exists y. by apply Hgrow.
      * exists q. rewrite Hany. by rewrite decide_True.
      * exists p. rewrite Hany. repeat case_decide; try done. exfalso. naive_solver.
  - rewrite Hany. by rewrite decide_True.
Qed.

Lemma build_direction_grow r c g d g' :
  grid_ok g -> open_cell (r, c) -> d ∈ directions ->
  build_direction maze rows cols r c g d = Ok g' ->
  grid_ok g' /\ grows g g' /\
  (linked (r, c) (r + fst d, c + snd d) ->
   Graph.get_edge_weight g' (r, c) (r + fst d, c + snd d) = Fin 1).
Proof.
  intros Hg Ho Hd Hrun. unfold build_direction in Hrun.
  case_bool_decide as Hin.
  - apply bind_Ok in Hrun as (x & Hx & Hrun). case_decide as Hwall.
    + injection Hrun as <-.
      assert (linked (r, c) (r + fst d, c + snd d)) as Hl.
      { split_and!; [done| |].
        - unfold open_cell. cbn [fst snd]. split_and!; [lia|lia|lia|lia|]. by exists x.
        - apply step_directions. by exists d. }
      destruct (grid_ok_add_edge g _ _ Hg Hl) as (? & ? & ?). by split_and!.
    + injection Hrun as <-. split_and!; [done|apply grows_refl|].
      intros (_ & (_ & _ & x' & Hx' & Hne) & _). cbn [fst snd] in Hx'.
      rewrite Hx in Hx'. injection Hx' as <-. done.
  - injection Hrun as <-. split_and!; [done|apply grows_refl|].
    intros (_ & (? & ? & _) & _). cbn [fst snd] in *. lia.
Qed.

Lemma build_cell_grow r c g g' :
  grid_ok g -> build_cell maze rows cols r g c = Ok g' ->
  0 <= r < Z.of_nat rows -> 0 <= c < Z.of_nat cols ->
  grid_ok g' /\ grows g g' /\ cell_done (r, c) g'.
Proof.
  intros Hg Hrun Hr Hc. unfold build_cell in Hrun.
  apply bind_Ok in Hrun as (x & Hx & Hrun). case_decide as Hwall.
  - injection Hrun as <-. split_and!; [done|apply grows_refl|].
    intros q ((_ & _ & x' & Hx' & Hne) & _). cbn [fst snd] in Hx'.
    rewrite Hx in Hx'. by injection Hx' as <-.
  - assert (open_cell (r, c)) as Ho.
    { unfold open_cell. cbn [fst snd]. split_and!; [lia|lia|lia|lia|]. by exists x. }
    destruct (for_each_grow grows grid_ok
      (fun d g0 => linked (r, c) (r + fst d, c + snd d) ->
                   Graph.get_edge_weight g0 (r, c) (r + fst d, c + snd d) = Fin 1)
      (build_direction maze rows cols r c) directions g g' grows_refl grows_trans)
      as (Hg' & Hgrow & Hdone); try done.
    + intros d g1 g2 H12 Hd1 Hl. by apply H12, Hd1.
    + intros g1 d g2 Hd Hg1 Hbody. by apply build_direction_grow.
    + split_and!; [done|done|]. intros q Hl.
      pose proof Hl as (_ & _ & (d & Hd & ->)%step_directions).
      by apply (Hdone d).
Qed.

Lemma build_row_grow r g g' :
  grid_ok g -> build_row maze rows cols g r = Ok g' -> 0 <= r < Z.of_nat rows ->
  grid_ok g' /\ grows g g' /\ forall c, 0 <= c < Z.of_nat cols -> cell_done (r, c) g'.
Proof.
  intros Hg Hrun Hr.
  destruct (for_each_grow grows grid_ok (fun c g0 => cell_done (r, c) g0)
    (build_cell maze rows cols r) (range cols) g g' grows_refl grows_trans)
    as (Hg' & Hgrow & Hdone); try done.
  - intros c g1 g2 H12 Hd1 q Hl. by apply H12, Hd1.
  - intros g1 c g2 Hc%elem_of_range Hg1 Hbody. by apply build_cell_grow.
  - split_and!; [done|done|]. intros c Hc. by apply Hdone, elem_of_range.
Qed.

Lemma build_graph_grid g :
  _build_graph maze rows cols = Ok g ->
  grid_ok g /\ forall p q, linked p q -> Graph.get_edge_weight g p q = Fin 1.
Proof.
  intros Hrun.
  destruct (for_each_grow grows grid_ok
    (fun r g0 => forall c, 0 <= c < Z.of_nat cols -> cell_done (r, c) g0)
    (build_row maze rows cols) (range rows) (Graph.empty false) g grows_refl grows_trans)
    as (Hg' & _ & Hdone); try done.
  - intros r g1 g2 H12 Hd1 c Hc q Hl. by apply H12, Hd1.
  - intros g1 r g2 Hr%elem_of_range Hg1 Hbody. by apply build_row_grow.
  - apply grid_ok_empty.
  - split; [done|]. intros [pr pc] q Hl. pose proof Hl as ((Hr & Hc & _) & _).
    cbn [fst snd] in Hr, Hc. by apply (Hdone pr (proj2 (elem_of_range rows pr) Hr) pc Hc).
Qed.

(** *** Rows that are too short *)

Lemma cell_inside r c :
  Forall (fun row => (cols <= length row)%nat) maze ->
  0 <= r < Z.of_nat rows -> 0 <= c < Z.of_nat cols ->
  exists x, cell maze r c = Ok x.
Proof.
  intros Hrect Hr Hc. unfold cell.
  destruct (lookup_lt_is_Some_2 maze (Z.to_nat r)) as [row Hrow]; [lia|].
  rewrite Hrow. rewrite Forall_forall in Hrect.
  pose proof (Hrect row (list_elem_of_lookup_2 _ _ _ Hrow)) as Hlen.
  destruct (lookup_lt_is_Some_2 row (Z.to_nat c)) as [x Hx]; [lia|].
  rewrite Hx. by exists x.
Qed.

Lemma build_direction_outcome r c g d :
  (exists g', build_direction maze rows cols r c g d = Ok g') \/
  build_direction maze rows cols r c g d = Raise IndexError.
Proof.
  unfold build_direction. case_bool_decide; [|left; by eexists].
  unfold cell. destruct (maze !! _) as [row|]; [|by right].
  destruct (row !! _) as [x|]; [|by right]. cbn [mbind outcome_bind].
  case_decide; left; by eexists.
Qed.

Lemma for_each_outcome {S A : Type} (e : exc) (body : S -> A -> outcome S)
    (l : list A) (s : S) :
  (forall s x, (exists s', body s x = Ok s') \/ body s x = Raise e) ->
  (exists s', for_each body l s = Ok s') \/ for_each body l s = Raise e.
Proof.
  intros Hb. revert s. induction l as [|x l IH]; intros s; [left; by exists s|].
  cbn [for_each]. destruct (Hb s x) as [[s1 ->]| ->]; [|by right]. apply IH.
Qed.

Lemma build_cell_outcome r g c :
  (exists g', build_cell maze rows cols r g c = Ok g') \/
  build_cell maze rows cols r g c = Raise IndexError.
Proof.
  unfold build_cell, cell. destruct (maze !! _) as [row|]; [|by right].
  destruct (row !! _) as [x|]; [|by right]. cbn [mbind outcome_bind].
  case_decide; [left; by eexists|]. apply for_each_outcome.
  intros g0 d. apply build_direction_outcome.
Qed.

Lemma build_row_outcome g r :
  (exists g', build_row maze rows cols g r = Ok g') \/
  build_row maze rows cols g r = Raise IndexError.
Proof. apply for_each_outcome. intros g0 c. apply build_cell_outcome. Qed.

Lemma build_graph_total :
  Forall (fun row => (cols <= length row)%nat) maze ->
  exists g, _build_graph maze rows cols = Ok g.
Proof.
  intros Hrect. apply for_each_total. intros g r Hr%elem_of_range.
  apply for_each_total. intros g0 c Hc%elem_of_range. unfold build_cell.
  destruct (cell_inside r c Hrect Hr Hc) as [x ->]. cbn [mbind outcome_bind].
  case_decide; [by eexists|]. apply for_each_total. intros g1 d Hd.
  unfold build_direction. case_bool_decide as Hin; [|by eexists].
  destruct (cell_inside (r + fst d) (c + snd d) Hrect) as [y ->]; [lia|lia|].
  cbn [mbind outcome_bind]. case_decide; by eexists.
Qed.

Lemma build_graph_ragged :
  Exists (fun row => (length row < cols)%nat) maze ->
  _build_graph maze rows cols = Raise IndexError.
Proof.
  intros (row & Hrow & Hlen)%Exists_exists.
  apply list_elem_of_lookup in Hrow as [i Hi].
  pose proof (lookup_lt_Some _ _ _ Hi) as Hil.
  apply (for_each_raises IndexError _ _ _ (Z.of_nat i)).
  - intros g r _. apply build_row_outcome.
  - apply elem_of_range. lia.
  - intros g. apply (for_each_raises IndexError _ _ _ (Z.of_nat (length row))).
    + intros g0 c _. apply build_cell_outcome.
    + apply elem_of_range. lia.
    + intros g0. unfold build_cell, cell. rewrite Nat2Z.id, Hi, Nat2Z.id.
      by rewrite lookup_ge_None_2.
Qed.
End maze_facts.

(** [len(maze[0]) if maze else 0] *)
Definition first_row_length (maze : list (list string)) : nat :=
  match maze with
  | [] => 0%nat
  | row :: _ => length row
  end.

(** X17.  [MazeProblem(maze, start, goal)] builds its graph if no row of
    the maze is shorter than the first one, and keeps the maze, its
    dimensions and the two positions; if some row is shorter than the
    first one, it raises [IndexError]. *)
Theorem maze_init_rows (maze : list (list string)) (start goal : MazeProblem.pos) :
  (Forall (fun row => (first_row_length maze <= length row)%nat) maze ->
   exists graph,
     MazeProblem.init maze start goal =
       Ok (MazeProblem.mk maze (length maze) (first_row_length maze) start goal graph)) /\
  (Exists (fun row => (length row < first_row_length maze)%nat) maze ->
   MazeProblem.init maze start goal = Raise IndexError).
Proof.
  split.
  - intros Hrect.
    destruct (build_graph_total maze (length maze) (first_row_length maze) eq_refl Hrect)
      as [g Hg].
    exists g. unfold MazeProblem.init. fold (first_row_length maze). by rewrite Hg.
  - intros Hragged. unfold MazeProblem.init. fold (first_row_length maze).
    by rewrite (build_graph_ragged maze (length maze) (first_row_length maze) eq_refl).
Qed.

Lemma maze_init_rows_witness :
  (exists graph,
     MazeProblem.init [["."; "#"]; ["."; "."]]%string (0, 0) (1, 1) =
       Ok (MazeProblem.mk [["."; "#"]; ["."; "."]]%string 2 2 (0, 0) (1, 1) graph)) /\
  MazeProblem.init [["."; "#"]; ["."]]%string (0, 0) (1, 0) = Raise IndexError.
Proof.
  split.
  - apply (maze_init_rows [["."; "#"]; ["."; "."]]%string (0, 0) (1, 1)).
    apply (bool_decide_unpack _). vm_compute. exact I.
  - apply (maze_init_rows [["."; "#"]; ["."]]%string (0, 0) (1, 0)).
    apply (bool_decide_unpack _). vm_compute. exact I.
Defined.

Lemma maze_init_graph (maze : list (list string)) (start goal : MazeProblem.pos)
    (m : MazeProblem.t) :
  MazeProblem.init maze start goal = Ok m ->
  MazeProblem.maze m = maze /\ MazeProblem.rows m = length maze /\
  MazeProblem.start m = start /\ MazeProblem.goal m = goal /\
  MazeProblem._build_graph maze (MazeProblem.rows m) (MazeProblem.cols m) =
    Ok (MazeProblem.graph m).
Proof.
  unfold MazeProblem.init. intros (g & Hg & [= <-])%bind_Ok. by cbn.
Qed.

(** X18.  The graph of a maze is undirected; its edges all have weight
    1 and join exactly the pairs of open cells (inside the grid, not
    ['#']) that are next to each other in a row or a column; every other
    pair has infinite weight.  Its nodes are the open cells that have an
    open cell next to them, so an open cell with no open neighbour is not
    a node. *)
Theorem maze_graph_edges (maze : list (list string)) (start goal : MazeProblem.pos)
    (m : MazeProblem.t) :
  MazeProblem.init maze start goal = Ok m ->
  Graph.wf (MazeProblem.graph m) /\
  Graph.directed (MazeProblem.graph m) = false /\
  (forall p q,
     Graph.get_edge_weight (MazeProblem.graph m) p q = Fin 1 <->
     linked maze (MazeProblem.rows m) (MazeProblem.cols m) p q) /\
  (forall p q,
     ¬ linked maze (MazeProblem.rows m) (MazeProblem.cols m) p q ->
     Graph.get_edge_weight (MazeProblem.graph m) p q = Inf) /\
  (forall p,
     p ∈ Graph.get_all_nodes (MazeProblem.graph m) <->
     exists q, linked maze (MazeProblem.rows m) (MazeProblem.cols m) p q).
Proof.
  intros (_ & Hrows & _ & _ & Hg)%maze_init_graph.
  destruct (build_graph_grid maze _ _ Hrows _ Hg) as ((Hwf & Hdir & Hw & Hn) & Hall).
  split_and!; [done|done| | |].
  - intros p q. split; [intros Hpq; by apply (Hw p q 1)|apply Hall].
  - intros p q Hno. destruct (Graph.get_edge_weight _ p q) as [w|] eqn:Hpq; [|done].
    destruct Hno. by apply (Hw p q w).
  - intros p. split.
    + intros [q Hq]%Hn. exists q. by apply (Hw p q 1).
    + intros [q Hq%Hall]. unfold Graph.get_edge_weight in Hq.
      destruct (Graph.get_node _ p) as [n|] eqn:Hp; [|done].
      apply get_node_is_Some. by exists n.
Qed.

Lemma maze_graph_edges_witness :
  exists m,
    MazeProblem.init [["."; "#"]; ["."; "."]]%string (0, 0) (1, 1) = Ok m /\
    Graph.directed (MazeProblem.graph m) = false /\
    Graph.get_edge_weight (MazeProblem.graph m) (0, 0) (1, 0) = Fin 1 /\
    Graph.get_edge_weight (MazeProblem.graph m) (0, 0) (0, 1) = Inf.
Proof.
  eexists. split; [vm_compute; reflexivity|].
  pose proof (maze_graph_edges [["."; "#"]; ["."; "."]]%string (0, 0) (1, 1) _ eq_refl)
    as (_ & Hd & _). split; [exact Hd|]. split; reflexivity.
Defined.

(** Breadth-first search on a reachable goal: the rule of the loop with
    the breadth-first tree as invariant. *)
Lemma bfs_fewest `{Countable V} (g : Graph.t V) (s t : V) :
  Graph.wf g -> reachable g s t ->
  exists r, bfs_post g s t r /\
    forall fuel, (search_bound g <= fuel)%nat -> breadth_first_search fuel g s t = Ok r.
Proof.
  intros Hwf Hreach.
  destruct (reachable_endpoints g s t Hwf Hreach) as [Hs Ht].
  apply (bfs_total g Hwf (bfs_J g s t) (bfs_post g s t) s t); try done.
  - by apply bfs_J_init.
  - intros st _ HJ He. eapply bfs_J_empty; eauto.
  - intros st q p _ HJ Hdq Hwalk. eapply bfs_J_goal; eauto.
  - intros st current q st' Hinv HJ Hdq Hne Hfor _. eapply bfs_J_expand; eauto.
Qed.

Lemma found_same (a b : bool) (P : Prop) :
  (a = true <-> P) -> (b = true <-> P) -> a = b.
Proof. destruct a, b; intros Ha Hb; try done; [symmetry|]; tauto. Qed.

Section maze_solvers.
Import MazeProblem.
Variable maze : list (list string).
Variable rows cols : nat.
Variable g : Graph.t pos.
Hypothesis Hg : grid_ok maze rows cols g.

Lemma grid_edge (u v : pos) (w : Z) :
  edge g u v w -> w = 1 /\ manhattan_distance u v = 1.
Proof.
  destruct Hg as (_ & _ & Hw & _). intros Huv.
  destruct (Hw u v w Huv) as (-> & _ & _ & Hd). done.
Qed.

Lemma grid_consistent_manhattan (t : pos) : consistent g manhattan_distance t.
Proof.
  intros u v w [-> Hd]%grid_edge. destruct u, v, t. unfold manhattan_distance in *.
  cbn [fst snd] in *. lia.
Qed.

Lemma grid_consistent_zero (t : pos) : consistent g zero_estimate t.
Proof. intros u v w [-> _]%grid_edge. unfold zero_estimate. lia. Qed.

(** Every step costs 1. *)
Lemma grid_path_weight (p : list pos) :
  is_path g p -> path_weight g p = Fin (Z.of_nat (length p) - 1).
Proof.
  destruct Hg as (Hwf & _). induction p as [|u p IH]; [done|]. intros Hp.
  destruct p as [|v p]; [done|]. destruct Hp as [Hadj Hp].
  rewrite path_weight_cons, (IH Hp).
  destruct (adjacent_edge g u v Hwf Hadj) as [w Hw].
  destruct (grid_edge u v w Hw) as [-> _]. unfold edge in Hw. rewrite Hw.
  cbn [ext_add length]. f_equal. lia.
Qed.

Lemma grid_solvers_agree (s t : pos) :
  exists rb rf rd ra,
    (forall fuel, (search_bound g <= fuel)%nat ->
       breadth_first_search fuel g s t = Ok rb /\
       depth_first_search fuel g s t = Ok rf /\
       dijkstra fuel g s t = Ok rd /\
       astar fuel g s t manhattan_distance = Ok ra) /\
    found rf = found rb /\ found rd = found rb /\ found ra = found rb /\
    (found rb = true ->
     exists c, cost rd = Some (Fin c) /\ cost ra = Some (Fin c) /\
       Z.of_nat (length (path rb)) = c + 1 /\
       length (path rd) = length (path rb) /\
       length (path ra) = length (path rb) /\
       forall p, path_between g s t p -> (length (path rb) <= length p)%nat).
Proof.
  pose proof Hg as (Hwf & _).
  destruct (bfs_search_result g s t Hwf) as (rb & Hrb & (Hib & Hpb & _) & _).
  destruct (dfs_search_result g s t Hwf) as (rf & Hrf & (Hif & _) & _).
  destruct (dijkstra_search_result g s t Hwf)
    as (rd & Hrd & (Hid & Hpd & _) & Hcd & _).
  destruct (astar_search_result g s t manhattan_distance Hwf)
    as (ra & Hra & (Hia & Hpa & _) & Hca & _).
  exists rb, rf, rd, ra. split_and!.
  - intros fuel Hfuel. split_and!; auto.
  - by apply (found_same _ _ (reachable g s t)).
  - by apply (found_same _ _ (reachable g s t)).
  - by apply (found_same _ _ (reachable g s t)).
  - intros Hfb. pose proof (proj1 Hib Hfb) as Hreach.
    pose proof (proj2 Hid Hreach) as Hfd. pose proof (proj2 Hia Hreach) as Hfa.
    destruct (bfs_fewest g s t Hwf Hreach) as (rb' & (_ & Hpathb & Hminb) & Hrb').
    specialize (Hrb' _ (le_n _)). rewrite (Hrb _ (le_n _)) in Hrb'. injection Hrb' as <-.
    destruct (astar_optimal g manhattan_distance s t Hwf (grid_consistent_manhattan t)
                Hreach) as (ra' & (_ & c & Hcost & Hmin) & Hra').
    specialize (Hra' _ (le_n _)). rewrite (Hra _ (le_n _)) in Hra'. injection Hra' as <-.
    destruct (astar_optimal g zero_estimate s t Hwf (grid_consistent_zero t) Hreach)
      as (rd' & (_ & c' & Hcost' & Hmin') & Hrd').
    specialize (Hrd' _ (le_n _)). rewrite astar_zero_dijkstra in Hrd'.
    rewrite (Hrd _ (le_n _)) in Hrd'. injection Hrd' as <-.
    rewrite (min_cost_unique g s t c' c Hmin' Hmin) in Hcost'.
    destruct (Hca Hfa) as (ca & Hca1 & Hwa). rewrite Hcost in Hca1. injection Hca1 as <-.
    destruct (Hcd Hfd) as (cd & Hcd1 & Hwd). rewrite Hcost' in Hcd1. injection Hcd1 as <-.
    destruct (Hpa Hfa) as [(Hisa & _) _]. destruct (Hpd Hfd) as [(Hisd & _) _].
    rewrite (grid_path_weight _ Hisa) in Hwa. injection Hwa as Hwa.
    rewrite (grid_path_weight _ Hisd) in Hwd. injection Hwd as Hwd.
    destruct Hmin as [(p0 & Hp0 & Hw0) Hlow].
    pose proof (Hlow _ Hpathb) as Hlb. rewrite (grid_path_weight _ (proj1 Hpathb)) in Hlb.
    apply ext_le_Fin in Hlb.
    rewrite (grid_path_weight _ (proj1 Hp0)) in Hw0. injection Hw0 as Hw0.
    pose proof (Hminb p0 Hp0) as Hle.
    exists c. split_and!; [done|done|lia|lia|lia|done].
Qed.
End maze_solvers.

(** X19.  On a maze the solvers agree: breadth-first search, depth-first
    search, Dijkstra and A-star with the Manhattan heuristic find a path
    for the same mazes, and when they do, the cost returned by Dijkstra
    and by A-star is the same, the paths of breadth-first search,
    Dijkstra and A-star have the same number of cells, one more than that
    cost, and no path from start to goal has fewer. *)
Theorem maze_solvers_agree (maze : list (list string)) (start goal : MazeProblem.pos)
    (m : MazeProblem.t) :
  MazeProblem.init maze start goal = Ok m ->
  exists rb rf rd ra,
    (forall fuel, (search_bound (MazeProblem.graph m) <= fuel)%nat ->
       MazeProblem.solve_bfs fuel m = Ok rb /\
       MazeProblem.solve_dfs fuel m = Ok rf /\
       MazeProblem.solve_dijkstra fuel m = Ok rd /\
       MazeProblem.solve_astar fuel m = Ok ra) /\
    found rf = found rb /\ found rd = found rb /\ found ra = found rb /\
    (found rb = true ->
     exists c, cost rd = Some (Fin c) /\ cost ra = Some (Fin c) /\
       Z.of_nat (length (path rb)) = c + 1 /\
       length (path rd) = length (path rb) /\
       length (path ra) = length (path rb) /\
       forall p, path_between (MazeProblem.graph m) start goal p ->
                 (length (path rb) <= length p)%nat).
Proof.
  intros (_ & Hrows & Hs & Ht & Hg)%maze_init_graph.
  destruct (build_graph_grid maze _ _ Hrows _ Hg) as (Hgrid & _).
  unfold MazeProblem.solve_bfs, MazeProblem.solve_dfs, MazeProblem.solve_dijkstra,
    MazeProblem.solve_astar.
  rewrite Hs, Ht. by apply (grid_solvers_agree maze _ _ _ Hgrid).
Qed.

Lemma maze_solvers_agree_witness :
  exists m rb rf rd ra,
    MazeProblem.init [["."; "#"]; ["."; "."]]%string (0, 0) (1, 1) = Ok m /\
    (forall fuel, (search_bound (MazeProblem.graph m) <= fuel)%nat ->
       MazeProblem.solve_bfs fuel m = Ok rb /\
       MazeProblem.solve_dfs fuel m = Ok rf /\
       MazeProblem.solve_dijkstra fuel m = Ok rd /\
       MazeProblem.solve_astar fuel m = Ok ra) /\
    found rd = found rb /\ found ra = found rb.
Proof.
  eexists.
  destruct (maze_solvers_agree [["."; "#"]; ["."; "."]]%string (0, 0) (1, 1) _ eq_refl)
    as (rb & rf & rd & ra & Hrun & _ & Hd & Ha & _).
  exists rb, rf, rd, ra. split; [vm_compute; reflexivity|]. split; [exact Hrun|].
  split; [exact Hd|exact Ha].
Defined.

(** * problems/scheduling.py *)

Module SchedulingProblem.

(** A [Task] object; the tasks it depends on are kept by name, the
    [Task] objects behind them being those of the table [tasks], which
    are never replaced. *)
Record Task : Type := mkTask {
  name : string;
  duration : Z;
  dependencies : list string
}.

(** [tasks] is the dict [name -> Task] in insertion order. *)
Record t : Type := mk {
  tasks : list Task;
  graph : Graph.t string
}.

(** [SchedulingProblem()] *)
Definition empty : t := {| tasks := []; graph := Graph.empty true |}.

(** [self.tasks.get(name)] *)
Definition get_task (p : t) (n : string) : option Task :=
  List.find (fun tk => bool_decide (name tk = n)) (tasks p).

(** [for name in self.tasks] *)
Definition names (p : t) : list string := map name (tasks p).

Definition add_task (p : t) (n : string) (dur : Z) : t :=
  match get_task p n with
  | Some _ => p
  | None =>
    {| tasks := tasks p ++ [ {| name := n; duration := dur; dependencies := [] |} ];
       graph := Graph.add_node (graph p) n |}
  end.

(** [self.tasks[task_name].add_dependency(...)]: in-place update of the
    [Task] stored under [task_name]. *)
Fixpoint update_task (ts : list Task) (n : string) (f : Task -> Task) : list Task :=
  match ts with
  | [] => []
  | tk :: ts' =>
    if decide (name tk = n) then f tk :: ts' else tk :: update_task ts' n f
  end.

(** What [add_dependency] gives: the updated problem, or [ValueError]. *)
Inductive added : Type :=
| Added (p : t)
| ValueError.

Definition add_dependency (p : t) (task_name depends_on : string) : added :=
  match get_task p task_name, get_task p depends_on with
  | Some _, Some _ =>
    Added
      {| tasks := update_task (tasks p) task_name
                    (fun tk => {| name := name tk; duration := duration tk;
                                  dependencies := dependencies tk ++ [depends_on] |});
         graph := Graph.add_edge (graph p) depends_on task_name 1 |}
  | _, _ => ValueError
  end.

(** [d[k] += delta] on the insertion-ordered dict [d]. *)
Definition bump (d : list (string * Z)) (k : string) (delta : Z)
  : outcome (list (string * Z)) :=
  match GraphNode.get d k with
  | Some v => Ok (GraphNode.setitem d k (v + delta))
  | None => Raise KeyError
  end.

(** [d[k]] *)
Definition item (d : list (string * Z)) (k : string) : outcome Z :=
  match GraphNode.get d k with
  | Some v => Ok v
  | None => Raise KeyError
  end.

(** The first loop of [topological_sort]: the in-degree of every task. *)
Definition count_task (g : Graph.t string) (d : list (string * Z)) (task_name : string)
  : outcome (list (string * Z)) :=
  for_each (fun d neighbor => bump d neighbor 1) (Graph.get_neighbors g task_name) d.

Definition in_degrees (p : t) : outcome (list (string * Z)) :=
  for_each (count_task (graph p)) (names p) (map (fun n => (n, 0)) (names p)).

(** [for task_name, degree in in_degree.items(): if degree == 0: ...] *)
Definition initial_queue (d : list (string * Z)) : Queue.t string :=
  fold_left (fun q kv => if decide (snd kv = 0) then Queue.enqueue q (fst kv) else q)
    d Queue.empty.

Record topo_state : Type := mkTopo {
  queue : Queue.t string;
  in_degree : list (string * Z);
  result : list string
}.

(** Body of [for neighbor in neighbors] in the main loop. *)
Definition relax (st : topo_state) (neighbor : string) : outcome topo_state :=
  d ← bump (in_degree st) neighbor (-1);
  v ← item d neighbor;
  Ok {| queue := if decide (v = 0) then Queue.enqueue (queue st) neighbor else queue st;
        in_degree := d;
        result := result st |}.

Fixpoint topo_loop (fuel : nat) (g : Graph.t string) (st : topo_state)
  : outcome topo_state :=
  match fuel with
  | O => OutOfFuel
  | S fuel' =>
    if Queue.is_empty (queue st) then Ok st
    else
      '(current, q) ← Queue.dequeue (queue st);
      st' ← for_each relax (Graph.get_neighbors g current)
              {| queue := q; in_degree := in_degree st;
                 result := result st ++ [current] |};
      topo_loop fuel' g st'
  end.

Definition topological_sort (fuel : nat) (p : t) : outcome (option (list string)) :=
  d ← in_degrees p;
  st ← topo_loop fuel (graph p)
         {| queue := initial_queue d; in_degree := d; result := [] |};
  Ok (if decide (length (result st) ≠ length (tasks p)) then None
      else Some (result st)).

(** [self.tasks[task_name]] *)
Definition task_item (p : t) (n : string) : outcome Task :=
  match get_task p n with
  | Some tk => Ok tk
  | None => Raise KeyError
  end.

(** Body of [for dep in task.dependencies]. *)
Definition start_after (p : t) (task_name : string) (es : gmap string Z) (dep : string)
  : outcome (gmap string Z) :=
  dep_task ← task_item p dep;
  dep_start ← getitem es dep;
  own ← getitem es task_name;
  Ok (<[task_name := Z.max own (dep_start + duration dep_task)]> es).

(** Body of [for task_name in order]. *)
Definition start_task (p : t) (es : gmap string Z) (task_name : string)
  : outcome (gmap string Z) :=
  tk ← task_item p task_name;
  for_each (start_after p task_name) (dependencies tk) es.

(** Body of the loop for [total_duration]. *)
Definition end_time (p : t) (es : gmap string Z) (total : Z) (task_name : string)
  : outcome Z :=
  tk ← task_item p task_name;
  own ← getitem es task_name;
  Ok (Z.max total (own + duration tk)).

(** What [calculate_critical_path] returns; [error] is set, and the
    other entries are [None], on a circular dependency. *)
Record critical_path : Type := mkCritical {
  error : option string;
  order : option (list string);
  earliest_start : option (gmap string Z);
  total_duration : option Z
}.

Definition calculate_critical_path (fuel : nat) (p : t) : outcome critical_path :=
  sorted ← topological_sort fuel p;
  match sorted with
  | None =>
    Ok {| error := Some "Circular dependency detected"%string; order := None;
          earliest_start := None; total_duration := None |}
  | Some ord =>
    let es0 : gmap string Z := list_to_map (map (fun n => (n, 0)) (names p)) in
    es ← for_each (start_task p) ord es0;
    total ← for_each (end_time p es) (names p) 0;
    Ok {| error := None; order := Some ord; earliest_start := Some es;
          total_duration := Some total |}
  end.

End SchedulingProblem.

(** ** Scheduling problems built through the interface *)

Module SchedulingBuild.

(** Calls of the construction interface. *)
Inductive op : Type :=
| AddTask (n : string) (dur : Z)
| AddDependency (task_name depends_on : string).

(** A script stops at the first [ValueError]. *)
Definition apply_op (r : SchedulingProblem.added) (o : op) : SchedulingProblem.added :=
  match r with
  | SchedulingProblem.ValueError => SchedulingProblem.ValueError
  | SchedulingProblem.Added p =>
    match o with
    | AddTask n dur => SchedulingProblem.Added (SchedulingProblem.add_task p n dur)
    | AddDependency task_name depends_on =>
      SchedulingProblem.add_dependency p task_name depends_on
    end
  end.

Definition build (ops : list op) : SchedulingProblem.added :=
  fold_left apply_op ops (SchedulingProblem.Added SchedulingProblem.empty).

End SchedulingBuild.

(** [t] depends on [d]: [d] is in the list [dependencies] of the task
    stored under [t]. *)
Definition depends (p : SchedulingProblem.t) (t d : string) : Prop :=
  exists tk, SchedulingProblem.get_task p t = Some tk /\
             d ∈ SchedulingProblem.dependencies tk.

(** [d] comes before [t] in [l]. *)
Definition before (l : list string) (d t : string) : Prop :=
  exists i j, l !! i = Some d /\ l !! j = Some t /\ (i < j)%nat.

(** A valid execution order: every task once, each after everything it
    depends on. *)
Definition valid_order (p : SchedulingProblem.t) (l : list string) : Prop :=
  l ≡ₚ SchedulingProblem.names p /\
  forall t d, depends p t d -> before l d t.

(** The shape of every problem built through [add_task] and
    [add_dependency]: the graph has the tasks as nodes, in the same
    order, and an edge from [d] to [t] exactly when [t] depends on [d]. *)
Definition sched_wf (p : SchedulingProblem.t) : Prop :=
  Graph.wf (SchedulingProblem.graph p) /\
  Graph.directed (SchedulingProblem.graph p) = true /\
  Graph.get_all_nodes (SchedulingProblem.graph p) = SchedulingProblem.names p /\
  forall t d, depends p t d <-> t ∈ Graph.get_neighbors (SchedulingProblem.graph p) d.

Section task_table.
Implicit Types (ts : list SchedulingProblem.Task) (tk : SchedulingProblem.Task).
Implicit Types (n x : string).

Definition find_task ts n : option SchedulingProblem.Task :=
  List.find (fun tk => bool_decide (SchedulingProblem.name tk = n)) ts.

Lemma find_task_name ts n tk :
  find_task ts n = Some tk -> SchedulingProblem.name tk = n /\ tk ∈ ts.
Proof.
  induction ts as [|t0 ts IH]; cbn [find_task List.find]; [done|].
  case_bool_decide as Hn.
  - intros [= ->]. split; [done|left].
  - intros Hf. destruct (IH Hf). split; [done|by right].
Qed.

Lemma find_task_None ts n :
  find_task ts n = None <-> n ∉ map SchedulingProblem.name ts.
Proof.
  induction ts as [|t0 ts IH]; cbn [find_task List.find map].
  - split; [intros _; apply not_elem_of_nil|done].
  - rewrite not_elem_of_cons. case_bool_decide as Hn.
    + split; [done|]. by intros [? _].
    + fold (find_task ts n). rewrite IH. naive_solver.
Qed.

Lemma find_task_is_Some ts n :
  is_Some (find_task ts n) <-> n ∈ map SchedulingProblem.name ts.
Proof.
  destruct (find_task ts n) eqn:Hf.
  - split; [intros _|by eauto]. destruct (decide (n ∈ map SchedulingProblem.name ts)); [done|].
    apply find_task_None in n0. congruence.
  - apply find_task_None in Hf. split; [by intros [? ?]|done].
Qed.

Lemma find_task_app ts1 ts2 n :
  find_task (ts1 ++ ts2) n =
  match find_task ts1 n with Some tk => Some tk | None => find_task ts2 n end.
Proof.
  induction ts1 as [|t0 ts1 IH]; cbn [find_task List.find app]; [done|].
  by case_bool_decide.
Qed.

Lemma names_update_task ts n f :
  (forall tk, SchedulingProblem.name (f tk) = SchedulingProblem.name tk) ->
  map SchedulingProblem.name (SchedulingProblem.update_task ts n f) =
  map SchedulingProblem.name ts.
Proof.
  intros Hf. induction ts as [|t0 ts IH]; cbn [SchedulingProblem.update_task map]; [done|].
  case_decide; cbn [map]; by rewrite ?Hf, ?IH.
Qed.

Lemma find_update_task ts n f x :
  (forall tk, SchedulingProblem.name (f tk) = SchedulingProblem.name tk) ->
  find_task (SchedulingProblem.update_task ts n f) x =
  if decide (x = n) then f <$> find_task ts n else find_task ts x.
Proof.
  intros Hf. induction ts as [|t0 ts IH];
    cbn [SchedulingProblem.update_task find_task List.find].
  - by case_decide.
  - destruct (decide (SchedulingProblem.name t0 = n)) as [Hn|Hn];
      cbn [find_task List.find]; rewrite ?Hf.
    + case_decide as Hx.
      * subst x. rewrite !bool_decide_eq_true_2 by done. done.
      * rewrite !bool_decide_eq_false_2 by congruence. done.
    + case_bool_decide as Hx.
      * subst x. rewrite decide_False by done. done.
      * fold (find_task (SchedulingProblem.update_task ts n f) x). rewrite IH.
        case_decide as Hxn; [|done]. subst x.
        rewrite bool_decide_eq_false_2 by done. done.
Qed.
End task_table.

Section sched_wf_facts.
Implicit Types (p : SchedulingProblem.t) (n t d : string).

Lemma get_task_find p n :
  SchedulingProblem.get_task p n = find_task (SchedulingProblem.tasks p) n.
Proof. done. Qed.

Lemma get_task_is_Some p n :
  is_Some (SchedulingProblem.get_task p n) <-> n ∈ SchedulingProblem.names p.
Proof. apply find_task_is_Some. Qed.

Lemma sched_wf_NoDup p : sched_wf p -> NoDup (SchedulingProblem.names p).
Proof. intros ([Hnd _] & _ & <- & _). done. Qed.

Lemma sched_wf_empty : sched_wf SchedulingProblem.empty.
Proof.
  split_and!; [apply wf_empty|done|done|].
  intros t d. split.
  - by intros (tk & Htk & _).
  - by intros ?%elem_of_nil.
Qed.

Lemma sched_wf_add_task p n dur :
  sched_wf p -> sched_wf (SchedulingProblem.add_task p n dur).
Proof.
  intros (Hwf & Hdir & Hnodes & Hdep). unfold SchedulingProblem.add_task.
  destruct (SchedulingProblem.get_task p n) as [tk|] eqn:Hn; [done|].
  rewrite get_task_find in Hn. apply find_task_None in Hn.
  split_and!; cbn [SchedulingProblem.graph SchedulingProblem.tasks].
  - by apply wf_add_node.
  - by rewrite directed_add_node.
  - rewrite values_add_node, Hnodes. rewrite decide_False by done.
    unfold SchedulingProblem.names. cbn [SchedulingProblem.tasks].
    by rewrite map_app.
  - intros t d. rewrite get_neighbors_add_node, <-Hdep. unfold depends.
    rewrite !get_task_find. cbn [SchedulingProblem.tasks]. rewrite find_task_app.
    destruct (find_task (SchedulingProblem.tasks p) t) as [tk|] eqn:Ht; [done|].
    split; [|by intros (tk & ? & _)].
    intros (tk & Htk & Hd). cbn [find_task List.find SchedulingProblem.name] in Htk.
    case_bool_decide; [|done]. injection Htk as <-.
    by apply elem_of_nil in Hd.
Qed.

Lemma sched_wf_add_dependency p p' t d :
  sched_wf p -> SchedulingProblem.add_dependency p t d = SchedulingProblem.Added p' ->
  sched_wf p'.
Proof.
  intros (Hwf & Hdir & Hnodes & Hdep). unfold SchedulingProblem.add_dependency.
  destruct (SchedulingProblem.get_task p t) as [tk|] eqn:Ht; [|done].
  destruct (SchedulingProblem.get_task p d) as [dk|] eqn:Hd; [|done].
  intros [= <-].
  assert (t ∈ SchedulingProblem.names p) as Htn by (apply get_task_is_Some; eauto).
  assert (d ∈ SchedulingProblem.names p) as Hdn by (apply get_task_is_Some; eauto).
  split_and!; cbn [SchedulingProblem.graph SchedulingProblem.tasks].
  - by apply wf_add_edge.
  - by rewrite directed_add_edge.
  - rewrite values_add_edge, !values_add_node.
    rewrite (decide_True (P := d ∈ _)) by by rewrite Hnodes.
    rewrite decide_True by by rewrite Hnodes.
    rewrite Hnodes. unfold SchedulingProblem.names. cbn [SchedulingProblem.tasks].
    by rewrite names_update_task.
  - intros x y. rewrite get_neighbors_weight by by apply wf_add_edge.
    setoid_rewrite get_edge_weight_add_edge_any; [|done].
    rewrite Hdir.
    assert ((exists w, Graph.get_edge_weight (SchedulingProblem.graph p) y x = Fin w)
            <-> depends p x y) as Hold.
    { rewrite Hdep. symmetry. by apply get_neighbors_weight. }
    unfold depends at 1. rewrite get_task_find. cbn [SchedulingProblem.tasks].
    rewrite find_update_task by done. rewrite <-get_task_find.
    destruct (decide (x = t)) as [->|Hx].
    + rewrite Ht. cbn [fmap option_fmap option_map]. split.
      * intros (tk' & [= <-] & Hin). cbn [SchedulingProblem.dependencies] in Hin.
        apply elem_of_app in Hin as [Hin|Hin%list_elem_of_singleton].
        -- destruct (proj2 Hold) as [w Hw]; [by exists tk|].
           exists (if decide (y = d /\ t = t) then 1 else w).
           repeat case_decide; try done; naive_solver.
        -- subst y. exists 1. by rewrite decide_True.
      * intros [w Hw]. eexists. split; [done|]. cbn [SchedulingProblem.dependencies].
        apply elem_of_app. destruct (decide (y = d)) as [->|Hy].
        -- right. by apply list_elem_of_singleton.
        -- left. rewrite decide_False in Hw by naive_solver.
           rewrite decide_False in Hw by naive_solver.
           destruct (proj1 Hold) as (tk' & Htk' & Hin); [by exists w|]. congruence.
    + rewrite <-Hold. split.
      * intros [w Hw]. exists w. rewrite decide_False by naive_solver.
        by rewrite decide_False by naive_solver.
      * intros [w Hw]. exists w. rewrite decide_False in Hw by naive_solver.
        by rewrite decide_False in Hw by naive_solver.
Qed.

Lemma sched_wf_build ops p :
  SchedulingBuild.build ops = SchedulingProblem.Added p -> sched_wf p.
Proof.
  unfold SchedulingBuild.build. revert p.
  induction ops as [|o ops IH] using rev_ind; intros p.
  - intros [= <-]. apply sched_wf_empty.
  - rewrite fold_left_app. cbn [fold_left].
    destruct (fold_left SchedulingBuild.apply_op ops _) as [p0|]; [|done].
    specialize (IH p0 eq_refl). destruct o as [n dur|t d]; cbn [SchedulingBuild.apply_op].
    + intros [= <-]. by apply sched_wf_add_task.
    + intros Hadd. by eapply sched_wf_add_dependency.
Qed.

Lemma depends_names p t d :
  sched_wf p -> depends p t d ->
  t ∈ SchedulingProblem.names p /\ d ∈ SchedulingProblem.names p.
Proof.
  intros (Hwf & _ & Hnodes & Hdep) Htd. split.
  - destruct Htd as (tk & Htk & _). apply get_task_is_Some. eauto.
  - apply Hdep in Htd. rewrite <-Hnodes. apply get_node_is_Some.
    unfold Graph.get_neighbors in Htd.
    destruct (Graph.get_node (SchedulingProblem.graph p) d); [eauto|].
    by apply elem_of_nil in Htd.
Qed.
End sched_wf_facts.

(** ** Counting in a list without duplicates *)

Lemma filter_ext_in {A : Type} (P Q : A -> Prop) `{!forall x, Decision (P x)}
    `{!forall x, Decision (Q x)} (l : list A) :
  (forall x, x ∈ l -> (P x <-> Q x)) -> filter P l = filter Q l.
Proof.
  induction l as [|x l IH]; intros Hpq; [done|].
  rewrite !filter_cons. rewrite IH by (intros y Hy; apply Hpq; by right).
  destruct (decide (P x)) as [Hp|Hp], (decide (Q x)) as [Hq|Hq]; try done;
    exfalso; apply (Hpq x) in Hp || apply (Hpq x) in Hq; try done; left.
Qed.

(** Taking one element [c] out of the counted ones lowers the count by
    one exactly when [c] was counted. *)
Lemma filter_length_remove `{EqDecision A} (P Q : A -> Prop)
    `{!forall x, Decision (P x)} `{!forall x, Decision (Q x)} (l : list A) (c : A) :
  NoDup l -> c ∈ l -> (forall u, u ≠ c -> (P u <-> Q u)) -> ~ Q c ->
  length (filter P l) =
  (length (filter Q l) + if decide (P c) then 1 else 0)%nat.
Proof.
  intros Hnd Hc Hpq Hqc. induction l as [|x l IH]; [by apply elem_of_nil in Hc|].
  apply NoDup_cons in Hnd as [Hx Hnd]. rewrite !filter_cons.
  destruct (decide (x = c)) as [->|Hxc].
  - rewrite (decide_False (P := Q c)) by done.
    rewrite (filter_ext_in P Q l) by (intros u Hu; apply Hpq; congruence).
    destruct (decide (P c)); simpl; lia.
  - apply elem_of_cons in Hc as [Hc|Hc]; [congruence|]. specialize (IH Hnd Hc).
    destruct (decide (P x)) as [Hp|Hp], (decide (Q x)) as [Hq|Hq]; simpl;
      rewrite ?IH; try lia; exfalso; apply (Hpq x) in Hxc; tauto.
Qed.

(** ** The dict of in-degrees *)

Lemma get_is_Some (d : list (string * Z)) (k : string) :
  k ∈ map fst d -> is_Some (GraphNode.get d k).
Proof.
  intros Hk. destruct (GraphNode.get d k) eqn:Hget; [eauto|].
  by apply get_None in Hget.
Qed.

(** [d[x] += delta] for each [x] of a list without duplicates. *)
Lemma bump_each (delta : Z) (m : list string) (d : list (string * Z)) :
  NoDup m -> (forall x, x ∈ m -> x ∈ map fst d) ->
  exists d', for_each (fun d x => SchedulingProblem.bump d x delta) m d = Ok d' /\
    map fst d' = map fst d /\
    forall v z, GraphNode.get d v = Some z ->
      GraphNode.get d' v = Some (z + if decide (v ∈ m) then delta else 0).
Proof.
  revert d. induction m as [|x m IH]; intros d Hnd Hin.
  - exists d. split_and!; [done|done|]. intros v z ->.
    rewrite decide_False by apply not_elem_of_nil. f_equal. lia.
  - apply NoDup_cons in Hnd as [Hx Hnd].
    destruct (get_is_Some d x) as [z0 Hz0]; [apply Hin; left|].
    assert (map fst (GraphNode.setitem d x (z0 + delta)) = map fst d) as Hkeys.
    { rewrite keys_setitem. rewrite decide_True; [done|]. apply Hin. left. }
    destruct (IH (GraphNode.setitem d x (z0 + delta)) Hnd) as (d' & Hrun & Hk & Hget).
    { intros y Hy. rewrite Hkeys. apply Hin. by right. }
    exists d'. split_and!.
    + assert (SchedulingProblem.bump d x delta =
              Ok (GraphNode.setitem d x (z0 + delta))) as Hb
        by (unfold SchedulingProblem.bump; by rewrite Hz0).
      cbn [for_each]. rewrite Hb. exact Hrun.
    + by rewrite Hk.
    + intros v z Hv. destruct (decide (v = x)) as [->|Hvx].
      * rewrite (Hget x (z0 + delta)) by apply get_setitem_eq.
        rewrite decide_False by done. rewrite decide_True by left.
        f_equal. assert (z = z0) by congruence. lia.
      * rewrite (Hget v z) by by rewrite get_setitem_ne.
        f_equal. repeat case_decide; try done.
        -- exfalso. set_solver.
        -- exfalso. set_solver.
Qed.

Lemma initial_queue_fold (d : list (string * Z)) (q : Queue.t string) :
  Queue._front
    (fold_left (fun q kv => if decide (snd kv = 0) then Queue.enqueue q (fst kv) else q)
       d q) =
  Queue._front q ++ map fst (filter (fun kv => snd kv = 0) d).
Proof.
  revert q. induction d as [|[k z] d IH]; intros q; cbn [fold_left].
  - by rewrite app_nil_r.
  - rewrite IH, filter_cons. cbn [fst snd]. case_decide; [|done].
    cbn [Queue.enqueue Queue._front map fst]. by rewrite <-app_assoc.
Qed.

Lemma initial_queue_front (d : list (string * Z)) :
  Queue._front (SchedulingProblem.initial_queue d) =
  map fst (filter (fun kv => snd kv = 0) d).
Proof. unfold SchedulingProblem.initial_queue. by rewrite initial_queue_fold. Qed.

(** ** Kahn's algorithm: the loop invariant *)

Section kahn.
Variable p : SchedulingProblem.t.
Hypothesis Hwf : sched_wf p.

Local Abbreviation g := (SchedulingProblem.graph p).
Local Abbreviation ns := (SchedulingProblem.names p).
Local Abbreviation nbrs := (Graph.get_neighbors (SchedulingProblem.graph p)).

Lemma nbrs_NoDup u : NoDup (nbrs u).
Proof.
  destruct Hwf as ([_ Hall] & _). unfold Graph.get_neighbors.
  destruct (Graph.get_node g u) as [n|] eqn:Hn; [|apply NoDup_nil_2].
  apply lookup_node_elem in Hn. rewrite Forall_forall in Hall.
  by destruct (Hall n Hn).
Qed.

Lemma nbrs_names u v : v ∈ nbrs u -> u ∈ ns /\ v ∈ ns.
Proof.
  intros Hv. destruct Hwf as (_ & _ & _ & Hdep). apply Hdep in Hv.
  destruct (depends_names p v u Hwf Hv). done.
Qed.

Lemma names_NoDup : NoDup ns.
Proof. by apply sched_wf_NoDup. Qed.

(** The number of tasks not yet in [done] that [v] waits for. *)
Definition waits (done : list string) (v : string) : nat :=
  length (filter (fun u => u ∉ done /\ v ∈ nbrs u) ns).

Lemma waits_0 done v : waits done v = 0%nat <-> forall u, v ∈ nbrs u -> u ∈ done.
Proof.
  unfold waits. split.
  - intros H0 u Hu. destruct (decide (u ∈ done)) as [|Hnd]; [done|]. exfalso.
    apply nil_length_inv in H0.
    eapply (filter_nil_not_elem_of _ _ u H0); [done|].
    by destruct (nbrs_names u v Hu).
  - intros Hall. destruct (filter _ ns) as [|u l] eqn:Hf; [done|]. exfalso.
    assert (u ∈ filter (fun u => u ∉ done /\ v ∈ nbrs u) ns) as Hu
      by (rewrite Hf; left).
    apply list_elem_of_filter in Hu as [[Hnd Hv] _]. by apply Hnd, Hall.
Qed.

Lemma waits_step done c v :
  c ∈ ns -> c ∉ done ->
  waits done v = (waits (done ++ [c]) v + if decide (v ∈ nbrs c) then 1 else 0)%nat.
Proof.
  intros Hc Hcd. unfold waits.
  rewrite (filter_length_remove (fun u => u ∉ done /\ v ∈ nbrs u)
             (fun u => u ∉ done ++ [c] /\ v ∈ nbrs u) ns c).
  - f_equal. repeat case_decide; try done; tauto.
  - apply names_NoDup.
  - done.
  - intros u Hu. rewrite elem_of_app, list_elem_of_singleton. tauto.
  - rewrite elem_of_app, list_elem_of_singleton. tauto.
Qed.

(** What is known between two steps of the main loop; [pend v] is the
    part of the in-degree of [v] that the running [for] loop over the
    neighbours of the task just taken has still to remove. *)
Record kahn_M (pend : string -> Z) (st : SchedulingProblem.topo_state) : Prop := {
  km_keys : map fst (SchedulingProblem.in_degree st) = ns;
  km_nodup :
    NoDup (SchedulingProblem.result st ++ Queue._front (SchedulingProblem.queue st));
  km_names : forall v,
    v ∈ SchedulingProblem.result st ++ Queue._front (SchedulingProblem.queue st) ->
    v ∈ ns;
  km_count : forall v, v ∈ ns ->
    GraphNode.get (SchedulingProblem.in_degree st) v =
    Some (Z.of_nat (waits (SchedulingProblem.result st) v) + pend v);
  km_zero : forall v, v ∈ ns ->
    (v ∈ SchedulingProblem.result st ++ Queue._front (SchedulingProblem.queue st) <->
     Z.of_nat (waits (SchedulingProblem.result st) v) + pend v = 0);
  km_order : forall j v u,
    (SchedulingProblem.result st ++ Queue._front (SchedulingProblem.queue st)) !! j
      = Some v ->
    v ∈ nbrs u ->
    exists i, (i < j)%nat /\ SchedulingProblem.result st !! i = Some u
}.

Definition kahn_K : SchedulingProblem.topo_state -> Prop := kahn_M (fun _ => 0).

Lemma kahn_M_ext pend pend' st :
  (forall v, pend v = pend' v) -> kahn_M pend st -> kahn_M pend' st.
Proof.
  intros Heq [H1 H2 H3 H4 H5 H6]. split; try done.
  - intros v Hv. rewrite <-Heq. by apply H4.
  - intros v Hv. rewrite <-Heq. by apply H5.
Qed.

(** The in-degrees computed by the first loop. *)
Lemma in_degrees_spec :
  exists d, SchedulingProblem.in_degrees p = Ok d /\ map fst d = ns /\
    forall v, v ∈ ns -> GraphNode.get d v = Some (Z.of_nat (waits [] v)).
Proof.
  unfold SchedulingProblem.in_degrees.
  destruct (for_each_Ok
    (fun l1 d => map fst d = ns /\
       forall v, v ∈ ns ->
         GraphNode.get d v =
         Some (Z.of_nat (length (filter (fun u => v ∈ nbrs u) l1))))
    (SchedulingProblem.count_task g) ns (map (fun n => (n, 0)) ns))
    as (d & Hrun & Hkeys & Hget).
  - intros l1 u l2 d Hns [Hkeys Hget]. unfold SchedulingProblem.count_task.
    destruct (bump_each 1 (nbrs u) d) as (d' & Hrun & Hk & Hg).
    + apply nbrs_NoDup.
    + intros x Hx. rewrite Hkeys. by destruct (nbrs_names u x Hx).
    + exists d'. split; [done|]. split; [congruence|]. intros v Hv.
      rewrite (Hg v _ (Hget v Hv)). f_equal.
      rewrite filter_app, length_app, filter_singleton by done.
      repeat case_decide; try done; simpl; lia.
  - split.
    + rewrite map_map. cbn [fst]. by rewrite map_id.
    + intros v Hv. cbn [filter list_filter length].
      apply elem_get_Some.
      * rewrite map_map. cbn [fst]. rewrite map_id. apply names_NoDup.
      * apply list_elem_of_fmap. by exists v.
  - exists d. split_and!; [done|done|]. intros v Hv. rewrite (Hget v Hv).
    do 2 f_equal. unfold waits. f_equal. apply list_filter_iff.
    intros u. split; [|tauto]. split; [apply not_elem_of_nil|done].
Qed.

(** The invariant holds when the main loop is entered. *)
Lemma kahn_K_init d :
  map fst d = ns ->
  (forall v, v ∈ ns -> GraphNode.get d v = Some (Z.of_nat (waits [] v))) ->
  kahn_K {| SchedulingProblem.queue := SchedulingProblem.initial_queue d;
            SchedulingProblem.in_degree := d;
            SchedulingProblem.result := [] |}.
Proof.
  intros Hkeys Hget.
  assert (forall v, v ∈ Queue._front (SchedulingProblem.initial_queue d) <->
                    GraphNode.get d v = Some 0) as Hq.
  { intros v. rewrite initial_queue_front. rewrite list_elem_of_fmap. split.
    - intros ([k z] & -> & [Hz Hin]%list_elem_of_filter). cbn [fst snd] in *. subst z.
      apply elem_get_Some; [|done]. rewrite Hkeys. apply names_NoDup.
    - intros Hv. exists (v, 0). split; [done|]. apply list_elem_of_filter.
      split; [done|]. by apply get_Some_elem. }
  assert (forall v, v ∈ Queue._front (SchedulingProblem.initial_queue d) -> v ∈ ns)
    as Hin.
  { intros v Hv%Hq. rewrite <-Hkeys. apply get_Some_elem in Hv.
    apply list_elem_of_fmap. by exists (v, 0). }
  split; cbn [SchedulingProblem.queue SchedulingProblem.in_degree
              SchedulingProblem.result app].
  - done.
  - rewrite initial_queue_front. apply (sublist_NoDup _ (map fst d)).
    + rewrite Hkeys. apply names_NoDup.
    + apply fmap_sublist, sublist_filter.
  - done.
  - intros v Hv. rewrite (Hget v Hv). f_equal. lia.
  - intros v Hv. rewrite Hq, (Hget v Hv). split; [intros [= Hz]; lia|].
    intros Hz. f_equal. lia.
  - intros j v u Hj Hvu. exfalso.
    assert (v ∈ Queue._front (SchedulingProblem.initial_queue d)) as Hv
      by by eapply list_elem_of_lookup_2.
    pose proof (Hin v Hv) as Hvn. apply Hq in Hv. rewrite (Hget v Hvn) in Hv.
    assert (waits [] v = 0%nat) as Hw by (injection Hv; lia).
    rewrite waits_0 in Hw. by apply Hw, elem_of_nil in Hvu.
Qed.

(** Taking [current] from the queue. *)
Lemma kahn_M_dequeue st current q :
  kahn_K st -> Queue.dequeue (SchedulingProblem.queue st) = Ok (current, q) ->
  kahn_M (fun v => if decide (v ∈ nbrs current) then 1 else 0)
    {| SchedulingProblem.queue := q;
       SchedulingProblem.in_degree := SchedulingProblem.in_degree st;
       SchedulingProblem.result := SchedulingProblem.result st ++ [current] |} /\
  current ∈ ns /\ current ∉ SchedulingProblem.result st.
Proof.
  intros [H1 H2 H3 H4 H5 H6]. unfold Queue.dequeue.
  destruct (Queue._front (SchedulingProblem.queue st)) as [|c rest] eqn:Hfront; [done|].
  intros [= -> <-].
  assert (current ∈ ns) as Hc by (apply H3; set_solver).
  assert (current ∉ SchedulingProblem.result st) as Hcd.
  { apply NoDup_app in H2 as (_ & Hdis & _). intros Hin. apply (Hdis _ Hin). left. }
  split; [|done].
  split; cbn [SchedulingProblem.queue SchedulingProblem.in_degree
              SchedulingProblem.result Queue._front]; rewrite <-?app_assoc; cbn [app].
  - done.
  - done.
  - done.
  - intros v Hv. rewrite (H4 v Hv). f_equal. rewrite (waits_step _ current) by done.
    case_decide; lia.
  - intros v Hv. rewrite (H5 v Hv). rewrite (waits_step _ current) by done.
    case_decide; lia.
  - intros j v u Hj Hvu. destruct (H6 j v u Hj Hvu) as (i & Hi & Hu).
    exists i. split; [done|]. by apply lookup_app_l_Some.
Qed.

(** One neighbour of the task just taken. *)
Lemma kahn_M_relax pend st x :
  kahn_M pend st -> x ∈ ns -> pend x = 1 ->
  exists st', SchedulingProblem.relax st x = Ok st' /\
    kahn_M (fun v => if decide (v = x) then 0 else pend v) st' /\
    SchedulingProblem.result st' = SchedulingProblem.result st.
Proof.
  intros [H1 H2 H3 H4 H5 H6] Hx Hpx. pose proof (H4 x Hx) as Hgx. rewrite Hpx in Hgx.
  set (w := Z.of_nat (waits (SchedulingProblem.result st) x)) in *.
  set (d1 := GraphNode.setitem (SchedulingProblem.in_degree st) x (w + 1 + -1)).
  assert (SchedulingProblem.bump (SchedulingProblem.in_degree st) x (-1) = Ok d1) as Hb
    by (unfold SchedulingProblem.bump; by rewrite Hgx).
  assert (SchedulingProblem.item d1 x = Ok (w + 1 + -1)) as Hi
    by (unfold SchedulingProblem.item, d1; by rewrite get_setitem_eq).
  assert (x ∉ SchedulingProblem.result st ++ Queue._front (SchedulingProblem.queue st))
    as Hxs.
  { rewrite (H5 x Hx), Hpx. unfold w. lia. }
  eexists. unfold SchedulingProblem.relax. rewrite Hb. cbn [mbind outcome_bind].
  rewrite Hi. cbn [mbind outcome_bind]. split; [done|]. split; [|done].
  assert (map fst d1 = ns) as Hk1.
  { unfold d1. rewrite keys_setitem, decide_True; [done|]. by rewrite H1. }
  destruct (decide (w + 1 + -1 = 0)) as [Hw0|Hw0];
    split; cbn [SchedulingProblem.queue SchedulingProblem.in_degree
                SchedulingProblem.result Queue.enqueue Queue._front].
  - done.
  - rewrite app_assoc. apply NoDup_app. split_and!; [done| |apply NoDup_singleton].
    intros y Hy ->%list_elem_of_singleton. done.
  - intros v. rewrite app_assoc, elem_of_app, list_elem_of_singleton.
    intros [Hv| ->]; [by apply H3|done].
  - intros v Hv. unfold d1. destruct (decide (v = x)) as [->|Hvx].
    + rewrite get_setitem_eq. f_equal. fold w. lia.
    + rewrite get_setitem_ne by done. by apply H4.
  - intros v Hv. rewrite app_assoc, elem_of_app, list_elem_of_singleton.
    destruct (decide (v = x)) as [->|Hvx].
    + fold w. split; [lia|by right].
    + rewrite (H5 v Hv). tauto.
  - intros j v u Hj Hvu. rewrite app_assoc in Hj.
    apply lookup_app_Some in Hj as [Hj|[Hlen Hj]]; [by eapply H6|].
    apply list_lookup_singleton_Some in Hj as [_ <-].
    assert (waits (SchedulingProblem.result st) x = 0%nat) as Hw by (fold w in Hw0; lia).
    rewrite waits_0 in Hw. apply Hw, list_elem_of_lookup in Hvu as [i Hi'].
    exists i. split; [|done]. apply lookup_lt_Some in Hi'.
    rewrite length_app in Hlen. lia.
  - done.
  - done.
  - done.
  - intros v Hv. unfold d1. destruct (decide (v = x)) as [->|Hvx].
    + rewrite get_setitem_eq. f_equal. fold w. lia.
    + rewrite get_setitem_ne by done. by apply H4.
  - intros v Hv. destruct (decide (v = x)) as [->|Hvx].
    + fold w. split; [done|lia].
    + by apply H5.
  - done.
Qed.

(** The [for] loop over the neighbours of the task just taken. *)
Lemma kahn_K_neighbors st current q :
  kahn_K st -> Queue.dequeue (SchedulingProblem.queue st) = Ok (current, q) ->
  exists st',
    for_each SchedulingProblem.relax (nbrs current)
      {| SchedulingProblem.queue := q;
         SchedulingProblem.in_degree := SchedulingProblem.in_degree st;
         SchedulingProblem.result := SchedulingProblem.result st ++ [current] |}
    = Ok st' /\
    kahn_K st' /\
    SchedulingProblem.result st' = SchedulingProblem.result st ++ [current].
Proof.
  intros HK Hdq. destruct (kahn_M_dequeue st current q HK Hdq) as (HM & Hc & Hcd).
  destruct (for_each_Ok
    (fun l1 s =>
       kahn_M (fun v => if decide (v ∈ nbrs current /\ v ∉ l1) then 1 else 0) s /\
       SchedulingProblem.result s = SchedulingProblem.result st ++ [current])
    SchedulingProblem.relax (nbrs current)
    {| SchedulingProblem.queue := q;
       SchedulingProblem.in_degree := SchedulingProblem.in_degree st;
       SchedulingProblem.result := SchedulingProblem.result st ++ [current] |})
    as (st' & Hrun & HM' & Hres).
  - intros l1 x l2 s Hl [HMs Hrs].
    assert (NoDup (l1 ++ x :: l2)) as Hnd by (rewrite <-Hl; apply nbrs_NoDup).
    assert (x ∉ l1) as Hx1.
    { apply NoDup_app in Hnd as (_ & Hdis & _). intros Hin. apply (Hdis _ Hin). left. }
    assert (x ∈ nbrs current) as Hxn by (rewrite Hl; set_solver).
    destruct (kahn_M_relax _ s x HMs) as (s' & Hs' & HMs' & Hrs').
    + by destruct (nbrs_names current x Hxn).
    + by rewrite decide_True.
    + exists s'. split; [done|]. split; [|congruence].
      eapply kahn_M_ext; [|exact HMs']. intros v. cbn beta.
      repeat case_decide; try done; exfalso; set_solver.
  - split; [|done]. eapply kahn_M_ext; [|exact HM]. intros v. cbn beta.
    repeat case_decide; try done; exfalso; set_solver.
  - exists st'. split_and!; [done| |done]. eapply kahn_M_ext; [|exact HM'].
    intros v. cbn beta. rewrite decide_False; [done|]. tauto.
Qed.

(** The main loop ends, without an exception, within one turn per task. *)
Lemma topo_loop_total fuel st :
  kahn_K st ->
  (length ns - length (SchedulingProblem.result st) < fuel)%nat ->
  exists st', SchedulingProblem.topo_loop fuel g st = Ok st' /\ kahn_K st' /\
    Queue._front (SchedulingProblem.queue st') = [].
Proof.
  revert st. induction fuel as [|fuel IH]; intros st HK Hfuel; [lia|].
  cbn [SchedulingProblem.topo_loop]. unfold Queue.is_empty.
  destruct (Queue._front (SchedulingProblem.queue st)) as [|c rest] eqn:Hfront.
  - by exists st.
  - assert (Queue.dequeue (SchedulingProblem.queue st) =
            Ok (c, {| Queue._front := rest;
                      Queue._size := (Queue._size (SchedulingProblem.queue st) - 1)%nat |}))
      as Hdq by (unfold Queue.dequeue; by rewrite Hfront).
    rewrite Hdq. cbn [mbind outcome_bind].
    destruct (kahn_K_neighbors st c _ HK Hdq) as (st1 & Hrun & HK1 & Hres).
    rewrite Hrun. cbn [mbind outcome_bind]. apply IH; [done|].
    rewrite Hres, length_app. cbn [length].
    assert (length (SchedulingProblem.result st ++ c :: rest) <= length ns)%nat as Hle.
    { apply submseteq_length, NoDup_submseteq.
      - rewrite <-Hfront. apply HK.
      - intros v Hv. apply (km_names _ _ HK). by rewrite Hfront. }
    rewrite length_app in Hle. cbn [length] in Hle. lia.
Qed.

(** What [topological_sort] returns, in terms of the final state. *)
Lemma topological_sort_state fuel :
  (length ns < fuel)%nat ->
  exists st,
    SchedulingProblem.topological_sort fuel p =
      Ok (if decide (length (SchedulingProblem.result st) ≠ length ns) then None
          else Some (SchedulingProblem.result st)) /\
    kahn_K st /\ Queue._front (SchedulingProblem.queue st) = [].
Proof.
  intros Hfuel. destruct in_degrees_spec as (d & Hd & Hkeys & Hget).
  destruct (topo_loop_total fuel
    {| SchedulingProblem.queue := SchedulingProblem.initial_queue d;
       SchedulingProblem.in_degree := d; SchedulingProblem.result := [] |})
    as (st & Hrun & HK & Hq).
  - by apply kahn_K_init.
  - cbn [SchedulingProblem.result length]. lia.
  - exists st. split; [|done]. unfold SchedulingProblem.topological_sort.
    rewrite Hd. cbn [mbind outcome_bind]. rewrite Hrun. cbn [mbind outcome_bind].
    unfold SchedulingProblem.names. by rewrite length_map.
Qed.

(** A task is in the final result exactly when everything it waits for
    is. *)
Lemma kahn_final st v :
  kahn_K st -> Queue._front (SchedulingProblem.queue st) = [] -> v ∈ ns ->
  (v ∈ SchedulingProblem.result st <->
   forall u, v ∈ nbrs u -> u ∈ SchedulingProblem.result st).
Proof.
  intros HK Hq Hv. pose proof (km_zero _ _ HK v Hv) as Hz.
  rewrite Hq, app_nil_r in Hz. rewrite Hz, <-waits_0. lia.
Qed.

(** A complete result is a valid order. *)
Lemma kahn_valid st :
  kahn_K st -> Queue._front (SchedulingProblem.queue st) = [] ->
  length (SchedulingProblem.result st) = length ns ->
  valid_order p (SchedulingProblem.result st).
Proof.
  intros HK Hq Hlen. pose proof (km_nodup _ _ HK) as Hnd.
  pose proof (km_names _ _ HK) as Hnames. pose proof (km_order _ _ HK) as Hord.
  rewrite Hq, app_nil_r in Hnd, Hnames, Hord.
  assert (SchedulingProblem.result st ≡ₚ ns) as Hperm.
  { apply submseteq_length_Permutation; [by apply NoDup_submseteq|lia]. }
  split; [done|]. intros t d Htd.
  destruct (depends_names p t d Hwf Htd) as [Ht _].
  destruct Hwf as (_ & _ & _ & Hdep). apply Hdep in Htd.
  rewrite <-Hperm in Ht. apply list_elem_of_lookup in Ht as [j Hj].
  destruct (Hord j t d Hj Htd) as (i & Hi & Hd). by exists i, j.
Qed.

(** If a valid order exists, the result is complete. *)
Lemma kahn_complete st l :
  kahn_K st -> Queue._front (SchedulingProblem.queue st) = [] ->
  valid_order p l ->
  length (SchedulingProblem.result st) = length ns.
Proof.
  intros HK Hq [Hperm Hbefore].
  assert (NoDup l) as Hndl by (rewrite Hperm; apply names_NoDup).
  assert (forall k j v, (j < k)%nat -> l !! j = Some v ->
            v ∈ SchedulingProblem.result st) as Hall.
  { induction k as [|k IH]; intros j v Hj Hv; [lia|].
    assert (v ∈ ns) as Hvn by (rewrite <-Hperm; by eapply list_elem_of_lookup_2).
    apply (kahn_final st v HK Hq Hvn). intros u Hu.
    destruct Hwf as (_ & _ & _ & Hdep). apply Hdep in Hu.
    destruct (Hbefore v u Hu) as (i & j' & Hi & Hj' & Hlt).
    assert (j' = j) as -> by by eapply NoDup_lookup.
    apply (IH i u); [lia|done]. }
  pose proof (km_nodup _ _ HK) as Hnd. pose proof (km_names _ _ HK) as Hnames.
  rewrite Hq, app_nil_r in Hnd, Hnames.
  apply Nat.le_antisymm.
  - by apply submseteq_length, NoDup_submseteq.
  - apply submseteq_length, NoDup_submseteq; [apply names_NoDup|].
    intros v Hv. rewrite <-Hperm in Hv. apply list_elem_of_lookup in Hv as [j Hj].
    apply (Hall (S j) j v); [lia|done].
Qed.
End kahn.

(** ** The sample project of [create_software_project] *)

Definition software_project_script : list SchedulingBuild.op :=
  [ SchedulingBuild.AddTask "Requirements" 8;
    SchedulingBuild.AddTask "Design" 16;
    SchedulingBuild.AddTask "Database" 12;
    SchedulingBuild.AddTask "Backend" 24;
    SchedulingBuild.AddTask "Frontend" 20;
    SchedulingBuild.AddTask "Testing" 16;
    SchedulingBuild.AddTask "Deployment" 4;
    SchedulingBuild.AddTask "Documentation" 8;
    SchedulingBuild.AddDependency "Design" "Requirements";
    SchedulingBuild.AddDependency "Database" "Design";
    SchedulingBuild.AddDependency "Backend" "Database";
    SchedulingBuild.AddDependency "Frontend" "Design";
    SchedulingBuild.AddDependency "Testing" "Backend";
    SchedulingBuild.AddDependency "Testing" "Frontend";
    SchedulingBuild.AddDependency "Deployment" "Testing";
    SchedulingBuild.AddDependency "Documentation" "Testing" ]%string.

Definition create_software_project : SchedulingProblem.added :=
  SchedulingBuild.build software_project_script.

(** Two tasks that wait for each other. *)
Definition circular_script : list SchedulingBuild.op :=
  [ SchedulingBuild.AddTask "a" 1;
    SchedulingBuild.AddTask "b" 2;
    SchedulingBuild.AddDependency "a" "b";
    SchedulingBuild.AddDependency "b" "a" ]%string.

(** ** Topological sorting *)

(** X20.  On every problem built through [add_task] and [add_dependency],
    [topological_sort] ends within one turn of its main loop per task,
    raises nothing, and a list it returns is a valid execution order:
    it holds every task exactly once, and every task comes after each
    task it depends on. *)
Theorem topological_sort_valid (ops : list SchedulingBuild.op)
    (p : SchedulingProblem.t) (fuel : nat) :
  SchedulingBuild.build ops = SchedulingProblem.Added p ->
  (length (SchedulingProblem.tasks p) < fuel)%nat ->
  exists r, SchedulingProblem.topological_sort fuel p = Ok r /\
    forall order, r = Some order -> valid_order p order.
Proof.
  intros Hbuild Hfuel. apply sched_wf_build in Hbuild.
  destruct (topological_sort_state p Hbuild fuel) as (st & Hrun & HK & Hq).
  { unfold SchedulingProblem.names. by rewrite length_map. }
  eexists. split; [exact Hrun|]. intros order. case_decide as Hlen; [done|].
  intros [= <-]. apply kahn_valid; [done|done|done|].
  destruct (decide (length (SchedulingProblem.result st) =
                    length (SchedulingProblem.names p))); [done|]. by destruct Hlen.
Qed.

Lemma topological_sort_valid_witness :
  exists p r,
    create_software_project = SchedulingProblem.Added p /\
    SchedulingProblem.topological_sort 9 p = Ok r /\
    forall order, r = Some order -> valid_order p order.
Proof.
  eexists.
  destruct (topological_sort_valid software_project_script _ 9 eq_refl) as (r & Hr & Hv).
  - vm_compute. lia.
  - exists r. split; [reflexivity|]. split; [exact Hr|exact Hv].
Defined.

(** X21.  [topological_sort] returns [None] exactly when the tasks have
    no valid execution order at all, as with a circular dependency; so
    it finds an order whenever there is one. *)
Theorem topological_sort_none (ops : list SchedulingBuild.op)
    (p : SchedulingProblem.t) (fuel : nat) :
  SchedulingBuild.build ops = SchedulingProblem.Added p ->
  (length (SchedulingProblem.tasks p) < fuel)%nat ->
  (SchedulingProblem.topological_sort fuel p = Ok None <->
   ~ exists l, valid_order p l).
Proof.
  intros Hbuild Hfuel. apply sched_wf_build in Hbuild.
  destruct (topological_sort_state p Hbuild fuel) as (st & Hrun & HK & Hq).
  { unfold SchedulingProblem.names. by rewrite length_map. }
  rewrite Hrun. case_decide as Hlen.
  - split; [|done]. intros _ [l Hl]. apply Hlen. by eapply kahn_complete.
  - split; [done|]. intros Hno. exfalso. apply Hno.
    exists (SchedulingProblem.result st). apply kahn_valid; [done|done|done|].
    destruct (decide (length (SchedulingProblem.result st) =
                      length (SchedulingProblem.names p))); [done|]. by destruct Hlen.
Qed.

Lemma topological_sort_none_witness :
  exists p,
    SchedulingBuild.build circular_script = SchedulingProblem.Added p /\
    (SchedulingProblem.topological_sort 3 p = Ok None <->
     ~ exists l, valid_order p l).
Proof.
  eexists. split; [reflexivity|].
  apply (topological_sort_none circular_script _ 3 eq_refl). vm_compute. lia.
Defined.

(** ** Earliest start times *)

(** The time at which [t] ends under the start times [es]. *)
Definition end_of (p : SchedulingProblem.t) (es : gmap string Z) (t : string)
  : option Z :=
  match SchedulingProblem.get_task p t, es !! t with
  | Some tk, Some s => Some (s + SchedulingProblem.duration tk)
  | _, _ => None
  end.

(** [t] starts at time [s >= 0], not before any task it depends on has
    ended, and no later than that requires. *)
Definition starts_at (p : SchedulingProblem.t) (es : gmap string Z)
    (deps : list string) (s : Z) : Prop :=
  0 <= s /\
  (forall d, d ∈ deps -> exists e, end_of p es d = Some e /\ e <= s) /\
  (s = 0 \/ exists d e, d ∈ deps /\ end_of p es d = Some e /\ s = e).

Definition earliest (p : SchedulingProblem.t) (es : gmap string Z) : Prop :=
  forall t tk, SchedulingProblem.get_task p t = Some tk ->
    exists s, es !! t = Some s /\ starts_at p es (SchedulingProblem.dependencies tk) s.

(** [total] is the latest end of a task, and 0 when that is negative or
    there is no task. *)
Definition finish (p : SchedulingProblem.t) (es : gmap string Z) (total : Z) : Prop :=
  starts_at p es (SchedulingProblem.names p) total.

Lemma before_prefix (l1 l2 : list string) (d t : string) :
  NoDup (l1 ++ l2) -> before (l1 ++ l2) d t -> t ∈ l1 -> d ∈ l1.
Proof.
  intros Hnd (i & j & Hi & Hj & Hij) [j' Hj']%list_elem_of_lookup.
  assert (j = j') as ->.
  { eapply NoDup_lookup; [exact Hnd|exact Hj|]. by apply lookup_app_l_Some. }
  apply lookup_lt_Some in Hj'. rewrite lookup_app_l in Hi by lia.
  by eapply list_elem_of_lookup_2.
Qed.

Lemma before_head (l1 l2 : list string) (d x : string) :
  NoDup (l1 ++ x :: l2) -> before (l1 ++ x :: l2) d x -> d ∈ l1.
Proof.
  intros Hnd (i & j & Hi & Hj & Hij).
  assert (j = length l1) as ->.
  { eapply NoDup_lookup; [exact Hnd|exact Hj|]. by rewrite list_lookup_middle. }
  rewrite lookup_app_l in Hi by lia. by eapply list_elem_of_lookup_2.
Qed.

Section critical_path.
Variable p : SchedulingProblem.t.
Hypothesis Hwf : sched_wf p.

Local Abbreviation ns := (SchedulingProblem.names p).

Lemma task_item_Ok t :
  t ∈ ns -> exists tk, SchedulingProblem.get_task p t = Some tk /\
                        SchedulingProblem.task_item p t = Ok tk.
Proof.
  intros [tk Htk]%get_task_is_Some. exists tk. split; [done|].
  unfold SchedulingProblem.task_item. by rewrite Htk.
Qed.

Lemma end_of_agree es es' d :
  es' !! d = es !! d -> end_of p es' d = end_of p es d.
Proof. unfold end_of. by intros ->. Qed.

Lemma starts_at_agree es es' deps s :
  (forall d, d ∈ deps -> es' !! d = es !! d) ->
  starts_at p es deps s -> starts_at p es' deps s.
Proof.
  intros Hag (H0 & Hall & Hex). split_and!; [done| |].
  - intros d Hd. rewrite (end_of_agree es es' d) by by apply Hag. by apply Hall.
  - destruct Hex as [->|(d & e & Hd & He & ->)]; [by left|right].
    exists d, e. split_and!; [done| |done]. rewrite (end_of_agree es es' d); [done|].
    by apply Hag.
Qed.

(** The initial dict of start times. *)
Lemma earliest_start_init v :
  v ∈ ns ->
  (list_to_map (map (fun n => (n, 0)) ns) : gmap string Z) !! v = Some 0.
Proof.
  intros Hv. apply elem_of_list_to_map_1.
  - change (NoDup (map fst (map (fun n : string => (n, 0)) ns))).
    rewrite map_map. cbn [fst]. rewrite map_id. by apply sched_wf_NoDup.
  - apply list_elem_of_fmap. by exists v.
Qed.

(** The [for] loop over the dependencies of [x]. *)
Lemma start_task_deps es x deps :
  es !! x = Some 0 -> x ∉ deps ->
  (forall d, d ∈ deps -> d ∈ ns /\ is_Some (es !! d)) ->
  exists es' s,
    for_each (SchedulingProblem.start_after p x) deps es = Ok es' /\
    (forall v, v ≠ x -> es' !! v = es !! v) /\
    es' !! x = Some s /\ starts_at p es deps s.
Proof.
  intros Hx Hxd Hdeps.
  destruct (for_each_Ok
    (fun m1 es' => (forall v, v ≠ x -> es' !! v = es !! v) /\
       exists s, es' !! x = Some s /\ starts_at p es m1 s)
    (SchedulingProblem.start_after p x) deps es) as (es' & Hrun & Hoff & s & Hs & Hst).
  - intros m1 d m2 es1 Hl [Hoff (s & Hs & H0 & Hall & Hex)].
    assert (d ∈ deps) as Hd by (rewrite Hl; set_solver).
    destruct (Hdeps d Hd) as [Hdn [sd Hsd]].
    destruct (task_item_Ok d Hdn) as (dk & Hdk & Hitem).
    assert (d ≠ x) as Hdx by congruence.
    assert (end_of p es d = Some (sd + SchedulingProblem.duration dk)) as Hend
      by (unfold end_of; by rewrite Hdk, Hsd).
    eexists. unfold SchedulingProblem.start_after. rewrite Hitem.
    cbn [mbind outcome_bind]. unfold getitem. rewrite (Hoff d Hdx), Hsd, Hs.
    cbn [mbind outcome_bind]. split; [done|]. split.
    + intros v Hv. rewrite lookup_insert_ne by done. by apply Hoff.
    + eexists. split; [by rewrite lookup_insert_eq|]. split_and!; [lia| |].
      * intros d' [Hd'| ->%list_elem_of_singleton]%elem_of_app.
        -- destruct (Hall d' Hd') as (e & He & Hle). exists e. split; [done|lia].
        -- eexists. split; [done|lia].
      * destruct (Z.max_spec s (sd + SchedulingProblem.duration dk)) as [[_ ->]|[_ ->]].
        -- right. exists d. eexists. split_and!; [set_solver|done|done].
        -- destruct Hex as [->|(d' & e & Hd' & He & ->)]; [by left|right].
           exists d', e. split_and!; [set_solver|done|done].
  - split; [done|]. exists 0. split; [done|]. split_and!; [done| |by left].
    intros d Hd. by apply elem_of_nil in Hd.
  - by exists es', s.
Qed.

(** The loop over the sorted tasks gives every task its earliest start. *)
Lemma start_tasks ord :
  valid_order p ord ->
  exists es,
    for_each (SchedulingProblem.start_task p) ord
      (list_to_map (map (fun n => (n, 0)) ns)) = Ok es /\
    earliest p es.
Proof.
  intros [Hperm Hbefore].
  assert (NoDup ord) as Hnd by (rewrite Hperm; by apply sched_wf_NoDup).
  destruct (for_each_Ok
    (fun l1 es =>
       (forall v, v ∈ ns -> is_Some (es !! v)) /\
       (forall v, v ∈ ns -> v ∉ l1 -> es !! v = Some 0) /\
       forall t tk, t ∈ l1 -> SchedulingProblem.get_task p t = Some tk ->
         exists s, es !! t = Some s /\
                   starts_at p es (SchedulingProblem.dependencies tk) s)
    (SchedulingProblem.start_task p) ord (list_to_map (map (fun n => (n, 0)) ns)))
    as (es & Hrun & Hdom & _ & Hall).
  - intros l1 x l2 es Hl (Hdom & Hzero & Hdone).
    assert (NoDup (l1 ++ x :: l2)) as Hnd' by by rewrite <-Hl.
    assert (x ∉ l1) as Hx1.
    { apply NoDup_app in Hnd' as (_ & Hdis & _). intros Hin. apply (Hdis _ Hin). left. }
    assert (x ∈ ns) as Hxn by (rewrite <-Hperm, Hl; set_solver).
    destruct (task_item_Ok x Hxn) as (tk & Htk & Hitem).
    assert (forall d, d ∈ SchedulingProblem.dependencies tk -> d ∈ l1) as Hdeps1.
    { intros d Hd. apply (before_head l1 l2 d x Hnd'). rewrite <-Hl.
      apply Hbefore. by exists tk. }
    destruct (start_task_deps es x (SchedulingProblem.dependencies tk))
      as (es' & s & Hrun & Hoff & Hs & Hst).
    + by apply Hzero.
    + intros Hin. by apply Hx1, Hdeps1.
    + intros d Hd. assert (depends p x d) as Hxd by by exists tk.
      destruct (depends_names p x d Hwf Hxd). split; [done|by apply Hdom].
    + exists es'. unfold SchedulingProblem.start_task. rewrite Hitem.
      cbn [mbind outcome_bind]. split; [done|].
      assert (forall t tk', t ∈ l1 ++ [x] ->
                SchedulingProblem.get_task p t = Some tk' ->
                forall d, d ∈ SchedulingProblem.dependencies tk' -> d ≠ x) as Hne.
      { intros t tk' Ht Htk' d Hd ->.
        apply elem_of_app in Ht as [Ht| ->%list_elem_of_singleton].
        - apply Hx1. apply (before_prefix l1 (x :: l2) x t Hnd'); [|done].
          rewrite <-Hl. apply Hbefore. by exists tk'.
        - apply Hx1, Hdeps1. congruence. }
      split_and!.
      * intros v Hv. destruct (decide (v = x)) as [->|Hvx]; [by rewrite Hs|].
        rewrite Hoff by done. by apply Hdom.
      * intros v Hv Hnin. rewrite Hoff by set_solver. apply Hzero; set_solver.
      * intros t tk' Ht Htk'.
        pose proof (Hne t tk' Ht Htk') as Hnex.
        apply elem_of_app in Ht as [Ht| ->%list_elem_of_singleton].
        -- destruct (Hdone t tk' Ht Htk') as (s' & Hs' & Hst').
           exists s'. split; [rewrite Hoff; [done|congruence]|].
           eapply starts_at_agree; [|exact Hst']. intros d Hd. apply Hoff. by apply Hnex.
        -- assert (tk' = tk) as -> by congruence. exists s. split; [done|].
           eapply starts_at_agree; [|exact Hst]. intros d Hd. apply Hoff. by apply Hnex.
  - split_and!.
    + intros v Hv. rewrite earliest_start_init by done. eauto.
    + intros v Hv _. by apply earliest_start_init.
    + intros t tk Ht. by apply elem_of_nil in Ht.
  - exists es. split; [done|]. intros t tk Htk. apply Hall; [|done].
    rewrite Hperm. apply get_task_is_Some. eauto.
Qed.

(** The loop for [total_duration]. *)
Lemma total_duration_loop es :
  earliest p es ->
  exists total,
    for_each (SchedulingProblem.end_time p es) ns 0 = Ok total /\ finish p es total.
Proof.
  intros Hes. unfold finish.
  apply (for_each_Ok (fun l1 total => starts_at p es l1 total)).
  - intros l1 t l2 total Hl (H0 & Hall & Hex).
    assert (t ∈ ns) as Ht by (rewrite Hl; set_solver).
    destruct (task_item_Ok t Ht) as (tk & Htk & Hitem).
    destruct (Hes t tk Htk) as (s & Hs & _).
    assert (end_of p es t = Some (s + SchedulingProblem.duration tk)) as Hend
      by (unfold end_of; by rewrite Htk, Hs).
    eexists. unfold SchedulingProblem.end_time. rewrite Hitem.
    cbn [mbind outcome_bind]. unfold getitem. rewrite Hs. cbn [mbind outcome_bind].
    split; [done|]. split_and!; [lia| |].
    + intros d' [Hd'| ->%list_elem_of_singleton]%elem_of_app.
      * destruct (Hall d' Hd') as (e & He & Hle). exists e. split; [done|lia].
      * eexists. split; [done|lia].
    + destruct (Z.max_spec total (s + SchedulingProblem.duration tk)) as [[_ ->]|[_ ->]].
      * right. exists t. eexists. split_and!; [set_solver|done|done].
      * destruct Hex as [->|(d' & e & Hd' & He & ->)]; [by left|right].
        exists d', e. split_and!; [set_solver|done|done].
  - split_and!; [done| |by left]. intros d Hd. by apply elem_of_nil in Hd.
Qed.
End critical_path.

(** X22.  On every problem built through [add_task] and [add_dependency],
    [calculate_critical_path] ends and raises nothing.  If the tasks have
    a valid execution order, it returns one, with start times under which
    every task starts at the latest end of the tasks it depends on (at 0
    if there is none, or if that end is negative), and [total_duration]
    is the latest end of a task under these times.  If they have none, it
    reports the circular dependency and returns nothing else. *)
Theorem critical_path_schedule (ops : list SchedulingBuild.op)
    (p : SchedulingProblem.t) (fuel : nat) :
  SchedulingBuild.build ops = SchedulingProblem.Added p ->
  (length (SchedulingProblem.tasks p) < fuel)%nat ->
  exists c, SchedulingProblem.calculate_critical_path fuel p = Ok c /\
    ((exists l, valid_order p l) ->
     exists ord es total,
       SchedulingProblem.error c = None /\
       SchedulingProblem.order c = Some ord /\
       SchedulingProblem.earliest_start c = Some es /\
       SchedulingProblem.total_duration c = Some total /\
       valid_order p ord /\ earliest p es /\ finish p es total) /\
    ((~ exists l, valid_order p l) ->
     SchedulingProblem.error c = Some "Circular dependency detected"%string /\
     SchedulingProblem.order c = None /\
     SchedulingProblem.earliest_start c = None /\
     SchedulingProblem.total_duration c = None).
Proof.
  intros Hbuild Hfuel. apply sched_wf_build in Hbuild.
  destruct (topological_sort_state p Hbuild fuel) as (st & Hrun & HK & Hq).
  { unfold SchedulingProblem.names. by rewrite length_map. }
  unfold SchedulingProblem.calculate_critical_path. rewrite Hrun.
  cbn [mbind outcome_bind]. case_decide as Hlen.
  - eexists. split; [done|]. split; [|done].
    intros [l Hl]. exfalso. apply Hlen. by eapply kahn_complete.
  - assert (valid_order p (SchedulingProblem.result st)) as Hvalid.
    { apply kahn_valid; [done|done|done|].
      destruct (decide (length (SchedulingProblem.result st) =
                        length (SchedulingProblem.names p))); [done|]. by destruct Hlen. }
    destruct (start_tasks p Hbuild _ Hvalid) as (es & Hes & Hearliest).
    destruct (total_duration_loop p Hbuild es Hearliest) as (total & Htotal & Hfinish).
    rewrite Hes. cbn [mbind outcome_bind]. rewrite Htotal. cbn [mbind outcome_bind].
    eexists. split; [done|]. split.
    + intros _. by exists (SchedulingProblem.result st), es, total.
    + intros Hno. exfalso. apply Hno. eauto.
Qed.

Lemma critical_path_schedule_witness :
  exists p c,
    create_software_project = SchedulingProblem.Added p /\
    SchedulingProblem.calculate_critical_path 9 p = Ok c /\
    ((exists l, valid_order p l) ->
     exists ord es total,
       SchedulingProblem.error c = None /\
       SchedulingProblem.order c = Some ord /\
       SchedulingProblem.earliest_start c = Some es /\
       SchedulingProblem.total_duration c = Some total /\
       valid_order p ord /\ earliest p es /\ finish p es total).
Proof.
  eexists.
  destruct (critical_path_schedule software_project_script _ 9 eq_refl)
    as (c & Hc & Hsome & _).
  - vm_compute. lia.
  - exists c. split; [reflexivity|]. split; [exact Hc|exact Hsome].
Defined.

(** X23.  The two tables of a scheduling problem stay in step: on every
    problem built through [add_task] and [add_dependency], the nodes of
    the graph are the task names, in the order of [tasks] and without
    duplicates, the graph has an edge from [d] to [t] exactly when [d]
    is in the dependency list of [t], and only tasks are depended on. *)
Theorem scheduling_tables_agree (ops : list SchedulingBuild.op)
    (p : SchedulingProblem.t) :
  SchedulingBuild.build ops = SchedulingProblem.Added p ->
  NoDup (SchedulingProblem.names p) /\
  Graph.get_all_nodes (SchedulingProblem.graph p) = SchedulingProblem.names p /\
  (forall t d, depends p t d <->
               t ∈ Graph.get_neighbors (SchedulingProblem.graph p) d) /\
  (forall t d, depends p t d ->
               t ∈ SchedulingProblem.names p /\ d ∈ SchedulingProblem.names p).
Proof.
  intros Hbuild%sched_wf_build. split_and!.
  - by apply sched_wf_NoDup.
  - by destruct Hbuild as (_ & _ & ? & _).
  - by destruct Hbuild as (_ & _ & _ & ?).
  - intros t d. by apply depends_names.
Qed.

Lemma scheduling_tables_agree_witness :
  exists p,
    create_software_project = SchedulingProblem.Added p /\
    NoDup (SchedulingProblem.names p) /\
    Graph.get_all_nodes (SchedulingProblem.graph p) = SchedulingProblem.names p /\
    (forall t d, depends p t d <->
                 t ∈ Graph.get_neighbors (SchedulingProblem.graph p) d) /\
    (forall t d, depends p t d ->
                 t ∈ SchedulingProblem.names p /\ d ∈ SchedulingProblem.names p).
Proof.
  eexists. split; [reflexivity|].
  apply (scheduling_tables_agree software_project_script). reflexivity.
Defined.

(** * data_structures/tree.py *)

(** ** BinaryTree

    [Node] objects are mutable and refer to each other, so they live in
    a store; a reference is the position at which the object was
    created. *)

Module BinaryTree.
Section defs.
Context {A : Type}.

Record Node : Type := mkNode {
  value : A;
  left : option nat;
  right : option nat;
  parent : option nat
}.

Record t : Type := mk {
  root : option nat;
  _size : nat;
  store : list Node
}.

Definition empty : t := {| root := None; _size := 0; store := [] |}.

(** Reading through a reference; the code only holds references to
    objects it created, the error is for any other. *)
Definition load (s : list Node) (r : nat) : outcome Node :=
  match s !! r with
  | Some n => Ok n
  | None => Raise KeyError
  end.

(** [node.left = c], [node.right = c] and [node.parent = c] *)
Definition set_left (s : list Node) (r : nat) (c : option nat) : list Node :=
  alter (fun n => {| value := value n; left := c; right := right n;
                     parent := parent n |}) r s.

Definition set_right (s : list Node) (r : nat) (c : option nat) : list Node :=
  alter (fun n => {| value := value n; left := left n; right := c;
                     parent := parent n |}) r s.

Definition set_parent (s : list Node) (r : nat) (c : option nat) : list Node :=
  alter (fun n => {| value := value n; left := left n; right := right n;
                     parent := c |}) r s.

(** The [while] loop of [insert]; leaving it with an empty queue leaves
    the new node unattached. *)
Fixpoint insert_loop (fuel : nat) (tr : t) (new_node : nat) (queue : Queue.t nat)
  : outcome t :=
  match fuel with
  | O => OutOfFuel
  | S fuel' =>
    if Queue.is_empty queue then Ok tr
    else
      '(current, queue) ← Queue.dequeue queue;
      cur ← load (store tr) current;
      match left cur with
      | None =>
        Ok {| root := root tr; _size := S (_size tr);
              store := set_parent (set_left (store tr) current (Some new_node))
                         new_node (Some current) |}
      | Some l =>
        let queue := Queue.enqueue queue l in
        match right cur with
        | None =>
          Ok {| root := root tr; _size := S (_size tr);
                store := set_parent (set_right (store tr) current (Some new_node))
                           new_node (Some current) |}
        | Some r => insert_loop fuel' tr new_node (Queue.enqueue queue r)
        end
      end
  end.

(** [insert] returns the new node and leaves the tree updated. *)
Definition insert (fuel : nat) (tr : t) (v : A) : outcome (nat * t) :=
  let new_node := length (store tr) in
  let s := store tr ++ [ {| value := v; left := None; right := None;
                            parent := None |} ] in
  match root tr with
  | None => Ok (new_node, {| root := Some new_node; _size := S (_size tr); store := s |})
  | Some r =>
    tr' ← insert_loop fuel {| root := root tr; _size := _size tr; store := s |}
            new_node (Queue.enqueue Queue.empty r);
    Ok (new_node, tr')
  end.

(** The traversal helpers; [fuel] bounds the depth of the recursion. *)
Fixpoint _inorder_helper (fuel : nat) (s : list Node) (node : option nat)
  : outcome (list A) :=
  match fuel with
  | O => OutOfFuel
  | S fuel' =>
    match node with
    | None => Ok []
    | Some r =>
      n ← load s r;
      l ← _inorder_helper fuel' s (left n);
      rr ← _inorder_helper fuel' s (right n);
      Ok ((([] ++ l) ++ [value n]) ++ rr)
    end
  end.

Fixpoint _preorder_helper (fuel : nat) (s : list Node) (node : option nat)
  : outcome (list A) :=
  match fuel with
  | O => OutOfFuel
  | S fuel' =>
    match node with
    | None => Ok []
    | Some r =>
      n ← load s r;
      l ← _preorder_helper fuel' s (left n);
      rr ← _preorder_helper fuel' s (right n);
      Ok (([value n] ++ l) ++ rr)
    end
  end.

Fixpoint _postorder_helper (fuel : nat) (s : list Node) (node : option nat)
  : outcome (list A) :=
  match fuel with
  | O => OutOfFuel
  | S fuel' =>
    match node with
    | None => Ok []
    | Some r =>
      n ← load s r;
      l ← _postorder_helper fuel' s (left n);
      rr ← _postorder_helper fuel' s (right n);
      Ok ((([] ++ l) ++ rr) ++ [value n])
    end
  end.

(** [node=None], the default, stands for the root. *)
Definition inorder_traversal (fuel : nat) (tr : t) (node : option nat)
  : outcome (list A) :=
  match node with
  | None => _inorder_helper fuel (store tr) (root tr)
  | Some _ => _inorder_helper fuel (store tr) node
  end.

Definition preorder_traversal (fuel : nat) (tr : t) (node : option nat)
  : outcome (list A) :=
  match node with
  | None => _preorder_helper fuel (store tr) (root tr)
  | Some _ => _preorder_helper fuel (store tr) node
  end.

Definition postorder_traversal (fuel : nat) (tr : t) (node : option nat)
  : outcome (list A) :=
  match node with
  | None => _postorder_helper fuel (store tr) (root tr)
  | Some _ => _postorder_helper fuel (store tr) node
  end.

Definition size (tr : t) : nat := _size tr.
End defs.
Global Arguments Node : clear implicits.
Global Arguments t : clear implicits.
End BinaryTree.

(** A run of [insert] calls. *)
Definition insert_values {A : Type} (fuel : nat) (vs : list A) (tr : BinaryTree.t A)
  : outcome (BinaryTree.t A) :=
  for_each (fun tr v => '(_, tr') ← BinaryTree.insert fuel tr v; Ok tr') vs tr.

(** ** The shape [insert] keeps: a complete tree in level order

    The [i]-th inserted value is held by the [i]-th node created, whose
    children are the nodes [2i+1] and [2i+2], where they exist. *)

Definition child (n j : nat) : option nat := if decide (j < n)%nat then Some j else None.

Definition node_at {A : Type} (n i : nat) (v : A) : BinaryTree.Node A :=
  {| BinaryTree.value := v;
     BinaryTree.left := child n (2 * i + 1);
     BinaryTree.right := child n (2 * i + 2);
     BinaryTree.parent := if decide (i = 0)%nat then None else Some ((i - 1) / 2)%nat |}.

Definition layout {A : Type} (vs : list A) : list (BinaryTree.Node A) :=
  imap (node_at (length vs)) vs.

Definition level_order {A : Type} (vs : list A) : BinaryTree.t A :=
  {| BinaryTree.root := child (length vs) 0;
     BinaryTree._size := length vs;
     BinaryTree.store := layout vs |}.

Section level_order_facts.
Context {A : Type}.
Implicit Types (vs : list A) (v : A) (i k n : nat).

Lemma length_layout vs : length (layout vs) = length vs.
Proof. apply length_imap. Qed.

Lemma layout_lookup vs i : layout vs !! i = node_at (length vs) i <$> vs !! i.
Proof. apply list_lookup_imap. Qed.

(** The store after the new node has been attached under [k]. *)
Lemma layout_attach vs v k
    (attach : list (BinaryTree.Node A) -> nat -> option nat -> list (BinaryTree.Node A)) :
  (attach = BinaryTree.set_left /\ length vs = (2 * k + 1)%nat) \/
  (attach = BinaryTree.set_right /\ length vs = (2 * k + 2)%nat) ->
  BinaryTree.set_parent
    (attach (layout vs ++ [ {| BinaryTree.value := v; BinaryTree.left := None;
                               BinaryTree.right := None; BinaryTree.parent := None |} ])
       k (Some (length vs)))
    (length vs) (Some k) =
  layout (vs ++ [v]).
Proof.
  intros Hcase. apply list_eq. intros i. rewrite layout_lookup, length_app.
  cbn [length]. unfold BinaryTree.set_parent. rewrite list_lookup_alter.
  assert (forall s j, attach s k (Some (length vs)) !! j =
            if decide (k = j) then
              (fun nd : BinaryTree.Node A => if decide (length vs = 2 * k + 1)%nat
                 then {| BinaryTree.value := BinaryTree.value nd;
                         BinaryTree.left := Some (length vs);
                         BinaryTree.right := BinaryTree.right nd;
                         BinaryTree.parent := BinaryTree.parent nd |}
                 else {| BinaryTree.value := BinaryTree.value nd;
                         BinaryTree.left := BinaryTree.left nd;
                         BinaryTree.right := Some (length vs);
                         BinaryTree.parent := BinaryTree.parent nd |}) <$> s !! k
            else s !! j) as Hattach.
  { intros s j. destruct Hcase as [[-> Hn]|[-> Hn]];
      unfold BinaryTree.set_left, BinaryTree.set_right; rewrite list_lookup_alter;
      case_decide; [|done| |done]; destruct (s !! k); cbn; [|done| |done];
      case_decide; first [done|lia]. }
  rewrite !Hattach. clear Hattach.
  assert (k < length vs)%nat as Hk by lia.
  destruct (lt_eq_lt_dec i (length vs)) as [[Hlt| ->]|Hgt].
  - destruct (lookup_lt_is_Some_2 vs i Hlt) as [x Hx].
    rewrite (lookup_app_l vs) by done. rewrite Hx.
    rewrite decide_False by lia.
    assert (forall j, (j < length vs)%nat ->
              (layout vs ++ [ {| BinaryTree.value := v; BinaryTree.left := None;
                                 BinaryTree.right := None; BinaryTree.parent := None |} ])
                !! j = node_at (length vs) j <$> vs !! j) as Hold.
    { intros j Hj. rewrite lookup_app_l by by rewrite length_layout.
      apply layout_lookup. }
    destruct (decide (k = i)) as [->|Hki].
    + rewrite Hold, Hx by done. cbn [fmap option_fmap option_map].
      unfold node_at, child. cbn [BinaryTree.value BinaryTree.left BinaryTree.right
                                  BinaryTree.parent].
      f_equal. repeat case_decide; try lia; f_equal; try done; f_equal; lia.
    + rewrite Hold, Hx by done. cbn [fmap option_fmap option_map].
      unfold node_at, child. f_equal. f_equal; repeat case_decide; try done; lia.
  - rewrite decide_True by done. rewrite (decide_False (P := k = length vs)) by lia.
    rewrite !list_lookup_middle by by rewrite ?length_layout.
    cbn [fmap option_fmap option_map]. unfold node_at, child.
    cbn [BinaryTree.value BinaryTree.left BinaryTree.right BinaryTree.parent].
    f_equal. f_equal; repeat case_decide; try done; try lia.
    f_equal. destruct Hcase as [[_ Hn]|[_ Hn]]; rewrite Hn.
    + replace (2 * k + 1 - 1)%nat with (k * 2)%nat by lia. by rewrite Nat.div_mul.
    + replace (2 * k + 2 - 1)%nat with (1 + k * 2)%nat by lia.
      by rewrite Nat.div_add.
  - rewrite decide_False by lia. rewrite (decide_False (P := k = i)) by lia.
    rewrite !lookup_ge_None_2; [done| |].
    + rewrite length_app. cbn [length]. lia.
    + rewrite length_app, length_layout. cbn [length]. lia.
Qed.

(** The loop of [insert] on a tree in level order: when [k] is taken
    from the queue, the queue holds [k, ..., 2k]. *)
Lemma insert_loop_level_order vs v fuel k (q : Queue.t nat) :
  (k < length vs)%nat -> (k = 0 \/ 2 * k < length vs)%nat ->
  (length vs <= fuel + k)%nat ->
  Queue._front q = seq k (S k) ->
  BinaryTree.insert_loop fuel
    {| BinaryTree.root := child (length vs) 0;
       BinaryTree._size := length vs;
       BinaryTree.store :=
         layout vs ++ [ {| BinaryTree.value := v; BinaryTree.left := None;
                           BinaryTree.right := None; BinaryTree.parent := None |} ] |}
    (length vs) q =
  Ok (level_order (vs ++ [v])).
Proof.
  revert k q. induction fuel as [|fuel IH]; intros k q Hk Hfull Hfuel Hq; [lia|].
  cbn [BinaryTree.insert_loop]. unfold Queue.is_empty, Queue.dequeue. rewrite Hq.
  cbn [seq mbind outcome_bind BinaryTree.store BinaryTree.root BinaryTree._size].
  destruct (lookup_lt_is_Some_2 vs k Hk) as [x Hx].
  assert (BinaryTree.load
            (layout vs ++ [ {| BinaryTree.value := v; BinaryTree.left := None;
                               BinaryTree.right := None; BinaryTree.parent := None |} ]) k
          = Ok (node_at (length vs) k x)) as ->.
  { unfold BinaryTree.load. rewrite lookup_app_l by by rewrite length_layout.
    by rewrite layout_lookup, Hx. }
  cbn [mbind outcome_bind]. unfold node_at at 1 2.
  cbn [BinaryTree.left BinaryTree.right]. unfold child at 1 2.
  assert (child (length vs) 0 = child (length (vs ++ [v])) 0) as Hroot.
  { unfold child. rewrite length_app. cbn [length].
    rewrite !decide_True by lia. done. }
  assert (S (length vs) = length (vs ++ [v])) as Hsize
    by (rewrite length_app; cbn [length]; lia).
  destruct (decide (2 * k + 1 < length vs)%nat) as [Hl|Hl].
  - destruct (decide (2 * k + 2 < length vs)%nat) as [Hr|Hr].
    + apply (IH (S k)); [lia|lia|lia|].
      cbn [Queue.enqueue Queue._front]. rewrite <-app_assoc. cbn [app].
      replace (S (S k)) with (k + 2)%nat by lia. rewrite seq_app.
      f_equal. cbn [seq]. f_equal; [lia|]. f_equal. lia.
    + unfold level_order. rewrite Hroot, Hsize. do 2 f_equal.
      cbn [BinaryTree.store]. apply layout_attach. right. split; [done|lia].
  - unfold level_order. rewrite Hroot, Hsize. do 2 f_equal.
    cbn [BinaryTree.store]. apply layout_attach. left. split; [done|lia].
Qed.

Lemma insert_on_level_order vs v fuel :
  (length vs <= fuel)%nat ->
  BinaryTree.insert fuel (level_order vs) v = Ok (length vs, level_order (vs ++ [v])).
Proof.
  intros Hfuel. unfold BinaryTree.insert. cbn [level_order BinaryTree.root
    BinaryTree.store BinaryTree._size]. rewrite length_layout.
  destruct vs as [|v0 vs].
  - done.
  - unfold child at 1. rewrite decide_True by (cbn [length]; lia).
    rewrite insert_loop_level_order with (k := 0%nat).
    + done.
    + cbn [length]. lia.
    + by left.
    + lia.
    + done.
Qed.

Lemma insert_values_level_order vs fuel :
  (length vs <= fuel)%nat ->
  insert_values fuel vs BinaryTree.empty = Ok (level_order vs).
Proof.
  induction vs as [|v vs IH] using rev_ind; intros Hfuel; [done|].
  rewrite length_app in Hfuel. cbn [length] in Hfuel.
  unfold insert_values in *. rewrite for_each_app, IH by lia.
  cbn [mbind outcome_bind for_each]. rewrite insert_on_level_order by lia. done.
Qed.
End level_order_facts.

(** ** The traversals of a tree in level order *)

(** [i] is [j] or above it, by positions. *)
Inductive above (i : nat) : nat -> Prop :=
| above_refl : above i i
| above_left j : above i j -> above i (2 * j + 1)
| above_right j : above i j -> above i (2 * j + 2).

Lemma above_inv i j :
  above i j ->
  j = i \/ exists j', above i j' /\ (j = 2 * j' + 1 \/ j = 2 * j' + 2)%nat.
Proof. intros [|j' H|j' H]; [by left|right; exists j'; auto..]. Qed.

Lemma above_le i j : above i j -> (i <= j)%nat.
Proof. induction 1; lia. Qed.

Lemma above_trans i j k : above i j -> above j k -> above i k.
Proof. intros Hij. induction 1; [done|by apply above_left|by apply above_right]. Qed.

Lemma above_0 j : above 0 j.
Proof.
  induction j as [j IH] using lt_wf_ind. destruct j as [|j]; [apply above_refl|].
  destruct (Nat.Even_or_Odd (S j)) as [[m Hm]|[m Hm]].
  - destruct m as [|m]; [lia|]. replace (S j) with (2 * m + 2)%nat by lia.
    apply above_right, IH. lia.
  - rewrite Hm. apply above_left, IH. lia.
Qed.

Lemma above_child i j :
  above i j -> j ≠ i -> above (2 * i + 1) j \/ above (2 * i + 2) j.
Proof.
  induction 1 as [|j Hj IH|j Hj IH]; intros Hne; [done| |].
  - destruct (decide (j = i)) as [->|Hji]; [left; apply above_refl|].
    destruct (IH Hji); [left|right]; by apply above_left.
  - destruct (decide (j = i)) as [->|Hji]; [right; apply above_refl|].
    destruct (IH Hji); [left|right]; by apply above_right.
Qed.

Lemma above_chain a b j : above a j -> above b j -> above a b \/ above b a.
Proof.
  intros Ha. revert b. induction Ha as [|j Hj IH|j Hj IH]; intros b Hb; [by right| |].
  - apply above_inv in Hb as [<-|(j' & Hj' & [Heq|Heq])].
    + left. by apply above_left.
    + assert (j' = j) as -> by lia. by apply IH.
    + lia.
  - apply above_inv in Hb as [<-|(j' & Hj' & [Heq|Heq])].
    + left. by apply above_right.
    + lia.
    + assert (j' = j) as -> by lia. by apply IH.
Qed.

Lemma above_siblings i j : above (2 * i + 1) j -> above (2 * i + 2) j -> False.
Proof.
  intros H1 H2. destruct (above_chain _ _ _ H1 H2) as [H|H].
  - apply above_inv in H as [Heq|(j' & Hj' & [Heq|Heq])]; [lia|lia|].
    assert (j' = i) as -> by lia. apply above_le in Hj'. lia.
  - apply above_inv in H as [Heq|(j' & Hj' & [Heq|Heq])]; [lia| |lia].
    assert (j' = i) as -> by lia. apply above_le in Hj'. lia.
Qed.

(** The positions below [i] in a tree of [n] nodes. *)
Fixpoint subtree (n fuel i : nat) : list nat :=
  match fuel with
  | O => []
  | S fuel' =>
    if decide (i < n)%nat
    then i :: subtree n fuel' (2 * i + 1) ++ subtree n fuel' (2 * i + 2)
    else []
  end.

Lemma subtree_spec n fuel i :
  (n <= fuel + i)%nat ->
  NoDup (subtree n fuel i) /\
  forall j, j ∈ subtree n fuel i <-> (j < n)%nat /\ above i j.
Proof.
  revert i. induction fuel as [|fuel IH]; intros i Hfuel; cbn [subtree].
  - split; [apply NoDup_nil_2|]. intros j. split; [by intros ?%elem_of_nil|].
    intros [Hj Hij%above_le]. lia.
  - case_decide as Hi.
    2:{ split; [apply NoDup_nil_2|]. intros j. split; [by intros ?%elem_of_nil|].
        intros [Hj Hij%above_le]. lia. }
    destruct (IH (2 * i + 1)%nat) as [Hnd1 Hin1]; [lia|].
    destruct (IH (2 * i + 2)%nat) as [Hnd2 Hin2]; [lia|]. split.
    + apply NoDup_cons. split.
      * rewrite elem_of_app, Hin1, Hin2. intros [[_ H%above_le]|[_ H%above_le]]; lia.
      * apply NoDup_app. split_and!; [done| |done].
        intros j [_ H1]%Hin1 [_ H2]%Hin2. by eapply above_siblings.
    + intros j. rewrite elem_of_cons, elem_of_app, Hin1, Hin2. split.
      * intros [->|[[Hj H]|[Hj H]]]; (split; [done|]).
        -- apply above_refl.
        -- eapply above_trans; [|exact H]. apply above_left, above_refl.
        -- eapply above_trans; [|exact H]. apply above_right, above_refl.
      * intros [Hj Hij]. destruct (decide (j = i)) as [->|Hne]; [by left|right].
        destruct (above_child i j Hij Hne); [left|right]; done.
Qed.

Lemma subtree_all n fuel : (n <= fuel)%nat -> subtree n fuel 0 ≡ₚ seq 0 n.
Proof.
  intros Hfuel. destruct (subtree_spec n fuel 0) as [Hnd Hin]; [lia|].
  apply NoDup_Permutation; [done|apply NoDup_seq|].
  intros j. rewrite Hin, elem_of_seq. split; [lia|]. intros ?. split; [lia|].
  apply above_0.
Qed.

Section traversal_facts.
Context {A : Type}.
Implicit Types (vs : list A) (comb : list A -> A -> list A -> list A).

Lemma omap_lookup_seq (pre vs : list A) :
  omap (fun i => (pre ++ vs) !! i) (seq (length pre) (length vs)) = vs.
Proof.
  revert pre. induction vs as [|v vs IH]; intros pre; [done|].
  cbn [length seq omap list_omap]. rewrite list_lookup_middle by done. f_equal.
  specialize (IH (pre ++ [v])). rewrite <-app_assoc, length_app in IH.
  cbn [length app] in IH. by replace (S (length pre)) with (length pre + 1)%nat by lia.
Qed.

(** The three helpers are one recursion; they differ in how the value
    of the node is put between the two lists. *)
Fixpoint visit comb (fuel : nat) (s : list (BinaryTree.Node A)) (node : option nat)
  : outcome (list A) :=
  match fuel with
  | O => OutOfFuel
  | S fuel' =>
    match node with
    | None => Ok []
    | Some r =>
      n ← BinaryTree.load s r;
      l ← visit comb fuel' s (BinaryTree.left n);
      rr ← visit comb fuel' s (BinaryTree.right n);
      Ok (comb l (BinaryTree.value n) rr)
    end
  end.

Lemma inorder_visit fuel s node :
  BinaryTree._inorder_helper fuel s node =
  visit (fun l v r => (([] ++ l) ++ [v]) ++ r) fuel s node.
Proof.
  revert node. induction fuel as [|fuel IH]; intros node; [done|].
  cbn [BinaryTree._inorder_helper visit]. destruct node as [r|]; [|done].
  destruct (BinaryTree.load s r) as [n| |]; [|done..]. cbn [mbind outcome_bind].
  by rewrite !IH.
Qed.

Lemma preorder_visit fuel s node :
  BinaryTree._preorder_helper fuel s node =
  visit (fun l v r => ([v] ++ l) ++ r) fuel s node.
Proof.
  revert node. induction fuel as [|fuel IH]; intros node; [done|].
  cbn [BinaryTree._preorder_helper visit]. destruct node as [r|]; [|done].
  destruct (BinaryTree.load s r) as [n| |]; [|done..]. cbn [mbind outcome_bind].
  by rewrite !IH.
Qed.

Lemma postorder_visit fuel s node :
  BinaryTree._postorder_helper fuel s node =
  visit (fun l v r => (([] ++ l) ++ r) ++ [v]) fuel s node.
Proof.
  revert node. induction fuel as [|fuel IH]; intros node; [done|].
  cbn [BinaryTree._postorder_helper visit]. destruct node as [r|]; [|done].
  destruct (BinaryTree.load s r) as [n| |]; [|done..]. cbn [mbind outcome_bind].
  by rewrite !IH.
Qed.

(** On a tree in level order the recursion ends and lists the values at
    the positions below the node. *)
Lemma visit_level_order comb vs fuel i :
  (forall l v r, comb l v r ≡ₚ v :: l ++ r) ->
  (0 < fuel)%nat -> (length vs < fuel + i)%nat ->
  exists l, visit comb fuel (layout vs) (child (length vs) i) = Ok l /\
            l ≡ₚ omap (fun j => vs !! j) (subtree (length vs) fuel i).
Proof.
  intros Hcomb. revert i. induction fuel as [|fuel IH]; intros i H0 Hfuel; [lia|].
  unfold child. cbn [visit subtree]. case_decide as Hi; [|by exists []].
  destruct (lookup_lt_is_Some_2 vs i Hi) as [x Hx].
  assert (BinaryTree.load (layout vs) i = Ok (node_at (length vs) i x)) as ->
    by (unfold BinaryTree.load; by rewrite layout_lookup, Hx).
  cbn [mbind outcome_bind node_at BinaryTree.left BinaryTree.right BinaryTree.value].
  destruct (IH (2 * i + 1)%nat) as (l1 & -> & Hl1); [lia|lia|].
  destruct (IH (2 * i + 2)%nat) as (l2 & -> & Hl2); [lia|lia|].
  cbn [mbind outcome_bind]. eexists. split; [done|].
  rewrite Hcomb. cbn [omap list_omap]. rewrite Hx. cbn. rewrite omap_app.
  by rewrite Hl1, Hl2.
Qed.

Lemma visit_root comb vs fuel :
  (forall l v r, comb l v r ≡ₚ v :: l ++ r) ->
  (length vs < fuel)%nat ->
  exists l, visit comb fuel (layout vs) (child (length vs) 0) = Ok l /\ l ≡ₚ vs.
Proof.
  intros Hcomb Hfuel.
  destruct (visit_level_order comb vs fuel 0 Hcomb) as (l & Hl & Hperm); [lia|lia|].
  exists l. split; [done|]. rewrite Hperm, subtree_all by lia.
  pose proof (omap_lookup_seq [] vs) as Hseq. cbn [app length] in Hseq.
  by rewrite Hseq.
Qed.
End traversal_facts.

(** X24.  [BinaryTree.insert] fills the tree level by level, from left
    to right: after inserting the values [vs] into an empty tree, the
    [i]-th value is held by the [i]-th node created, whose [left] and
    [right] are the nodes [2i+1] and [2i+2] where that many values were
    inserted and [None] otherwise, and whose [parent] is the node
    [(i-1)/2]; [_size] is the number of values.  On such a tree [insert]
    ends within one turn of its loop per node, raises nothing, always
    attaches the new node, and returns it. *)
Theorem insert_level_order {A : Type} (vs : list A) (v : A) (fuel : nat) :
  (length vs <= fuel)%nat ->
  insert_values fuel vs BinaryTree.empty = Ok (level_order vs) /\
  BinaryTree.insert fuel (level_order vs) v =
    Ok (length vs, level_order (vs ++ [v])) /\
  BinaryTree.size (level_order (vs ++ [v])) = S (BinaryTree.size (level_order vs)).
Proof.
  intros Hfuel. split_and!.
  - by apply insert_values_level_order.
  - by apply insert_on_level_order.
  - unfold BinaryTree.size, level_order. cbn [BinaryTree._size].
    rewrite length_app. cbn [length]. lia.
Qed.

Lemma insert_level_order_witness :
  insert_values 3 [10; 20; 30] BinaryTree.empty = Ok (level_order [10; 20; 30]) /\
  BinaryTree.insert 3 (level_order [10; 20; 30]) 40 =
    Ok (3%nat, level_order ([10; 20; 30] ++ [40])) /\
  BinaryTree.size (level_order ([10; 20; 30] ++ [40])) =
    S (BinaryTree.size (level_order [10; 20; 30])).
Proof. apply (insert_level_order [10; 20; 30] 40 3). cbn [length]. lia. Defined.

(** X25.  Each of the three traversals of a tree built by inserting the
    values [vs] into an empty tree ends, within a recursion depth of one
    more than the number of values, raises nothing, and lists every
    inserted value exactly once: its result is a rearrangement of [vs],
    of length [size]. *)
Theorem traversals_list_inserted {A : Type} (vs : list A) (fuel : nat) :
  (length vs < fuel)%nat ->
  exists tr lin lpre lpost,
    insert_values fuel vs BinaryTree.empty = Ok tr /\
    BinaryTree.inorder_traversal fuel tr None = Ok lin /\
    BinaryTree.preorder_traversal fuel tr None = Ok lpre /\
    BinaryTree.postorder_traversal fuel tr None = Ok lpost /\
    lin ≡ₚ vs /\ lpre ≡ₚ vs /\ lpost ≡ₚ vs /\
    length lin = BinaryTree.size tr.
Proof.
  intros Hfuel.
  destruct (visit_root (fun l v r => (([] ++ l) ++ [v]) ++ r) vs fuel)
    as (lin & Hin & Hpin); [|done|].
  { intros l v r. cbn [app]. by rewrite <-(Permutation_cons_append l v). }
  destruct (visit_root (fun l v r => ([v] ++ l) ++ r) vs fuel)
    as (lpre & Hpre & Hppre); [|done|].
  { intros l v r. done. }
  destruct (visit_root (fun l v r => (([] ++ l) ++ r) ++ [v]) vs fuel)
    as (lpost & Hpost & Hppost); [|done|].
  { intros l v r. cbn [app]. by rewrite <-(Permutation_cons_append (l ++ r) v). }
  exists (level_order vs), lin, lpre, lpost. split_and!; try done.
  - apply insert_values_level_order. lia.
  - unfold BinaryTree.inorder_traversal. by rewrite inorder_visit.
  - unfold BinaryTree.preorder_traversal. by rewrite preorder_visit.
  - unfold BinaryTree.postorder_traversal. by rewrite postorder_visit.
  - by rewrite Hpin.
Qed.

Lemma traversals_list_inserted_witness :
  exists tr lin lpre lpost,
    insert_values 6 [1; 2; 3; 4; 5] BinaryTree.empty = Ok tr /\
    BinaryTree.inorder_traversal 6 tr None = Ok lin /\
    BinaryTree.preorder_traversal 6 tr None = Ok lpre /\
    BinaryTree.postorder_traversal 6 tr None = Ok lpost /\
    lin ≡ₚ [1; 2; 3; 4; 5] /\ lpre ≡ₚ [1; 2; 3; 4; 5] /\ lpost ≡ₚ [1; 2; 3; 4; 5] /\
    length lin = BinaryTree.size tr.
Proof. apply (traversals_list_inserted [1; 2; 3; 4; 5] 6). cbn [length]. lia. Defined.
